(** * BalancedGo: the log-depth decomposition engine, its predicates and its
      tree operations

    A shallow embedding of [LogKDecomp] (algorithms package), of the search
    predicates [BalancedCheck] and [ParentCheck] and of the [Node] operations
    of the lib package, with the properties the specification states about
    them. *)

From Stdlib Require Import ZArith List Bool Lia Arith Permutation.
From Stdlib Require String.
Import String.StringSyntax.
Delimit Scope string_scope with string.
Import ListNotations.
Set Warnings "-register-all".
Open Scope Z_scope.

(** ** Go's [int]

    The program computes with Go's [int], taken here as the 64-bit two's
    complement integers of the platforms the program is built for.  A value is
    a [Z]; [wrap] is the wrap-around of an arithmetic result. *)

Definition int_min : Z := - 2 ^ 63.
Definition int_max : Z := 2 ^ 63 - 1.

Definition wrap (z : Z) : Z := (z + 2 ^ 63) mod 2 ^ 64 - 2 ^ 63.

Definition int_mul (x y : Z) : Z := wrap (x * y).
Definition int_sub (x y : Z) : Z := wrap (x - y).

(** Go's [x / y]: truncated towards zero; a run-time panic when [y] is zero
    ([None]). *)
Definition int_div (x y : Z) : option Z :=
  if y =? 0 then None else Some (wrap (Z.quot x y)).

(** [len(s)] of a slice, as an [int]. *)
Definition len {A : Type} (s : list A) : Z := Z.of_nat (length s).

(** ** Vertex sets

    Vertices are [int]s and a vertex set is a slice [[]int].

    Modelled from the spec: the helpers [Mem], [Subset], [Inter] and [Diff] on
    [[]int] are not among the source files; they are the membership test, the
    subset comparison, the intersection and the difference of section 3 of the
    specification, each keeping the order of its first argument. *)

Definition Mem (s : list Z) (v : Z) : bool := existsb (Z.eqb v) s.

Definition Subset (a b : list Z) : bool := forallb (Mem b) a.

Definition Inter (a b : list Z) : list Z := filter (Mem b) a.

Definition Diff (a b : list Z) : list Z := filter (fun v => negb (Mem b v)) a.

(** Modelled from the spec: duplicates are removed from a vertex list by
    [RemoveDuplicates], which is not among the source files ("union of member
    vertices, deduplicated"); the first occurrence is kept. *)
Fixpoint RemoveDuplicates (s : list Z) : list Z :=
  match s with
  | [] => []
  | v :: s' => v :: filter (fun w => negb (w =? v)) (RemoveDuplicates s')
  end.

(** ** Edges and graphs *)

(** [type Edge struct { Name int; Vertices []int }]: the uses in the sources
    are [Edge{Name: .., Vertices: ..}], [e.Name] and [e.Vertices]. *)
Record Edge : Type := mkEdge { Name : Z; Vertices : list Z }.

(** [type Edges]: an ordered collection of edges, read through [Slice()] and
    [Len()]. *)
Definition Edges : Type := list Edge.

(** [type Graph struct { Edges Edges; Special []Edges }]. *)
Record Graph : Type := mkGraph { GEdges : Edges; Special : list Edges }.

(** The zero value [Graph{}]. *)
Definition emptyGraph : Graph := mkGraph [] [].

(** Modelled from the spec: [Edges.Vertices()], the union of the member
    vertices, deduplicated. *)
Definition EdgesVertices (es : Edges) : list Z :=
  RemoveDuplicates (flat_map Vertices es).

(** Modelled from the spec: [Graph.Vertices()] is
    [E.Vertices() ∪ S.Vertices()]. *)
Definition GraphVertices (g : Graph) : list Z :=
  RemoveDuplicates (EdgesVertices (GEdges g) ++ flat_map EdgesVertices (Special g)).

(** Modelled from the spec: [Graph.Len()] is [|E| + |S|] (two slice lengths,
    whose sum is within the range of [int]). *)
Definition GraphLen (g : Graph) : Z := len (GEdges g) + len (Special g).

(** Modelled from the spec: [GetSubset(edges, indices)] selects the edges at
    the given positions ("k-subset (as edge indices)").  The generators only
    produce positions of the slice; a position outside it selects nothing
    here. *)
Fixpoint GetSubset (es : Edges) (idx : list nat) : Edges :=
  match idx with
  | [] => []
  | i :: idx' =>
      match nth_error es i with
      | Some e => e :: GetSubset es idx'
      | None => GetSubset es idx'
      end
  end.

(** ** Components of a graph after removing a separator

    Modelled from the spec: [Graph.GetComponents(sep)] is not among the source
    files.  Section 4.1: the components are the non-empty connected components
    of [(V(H) \ V(sep), E(H) \ sep)] lifted back to sub-graphs of [H], each
    with the edges and the special edges of [H] that lie in it; the isolated
    edges are the edges of [H] with no vertex outside [V(sep)].  The order is
    deterministic: edges are placed in the order of [H.Edges], then the special
    edges in the order of [H.Special]; an item joins the components it touches
    into one, which becomes the last component. *)

Record Comp : Type := mkComp { cVerts : list Z; cEdges : Edges; cSpecial : list Edges }.

Definition touches (vs : list Z) (c : Comp) : bool := existsb (Mem (cVerts c)) vs.

Definition mergeComp (a b : Comp) : Comp :=
  mkComp (cVerts a ++ cVerts b) (cEdges a ++ cEdges b) (cSpecial a ++ cSpecial b).

Definition addToComps (item : Comp) (cs : list Comp) : list Comp :=
  filter (fun c => negb (touches (cVerts item) c)) cs
    ++ [fold_right mergeComp item (filter (touches (cVerts item)) cs)].

Definition placeEdge (sepV : list Z) (st : list Comp * list Edge) (e : Edge)
  : list Comp * list Edge :=
  match Diff (Vertices e) sepV with
  | [] => (fst st, snd st ++ [e])
  | actual => (addToComps (mkComp actual [e] []) (fst st), snd st)
  end.

Definition placeSpecial (sepV : list Z) (cs : list Comp) (sp : Edges) : list Comp :=
  match Diff (EdgesVertices sp) sepV with
  | [] => cs
  | actual => addToComps (mkComp actual [] [sp]) cs
  end.

Definition compGraph (c : Comp) : Graph := mkGraph (cEdges c) (cSpecial c).

Definition GetComponents (H : Graph) (sep : Edges) : list Graph * list Edge :=
  let sepV := EdgesVertices sep in
  let st := fold_left (placeEdge sepV) (GEdges H) ([], []) in
  let cs := fold_left (placeSpecial sepV) (Special H) (fst st) in
  (map compGraph cs, snd st).

(** *** Items of a graph

    The edges and the special edges of a graph, seen alike: [GetComponents]
    places each of them by its vertices outside the separator. *)
Inductive Item : Type := IEdge (e : Edge) | ISpecial (sp : Edges).

Definition itemVertices (x : Item) : list Z :=
  match x with
  | IEdge e => Vertices e
  | ISpecial sp => EdgesVertices sp
  end.

Definition graphItems (H : Graph) : list Item :=
  map IEdge (GEdges H) ++ map ISpecial (Special H).

Definition compItems (c : Comp) : list Item :=
  map IEdge (cEdges c) ++ map ISpecial (cSpecial c).

Definition actualVertices (sepV : list Z) (x : Item) : list Z := Diff (itemVertices x) sepV.

Definition isPlaced (sepV : list Z) (x : Item) : bool :=
  match actualVertices sepV x with [] => false | _ => true end.

Definition itemComp (actual : list Z) (x : Item) : Comp :=
  match x with
  | IEdge e => mkComp actual [e] []
  | ISpecial sp => mkComp actual [] [sp]
  end.

Definition placeItem (sepV : list Z) (cs : list Comp) (x : Item) : list Comp :=
  match actualVertices sepV x with
  | [] => cs
  | actual => addToComps (itemComp actual x) cs
  end.

(** Two items are linked when they share a vertex outside the separator. *)
Definition linked (sepV : list Z) (x y : Item) : Prop :=
  exists v, In v (actualVertices sepV x) /\ In v (actualVertices sepV y).

(** Two components are disjoint when they share no vertex. *)
Definition disjointComps (c1 c2 : Comp) : Prop :=
  forall v, In v (cVerts c1) -> In v (cVerts c2) -> False.

(** ** The search predicates (lib, search.go) *)

(** [balancednessLimit := (((H.Len()) * (balFactor - 1)) / balFactor)]. *)
Definition balancednessLimit (H : Graph) (balFactor : Z) : option Z :=
  int_div (int_mul (GraphLen H) (int_sub balFactor 1)) balFactor.

(** The loop of [ParentCheck.Check] that looks for the low component: every
    component over the limit overwrites [compLow], so the last one is kept. *)
Definition lowComponent (limit : Z) (comps : list Graph) : option Graph :=
  fold_left (fun found c => if limit <? GraphLen c then Some c else found) comps None.

Section Predicates.

(** The components function and the vertex-set hash [IntHash] are taken as
    parameters: the predicates only call them. *)
Variable getComponents : Graph -> Edges -> list Graph * list Edge.
Variable IntHash : list Z -> Z.

(** [func (b BalancedCheck) Check(H *Graph, sep *Edges, balFactor int) bool];
    [None] is the run-time panic of the division. *)
Definition BalancedCheck_Check (H : Graph) (sep : Edges) (balFactor : Z) : option bool :=
  let comps := fst (getComponents H sep) in
  match balancednessLimit H balFactor with
  | None => None
  | Some limit =>
      if existsb (fun c => limit <? GraphLen c) comps then Some false
      else if existsb (fun sp => IntHash (EdgesVertices sp) =? IntHash (EdgesVertices sep))
                      (Special H)
      then Some false
      else Some true
  end.

(** [type ParentCheck struct { Conn []int; Child []int }]. *)
Record ParentCheck : Type := mkParentCheck { Conn : list Z; Child : list Z }.

(** [func (p ParentCheck) Check(H *Graph, sep *Edges, balFactor int) bool]. *)
Definition ParentCheck_Check (p : ParentCheck) (H : Graph) (sep : Edges) (balFactor : Z)
  : option bool :=
  let comps := fst (getComponents H sep) in
  match balancednessLimit H balFactor with
  | None => None
  | Some limit =>
      match lowComponent limit comps with
      | None => Some false
      | Some compLow =>
          let vertCompLow := GraphVertices compLow in
          let childChi := Inter (Child p) vertCompLow in
          if negb (Subset (Inter vertCompLow (Conn p)) (EdgesVertices sep)) then Some false
          else if negb (Subset (Inter vertCompLow (EdgesVertices sep)) childChi) then Some false
          else Some true
      end
  end.

End Predicates.

(** [func (b BalancedCheck) CheckOut(H *Graph, sep *Edges, balFactor int)
    (bool, []Graph)]: "the same as Check, except it also passes on the
    components found". *)
Definition BalancedCheck_CheckOut (getComponents : Graph -> Edges -> list Graph * list Edge)
  (IntHash : list Z -> Z) (H : Graph) (sep : Edges) (balFactor : Z)
  : option (bool * list Graph) :=
  let comps := fst (getComponents H sep) in
  match balancednessLimit H balFactor with
  | None => None
  | Some limit =>
      if existsb (fun c => limit <? GraphLen c) comps then Some (false, [])
      else if existsb (fun sp => IntHash (EdgesVertices sp) =? IntHash (EdgesVertices sep))
                      (Special H)
      then Some (false, [])
      else Some (true, comps)
  end.

(** Modelled from the spec: [FilterVertices(edges, vertices)], the "subset
    filter" of the specification, is not among the source files; it keeps the
    edges that have a vertex in the given set. *)
Definition FilterVertices (es : Edges) (vs : list Z) : Edges :=
  filter (fun e => match Inter (Vertices e) vs with [] => false | _ => true end) es.

(** Modelled from the spec: [Edges.Diff(other)] removes the edges of [other];
    "equality is by identifier". *)
Definition EdgesDiff (es other : Edges) : Edges :=
  filter (fun e => negb (existsb (fun o => Name o =? Name e) other)) es.

(** Modelled from the spec: [NewEdges(slice)] wraps a slice of edges. *)
Definition NewEdges (s : list Edge) : Edges := s.

(** Modelled from the spec: [SplitCombin(n, k, procs, false)] sets up the
    generators for "all k-subsets of an index range [0, n) in lexicographic
    order"; [combin l k] lists the [k]-subsets of the positions [l] in that
    order. *)
Fixpoint combin (l : list nat) (k : nat) : list (list nat) :=
  match k, l with
  | O, _ => [[]]
  | S _, [] => []
  | S k', x :: l' => map (cons x) (combin l' k') ++ combin l' k
  end.

Definition SplitCombin (n : nat) (k : Z) : list (list nat) := combin (seq 0 n) (Z.to_nat k).

(** ** Nodes and decompositions (lib, node.go) *)

(** [type Node struct { num int; Up []int; Low []int; Bag []int; Cover Edges;
    Children []Node }]: the engine and [CheckLeaves] only build and read [Bag],
    [Cover] and [Children]; the other fields keep their zero value. *)
Inductive Node : Type := mkNode { Bag : list Z; Cover : Edges; Children : list Node }.

(** The zero value [Node{}]. *)
Definition emptyNode : Node := mkNode [] [] [].

(** [func (n *Node) CheckLeaves(vertices []int, subtree Node) (bool, *Node)]:
    a leaf whose bag contains [vertices] gets [subtree] as its only child;
    otherwise the children are tried in order and the first success is kept;
    otherwise [(false, &Node{})]. *)
Fixpoint CheckLeaves (n : Node) (vertices : list Z) (subtree : Node) : bool * Node :=
  let tryChildren :=
    (fix tryChildren (cs : list Node) : bool * list Node :=
       match cs with
       | [] => (false, [])
       | c :: cs' =>
           let (ok, result) := CheckLeaves c vertices subtree in
           if ok then (true, result :: cs')
           else let (ok', cs'') := tryChildren cs' in (ok', c :: cs'')
       end) in
  if (len (Children n) =? 0) && Subset vertices (Bag n)
  then (true, mkNode (Bag n) (Cover n) [subtree])
  else
    let (ok, cs) := tryChildren (Children n) in
    if ok then (true, mkNode (Bag n) (Cover n) cs) else (false, emptyNode).

(** *** Positions in a tree

    A node of a tree is addressed by the path from the root (the indices of
    the children taken); [leafPaths] lists the leaves in preorder. *)

Fixpoint nodeAt (n : Node) (path : list nat) : option Node :=
  match path with
  | [] => Some n
  | i :: path' =>
      match nth_error (Children n) i with
      | Some c => nodeAt c path'
      | None => None
      end
  end.

Fixpoint leafPaths (n : Node) : list (list nat) :=
  match Children n with
  | [] => [[]]
  | cs =>
      (fix below (i : nat) (cs : list Node) : list (list nat) :=
         match cs with
         | [] => []
         | c :: cs' => map (cons i) (leafPaths c) ++ below (S i) cs'
         end) O cs
  end.

Fixpoint updateNth {A : Type} (i : nat) (f : A -> A) (s : list A) : list A :=
  match s, i with
  | [], _ => []
  | x :: s', O => f x :: s'
  | x :: s', S i' => x :: updateNth i' f s'
  end.

(** The tree [n] in which the node at [path] has [subtree] as its only child. *)
Fixpoint graftAt (n : Node) (path : list nat) (subtree : Node) : Node :=
  match path with
  | [] => mkNode (Bag n) (Cover n) [subtree]
  | i :: path' =>
      mkNode (Bag n) (Cover n) (updateNth i (fun c => graftAt c path' subtree) (Children n))
  end.

(** The leaf at [path] has a bag that contains [vertices]. *)
Definition leafMatches (vertices : list Z) (n : Node) (path : list nat) : bool :=
  match nodeAt n path with
  | Some m => Subset vertices (Bag m)
  | None => false
  end.

(** *** The other operations on nodes (lib, node.go)

    [reflect.DeepEqual] on edges and on nodes: the same fields, the slices
    compared element by element. *)
Fixpoint eqList {A : Type} (eqb : A -> A -> bool) (a b : list A) : bool :=
  match a, b with
  | [], [] => true
  | x :: a', y :: b' => eqb x y && eqList eqb a' b'
  | _, _ => false
  end.

Definition Edge_eqb (e f : Edge) : bool :=
  (Name e =? Name f) && eqList Z.eqb (Vertices e) (Vertices f).

Fixpoint DeepEqual (n m : Node) : bool :=
  eqList Z.eqb (Bag n) (Bag m) && eqList Edge_eqb (Cover n) (Cover m)
  && eqList DeepEqual (Children n) (Children m).

(** [func (n Node) contains(o Node) bool]. *)
Fixpoint contains (n o : Node) : bool :=
  if DeepEqual n o then true
  else existsb (fun child => contains child o) (Children n).

(** [func (n Node) bagSubsets() bool]. *)
Fixpoint bagSubsets (n : Node) : bool :=
  if negb (Subset (Bag n) (EdgesVertices (Cover n))) then false
  else forallb bagSubsets (Children n).

(** [func (n Node) coversEdge(e Edge) bool]. *)
Fixpoint coversEdge (n : Node) (e : Edge) : bool :=
  if Subset (Vertices e) (Bag n) then true
  else existsb (fun child => coversEdge child e) (Children n).

(** [func (n Node) Vertices() []int]: the bag of the node, then the vertices
    of its children, in order. *)
Fixpoint NodeVertices (n : Node) : list Z :=
  Bag n ++ flat_map NodeVertices (Children n).

(** [func (n Node) specialCondition() bool]. *)
Definition specialCondition (n : Node) : bool :=
  let hiddenVertices := Diff (EdgesVertices (Cover n)) (Bag n) in
  let verticesRooted := NodeVertices n in
  forallb (fun v => negb (Mem verticesRooted v)) hiddenVertices.

(** [func (n Node) noSCViolation() bool]: the node, then its children. *)
Definition noSCViolation (n : Node) : bool :=
  if negb (specialCondition n) then false
  else forallb specialCondition (Children n).

(** [func (n *Node) RestoreEdges(edges Edges) Node]. *)
Fixpoint RestoreEdges (n : Node) (edges : Edges) : Node :=
  let nuCover :=
    flat_map (fun e2 => filter (fun e => Subset (Vertices e2) (Vertices e)) edges)
             (Cover n) in
  mkNode (Bag n) nuCover (map (fun c => RestoreEdges c edges) (Children n)).

(** [func (n Node) parent(o Node) Node]. *)
Fixpoint parent (n o : Node) : Node :=
  (fix loop (cs : list Node) : Node :=
     match cs with
     | [] => o
     | child :: cs' =>
         if DeepEqual child o then n
         else if contains child o then parent child o
         else loop cs'
     end) (Children n).

(** The loop of [parent] over the children. *)
Fixpoint parentAmong (n o : Node) (cs : list Node) : Node :=
  match cs with
  | [] => o
  | child :: cs' =>
      if DeepEqual child o then n
      else if contains child o then parent child o
      else parentAmong n o cs'
  end.

(** [func (n Node) Reroot(child Node) Node], "reroot G at child, producing
    an isomorphic graph": the tree [n] hung up at its node [child].  The
    result is a tree, the panic "Can't reRoot: no child ... in node ...", or
    the bound [fuel] on the nested calls used up. *)
Inductive Rerooted : Type :=
| RerootedAs (r : Node)
| CantReRoot
| RerootFuel.

Fixpoint Reroot (fuel : nat) (n child : Node) : Rerooted :=
  match fuel with
  | O => RerootFuel
  | S fuel' =>
      if negb (contains n child) then CantReRoot
      else if DeepEqual n child then RerootedAs child
      else
        match Reroot fuel' n (parent n child) with
        | RerootedAs p =>
            let newparentchildren :=
              filter (fun c => negb (DeepEqual c child)) (Children p) in
            RerootedAs (mkNode (Bag child) (Cover child)
                          (Children child ++ [mkNode (Bag p) (Cover p) newparentchildren]))
        | other => other
        end
  end.

(** The nodes of a tree, in preorder, and what a node is labelled with. *)
Fixpoint subtrees (n : Node) : list Node := n :: flat_map subtrees (Children n).

Definition label (n : Node) : list Z * Edges := (Bag n, Cover n).

Definition labels (n : Node) : list (list Z * Edges) := map label (subtrees n).

(** [type Decomp struct { Graph Graph; Root Node }]. *)
Record Decomp : Type := mkDecomp { DGraph : Graph; Root : Node }.

(** The zero value [Decomp{}], the failure value of the engine. *)
Definition emptyDecomp : Decomp := mkDecomp emptyGraph emptyNode.

(** [reflect.DeepEqual(decomp, Decomp{})] (a nil slice and an empty slice are
    not told apart here). *)
Definition isEmptyDecomp (d : Decomp) : bool :=
  match d with
  | mkDecomp (mkGraph [] []) (mkNode [] [] []) => true
  | _ => false
  end.

(** ** Outcomes of a run

    A call of the engine returns, or the program stops in one of the fatal
    ways the source has: the four [log.Panicln] of logk.go, the run-time panic
    of an integer division by zero, and the join that waits for a message no
    goroutine sends.  [OutOfFuel] is the model's own: the recursion budget of
    [findDecomp] is used up. *)
Inductive Fatal : Type :=
| ConnOutsideGraph      (* log.Panicln("You done fucked up. ") *)
| NoValidParent         (* "the parallel search didn't actually find a valid parent" *)
| ConnNotCovered        (* "Conn not covered in parent, Wait, what?" *)
| NoConnectingNode      (* "subtreeAbove doesn't contain connecting node!" *)
| DivisionByZero
| JoinBlocked.

Inductive Outcome (A : Type) : Type :=
| Returned (a : A)
| Aborted (f : Fatal)
| OutOfFuel.

Arguments Returned {A} a.
Arguments Aborted {A} f.
Arguments OutOfFuel {A}.

Definition bind {A B : Type} (m : Outcome A) (k : A -> Outcome B) : Outcome B :=
  match m with
  | Returned a => k a
  | Aborted f => Aborted f
  | OutOfFuel => OutOfFuel
  end.

Notation "x <- m ;; k" := (bind m (fun x => k))
  (at level 61, m at next level, right associativity).
Notation "' p <- m ;; k" := (bind m (fun x => let p := x in k))
  (at level 61, p pattern, m at next level, right associativity).

(** ** The engine (algorithms, logk.go) *)

(** [type LogKDecomp struct { Graph Graph; K int; cache Cache; BalFactor int }];
    the cache is passed along explicitly below. *)
Record LogKDecomp : Type := mkLogKDecomp { LGraph : Graph; K : Z; BalFactor : Z }.

(** [func (l *LogKDecomp) baseCaseCheck(lenE int, lenSp int, lenAE int) bool]. *)
Definition baseCaseCheck (l : LogKDecomp) (lenE lenSp lenAE : Z) : bool :=
  if (lenE <=? K l) && (lenSp =? 0) then true
  else if (lenE =? 0) && (lenSp =? 1) then true
  else if (lenE =? 0) && (1 <? lenSp) then true
  else if (lenAE =? 0) && (0 <=? lenE + lenSp) then true
  else false.

(** [func (l *LogKDecomp) baseCase(H Graph, lenAE int) Decomp]. *)
Definition baseCase (l : LogKDecomp) (H : Graph) (lenAE : Z) : Decomp :=
  if (len (GEdges H) =? 0) && (1 <? len (Special H)) then emptyDecomp
  else if (lenAE =? 0) && (0 <=? GraphLen H) then emptyDecomp
  else
    let output := emptyDecomp in
    let output :=
      if (len (GEdges H) <=? K l) && (len (Special H) =? 0)
      then mkDecomp H (mkNode (GraphVertices H) (GEdges H) [])
      else output in
    let output :=
      if (len (GEdges H) =? 0) && (len (Special H) =? 1)
      then match Special H with
           | sp1 :: _ => mkDecomp H (mkNode (EdgesVertices sp1) sp1 [])
           | [] => output
           end
      else output in
    output.

(** [func attachingSubtrees(subtreeAbove Node, subtreeBelow Node, connecting
    Edges) Node]; [combineNodes] stands for [Node.CombineNodes], which is not
    among the source files, [None] for its [nil]. *)
Definition attachingSubtrees (combineNodes : Node -> Node -> Edges -> option Node)
  (subtreeAbove subtreeBelow : Node) (connecting : Edges) : Outcome Node :=
  match combineNodes subtreeAbove subtreeBelow connecting with
  | None => Aborted NoConnectingNode
  | Some leaf => Returned leaf
  end.

(** The loop of [findDecomp] that looks for the low component among
    [comps_p], keeping its index. *)
Definition findLow (limit : Z) (comps : list Graph) : option (nat * Graph) :=
  fold_left (fun found ic => if limit <? GraphLen (snd ic) then Some ic else found)
            (combine (seq 0 (length comps)) comps) None.

(** The components of [comps_p] other than the low one. *)
Definition otherComps (compLowIndex : nat) (comps : list Graph) : list Graph :=
  map snd (filter (fun ic => negb (Nat.eqb (fst ic) compLowIndex))
                  (combine (seq 0 (length comps)) comps)).

Section Engine.

(** What the engine calls and is not among the source files: the vertex-set
    hash, [Node.CombineNodes], the negative cache with its operations
    [CheckNegative] and [AddNegative], and the order in which the parallel
    search reports the candidates of an enumeration ([schedule]; the identity
    is the lexicographic order of a single generator). *)
Variable IntHash : list Z -> Z.
Variable combineNodes : Node -> Node -> Edges -> option Node.
Variable Cache : Type.
Variable CheckNegative : Cache -> Edges -> list Graph -> bool.
Variable AddNegative : Cache -> Edges -> Graph -> Cache.
Variable schedule : list (list nat) -> list (list nat).

Variable l : LogKDecomp.

(** The separators a search reports over its successive [FindNext] calls: the
    [K]-subsets of [edges] on which the predicate returns true.  A worker whose
    check panics recovers and reports nothing. *)
Definition searchResults (pred : Edges -> option bool) (edges : Edges) : list Edges :=
  filter (fun sep => match pred sep with Some true => true | _ => false end)
         (map (GetSubset edges) (schedule (SplitCombin (length edges) (K l)))).

(** A recursive call of [findDecomp], with the cache it starts from. *)
Definition Call : Type := Cache -> Graph -> list Z -> Edges -> Outcome (Decomp * Cache).

(** The loop over [comps_c] of the root case: the calls are made one after the
    other, and the first failure is recorded in the cache and ends the loop
    ([None], for [continue CHILD]). *)
Fixpoint rootCase (rec : Call) (cache : Cache) (childLam : Edges) (childChi : list Z)
  (allowedFull : Edges) (comps_c : list Graph) : Outcome (option (list Node) * Cache) :=
  match comps_c with
  | [] => Returned (Some [], cache)
  | comp :: rest =>
      '(decomp, cache1) <- rec cache comp (Inter (GraphVertices comp) childChi) allowedFull ;;
      if isEmptyDecomp decomp then Returned (None, AddNegative cache1 childLam comp)
      else
        '(subtrees, cache2) <- rootCase rec cache1 childLam childChi allowedFull rest ;;
        Returned (option_map (cons (Root decomp)) subtrees, cache2)
  end.

(** The goroutines started for the components [comps_c] of the child: every
    call is made. *)
Fixpoint forkChildren (rec : Call) (cache : Cache) (childChi : list Z)
  (allowedFull : Edges) (comps_c : list Graph) : Outcome (list Decomp * Cache) :=
  match comps_c with
  | [] => Returned ([], cache)
  | comp :: rest =>
      '(decomp, cache1) <- rec cache comp (Inter (GraphVertices comp) childChi) allowedFull ;;
      '(decomps, cache2) <- forkChildren rec cache1 childChi allowedFull rest ;;
      Returned (decomp :: decomps, cache2)
  end.

(** The first component whose call returned the failure value. *)
Fixpoint firstFailure (comps_c : list Graph) (decomps : list Decomp) : option Graph :=
  match comps_c, decomps with
  | comp :: rest, d :: ds => if isEmptyDecomp d then Some comp else firstFailure rest ds
  | _, _ => None
  end.

(** One round of the PARENT loop, for the child [childLam] and the parent
    [parentLam]: [Returned (Some d, _)] is [return d], [Returned (None, _)] is
    [continue PARENT].  The messages of the goroutines are taken in this
    order: the upper decomposition first, then the children by index. *)
Definition parentRound (rec : Call) (cache : Cache) (H : Graph) (Conn : list Z)
  (allowedFull : Edges) (VerticesH : list Z) (childLam parentLam : Edges)
  : Outcome (option Decomp * Cache) :=
  let '(comps_p, isolatedEdges) := GetComponents H parentLam in
  match balancednessLimit H (BalFactor l) with
  | None => Aborted DivisionByZero
  | Some limit =>
      match findLow limit comps_p with
      | None => Aborted NoValidParent
      | Some (compLowIndex, compLow) =>
          let vertCompLow := GraphVertices compLow in
          let childChi := Inter (EdgesVertices childLam) vertCompLow in
          let comps_c := fst (GetComponents compLow childLam) in
          if CheckNegative cache childLam comps_c then Returned (None, cache)
          else
            let others := otherComps compLowIndex comps_p in
            let tempEdgeSlice := isolatedEdges ++ flat_map GEdges others in
            let tempSpecialSlice := flat_map Special others in
            let specialChild := NewEdges [mkEdge 0 childChi] in
            (* the goroutine that sends on chUp, if one is started *)
            '(decompUp, cache1) <-
              (if (len comps_p =? 1)
               then
                 let compUp := mkGraph parentLam [specialChild] in
                 Returned (Some (mkDecomp compUp
                             (mkNode (Inter (EdgesVertices parentLam) VerticesH) parentLam
                                [mkNode (EdgesVertices specialChild) childLam []])), cache)
               else if (0 <? len tempEdgeSlice)
               then
                 let compUp := mkGraph (NewEdges tempEdgeSlice)
                                       (tempSpecialSlice ++ [specialChild]) in
                 let allowedReduced := EdgesDiff allowedFull (GEdges compLow) in
                 '(d, c) <- rec cache compUp Conn allowedReduced ;;
                 Returned (Some d, c)
               else Returned (None, cache)) ;;
            (* the goroutines that send on ch *)
            '(decomps, cache2) <- forkChildren rec cache1 childChi allowedFull comps_c ;;
            (* the join *)
            let joinChildren (k : unit -> Outcome (option Decomp * Cache)) :=
              match firstFailure comps_c decomps with
              | Some comp => Returned (None, AddNegative cache2 childLam comp)
              | None => k tt
              end in
            match decompUp with
            | Some dUp =>
                if isEmptyDecomp dUp then Returned (None, cache2)
                else if negb (Subset Conn (Bag (Root dUp))) then Aborted ConnNotCovered
                else
                  joinChildren (fun _ =>
                    let rootChild := mkNode childChi childLam (map Root decomps) in
                    finalRoot <-
                      (if (0 <? len tempEdgeSlice)
                       then attachingSubtrees combineNodes (Root dUp) rootChild specialChild
                       else Returned rootChild) ;;
                    Returned (Some (mkDecomp H finalRoot), cache2))
            | None => joinChildren (fun _ => Aborted JoinBlocked)
            end
      end
  end.

(** The PARENT loop over the parents the search reports. *)
Fixpoint parentLoop (rec : Call) (cache : Cache) (H : Graph) (Conn : list Z)
  (allowedFull : Edges) (VerticesH : list Z) (childLam : Edges) (parents : list Edges)
  : Outcome (option Decomp * Cache) :=
  match parents with
  | [] => Returned (None, cache)
  | parentLam :: rest =>
      '(r, cache1) <- parentRound rec cache H Conn allowedFull VerticesH childLam parentLam ;;
      match r with
      | Some d => Returned (Some d, cache1)
      | None => parentLoop rec cache1 H Conn allowedFull VerticesH childLam rest
      end
  end.

(** One round of the CHILD loop, for the balanced separator [childLam]. *)
Definition childRound (rec : Call) (cache : Cache) (H : Graph) (Conn : list Z)
  (allowedFull allowed : Edges) (VerticesH : list Z) (childLam : Edges)
  : Outcome (option Decomp * Cache) :=
  let comps_c := fst (GetComponents H childLam) in
  if Subset Conn (EdgesVertices childLam) then
    let childChi := Inter (EdgesVertices childLam) VerticesH in
    if CheckNegative cache childLam comps_c then Returned (None, cache)
    else
      '(subtrees, cache1) <- rootCase rec cache childLam childChi allowedFull comps_c ;;
      match subtrees with
      | None => Returned (None, cache1)
      | Some subtrees => Returned (Some (mkDecomp H (mkNode childChi childLam subtrees)), cache1)
      end
  else
    let allowedParent := FilterVertices allowed (Conn ++ EdgesVertices childLam) in
    let predPar := mkParentCheck Conn (EdgesVertices childLam) in
    parentLoop rec cache H Conn allowedFull VerticesH childLam
      (searchResults (fun sep => ParentCheck_Check GetComponents predPar H sep (BalFactor l))
                     allowedParent).

(** The CHILD loop over the balanced separators the search reports. *)
Fixpoint childLoop (rec : Call) (cache : Cache) (H : Graph) (Conn : list Z)
  (allowedFull allowed : Edges) (VerticesH : list Z) (children : list Edges)
  : Outcome (Decomp * Cache) :=
  match children with
  | [] => Returned (emptyDecomp, cache)
  | childLam :: rest =>
      '(r, cache1) <- childRound rec cache H Conn allowedFull allowed VerticesH childLam ;;
      match r with
      | Some d => Returned (d, cache1)
      | None => childLoop rec cache1 H Conn allowedFull allowed VerticesH rest
      end
  end.

(** The body of [findDecomp], with [rec] for its recursive calls. *)
Definition findDecompBody (rec : Call) : Call :=
  fun cache H Conn allowedFull =>
  if negb (Subset Conn (GraphVertices H)) then Aborted ConnOutsideGraph
  else if baseCaseCheck l (len (GEdges H)) (len (Special H)) (len allowedFull)
  then Returned (baseCase l H (len allowedFull), cache)
  else
    let VerticesH := GraphVertices H in
    let allowed := FilterVertices allowedFull VerticesH in
    childLoop rec cache H Conn allowedFull allowed VerticesH
      (searchResults (fun sep => BalancedCheck_Check GetComponents IntHash H sep (BalFactor l))
                     allowed).

(** [func (l *LogKDecomp) findDecomp(H Graph, Conn []int, allowedFull Edges)
    Decomp], with a bound [fuel] on the depth of the nested calls. *)
Fixpoint findDecomp (fuel : nat) : Call :=
  match fuel with
  | O => fun _ _ _ _ => OutOfFuel
  | S fuel' => findDecompBody (findDecomp fuel')
  end.

(** [func (l *LogKDecomp) FindDecomp() Decomp]; [emptyCache] is the cache
    after [l.cache.Init()]. *)
Definition FindDecomp (fuel : nat) (emptyCache : Cache) : Outcome (Decomp * Cache) :=
  findDecomp fuel emptyCache (LGraph l) [] (GEdges (LGraph l)).

End Engine.

(** ** Instances used in the examples *)

(** A vertex-set hash for the examples: the characteristic bit mask, which
    does not depend on the order and tells apart any two sets of non-negative
    vertices. *)
Definition maskHash (vs : list Z) : Z :=
  fold_right (fun v h => Z.lor (Z.shiftl 1 v) h) 0 vs.

(** The order of a single generator: lexicographic. *)
Definition lexSchedule (cands : list (list nat)) : list (list nat) := cands.

(** The negative cache switched off: nothing is ever present. *)
Definition noCheckNegative (_ : unit) (_ : Edges) (_ : list Graph) : bool := false.
Definition noAddNegative (c : unit) (_ : Edges) (_ : Graph) : unit := c.

(** The leaf search of [CheckLeaves] used as the search of the attach
    operation, on the vertices of the connecting edge. *)
Definition combineByLeaves (above below : Node) (connecting : Edges) : option Node :=
  let (ok, result) := CheckLeaves above (EdgesVertices connecting) below in
  if ok then Some result else None.

(** The total size of a list of components. *)
Definition sumLen (cs : list Graph) : Z := fold_right (fun c n => GraphLen c + n) 0 cs.

(** The floor [⌊|H|·(b−1)/b⌋] of the specification. *)
Definition floorLimit (H : Graph) (b : Z) : Z := GraphLen H * (b - 1) / b.

(** A balance factor the code can compute with: positive, and with
    [H.Len() * (balFactor - 1)] inside the range of [int]. *)
Definition inRange (H : Graph) (b : Z) : Prop :=
  0 < b <= int_max /\ GraphLen H * (b - 1) <= int_max.

(** ** The bound on the recursion depth

    [depthEnough b n d] says [n ≤ (b/(b−1))^d], that is
    [d ≥ log_{b/(b−1)} n], without logarithms; [logCeil b n] is the least such
    [d], the ceiling [⌈log_{b/(b−1)} n⌉]. *)
Definition depthEnough (b n : Z) (d : nat) : Prop :=
  n * (b - 1) ^ Z.of_nat d <= b ^ Z.of_nat d.

Fixpoint leastFrom (test : nat -> bool) (fuel start : nat) : nat :=
  match fuel with
  | O => start
  | S fuel' => if test start then start else leastFrom test fuel' (S start)
  end.

Definition logCeil (b n : Z) : nat :=
  leastFrom (fun d => n * (b - 1) ^ Z.of_nat d <=? b ^ Z.of_nat d) (Z.to_nat (n * b)) O.

(** A graph of a recursive call made for [H]: a component of at most the
    limit, or an upper graph of at most the rest. *)
Definition smaller (b : Z) (H H' : Graph) : Prop :=
  (1 <= GraphLen H' <= floorLimit H b) \/
  (2 <= GraphLen H' <= GraphLen H - floorLimit H b).

(** [finishes o]: the run [o] did not use up the recursion budget. *)
Definition finishes {A : Type} (o : Outcome A) : Prop := o <> OutOfFuel.

(** ** The calls the engine makes

    [GoodCall H Conn allowedFull] holds of the call [FindDecomp] makes and of
    every call made from a call it holds of: [Conn] lies inside the vertices of
    [H]; an allowed edge that is not an edge of [H] meets the vertices of [H]
    only inside [Conn]; and every special edge of [H] has a vertex that no
    allowed edge contains. *)
Record GoodCall (H : Graph) (Conn : list Z) (allowedFull : Edges) : Prop := mkGoodCall {
  good_conn : forall v, In v Conn -> In v (GraphVertices H);
  good_outside : forall a v, In a allowedFull -> ~ In a (GEdges H) ->
                 In v (Vertices a) -> In v (GraphVertices H) -> In v Conn;
  good_special : forall sp, In sp (Special H) ->
                 exists u, In u (EdgesVertices sp) /\
                           forall a, In a allowedFull -> ~ In u (Vertices a)
}.

(** ** Reading a graph (lib)

    [GetGraph] numbers the names of a parsed graph.  The parser itself (a
    library) is outside this development: [GetGraph] is taken from the point
    where [parser.ParseString] has filled [pgraph.Edges]. *)

(** [type ParseEdge struct { Name string; Vertices []string }]. *)
Record ParseEdge : Type :=
  mkParseEdge { PName : String.string; PVertices : list String.string }.

(** A Go map as the list of its assignments, the latest first: [mapGet] is
    the lookup [v, ok := m[k]]. *)
Definition mapGet {K V : Type} (eqb : K -> K -> bool) (m : list (K * V)) (k : K)
  : option V :=
  match find (fun kv => eqb (fst kv) k) m with
  | Some kv => Some (snd kv)
  | None => None
  end.

(** The map [pgraph.m], the map [encoding] and the counter [encode]. *)
Record Encoder : Type := mkEncoder {
  names : list (String.string * Z);
  encoding : list (Z * String.string);
  encode : Z
}.

(** [pgraph.m[n] = encode; encoding[encode] = n; encode++]. *)
Definition assignName (st : Encoder) (n : String.string) : Encoder :=
  mkEncoder ((n, encode st) :: names st) ((encode st, n) :: encoding st)
            (wrap (encode st + 1)).

(** [pgraph.m[n]], the zero value for a name that is not there. *)
Definition nameOf (st : Encoder) (n : String.string) : Z :=
  match mapGet String.eqb (names st) n with Some i => i | None => 0 end.

(** The body of the loop over the vertices of an edge. *)
Definition encodeVertex (acc : Encoder * list Z) (n : String.string) : Encoder * list Z :=
  match mapGet String.eqb (names (fst acc)) n with
  | Some i => (fst acc, snd acc ++ [i])
  | None => (assignName (fst acc) n, snd acc ++ [encode (fst acc)])
  end.

(** The body of the second loop over the edges. *)
Definition encodeEdge (acc : Encoder * list Edge) (e : ParseEdge) : Encoder * list Edge :=
  let (st, outputEdges) := fold_left encodeVertex (PVertices e) (fst acc, []) in
  (st, snd acc ++ [mkEdge (nameOf st (PName e)) outputEdges]).

(** [func GetGraph(s string) Graph], after the parser: the graph and the
    table [m] it leaves for printing. *)
Definition GetGraph (parsed : list ParseEdge) : Graph * list (Z * String.string) :=
  let st1 := fold_left assignName (map PName parsed) (mkEncoder [] [] 1) in
  let (st2, edges) := fold_left encodeEdge parsed (st1, []) in
  (mkGraph edges [], encoding st2).

(** The names of a parsed graph. *)
Definition parsedNames (parsed : list ParseEdge) : list String.string :=
  flat_map (fun e => PName e :: PVertices e) parsed.

(** What holds of the maps while [GetGraph] runs, with [b] names still to
    come: the counter is past every number handed out and stays within
    [int], and the table [encoding] sends the number of a name back to it. *)
Record EncInv (st : Encoder) (b : Z) : Prop := mkEncInv {
  ei_lo : 1 <= encode st;
  ei_hi : encode st + b <= int_max;
  ei_b : 0 <= b;
  ei_names : forall n i, mapGet String.eqb (names st) n = Some i ->
             mapGet Z.eqb (encoding st) i = Some n /\ 1 <= i < encode st;
  ei_keys : forall i n, mapGet Z.eqb (encoding st) i = Some n -> i < encode st
}.

(** The numbers of the names of [st] are the same in [st']. *)
Definition namesKept (st st' : Encoder) : Prop :=
  forall n i, mapGet String.eqb (names st) n = Some i ->
              mapGet String.eqb (names st') n = Some i.

(** ** The parallel search (lib, search.go)

    Modelled from the spec: the implementations of the [Generator] interface
    are not among the source files.  A generator is a "black-box view for any
    kind of generation of items to look at in linear order": [genPending]
    holds the candidates it has still to give, the first of them being the
    current one.  [HasNext] tells whether there is one, [GetNext] gives the
    current one, [Confirm] says that it "has been checked and sent" and moves
    past it, [Found] sets the cache bit of the current one. *)
Record Generator : Type := mkGenerator { genPending : list (list nat); genFound : bool }.

Definition HasNext (g : Generator) : bool :=
  match genPending g with [] => false | _ => true end.
Definition GetNext (g : Generator) : list nat := hd [] (genPending g).
Definition Confirm (g : Generator) : Generator := mkGenerator (tl (genPending g)) false.
Definition Found (g : Generator) : Generator := mkGenerator (genPending g) true.
Definition CheckFound (g : Generator) : bool := genFound g.

(** [type ParallelSearch struct { H; Edges; BalFactor; Result []int;
    Generators []Generator; ExhaustedSearch bool }]: the fields a call of
    [FindNext] writes.  [H], [Edges] and [BalFactor] do not change; they are
    the parameters [edges] and [pred] below. *)
Record ParallelSearch : Type := mkParallelSearch {
  Result : list nat;
  Generators : list Generator;
  ExhaustedSearch : bool
}.

(** Where a worker goroutine is: at the test of its loop, blocked in
    [found <- j], past the send, or returned (after [wg.Done()]). *)
Inductive WorkerAt : Type :=
| AtLoop
| Sending (j : list nat)
| AfterSend
| WorkerDone.

(** Where the goroutine of [FindNext] is: in the [select], past the receive
    of [j] (before [close(found)]), in [wg.Wait()], or returned. *)
Inductive MainAt : Type :=
| InSelect
| GotResult (j : list nat)
| InWait (j : list nat)
| ReturnFound (j : list nat)
| ReturnExhausted.

(** A call of [FindNext] under way: the workers with their generators, the
    generators no worker was started for, the shared flag [finished], whether
    the channel [found] is closed, and the place of [FindNext] itself. *)
Record Run : Type := mkRun {
  workers : list (WorkerAt * Generator);
  idle : list Generator;
  finished : bool;
  closed : bool;
  coordinator : MainAt
}.

Definition allDone (ws : list (WorkerAt * Generator)) : Prop :=
  Forall (fun w => fst w = WorkerDone) ws.

Section Search.

(** [edges] is [*s.Edges]; [pred sep] is [pred.Check(s.H, &sep, s.BalFactor)],
    [None] when the check panics. *)
Variable edges : Edges.
Variable pred : Edges -> option bool.

(** The steps of the goroutines of one call, interleaved in any order.  What
    a worker does on its own generator is taken together with the step on
    shared data it follows.  The read of [finished] is not synchronised: a
    worker may go on although the flag is set, and quits only if it is. *)
Inductive step : Run -> Run -> Prop :=
| step_drained pre g post idl fin cl m :
    HasNext g = false ->
    step (mkRun (pre ++ (AtLoop, g) :: post) idl fin cl m)
         (mkRun (pre ++ (WorkerDone, g) :: post) idl fin cl m)
| step_quit pre g post idl cl m :
    HasNext g = true ->
    step (mkRun (pre ++ (AtLoop, g) :: post) idl true cl m)
         (mkRun (pre ++ (WorkerDone, g) :: post) idl true cl m)
| step_check_true pre g post idl fin cl m :
    HasNext g = true -> pred (GetSubset edges (GetNext g)) = Some true ->
    step (mkRun (pre ++ (AtLoop, g) :: post) idl fin cl m)
         (mkRun (pre ++ (Sending (GetNext g), Found g) :: post) idl fin cl m)
| step_check_false pre g post idl fin cl m :
    HasNext g = true -> pred (GetSubset edges (GetNext g)) = Some false ->
    step (mkRun (pre ++ (AtLoop, g) :: post) idl fin cl m)
         (mkRun (pre ++ (AtLoop, Confirm g) :: post) idl fin cl m)
| step_check_panic pre g post idl fin cl m :
    HasNext g = true -> pred (GetSubset edges (GetNext g)) = None ->
    step (mkRun (pre ++ (AtLoop, g) :: post) idl fin cl m)
         (mkRun (pre ++ (WorkerDone, g) :: post) idl fin cl m)
| step_send pre j g post idl fin :
    step (mkRun (pre ++ (Sending j, g) :: post) idl fin false InSelect)
         (mkRun (pre ++ (AfterSend, g) :: post) idl fin false (GotResult j))
| step_send_closed pre j g post idl fin m :
    step (mkRun (pre ++ (Sending j, g) :: post) idl fin true m)
         (mkRun (pre ++ (WorkerDone, g) :: post) idl fin true m)
| step_confirm pre g post idl fin cl m :
    step (mkRun (pre ++ (AfterSend, g) :: post) idl fin cl m)
         (mkRun (pre ++ (WorkerDone, Confirm g) :: post) idl true cl m)
| step_close ws idl fin cl j :
    step (mkRun ws idl fin cl (GotResult j)) (mkRun ws idl fin true (InWait j))
| step_join ws idl fin cl j :
    allDone ws ->
    step (mkRun ws idl fin cl (InWait j)) (mkRun ws idl fin cl (ReturnFound j))
| step_exhausted ws idl fin cl :
    allDone ws ->
    step (mkRun ws idl fin cl InSelect) (mkRun ws idl fin cl ReturnExhausted).

Inductive steps : Run -> Run -> Prop :=
| steps_refl r : steps r r
| steps_step r1 r2 r3 : steps r1 r2 -> step r2 r3 -> steps r1 r3.

(** [numProc]: the smaller of [runtime.GOMAXPROCS(-1)] and
    [len(s.Generators)]. *)
Definition numProc (maxProcs : nat) (s : ParallelSearch) : nat :=
  if (length (Generators s) <? maxProcs)%nat then length (Generators s) else maxProcs.

(** The call as it starts: worker [i] has the generator [i]. *)
Definition startRun (maxProcs : nat) (s : ParallelSearch) : Run :=
  mkRun (map (fun g => (AtLoop, g)) (firstn (numProc maxProcs s) (Generators s)))
        (skipn (numProc maxProcs s) (Generators s))
        false false InSelect.

Definition runGenerators (r : Run) : list Generator := map snd (workers r) ++ idle r.

(** [func (s *ParallelSearch) FindNext(pred Predicate)]: the search after
    the call, for any interleaving of its goroutines. *)
Inductive FindNext (maxProcs : nat) (s : ParallelSearch) : ParallelSearch -> Prop :=
| FindNext_found r j :
    steps (startRun maxProcs s) r -> coordinator r = ReturnFound j ->
    FindNext maxProcs s (mkParallelSearch j (runGenerators r) (ExhaustedSearch s))
| FindNext_exhausted r :
    steps (startRun maxProcs s) r -> coordinator r = ReturnExhausted ->
    FindNext maxProcs s (mkParallelSearch [] (runGenerators r) true).

(** The loop of the engine over a search:
    [s.FindNext(pred); for ; !s.ExhaustedSearch; s.FindNext(pred) { ... s.Result ... }],
    with the results it goes through. *)
Inductive Enumerates (maxProcs : nat) : ParallelSearch -> list (list nat) -> Prop :=
| Enumerates_end s s' :
    FindNext maxProcs s s' -> ExhaustedSearch s' = true -> Enumerates maxProcs s []
| Enumerates_next s s' rs :
    FindNext maxProcs s s' -> ExhaustedSearch s' = false -> Enumerates maxProcs s' rs ->
    Enumerates maxProcs s (Result s' :: rs).

(** The candidate satisfies the predicate. *)
Definition satisfies (j : list nat) : bool :=
  match pred (GetSubset edges j) with Some true => true | _ => false end.

(** The candidates the generators have still to give. *)
Definition candidates (gs : list Generator) : list (list nat) := flat_map genPending gs.

(** What a worker has still to give, counting a candidate that was sent as
    given. *)
Definition owed (w : WorkerAt * Generator) : list (list nat) :=
  match fst w with
  | AfterSend => tl (genPending (snd w))
  | _ => genPending (snd w)
  end.

(** The result the call has received so far. *)
Definition received (m : MainAt) : list (list nat) :=
  match m with
  | InSelect | ReturnExhausted => []
  | GotResult j | InWait j | ReturnFound j => [j]
  end.

(** A bound on the number of steps a run has left. *)
Definition workerRank (w : WorkerAt * Generator) : nat :=
  4 * length (genPending (snd w)) +
  match fst w with AtLoop => 3 | Sending _ => 2 | AfterSend => 1 | WorkerDone => 0 end.

Definition mainRank (m : MainAt) : nat :=
  match m with InSelect => 3 | GotResult _ => 2 | InWait _ => 1 | _ => 0 end.

Definition runRank (r : Run) : nat :=
  list_sum (map workerRank (workers r)) + mainRank (coordinator r).

Definition returned (r : Run) : Prop :=
  match coordinator r with ReturnFound _ | ReturnExhausted => True | _ => False end.

End Search.

(** What the run has still to give. *)
Definition outstanding (r : Run) : list (list nat) :=
  flat_map owed (workers r) ++ candidates (idle r).

(** What holds of a call of [FindNext] under way, started on the generators
    [gs0]. *)
Record RunInv (edges : Edges) (pred : Edges -> option bool) (gs0 : list Generator)
  (r : Run) : Prop := mkRunInv {
  ri_length : (length (workers r) + length (idle r) = length gs0)%nat;
  ri_within : forall w, In w (workers r) -> incl (genPending (snd w)) (candidates gs0);
  ri_sending : forall j g, In (Sending j, g) (workers r) ->
               exists rest, genPending g = j :: rest /\ satisfies edges pred j = true;
  ri_aftersend : forall g, In (AfterSend, g) (workers r) -> received (coordinator r) <> [];
  ri_received : forall j, In j (received (coordinator r)) ->
                satisfies edges pred j = true /\ In j (candidates gs0);
  ri_owed : Permutation (filter (satisfies edges pred) (candidates gs0))
                        (received (coordinator r)
                         ++ filter (satisfies edges pred) (outstanding r));
  ri_count : (length (received (coordinator r)) + length (outstanding r)
              <= length (candidates gs0))%nat;
  ri_select : received (coordinator r) = [] -> closed r = false /\ finished r = false;
  ri_drained : (forall sep, pred sep <> None) -> received (coordinator r) = [] ->
               forall g, In (WorkerDone, g) (workers r) -> genPending g = [];
  ri_wait : forall j, coordinator r = InWait j -> closed r = true;
  ri_returned : returned r -> allDone (workers r)
}.

(** A search used in the examples: two edges, one generator with the
    candidates [[0]] and [[1]], and the predicate "the separator holds the
    edge named 2". *)
Definition exampleEdges : Edges := [mkEdge 1 [1; 2]; mkEdge 2 [2; 3]].
Definition examplePred (sep : Edges) : option bool :=
  Some (existsb (fun e => Name e =? 2) sep).
Definition exampleSearch : ParallelSearch :=
  mkParallelSearch [] [mkGenerator [[0%nat]; [1%nat]] false] false.

(** ** What a decomposition owes its graph

    Two of the conditions on a decomposition with root [n] of the graph [H]:
    every bag lies in the vertices of its cover and every edge of [H] lies in
    some bag; and every cover has at most [k] edges. *)
Definition coversGraph (H : Graph) (n : Node) : Prop :=
  bagSubsets n = true /\ forall e, In e (GEdges H) -> coversEdge n e = true.

Definition withinWidth (k : Z) (n : Node) : Prop :=
  forall m, In m (subtrees n) -> len (Cover m) <= k.

(** ** The running-intersection property

    Modelled from the spec: "for every vertex v, the set of nodes whose bag
    contains v induces a connected subtree".  With the nodes addressed by
    their paths from the root ([nodeAt]), the nodes on the way from the node
    at [p] to the node at [q] are those at the paths [r] that are a prefix of
    [p] or of [q] and go through the last common ancestor of both, the node
    at [commonPrefix p q]. *)
Fixpoint commonPrefix (p q : list nat) : list nat :=
  match p, q with
  | i :: p', j :: q' => if Nat.eqb i j then i :: commonPrefix p' q' else []
  | _, _ => []
  end.

Definition onPath (p q r : list nat) : Prop :=
  ((exists s, p = r ++ s) \/ (exists s, q = r ++ s)) /\ exists s, r = commonPrefix p q ++ s.

Definition runningIntersection (v : Z) (n : Node) : Prop :=
  forall p q r m1 m2 m,
    nodeAt n p = Some m1 -> In v (Bag m1) ->
    nodeAt n q = Some m2 -> In v (Bag m2) ->
    onPath p q r -> nodeAt n r = Some m -> In v (Bag m).

(** The same property, computed along the tree: [v] occurs below a node in
    whose bag it is only through the children that hold it too, and below a
    node in whose bag it is not, under one child at most. *)
Definition occursIn (v : Z) (n : Node) : bool :=
  existsb (fun m => Mem (Bag m) v) (subtrees n).

Fixpoint connectedFor (v : Z) (n : Node) : bool :=
  forallb (connectedFor v) (Children n) &&
  (if Mem (Bag n) v
   then forallb (fun c => implb (occursIn v c) (Mem (Bag c) v)) (Children n)
   else (length (filter (occursIn v) (Children n)) <=? 1)%nat).

(** A tree for the graph [H]: its bags hold vertices of [H] only, and every
    vertex has the running-intersection property. *)
Definition treeOf (H : Graph) (n : Node) : Prop :=
  (forall m v, In m (subtrees n) -> In v (Bag m) -> In v (GraphVertices H)) /\
  forall v, connectedFor v n = true.

(** The tree [t] returned for the component [c] below a node with the bag
    [chi]: a tree for [c] whose root holds the vertices [c] shares with
    [chi], the [Conn] of the call. *)
Definition childOf (chi : list Z) (c : Graph) (t : Node) : Prop :=
  treeOf c t /\ forall v, In v (Inter (GraphVertices c) chi) -> In v (Bag t).

(** * Properties *)

(** ** Vertex sets as lists *)

Lemma Mem_In (s : list Z) (v : Z) : Mem s v = true <-> In v s.
Proof.
  unfold Mem. rewrite existsb_exists. split.
  - intros [w [Hw Heq]]. apply Z.eqb_eq in Heq. now subst.
  - intros Hin. exists v. split; [assumption | apply Z.eqb_refl].
Qed.

Lemma Subset_spec (a b : list Z) : Subset a b = true <-> (forall v, In v a -> In v b).
Proof.
  unfold Subset. rewrite forallb_forall. split; intros H v Hv.
  - apply Mem_In. now apply H.
  - apply Mem_In. now apply H.
Qed.

Lemma Inter_In (a b : list Z) (v : Z) : In v (Inter a b) <-> In v a /\ In v b.
Proof. unfold Inter. rewrite filter_In, Mem_In. tauto. Qed.

Lemma Diff_In (a b : list Z) (v : Z) : In v (Diff a b) <-> In v a /\ ~ In v b.
Proof.
  unfold Diff. rewrite filter_In, negb_true_iff, <- not_true_iff_false, Mem_In. tauto.
Qed.

Lemma RemoveDuplicates_In (s : list Z) (v : Z) : In v (RemoveDuplicates s) <-> In v s.
Proof.
  induction s as [|w s IH]; simpl; [tauto|].
  rewrite filter_In, IH, negb_true_iff, Z.eqb_neq.
  destruct (Z.eq_dec w v); [subst; tauto | intuition congruence].
Qed.

Lemma EdgesVertices_In (es : Edges) (v : Z) :
  In v (EdgesVertices es) <-> exists e, In e es /\ In v (Vertices e).
Proof. unfold EdgesVertices. now rewrite RemoveDuplicates_In, in_flat_map. Qed.

Lemma GraphVertices_In (g : Graph) (v : Z) :
  In v (GraphVertices g) <->
  (exists e, In e (GEdges g) /\ In v (Vertices e)) \/
  (exists sp, In sp (Special g) /\ In v (EdgesVertices sp)).
Proof.
  unfold GraphVertices.
  now rewrite RemoveDuplicates_In, in_app_iff, EdgesVertices_In, in_flat_map.
Qed.

(** ** Arithmetic of the balancedness limit *)

Lemma wrap_small (z : Z) : int_min <= z <= int_max -> wrap z = z.
Proof.
  unfold wrap, int_min, int_max. intros H.
  rewrite Z.mod_small; lia.
Qed.

Lemma len_nonneg {A : Type} (s : list A) : 0 <= len s.
Proof. unfold len. lia. Qed.

Lemma GraphLen_nonneg (g : Graph) : 0 <= GraphLen g.
Proof. unfold GraphLen. pose proof (len_nonneg (GEdges g)). pose proof (len_nonneg (Special g)). lia. Qed.

(** Within the range of [int] and for a positive balance factor, the limit
    the code computes is the floor [⌊|H|·(b−1)/b⌋]. *)
Lemma balancednessLimit_floor (H : Graph) (b : Z) :
  inRange H b -> balancednessLimit H b = Some (floorLimit H b).
Proof.
  unfold inRange, floorLimit. intros [[Hb Hbmax] Hmax].
  pose proof (GraphLen_nonneg H) as Hn.
  unfold balancednessLimit, int_div, int_mul, int_sub.
  destruct (b =? 0) eqn:E; [apply Z.eqb_eq in E; lia|].
  assert (Hb1 : wrap (b - 1) = b - 1).
  { apply wrap_small. unfold int_min, int_max in *. lia. }
  rewrite Hb1.
  assert (Hx : 0 <= GraphLen H * (b - 1)) by nia.
  remember (GraphLen H * (b - 1)) as x eqn:Ex.
  rewrite (wrap_small x) by (unfold int_min, int_max in *; lia).
  rewrite Z.quot_div_nonneg by lia.
  f_equal. apply wrap_small.
  assert (0 <= x / b) by (apply Z.div_pos; lia).
  assert (x / b <= x).
  { apply Z.div_le_upper_bound; [lia | nia]. }
  unfold int_min, int_max in *. lia.
Qed.

(** ** BalancedCheck *)

Lemma existsb_false_forall {A : Type} (f : A -> bool) (l : list A) :
  existsb f l = false <-> (forall x, In x l -> f x = false).
Proof.
  split.
  - intros H x Hx. destruct (f x) eqn:E; [|reflexivity].
    assert (existsb f l = true) by (apply existsb_exists; eauto). congruence.
  - intros H. destruct (existsb f l) eqn:E; [|reflexivity].
    apply existsb_exists in E. destruct E as [x [Hx Hfx]]. rewrite (H x Hx) in Hfx. discriminate.
Qed.

(** C4: [BalancedCheck.Check(H, sep, b)] returns, and returns true exactly
    when every component of [H \ sep] has size at most [⌊|H|·(b−1)/b⌋] and the
    hash of the vertex set of [sep] differs from the hash of the vertex set of
    every special edge of [H]. *)
Theorem BalancedCheck_Check_iff
  (getComponents : Graph -> Edges -> list Graph * list Edge) (IntHash : list Z -> Z)
  (H : Graph) (sep : Edges) (b : Z) :
  inRange H b ->
  (exists r, BalancedCheck_Check getComponents IntHash H sep b = Some r) /\
  (BalancedCheck_Check getComponents IntHash H sep b = Some true <->
   (forall c, In c (fst (getComponents H sep)) -> GraphLen c <= floorLimit H b) /\
   (forall sp, In sp (Special H) ->
               IntHash (EdgesVertices sp) <> IntHash (EdgesVertices sep))).
Proof.
  intros Hr. unfold BalancedCheck_Check.
  rewrite (balancednessLimit_floor H b Hr).
  destruct (existsb (fun c => floorLimit H b <? GraphLen c) (fst (getComponents H sep))) eqn:Ec.
  - split; [eexists; reflexivity|]. split; [discriminate|].
    intros [Hall _]. apply existsb_exists in Ec. destruct Ec as [c [Hc Hlt]].
    apply Z.ltb_lt in Hlt. specialize (Hall c Hc). lia.
  - rewrite existsb_false_forall in Ec.
    destruct (existsb (fun sp => IntHash (EdgesVertices sp) =? IntHash (EdgesVertices sep))
                      (Special H)) eqn:Es.
    + split; [eexists; reflexivity|]. split; [discriminate|].
      intros [_ Hall]. apply existsb_exists in Es. destruct Es as [sp [Hsp Heq]].
      apply Z.eqb_eq in Heq. exfalso. now apply (Hall sp Hsp).
    + rewrite existsb_false_forall in Es.
      split; [eexists; reflexivity|]. split; [intros _|reflexivity]. split.
      * intros c Hc. specialize (Ec c Hc). apply Z.ltb_ge in Ec. exact Ec.
      * intros sp Hsp. specialize (Es sp Hsp). now apply Z.eqb_neq in Es.
Qed.

(** ** The low component *)

Lemma lowComponent_snoc (limit : Z) (l : list Graph) (c : Graph) :
  lowComponent limit (l ++ [c]) =
  if limit <? GraphLen c then Some c else lowComponent limit l.
Proof. unfold lowComponent. now rewrite fold_left_app. Qed.

Lemma lowComponent_None (limit : Z) (l : list Graph) :
  lowComponent limit l = None <-> (forall c, In c l -> GraphLen c <= limit).
Proof.
  induction l as [|c l IH] using rev_ind.
  - split; [intros _ c []|reflexivity].
  - rewrite lowComponent_snoc. destruct (limit <? GraphLen c) eqn:E.
    + split; [discriminate|]. intros H. apply Z.ltb_lt in E.
      assert (GraphLen c <= limit) by (apply H; apply in_app_iff; right; now left). lia.
    + apply Z.ltb_ge in E. rewrite IH. split; intros H x Hx.
      * apply in_app_iff in Hx. destruct Hx as [Hx|[<-|[]]]; auto.
      * apply H. apply in_app_iff. now left.
Qed.

Lemma lowComponent_Some (limit : Z) (l : list Graph) (L : Graph) :
  lowComponent limit l = Some L -> In L l /\ limit < GraphLen L.
Proof.
  induction l as [|c l IH] using rev_ind.
  - discriminate.
  - rewrite lowComponent_snoc. destruct (limit <? GraphLen c) eqn:E.
    + intros [= <-]. apply Z.ltb_lt in E. split; [|assumption].
      apply in_app_iff. right. now left.
    + intros H. destruct (IH H) as [Hin Hlt]. split; [|assumption].
      apply in_app_iff. now left.
Qed.

Lemma sumLen_app (l1 l2 : list Graph) : sumLen (l1 ++ l2) = sumLen l1 + sumLen l2.
Proof. induction l1 as [|c l1 IH]; simpl; [reflexivity|]. rewrite IH. lia. Qed.

Lemma sumLen_nonneg (l : list Graph) : 0 <= sumLen l.
Proof.
  induction l as [|c l IH]; simpl; [lia|]. pose proof (GraphLen_nonneg c). lia.
Qed.

Lemma sumLen_In (l : list Graph) (c : Graph) : In c l -> GraphLen c <= sumLen l.
Proof.
  induction l as [|d l IH]; simpl; [tauto|]. intros [->|Hin].
  - pose proof (sumLen_nonneg l). lia.
  - specialize (IH Hin). pose proof (GraphLen_nonneg d). lia.
Qed.

(** Two components over the limit would together exceed the whole: when the
    sizes of the components add up to at most [n < 2·limit + 2], a component
    over the limit is the one [lowComponent] finds. *)
Lemma lowComponent_unique (limit n : Z) (l : list Graph) (L : Graph) :
  sumLen l <= n -> n < 2 * limit + 2 ->
  In L l -> limit < GraphLen L -> lowComponent limit l = Some L.
Proof.
  intros Hsum Hn. revert Hsum. induction l as [|c l IH] using rev_ind; [intros _ []|].
  rewrite sumLen_app. simpl. intros Hsum Hin HL.
  rewrite lowComponent_snoc. apply in_app_iff in Hin.
  destruct (limit <? GraphLen c) eqn:E.
  - apply Z.ltb_lt in E. destruct Hin as [Hin|[->|[]]]; [|reflexivity].
    pose proof (sumLen_In l L Hin). lia.
  - apply Z.ltb_ge in E. destruct Hin as [Hin|[->|[]]]; [|lia].
    apply IH; [|assumption|assumption]. pose proof (GraphLen_nonneg c). lia.
Qed.

(** For a balance factor of at least two, the limit is at least half of the
    size (rounded down). *)
Lemma floorLimit_half (H : Graph) (b : Z) : 2 <= b -> GraphLen H < 2 * floorLimit H b + 2.
Proof.
  intros Hb. unfold floorLimit. pose proof (GraphLen_nonneg H) as Hn.
  remember (GraphLen H) as n eqn:En. clear En.
  pose proof (Z.mul_succ_div_gt (n * (b - 1)) b ltac:(lia)) as Hq.
  assert (0 <= n * (b - 1) / b) by (apply Z.div_pos; nia).
  remember (n * (b - 1) / b) as q eqn:Eq. clear Eq. nia.
Qed.

(** ** ParentCheck *)


(** ** The components share no edge: their sizes add up *)

Definition compsLen (cs : list Comp) : Z := sumLen (map compGraph cs).

Lemma len_app {A : Type} (l1 l2 : list A) : len (l1 ++ l2) = len l1 + len l2.
Proof. unfold len. rewrite length_app. lia. Qed.

Lemma compsLen_app (l1 l2 : list Comp) : compsLen (l1 ++ l2) = compsLen l1 + compsLen l2.
Proof. unfold compsLen. now rewrite map_app, sumLen_app. Qed.

Lemma compsLen_filter (f : Comp -> bool) (cs : list Comp) :
  compsLen (filter (fun c => negb (f c)) cs) + compsLen (filter f cs) = compsLen cs.
Proof.
  unfold compsLen. induction cs as [|c cs IH]; simpl; [reflexivity|].
  destruct (f c); simpl; lia.
Qed.

Lemma GraphLen_merge (item : Comp) (hit : list Comp) :
  GraphLen (compGraph (fold_right mergeComp item hit)) =
  compsLen hit + GraphLen (compGraph item).
Proof.
  unfold compsLen. induction hit as [|c hit IH]; simpl; [lia|].
  unfold GraphLen in *. simpl in *. rewrite !len_app. lia.
Qed.

Lemma compsLen_addToComps (item : Comp) (cs : list Comp) :
  compsLen (addToComps item cs) = compsLen cs + GraphLen (compGraph item).
Proof.
  unfold addToComps. rewrite compsLen_app.
  unfold compsLen at 2. simpl. rewrite GraphLen_merge.
  pose proof (compsLen_filter (touches (cVerts item)) cs). lia.
Qed.

Lemma placeEdge_count (sepV : list Z) (es : list Edge) (st : list Comp * list Edge) :
  compsLen (fst (fold_left (placeEdge sepV) es st)) + len (snd (fold_left (placeEdge sepV) es st))
  = compsLen (fst st) + len (snd st) + len es.
Proof.
  revert st. induction es as [|e es IH]; intros st; simpl.
  - unfold len. simpl. lia.
  - rewrite IH. unfold placeEdge.
    replace (len (e :: es)) with (1 + len es) by (unfold len; simpl length; lia).
    destruct (Diff (Vertices e) sepV) as [|v actual]; cbn [fst snd].
    + rewrite len_app. change (len [e]) with 1. lia.
    + rewrite compsLen_addToComps. change (GraphLen (compGraph (mkComp (v :: actual) [e] []))) with 1. lia.
Qed.

Lemma placeSpecial_count (sepV : list Z) (sps : list Edges) (cs : list Comp) :
  compsLen (fold_left (placeSpecial sepV) sps cs) <= compsLen cs + len sps.
Proof.
  revert cs. induction sps as [|sp sps IH]; intros cs; simpl.
  - unfold len. simpl. lia.
  - specialize (IH (placeSpecial sepV cs sp)).
    replace (len (sp :: sps)) with (1 + len sps) by (unfold len; simpl length; lia).
    assert (compsLen (placeSpecial sepV cs sp) <= compsLen cs + 1); [|lia].
    unfold placeSpecial. destruct (Diff (EdgesVertices sp) sepV) as [|v actual]; [lia|].
    rewrite compsLen_addToComps.
    change (GraphLen (compGraph (mkComp (v :: actual) [] [sp]))) with 1. lia.
Qed.

(** The components and the isolated edges of [H \ sep] together have at most
    the size of [H]. *)
Lemma GetComponents_count (H : Graph) (sep : Edges) :
  sumLen (fst (GetComponents H sep)) + len (snd (GetComponents H sep)) <= GraphLen H.
Proof.
  unfold GetComponents. simpl.
  pose proof (placeEdge_count (EdgesVertices sep) (GEdges H) ([], [])) as He.
  pose proof (placeSpecial_count (EdgesVertices sep) (Special H)
                (fst (fold_left (placeEdge (EdgesVertices sep)) (GEdges H) ([], [])))) as Hs.
  unfold compsLen in *. simpl in He. unfold GraphLen.
  change (len (@nil Edge)) with 0 in He. lia.
Qed.

Lemma GetComponents_sumLen (H : Graph) (sep : Edges) :
  sumLen (fst (GetComponents H sep)) <= GraphLen H.
Proof.
  pose proof (GetComponents_count H sep). pose proof (len_nonneg (snd (GetComponents H sep))). lia.
Qed.

(** ** The base cases of the engine *)

Lemma len_zero_nil {A : Type} (s : list A) : len s = 0 <-> s = [].
Proof.
  unfold len. destruct s; simpl; split; intros H; try reflexivity; try discriminate; lia.
Qed.

Section BaseCases.

Variable IntHash : list Z -> Z.
Variable combineNodes : Node -> Node -> Edges -> option Node.
Variable Cache : Type.
Variable CheckNegative : Cache -> Edges -> list Graph -> bool.
Variable AddNegative : Cache -> Edges -> Graph -> Cache.
Variable schedule : list (list nat) -> list (list nat).
Variable l : LogKDecomp.

Let run := findDecomp IntHash combineNodes Cache CheckNegative AddNegative schedule l.

(** C2 (amended): a call of [findDecomp] with [Conn ⊆ V(H)], [|E(H)| ≤ k], no
    special edge and at least one allowed edge returns the single-node
    decomposition with [Bag = V(H)] and [Cover = E(H)]; the failure cases of
    [baseCase] are checked before it, so a call on a non-empty graph with no
    allowed edge returns the failure value. *)
Theorem findDecomp_base_case (fuel : nat) (cache : Cache) (H : Graph) (Conn : list Z)
  (allowedFull : Edges) :
  Subset Conn (GraphVertices H) = true ->
  len (GEdges H) <= K l -> Special H = [] ->
  (allowedFull <> [] ->
   run (S fuel) cache H Conn allowedFull =
   Returned (mkDecomp H (mkNode (GraphVertices H) (GEdges H) []), cache)) /\
  (allowedFull = [] -> 0 < GraphLen H ->
   run (S fuel) cache H Conn allowedFull = Returned (emptyDecomp, cache)).
Proof.
  intros HConn HK HS. subst run. cbn [findDecomp]. unfold findDecompBody.
  rewrite HConn. cbn [negb].
  assert (Hcheck : baseCaseCheck l (len (GEdges H)) (len (Special H)) (len allowedFull) = true).
  { unfold baseCaseCheck. rewrite HS. change (len (@nil Edges)) with 0.
    apply Z.leb_le in HK. rewrite HK. reflexivity. }
  rewrite Hcheck. unfold baseCase. rewrite HS. change (len (@nil Edges)) with 0.
  apply Z.leb_le in HK. rewrite HK.
  change (1 <? 0) with false. rewrite andb_false_r.
  change (0 =? 0) with true. change (0 =? 1) with false. rewrite !andb_false_r.
  cbn [andb]. split.
  - intros Hne. destruct (len allowedFull =? 0) eqn:E.
    + apply Z.eqb_eq, len_zero_nil in E. contradiction.
    + reflexivity.
  - intros -> Hpos. change (len (@nil Edge) =? 0) with true.
    pose proof (GraphLen_nonneg H) as Hn. apply Z.leb_le in Hn. rewrite Hn. reflexivity.
Qed.

End BaseCases.

(** The witness of C2: the graph with the single edge [e1(1,2)], [k = 1],
    with [e1] allowed, and the same graph with no allowed edge. *)
Lemma findDecomp_base_case_witness :
  let e1 := mkEdge 1 [1; 2] in
  let H := mkGraph [e1] [] in
  let l := mkLogKDecomp H 1 2 in
  findDecomp maskHash combineByLeaves unit noCheckNegative noAddNegative lexSchedule l
             1 tt H [] [e1]
  = Returned (mkDecomp H (mkNode [1; 2] [e1] []), tt) /\
  findDecomp maskHash combineByLeaves unit noCheckNegative noAddNegative lexSchedule l
             1 tt H [] []
  = Returned (emptyDecomp, tt).
Proof.
  intros e1 H l.
  pose proof (findDecomp_base_case maskHash combineByLeaves unit noCheckNegative noAddNegative
                lexSchedule l 0 tt H []) as Hb.
  split.
  - apply (Hb [e1]); [reflexivity | vm_compute; discriminate | reflexivity | discriminate].
  - apply (Hb []); [reflexivity | vm_compute; discriminate | reflexivity | reflexivity | reflexivity].
Defined.

(** C2 as stated fails: with [|E(H)| ≤ k] and no special edge, the call on
    the graph [e1(1,2)] with no allowed edge returns the failure value, which is
    not the single node with [Bag = V(H)] and [Cover = E(H)]; and [FindDecomp]
    on the empty hypergraph returns the failure value. *)
Lemma base_case_counterexample :
  let e1 := mkEdge 1 [1; 2] in
  let H := mkGraph [e1] [] in
  let run := findDecomp maskHash combineByLeaves unit noCheckNegative noAddNegative
                        lexSchedule (mkLogKDecomp H 1 2) 1 tt H [] [] in
  let runEmpty := FindDecomp maskHash combineByLeaves unit noCheckNegative noAddNegative
                             lexSchedule (mkLogKDecomp emptyGraph 1 2) 1 tt in
  (len (GEdges H) <= 1 /\ Special H = [] /\
   run = Returned (emptyDecomp, tt) /\
   run <> Returned (mkDecomp H (mkNode (GraphVertices H) (GEdges H) []), tt)) /\
  (runEmpty = Returned (emptyDecomp, tt) /\ isEmptyDecomp emptyDecomp = true).
Proof.
  intros e1 H run runEmpty. split; [split; [|split; [|split]]|split].
  - vm_compute. discriminate.
  - reflexivity.
  - reflexivity.
  - intros Hc. vm_compute in Hc. discriminate.
  - reflexivity.
  - reflexivity.
Qed.

(** ** The low component found by the engine *)

Ltac decide_Z := vm_compute; first [reflexivity | discriminate | intuition discriminate].

(** The witness of C4: the path [e1(1,2), e2(2,3), e3(3,4)], the separator
    [e2] and the balance factor 2. *)
Lemma BalancedCheck_Check_iff_witness :
  let H := mkGraph [mkEdge 1 [1; 2]; mkEdge 2 [2; 3]; mkEdge 3 [3; 4]] [] in
  let sep := [mkEdge 2 [2; 3]] in
  inRange H 2 /\
  (exists r, BalancedCheck_Check GetComponents maskHash H sep 2 = Some r) /\
  (BalancedCheck_Check GetComponents maskHash H sep 2 = Some true <->
   (forall c, In c (fst (GetComponents H sep)) -> GraphLen c <= floorLimit H 2) /\
   (forall sp, In sp (Special H) ->
               maskHash (EdgesVertices sp) <> maskHash (EdgesVertices sep))).
Proof.
  intros H sep.
  assert (Hr : inRange H 2) by (repeat split; decide_Z).
  split; [exact Hr|]. exact (BalancedCheck_Check_iff GetComponents maskHash H sep 2 Hr).
Defined.


(** The last element of a list that satisfies a test, as the two loops over
    the components compute it. *)
Lemma fold_last_Some {A : Type} (test : A -> bool) (l : list A) (x : A) :
  fold_left (fun found y => if test y then Some y else found) l None = Some x ->
  In x l /\ test x = true.
Proof.
  induction l as [|y l IH] using rev_ind; [discriminate|].
  rewrite fold_left_app. simpl. destruct (test y) eqn:E.
  - intros [= <-]. split; [apply in_app_iff; right; now left | assumption].
  - intros Hf. destruct (IH Hf) as [Hin Ht]. split; [apply in_app_iff; now left | assumption].
Qed.

Lemma fold_last_None {A : Type} (test : A -> bool) (l : list A) :
  fold_left (fun found y => if test y then Some y else found) l None = None <->
  (forall y, In y l -> test y = false).
Proof.
  induction l as [|y l IH] using rev_ind.
  - split; [intros _ y []|reflexivity].
  - rewrite fold_left_app. simpl. destruct (test y) eqn:E.
    + split; [discriminate|]. intros Hall.
      rewrite (Hall y) in E; [discriminate|]. apply in_app_iff. right. now left.
    + rewrite IH. split; intros Hall z Hz.
      * apply in_app_iff in Hz. destruct Hz as [Hz|[<-|[]]]; auto.
      * apply Hall. apply in_app_iff. now left.
Qed.

Lemma combine_seq_In {A : Type} (l : list A) (s i : nat) (x : A) :
  In (i, x) (combine (seq s (length l)) l) <-> (s <= i)%nat /\ nth_error l (i - s) = Some x.
Proof.
  revert s. induction l as [|y l IH]; intros s; simpl.
  - split; [intros []|]. intros [_ Hn]. destruct (i - s)%nat; discriminate.
  - rewrite IH. split.
    + intros [[= <- <-]|[Hle Hn]].
      * split; [lia|]. now rewrite Nat.sub_diag.
      * split; [lia|]. replace (i - s)%nat with (S (i - S s)) by lia. exact Hn.
    + intros [Hle Hn]. destruct (Nat.eq_dec i s) as [->|Hne].
      * left. rewrite Nat.sub_diag in Hn. simpl in Hn. congruence.
      * right. split; [lia|]. replace (i - s)%nat with (S (i - S s)) in Hn by lia. exact Hn.
Qed.

Lemma findLow_Some (limit : Z) (comps : list Graph) (i : nat) (L : Graph) :
  findLow limit comps = Some (i, L) -> nth_error comps i = Some L /\ limit < GraphLen L.
Proof.
  unfold findLow. intros Hf.
  apply (fold_last_Some (fun ic => limit <? GraphLen (snd ic))) in Hf.
  destruct Hf as [Hin Ht]. apply combine_seq_In in Hin. rewrite Nat.sub_0_r in Hin.
  simpl in Ht. apply Z.ltb_lt in Ht. tauto.
Qed.

Lemma findLow_None (limit : Z) (comps : list Graph) :
  findLow limit comps = None <-> (forall c, In c comps -> GraphLen c <= limit).
Proof.
  unfold findLow.
  rewrite (fold_last_None (fun ic => limit <? GraphLen (snd ic))). split.
  - intros Hall c Hc. apply In_nth_error in Hc. destruct Hc as [i Hi].
    specialize (Hall (i, c)). simpl in Hall. apply Z.ltb_ge. apply Hall.
    apply combine_seq_In. rewrite Nat.sub_0_r. split; [lia|assumption].
  - intros Hall [i c] Hin. simpl. apply Z.ltb_ge. apply Hall.
    apply combine_seq_In in Hin. destruct Hin as [_ Hn]. rewrite Nat.sub_0_r in Hn.
    eapply nth_error_In; eauto.
Qed.

Lemma sumLen_two (l : list Graph) (i j : nat) (a b : Graph) :
  nth_error l i = Some a -> nth_error l j = Some b -> i <> j ->
  GraphLen a + GraphLen b <= sumLen l.
Proof.
  revert i j. induction l as [|c l IH]; intros i j Hi Hj Hne.
  - destruct i; discriminate.
  - destruct i as [|i], j as [|j]; simpl in *.
    + congruence.
    + injection Hi as ->. apply nth_error_In in Hj. pose proof (sumLen_In l b Hj). lia.
    + injection Hj as ->. apply nth_error_In in Hi. pose proof (sumLen_In l a Hi). lia.
    + assert (i <> j) by congruence. specialize (IH i j Hi Hj H).
      pose proof (GraphLen_nonneg c). lia.
Qed.

(** A true [ParentCheck] means that some component is over the limit. *)
Lemma ParentCheck_Check_low (getComponents : Graph -> Edges -> list Graph * list Edge)
  (p : ParentCheck) (H : Graph) (sep : Edges) (b : Z) :
  ParentCheck_Check getComponents p H sep b = Some true ->
  exists limit, balancednessLimit H b = Some limit /\
                lowComponent limit (fst (getComponents H sep)) <> None.
Proof.
  unfold ParentCheck_Check. destruct (balancednessLimit H b) as [limit|]; [|discriminate].
  intros Hc. exists limit. split; [reflexivity|].
  destruct (lowComponent limit (fst (getComponents H sep))); [discriminate|discriminate].
Qed.

Lemma findLow_lowComponent (limit : Z) (comps : list Graph) :
  lowComponent limit comps <> None -> findLow limit comps <> None.
Proof.
  intros Hl Hf. apply Hl. apply lowComponent_None. now apply findLow_None.
Qed.

(** ** Fatal outcomes the engine does not reach *)

(** [avoids f o]: the run [o] does not stop with the fatal outcome [f]. *)
Definition avoids {A : Type} (f : Fatal) (o : Outcome A) : Prop := o <> Aborted f.

Lemma bind_avoids {A B : Type} (f : Fatal) (m : Outcome A) (k : A -> Outcome B) :
  avoids f m -> (forall a, m = Returned a -> avoids f (k a)) -> avoids f (bind m k).
Proof.
  unfold avoids. destruct m as [a|g|]; simpl; intros Hm Hk.
  - now apply Hk.
  - intros [= ->]. now apply Hm.
  - discriminate.
Qed.

Ltac avoid_step :=
  match goal with
  | |- avoids _ (bind _ _) => apply bind_avoids; [|intros ? ?]
  | |- avoids _ (Returned _) => unfold avoids; discriminate
  | |- avoids _ (Aborted _) => unfold avoids; discriminate
  | |- avoids _ (match ?x with _ => _ end) => destruct x eqn:?
  | |- avoids _ (let '(_, _) := ?x in _) => destruct x eqn:?
  end.

Section NoValidParentSection.

Variable IntHash : list Z -> Z.
Variable combineNodes : Node -> Node -> Edges -> option Node.
Variable Cache : Type.
Variable CheckNegative : Cache -> Edges -> list Graph -> bool.
Variable AddNegative : Cache -> Edges -> Graph -> Cache.
Variable schedule : list (list nat) -> list (list nat).
Variable l : LogKDecomp.

Variable rec : Call Cache.
Hypothesis rec_avoids : forall cache H Conn allowedFull,
  avoids NoValidParent (rec cache H Conn allowedFull).

Lemma rootCase_avoids cache childLam childChi allowedFull comps_c :
  avoids NoValidParent (rootCase Cache AddNegative rec cache childLam childChi allowedFull comps_c).
Proof.
  revert cache. induction comps_c as [|comp rest IH]; intros cache; simpl.
  - unfold avoids; discriminate.
  - repeat (first [apply rec_avoids | apply IH | avoid_step]).
Qed.

Lemma forkChildren_avoids cache childChi allowedFull comps_c :
  avoids NoValidParent (forkChildren Cache rec cache childChi allowedFull comps_c).
Proof.
  revert cache. induction comps_c as [|comp rest IH]; intros cache; simpl.
  - unfold avoids; discriminate.
  - repeat (first [apply rec_avoids | apply IH | avoid_step]).
Qed.

Lemma attachingSubtrees_avoids above below connecting :
  avoids NoValidParent (attachingSubtrees combineNodes above below connecting).
Proof. unfold attachingSubtrees. repeat avoid_step. Qed.

Lemma parentRound_avoids cache H Conn allowedFull VerticesH childLam parentLam p :
  ParentCheck_Check GetComponents p H parentLam (BalFactor l) = Some true ->
  avoids NoValidParent
    (parentRound combineNodes Cache CheckNegative AddNegative l rec cache H Conn allowedFull
                 VerticesH childLam parentLam).
Proof.
  intros Hp. destruct (ParentCheck_Check_low _ _ _ _ _ Hp) as [limit [Hlim Hlow]].
  apply findLow_lowComponent in Hlow.
  unfold parentRound. rewrite Hlim.
  destruct (GetComponents H parentLam) as [comps_p isolatedEdges] eqn:Ec. simpl in Hlow.
  destruct (findLow limit comps_p) as [[i L]|]; [|contradiction].
  repeat (first [apply rec_avoids | apply forkChildren_avoids
                | apply attachingSubtrees_avoids | avoid_step]).
Qed.

Lemma parentLoop_avoids cache H Conn allowedFull VerticesH childLam parents p :
  Forall (fun parentLam =>
            ParentCheck_Check GetComponents p H parentLam (BalFactor l) = Some true) parents ->
  avoids NoValidParent
    (parentLoop combineNodes Cache CheckNegative AddNegative l rec cache H Conn allowedFull
                VerticesH childLam parents).
Proof.
  intros Hall. revert cache. induction Hall as [|parentLam rest Hp Hrest IH]; intros cache; simpl.
  - unfold avoids; discriminate.
  - repeat (first [eapply parentRound_avoids; eassumption | apply IH | avoid_step]).
Qed.

Lemma searchResults_Forall (pred : Edges -> option bool) (edges : Edges) :
  Forall (fun sep => pred sep = Some true) (searchResults schedule l pred edges).
Proof.
  unfold searchResults. apply Forall_forall. intros sep Hin.
  apply filter_In in Hin. destruct Hin as [_ Hp].
  destruct (pred sep) as [[|]|]; [reflexivity|discriminate|discriminate].
Qed.

Lemma childRound_avoids cache H Conn allowedFull allowed VerticesH childLam :
  avoids NoValidParent
    (childRound combineNodes Cache CheckNegative AddNegative schedule l rec cache H Conn
                allowedFull allowed VerticesH childLam).
Proof.
  unfold childRound.
  destruct (Subset Conn (EdgesVertices childLam)).
  - repeat (first [apply rootCase_avoids | avoid_step]).
  - eapply parentLoop_avoids. apply searchResults_Forall.
Qed.

Lemma childLoop_avoids cache H Conn allowedFull allowed VerticesH children :
  avoids NoValidParent
    (childLoop combineNodes Cache CheckNegative AddNegative schedule l rec cache H Conn
               allowedFull allowed VerticesH children).
Proof.
  revert cache. induction children as [|childLam rest IH]; intros cache; simpl.
  - unfold avoids; discriminate.
  - repeat (first [apply childRound_avoids | apply IH | avoid_step]).
Qed.

Lemma findDecompBody_avoids cache H Conn allowedFull :
  avoids NoValidParent
    (findDecompBody IntHash combineNodes Cache CheckNegative AddNegative schedule l rec
                    cache H Conn allowedFull).
Proof.
  unfold findDecompBody.
  repeat (first [apply childLoop_avoids | avoid_step]).
Qed.

End NoValidParentSection.

Lemma findDecomp_avoids_NoValidParent
  (IntHash : list Z -> Z) (combineNodes : Node -> Node -> Edges -> option Node)
  (Cache : Type) (CheckNegative : Cache -> Edges -> list Graph -> bool)
  (AddNegative : Cache -> Edges -> Graph -> Cache)
  (schedule : list (list nat) -> list (list nat)) (l : LogKDecomp)
  (fuel : nat) (cache : Cache) (H : Graph) (Conn : list Z) (allowedFull : Edges) :
  avoids NoValidParent
    (findDecomp IntHash combineNodes Cache CheckNegative AddNegative schedule l fuel
                cache H Conn allowedFull).
Proof.
  revert cache H Conn allowedFull. induction fuel as [|fuel IH]; intros cache H Conn allowedFull.
  - unfold avoids. simpl. discriminate.
  - simpl. apply findDecompBody_avoids. exact IH.
Qed.

(** C10: for a balance factor [b >= 2] at most one component of [H \ sep] has
    size greater than [⌊|H|·(b−1)/b⌋]; when [ParentCheck.Check(H, sep, b)] has
    returned true, the loop of the engine over the same components finds the
    low component, which is the only one over the limit; and no run of
    [findDecomp] stops with the panic "the parallel search didn't actually find
    a valid parent". *)
Theorem low_component_unique (H : Graph) (sep : Edges) (b : Z) :
  inRange H b -> 2 <= b ->
  (forall i j Li Lj,
      nth_error (fst (GetComponents H sep)) i = Some Li ->
      nth_error (fst (GetComponents H sep)) j = Some Lj ->
      floorLimit H b < GraphLen Li -> floorLimit H b < GraphLen Lj -> i = j) /\
  (forall p, ParentCheck_Check GetComponents p H sep b = Some true ->
      exists i L, findLow (floorLimit H b) (fst (GetComponents H sep)) = Some (i, L) /\
        forall j Lj, nth_error (fst (GetComponents H sep)) j = Some Lj ->
                     (floorLimit H b < GraphLen Lj <-> j = i)) /\
  (forall (IntHash : list Z -> Z) (combineNodes : Node -> Node -> Edges -> option Node)
          (Cache : Type) (CheckNegative : Cache -> Edges -> list Graph -> bool)
          (AddNegative : Cache -> Edges -> Graph -> Cache)
          (schedule : list (list nat) -> list (list nat)) (G : Graph) (k : Z)
          (fuel : nat) (cache : Cache) (H' : Graph) (Conn : list Z) (allowedFull : Edges),
      findDecomp IntHash combineNodes Cache CheckNegative AddNegative schedule
                 (mkLogKDecomp G k b) fuel cache H' Conn allowedFull
      <> Aborted NoValidParent).
Proof.
  intros Hr Hb.
  pose proof (floorLimit_half H b Hb) as Hhalf.
  pose proof (GetComponents_sumLen H sep) as Hsum.
  assert (Huniq : forall i j Li Lj,
      nth_error (fst (GetComponents H sep)) i = Some Li ->
      nth_error (fst (GetComponents H sep)) j = Some Lj ->
      floorLimit H b < GraphLen Li -> floorLimit H b < GraphLen Lj -> i = j).
  { intros i j Li Lj Hi Hj Hli Hlj. destruct (Nat.eq_dec i j) as [|Hne]; [assumption|].
    pose proof (sumLen_two _ _ _ _ _ Hi Hj Hne). lia. }
  split; [exact Huniq|]. split.
  - intros p Hp. destruct (ParentCheck_Check_low _ _ _ _ _ Hp) as [limit [Hlim Hlow]].
    rewrite (balancednessLimit_floor H b Hr) in Hlim. injection Hlim as <-.
    apply findLow_lowComponent in Hlow.
    destruct (findLow (floorLimit H b) (fst (GetComponents H sep))) as [[i L]|] eqn:Ef;
      [|contradiction].
    exists i, L. split; [reflexivity|].
    destruct (findLow_Some _ _ _ _ Ef) as [Hi Hl].
    intros j Lj Hj. split.
    + intros Hlj. exact (Huniq j i Lj L Hj Hi Hlj Hl).
    + intros ->. congruence.
  - intros. apply findDecomp_avoids_NoValidParent.
Qed.

(** The witness of C10: the path [e1(1,2), e2(2,3), e3(3,4)] and the parent
    [e1], with the balance factor 2. *)
Lemma low_component_unique_witness :
  let H := mkGraph [mkEdge 1 [1; 2]; mkEdge 2 [2; 3]; mkEdge 3 [3; 4]] [] in
  let sep := [mkEdge 1 [1; 2]] in
  (inRange H 2 /\ 2 <= 2) /\
  (forall p, ParentCheck_Check GetComponents p H sep 2 = Some true ->
      exists i L, findLow (floorLimit H 2) (fst (GetComponents H sep)) = Some (i, L) /\
        forall j Lj, nth_error (fst (GetComponents H sep)) j = Some Lj ->
                     (floorLimit H 2 < GraphLen Lj <-> j = i)).
Proof.
  intros H sep.
  assert (Hr : inRange H 2) by (repeat split; decide_Z).
  assert (Hb : 2 <= 2) by lia.
  split; [auto|]. exact (proj1 (proj2 (low_component_unique H sep 2 Hr Hb))).
Defined.

(** ** The leaf search and the attach operation *)

(** Induction on trees, with the hypothesis for every child. *)
Lemma Node_induction (P : Node -> Prop) :
  (forall bag cover children, Forall P children -> P (mkNode bag cover children)) ->
  forall n, P n.
Proof.
  intros Hstep. fix IH 1. intros [bag cover children]. apply Hstep.
  induction children as [|c cs IHcs]; constructor; [apply IH | exact IHcs].
Qed.

(** The loop of [CheckLeaves] over the children. *)
Fixpoint tryChildren (vertices : list Z) (subtree : Node) (cs : list Node) : bool * list Node :=
  match cs with
  | [] => (false, [])
  | c :: cs' =>
      let (ok, result) := CheckLeaves c vertices subtree in
      if ok then (true, result :: cs')
      else let (ok', cs'') := tryChildren vertices subtree cs' in (ok', c :: cs'')
  end.

Lemma CheckLeaves_unfold (n : Node) (vertices : list Z) (subtree : Node) :
  CheckLeaves n vertices subtree =
  if (len (Children n) =? 0) && Subset vertices (Bag n)
  then (true, mkNode (Bag n) (Cover n) [subtree])
  else
    let (ok, cs) := tryChildren vertices subtree (Children n) in
    if ok then (true, mkNode (Bag n) (Cover n) cs) else (false, emptyNode).
Proof.
  destruct n as [bag cover children]. cbn [CheckLeaves Children Bag Cover].
  destruct ((len children =? 0) && Subset vertices bag); [reflexivity|].
  assert (Heq : forall cs,
    (fix tryChildren (cs : list Node) : bool * list Node :=
       match cs with
       | [] => (false, [])
       | c :: cs' =>
           let (ok, result) := CheckLeaves c vertices subtree in
           if ok then (true, result :: cs')
           else let (ok', cs'') := tryChildren cs' in (ok', c :: cs'')
       end) cs = tryChildren vertices subtree cs).
  { induction cs as [|c cs IH]; simpl; [reflexivity|]. now rewrite IH. }
  now rewrite Heq.
Qed.

(** The leaves below the children [cs], numbered from [i]. *)
Fixpoint leafPathsFrom (i : nat) (cs : list Node) : list (list nat) :=
  match cs with
  | [] => []
  | c :: cs' => map (cons i) (leafPaths c) ++ leafPathsFrom (S i) cs'
  end.

Lemma leafPaths_unfold (n : Node) :
  leafPaths n = match Children n with [] => [[]] | cs => leafPathsFrom 0 cs end.
Proof.
  destruct n as [bag cover children]. cbn [leafPaths Children].
  destruct children as [|c cs]; [reflexivity|].
  assert (Heq : forall i cs,
    (fix below (i : nat) (cs : list Node) : list (list nat) :=
       match cs with
       | [] => []
       | c :: cs' => map (cons i) (leafPaths c) ++ below (S i) cs'
       end) i cs = leafPathsFrom i cs).
  { intros i cs0. revert i. induction cs0 as [|c0 cs0 IH]; intros i; simpl; [reflexivity|].
    now rewrite IH. }
  now rewrite Heq.
Qed.

Lemma find_map {A B : Type} (f : A -> B) (test : B -> bool) (s : list A) :
  find test (map f s) = option_map f (find (fun x => test (f x)) s).
Proof.
  induction s as [|x s IH]; simpl; [reflexivity|].
  destruct (test (f x)); [reflexivity|exact IH].
Qed.

Lemma find_app' {A : Type} (test : A -> bool) (s1 s2 : list A) :
  find test (s1 ++ s2) = match find test s1 with Some x => Some x | None => find test s2 end.
Proof.
  induction s1 as [|x s1 IH]; simpl; [reflexivity|].
  destruct (test x); [reflexivity|exact IH].
Qed.

Lemma find_ext' {A : Type} (f g : A -> bool) (s : list A) :
  (forall x, f x = g x) -> find f s = find g s.
Proof.
  intros Hfg. induction s as [|x s IH]; simpl; [reflexivity|]. now rewrite Hfg, IH.
Qed.

Lemma leafPathsFrom_In (i : nat) (cs : list Node) (path : list nat) :
  In path (leafPathsFrom i cs) -> exists j p, path = j :: p /\ (i <= j)%nat.
Proof.
  revert i. induction cs as [|c cs IH]; intros i; simpl; [intros []|].
  rewrite in_app_iff, in_map_iff. intros [[p [<- _]]|Hin].
  - exists i, p. split; [reflexivity|lia].
  - destruct (IH _ Hin) as [j [p [-> Hle]]]. exists j, p. split; [reflexivity|lia].
Qed.

(** The loop over the children finds the first leaf, in preorder, below the
    children that matches, and grafts the subtree there. *)
Lemma tryChildren_spec (vertices : list Z) (subtree : Node) (cs : list Node) :
  Forall (fun c => CheckLeaves c vertices subtree =
                   match find (leafMatches vertices c) (leafPaths c) with
                   | Some p => (true, graftAt c p subtree)
                   | None => (false, emptyNode)
                   end) cs ->
  forall (i : nat) (test : list nat -> bool),
  (forall k p c, nth_error cs k = Some c -> test ((i + k)%nat :: p) = leafMatches vertices c p) ->
  match find test (leafPathsFrom i cs) with
  | Some (j :: p) =>
      tryChildren vertices subtree cs
      = (true, updateNth (j - i) (fun c => graftAt c p subtree) cs)
  | Some [] => False
  | None => fst (tryChildren vertices subtree cs) = false
  end.
Proof.
  intros Hall. induction Hall as [|c cs Hc Hcs IH]; intros i test Htest; [reflexivity|].
  cbn [leafPathsFrom tryChildren]. rewrite find_app', find_map.
  assert (Hm : forall p, test (i :: p) = leafMatches vertices c p).
  { intros p. specialize (Htest 0%nat p c eq_refl). now rewrite Nat.add_0_r in Htest. }
  rewrite (find_ext' _ _ _ Hm). rewrite Hc.
  destruct (find (leafMatches vertices c) (leafPaths c)) as [p|]; cbn [option_map].
  - rewrite Nat.sub_diag. reflexivity.
  - specialize (IH (S i) test).
    assert (Htest' : forall k p c0, nth_error cs k = Some c0 ->
                       test ((S i + k)%nat :: p) = leafMatches vertices c0 p).
    { intros k p c0 Hk. specialize (Htest (S k) p c0 Hk).
      now replace (i + S k)%nat with (S i + k)%nat in Htest by lia. }
    specialize (IH Htest').
    destruct (find test (leafPathsFrom (S i) cs)) as [path|] eqn:Ef.
    + apply find_some in Ef. destruct Ef as [Hin _].
      destruct (leafPathsFrom_In _ _ _ Hin) as [j [p [-> Hle]]].
      rewrite IH. replace (j - i)%nat with (S (j - S i)) by lia. reflexivity.
    + destruct (tryChildren vertices subtree cs) as [ok cs'']. simpl in IH. now subst ok.
Qed.

(** [CheckLeaves] takes the first leaf in preorder whose bag contains the
    vertices and makes the subtree its only child; it reports failure when no
    leaf matches. *)
Lemma CheckLeaves_spec (vertices : list Z) (subtree : Node) (n : Node) :
  CheckLeaves n vertices subtree =
  match find (leafMatches vertices n) (leafPaths n) with
  | Some p => (true, graftAt n p subtree)
  | None => (false, emptyNode)
  end.
Proof.
  induction n as [bag cover children IH] using Node_induction.
  rewrite CheckLeaves_unfold, leafPaths_unfold. cbn [Children Bag Cover].
  destruct children as [|c cs].
  - cbn [find]. unfold leafMatches at 1. cbn [nodeAt Bag].
    change (len (@nil Node) =? 0) with true. cbn [andb].
    destruct (Subset vertices bag); reflexivity.
  - replace (len (c :: cs) =? 0) with false
      by (symmetry; apply Z.eqb_neq; unfold len; simpl length; lia).
    cbn [andb].
    pose proof (tryChildren_spec vertices subtree (c :: cs) IH 0%nat
                  (leafMatches vertices (mkNode bag cover (c :: cs)))) as Hspec.
    assert (Htest : forall k p c0, nth_error (c :: cs) k = Some c0 ->
              leafMatches vertices (mkNode bag cover (c :: cs)) ((0 + k)%nat :: p)
              = leafMatches vertices c0 p).
    { intros k p c0 Hk. unfold leafMatches. cbn [nodeAt Children Nat.add]. now rewrite Hk. }
    specialize (Hspec Htest).
    destruct (find (leafMatches vertices (mkNode bag cover (c :: cs)))
                   (leafPathsFrom 0 (c :: cs))) as [[|j p]|].
    + contradiction.
    + rewrite Hspec. cbn [graftAt Bag Cover Children]. now rewrite Nat.sub_0_r.
    + destruct (tryChildren vertices subtree (c :: cs)) as [ok cs'']. simpl in Hspec.
      now subst ok.
Qed.

Lemma leafPathsFrom_sound (cs : list Node) :
  Forall (fun c => forall p, In p (leafPaths c) ->
                   exists m, nodeAt c p = Some m /\ Children m = []) cs ->
  forall i path, In path (leafPathsFrom i cs) ->
  exists j p c, path = (i + j)%nat :: p /\ nth_error cs j = Some c /\
                exists m, nodeAt c p = Some m /\ Children m = [].
Proof.
  intros Hall. induction Hall as [|c cs Hc Hcs IH]; intros i path; simpl; [intros []|].
  rewrite in_app_iff, in_map_iff. intros [[p [<- Hp]]|Hin].
  - exists 0%nat, p, c. rewrite Nat.add_0_r. auto.
  - destruct (IH _ _ Hin) as [j [p [c0 [-> [Hj Hm]]]]].
    exists (S j), p, c0. split; [f_equal; lia|]. auto.
Qed.

(** The paths of [leafPaths] lead to leaves. *)
Lemma leafPaths_sound (n : Node) (p : list nat) :
  In p (leafPaths n) -> exists m, nodeAt n p = Some m /\ Children m = [].
Proof.
  revert p. induction n as [bag cover children IH] using Node_induction. intros p.
  rewrite leafPaths_unfold. cbn [Children]. destruct children as [|c cs].
  - intros [<-|[]]. eexists. split; reflexivity.
  - intros Hin. destruct (leafPathsFrom_sound _ IH _ _ Hin) as [j [q [c0 [-> [Hj Hm]]]]].
    cbn [nodeAt Children Nat.add]. now rewrite Hj.
Qed.



(** ** The components are the connected components *)

Lemma Edge_eq_dec (a b : Edge) : {a = b} + {a <> b}.
Proof. decide equality; [apply (list_eq_dec Z.eq_dec) | apply Z.eq_dec]. Qed.

Lemma Item_eq_dec (a b : Item) : {a = b} + {a <> b}.
Proof.
  decide equality; [apply Edge_eq_dec | apply (list_eq_dec Edge_eq_dec)].
Qed.

(** [GetComponents] places the items of the graph one after the other. *)
Lemma placeEdge_items (sepV : list Z) (es : list Edge) (st : list Comp * list Edge) :
  fst (fold_left (placeEdge sepV) es st) = fold_left (placeItem sepV) (map IEdge es) (fst st).
Proof.
  revert st. induction es as [|e es IH]; intros st; simpl; [reflexivity|].
  rewrite IH. f_equal. unfold placeEdge, placeItem, actualVertices. simpl.
  destruct (Diff (Vertices e) sepV); reflexivity.
Qed.

Lemma placeSpecial_items (sepV : list Z) (sps : list Edges) (cs : list Comp) :
  fold_left (placeSpecial sepV) sps cs = fold_left (placeItem sepV) (map ISpecial sps) cs.
Proof.
  revert cs. induction sps as [|sp sps IH]; intros cs; simpl; [reflexivity|].
  rewrite IH. f_equal.
Qed.

Definition finalComps (H : Graph) (sep : Edges) : list Comp :=
  fold_left (placeItem (EdgesVertices sep)) (graphItems H) [].

Lemma GetComponents_finalComps (H : Graph) (sep : Edges) :
  fst (GetComponents H sep) = map compGraph (finalComps H sep).
Proof.
  unfold GetComponents, finalComps, graphItems. cbn [fst].
  rewrite fold_left_app, placeSpecial_items, placeEdge_items. reflexivity.
Qed.

Lemma graphItems_compGraph (c : Comp) : graphItems (compGraph c) = compItems c.
Proof. reflexivity. Qed.

Lemma GraphLen_compItems (c : Comp) : GraphLen (compGraph c) = len (compItems c).
Proof. unfold GraphLen, compItems. simpl. rewrite len_app. unfold len. now rewrite !length_map. Qed.

Lemma compItems_merge_In (a b : Comp) (x : Item) :
  In x (compItems (mergeComp a b)) <-> In x (compItems a) \/ In x (compItems b).
Proof.
  unfold compItems, mergeComp. simpl. rewrite !map_app, !in_app_iff. tauto.
Qed.

Lemma compItems_merge_perm (a b : Comp) :
  Permutation (compItems (mergeComp a b)) (compItems a ++ compItems b).
Proof.
  unfold compItems, mergeComp. simpl. rewrite !map_app.
  rewrite <- !app_assoc. apply Permutation_app_head.
  rewrite !app_assoc. apply Permutation_app_tail. apply Permutation_app_comm.
Qed.

Lemma compItems_itemComp (actual : list Z) (x : Item) : compItems (itemComp actual x) = [x].
Proof. destruct x; reflexivity. Qed.

Lemma cVerts_itemComp (actual : list Z) (x : Item) : cVerts (itemComp actual x) = actual.
Proof. destruct x; reflexivity. Qed.

(** The merged component: its items and its vertices. *)
Lemma merged_items_In (item : Comp) (hits : list Comp) (x : Item) :
  In x (compItems (fold_right mergeComp item hits)) <->
  In x (compItems item) \/ exists h, In h hits /\ In x (compItems h).
Proof.
  induction hits as [|h hits IH]; simpl.
  - split; [tauto|]. intros [H|[h [[] _]]]. exact H.
  - rewrite compItems_merge_In, IH. split.
    + intros [H|[H|[h' [Hh' Hx]]]]; [right; exists h; tauto | tauto | right; exists h'; tauto].
    + intros [H|[h' [[<-|Hh'] Hx]]]; [tauto | tauto | right; right; exists h'; tauto].
Qed.

Lemma merged_verts_In (item : Comp) (hits : list Comp) (v : Z) :
  In v (cVerts (fold_right mergeComp item hits)) <->
  In v (cVerts item) \/ exists h, In h hits /\ In v (cVerts h).
Proof.
  induction hits as [|h hits IH]; simpl.
  - split; [tauto|]. intros [H|[h [[] _]]]. exact H.
  - rewrite in_app_iff, IH. split.
    + intros [H|[H|[h' [Hh' Hx]]]]; [right; exists h; tauto | tauto | right; exists h'; tauto].
    + intros [H|[h' [[<-|Hh'] Hx]]]; [tauto | tauto | right; right; exists h'; tauto].
Qed.

Lemma merged_items_perm (item : Comp) (hits : list Comp) :
  Permutation (compItems (fold_right mergeComp item hits))
              (flat_map compItems hits ++ compItems item).
Proof.
  induction hits as [|h hits IH]; simpl; [reflexivity|].
  rewrite compItems_merge_perm, <- app_assoc. now apply Permutation_app_head.
Qed.

Lemma flat_map_filter_perm {A B : Type} (g : A -> list B) (f : A -> bool) (s : list A) :
  Permutation (flat_map g (filter (fun x => negb (f x)) s) ++ flat_map g (filter f s))
              (flat_map g s).
Proof.
  induction s as [|x s IH]; simpl; [reflexivity|].
  destruct (f x); simpl.
  - rewrite <- IH. rewrite !app_assoc. apply Permutation_app_tail. apply Permutation_app_comm.
  - rewrite <- app_assoc. now apply Permutation_app_head.
Qed.

Lemma touches_spec (vs : list Z) (c : Comp) :
  touches vs c = true <-> exists v, In v vs /\ In v (cVerts c).
Proof.
  unfold touches. rewrite existsb_exists. split; intros [v [H1 H2]]; exists v.
  - apply Mem_In in H2. tauto.
  - split; [tauto|]. apply Mem_In. tauto.
Qed.

(** Items are connected when a chain of items, each linked to the next, leads
    from one to the other inside a set of items. *)
Definition connectedIn (sepV : list Z) (S : list Item) : Item -> Item -> Prop :=
  Relation_Operators.clos_refl_sym_trans Item
    (fun x y => In x S /\ In y S /\ linked sepV x y).

(** What holds of the components while the items are placed: the vertices of
    a component are the vertices outside the separator of its items; the
    components share no vertex; they hold the placed items, each once; and the
    items of a component are connected. *)
Record CompsInv (sepV : list Z) (placed : list Item) (cs : list Comp) : Prop := mkCompsInv {
  inv_verts : forall c, In c cs -> forall v,
      In v (cVerts c) <-> exists x, In x (compItems c) /\ In v (actualVertices sepV x);
  inv_disj : ForallOrdPairs disjointComps cs;
  inv_perm : Permutation (flat_map compItems cs) (filter (isPlaced sepV) placed);
  inv_conn : forall c, In c cs -> forall x y,
      In x (compItems c) -> In y (compItems c) -> connectedIn sepV (compItems c) x y;
  inv_nonempty : forall c, In c cs -> compItems c <> []
}.

Lemma connectedIn_mono (sepV : list Z) (S S' : list Item) (x y : Item) :
  (forall z, In z S -> In z S') -> connectedIn sepV S x y -> connectedIn sepV S' x y.
Proof.
  intros Hsub Hc. induction Hc as [x y [Hx [Hy Hl]]|x|x y _ IH|x y z _ IH1 _ IH2].
  - apply Relation_Operators.rst_step. auto.
  - apply Relation_Operators.rst_refl.
  - now apply Relation_Operators.rst_sym.
  - eapply Relation_Operators.rst_trans; eauto.
Qed.

Lemma ForallOrdPairs_filter {A : Type} (R : A -> A -> Prop) (f : A -> bool) (s : list A) :
  ForallOrdPairs R s -> ForallOrdPairs R (filter f s).
Proof.
  induction 1 as [|a s Ha Hs IH]; simpl; [constructor|].
  destruct (f a); [|exact IH]. constructor; [|exact IH].
  apply Forall_forall. intros x Hx. apply filter_In in Hx.
  rewrite Forall_forall in Ha. apply Ha. tauto.
Qed.

Lemma ForallOrdPairs_snoc {A : Type} (R : A -> A -> Prop) (s : list A) (y : A) :
  ForallOrdPairs R s -> (forall x, In x s -> R x y) -> ForallOrdPairs R (s ++ [y]).
Proof.
  induction 1 as [|a s Ha Hs IH]; simpl; intros Hy.
  - constructor; constructor.
  - constructor.
    + apply Forall_forall. intros x Hx. apply in_app_iff in Hx.
      destruct Hx as [Hx|[<-|[]]].
      * rewrite Forall_forall in Ha. now apply Ha.
      * apply Hy. now left.
    + apply IH. intros x Hx. apply Hy. now right.
Qed.

Lemma disjointComps_sym (c1 c2 : Comp) : disjointComps c1 c2 -> disjointComps c2 c1.
Proof. unfold disjointComps. intros H v H2 H1. exact (H v H1 H2). Qed.

(** Two components of the list that share a vertex are the same. *)
Lemma comps_same (cs : list Comp) (c1 c2 : Comp) (v : Z) :
  ForallOrdPairs disjointComps cs -> In c1 cs -> In c2 cs ->
  In v (cVerts c1) -> In v (cVerts c2) -> c1 = c2.
Proof.
  intros Hd H1 H2 Hv1 Hv2.
  destruct (ForallOrdPairs_In Hd _ _ H1 H2) as [Heq|[Hdis|Hdis]]; [exact Heq| |].
  - exfalso. exact (Hdis v Hv1 Hv2).
  - exfalso. exact (Hdis v Hv2 Hv1).
Qed.

Lemma CompsInv_nil (sepV : list Z) : CompsInv sepV [] [].
Proof.
  constructor; simpl.
  - intros c [].
  - constructor.
  - constructor.
  - intros c [].
  - intros c [].
Qed.

Lemma filter_snoc {A : Type} (f : A -> bool) (s : list A) (x : A) :
  filter f (s ++ [x]) = filter f s ++ (if f x then [x] else []).
Proof. rewrite filter_app. reflexivity. Qed.

(** Placing an item keeps the invariant. *)
Lemma CompsInv_place (sepV : list Z) (placed : list Item) (cs : list Comp) (x : Item) :
  CompsInv sepV placed cs -> CompsInv sepV (placed ++ [x]) (placeItem sepV cs x).
Proof.
  intros [Hverts Hdisj Hperm Hconn Hne].
  assert (Hfilter : filter (isPlaced sepV) (placed ++ [x]) =
                    filter (isPlaced sepV) placed ++
                    match actualVertices sepV x with [] => [] | _ => [x] end).
  { rewrite filter_snoc. unfold isPlaced at 2. now destruct (actualVertices sepV x). }
  unfold placeItem.
  destruct (actualVertices sepV x) as [|a0 actual0] eqn:Eact.
  { constructor; try assumption. now rewrite Hfilter, app_nil_r. }
  set (actual := a0 :: actual0) in *.
  unfold addToComps. rewrite cVerts_itemComp.
  set (hits := filter (touches actual) cs).
  set (miss := filter (fun c => negb (touches actual c)) cs).
  set (M := fold_right mergeComp (itemComp actual x) hits).
  assert (Hhits : forall h, In h hits -> In h cs /\ touches actual h = true).
  { intros h Hh. apply filter_In in Hh. exact Hh. }
  assert (Hmiss : forall m, In m miss -> In m cs /\ touches actual m = false).
  { intros m Hm. apply filter_In in Hm. destruct Hm as [H1 H2].
    apply negb_true_iff in H2. tauto. }
  assert (HMitems : forall y, In y (compItems M) <->
                              y = x \/ exists h, In h hits /\ In y (compItems h)).
  { intros y. unfold M. rewrite merged_items_In, compItems_itemComp. simpl.
    intuition (subst; auto). }
  assert (HMverts : forall v, In v (cVerts M) <->
                              In v actual \/ exists h, In h hits /\ In v (cVerts h)).
  { intros v. unfold M. now rewrite merged_verts_In, cVerts_itemComp. }
  constructor.
  - (* vertices *)
    intros c Hc v. apply in_app_iff in Hc. destruct Hc as [Hc|[<-|[]]].
    + apply Hverts. now apply Hmiss.
    + rewrite HMverts. split.
      * intros [Hv|[h [Hh Hv]]].
        -- exists x. split; [apply HMitems; now left | now rewrite Eact].
        -- destruct (Hhits h Hh) as [Hcs _].
           apply (Hverts h Hcs) in Hv. destruct Hv as [y [Hy Hv]].
           exists y. split; [apply HMitems; right; exists h; tauto | exact Hv].
      * intros [y [Hy Hv]]. apply HMitems in Hy. destruct Hy as [->|[h [Hh Hy]]].
        -- left. now rewrite Eact in Hv.
        -- right. exists h. split; [exact Hh|].
           destruct (Hhits h Hh) as [Hcs _]. apply (Hverts h Hcs). eauto.
  - (* disjointness *)
    apply ForallOrdPairs_snoc; [now apply ForallOrdPairs_filter|].
    intros m Hm v Hv1 Hv2. destruct (Hmiss m Hm) as [Hmcs Hmt].
    apply HMverts in Hv2. destruct Hv2 as [Hv2|[h [Hh Hv2]]].
    + assert (touches actual m = true) by (apply touches_spec; eauto). congruence.
    + destruct (Hhits h Hh) as [Hhcs Hht].
      assert (m = h) by (eapply comps_same; eauto). subst. congruence.
  - (* the placed items *)
    rewrite Hfilter, flat_map_app. simpl. rewrite app_nil_r.
    unfold M. rewrite merged_items_perm, compItems_itemComp.
    rewrite app_assoc. apply Permutation_app_tail.
    rewrite <- Hperm. apply flat_map_filter_perm.
  - (* connectedness *)
    intros c Hc y z Hy Hz. apply in_app_iff in Hc. destruct Hc as [Hc|[<-|[]]].
    + apply Hconn; [now apply Hmiss|assumption|assumption].
    + assert (Hx : In x (compItems M)) by (apply HMitems; now left).
      assert (Htox : forall w, In w (compItems M) -> connectedIn sepV (compItems M) w x).
      { intros w Hw. apply HMitems in Hw. destruct Hw as [->|[h [Hh Hw]]].
        - apply Relation_Operators.rst_refl.
        - destruct (Hhits h Hh) as [Hhcs Hht].
          apply touches_spec in Hht. destruct Hht as [v [Hva Hvh]].
          apply (Hverts h Hhcs) in Hvh. destruct Hvh as [u [Hu Hvu]].
          assert (Hsub : forall t, In t (compItems h) -> In t (compItems M)).
          { intros t Ht. apply HMitems. right. exists h. tauto. }
          eapply Relation_Operators.rst_trans.
          + apply (connectedIn_mono sepV (compItems h)); [exact Hsub|].
            apply (Hconn h Hhcs w u Hw Hu).
          + apply Relation_Operators.rst_step. split; [now apply Hsub|]. split; [exact Hx|].
            exists v. split; [exact Hvu | now rewrite Eact]. }
      eapply Relation_Operators.rst_trans; [apply Htox; exact Hy|].
      apply Relation_Operators.rst_sym. apply Htox. exact Hz.
  - (* no empty component *)
    intros c Hc. apply in_app_iff in Hc. destruct Hc as [Hc|[<-|[]]].
    + apply Hne. now apply Hmiss.
    + intros Hnil. assert (Hx : In x (compItems M)) by (apply HMitems; now left).
      rewrite Hnil in Hx. exact Hx.
Qed.

Lemma CompsInv_fold (sepV : list Z) (items placed : list Item) (cs : list Comp) :
  CompsInv sepV placed cs ->
  CompsInv sepV (placed ++ items) (fold_left (placeItem sepV) items cs).
Proof.
  revert placed cs. induction items as [|x items IH]; intros placed cs Hinv; simpl.
  - now rewrite app_nil_r.
  - replace (placed ++ x :: items) with ((placed ++ [x]) ++ items)
      by (rewrite <- app_assoc; reflexivity).
    apply IH. now apply CompsInv_place.
Qed.

Lemma finalComps_inv (H : Graph) (sep : Edges) :
  CompsInv (EdgesVertices sep) (graphItems H) (finalComps H sep).
Proof.
  unfold finalComps.
  apply (CompsInv_fold (EdgesVertices sep) (graphItems H) [] []). apply CompsInv_nil.
Qed.

Lemma count_occ_flat_map_In {A : Type} (g : A -> list Item) (s : list A) (c : A) (y : Item) :
  In c s -> (count_occ Item_eq_dec (g c) y <= count_occ Item_eq_dec (flat_map g s) y)%nat.
Proof.
  induction s as [|a s IH]; simpl; [intros []|].
  rewrite count_occ_app. intros [->|Hin]; [lia|]. specialize (IH Hin). lia.
Qed.

Lemma count_occ_filter_le (f : Item -> bool) (s : list Item) (y : Item) :
  (count_occ Item_eq_dec (filter f s) y <= count_occ Item_eq_dec s y)%nat.
Proof.
  induction s as [|a s IH]; simpl; [lia|].
  destruct (f a); simpl; destruct (Item_eq_dec a y); lia.
Qed.

Lemma count_occ_filter_eq (f : Item -> bool) (s : list Item) (y : Item) :
  f y = true -> count_occ Item_eq_dec (filter f s) y = count_occ Item_eq_dec s y.
Proof.
  intros Hf. induction s as [|a s IH]; simpl; [reflexivity|].
  destruct (f a) eqn:Ea; simpl; destruct (Item_eq_dec a y); try lia. subst. congruence.
Qed.

Lemma count_occ_flat_map_zero {A : Type} (g : A -> list Item) (s : list A) (y : Item) :
  (forall c, In c s -> ~ In y (g c)) -> count_occ Item_eq_dec (flat_map g s) y = 0%nat.
Proof.
  intros Hall. apply count_occ_not_In. rewrite in_flat_map. intros [c [Hc Hy]].
  exact (Hall c Hc Hy).
Qed.

Lemma ForallOrdPairs_middle {A : Type} (R : A -> A -> Prop) (l1 l2 : list A) (a : A) :
  ForallOrdPairs R (l1 ++ a :: l2) ->
  (forall b, In b l1 -> R b a) /\ (forall b, In b l2 -> R a b).
Proof.
  induction l1 as [|x l1 IH]; simpl; intros Hf; inversion Hf as [|? ? Hx Hrest]; subst.
  - split; [intros b []|]. now apply Forall_forall.
  - destruct (IH Hrest) as [H1 H2]. split; [|exact H2].
    intros b [<-|Hb]; [|now apply H1].
    rewrite Forall_forall in Hx. apply Hx. apply in_app_iff. right. now left.
Qed.

(** A multiset that is included in another is not longer. *)
Lemma count_occ_le_length (l1 l2 : list Item) :
  (forall y, count_occ Item_eq_dec l1 y <= count_occ Item_eq_dec l2 y)%nat ->
  (length l1 <= length l2)%nat.
Proof.
  revert l2. induction l1 as [|a l1 IH]; intros l2 Hle; simpl; [lia|].
  assert (Ha : In a l2).
  { apply (count_occ_In Item_eq_dec). specialize (Hle a). simpl in Hle.
    destruct (Item_eq_dec a a); [lia|contradiction]. }
  apply in_split in Ha. destruct Ha as [p [q ->]].
  rewrite length_app. simpl.
  assert (length l1 <= length (p ++ q))%nat; [|rewrite length_app in *; lia].
  apply IH. intros y. specialize (Hle y). simpl in Hle.
  rewrite count_occ_app in *. simpl in Hle.
  destruct (Item_eq_dec a y); lia.
Qed.

Lemma perm_count (l1 l2 : list Item) (y : Item) :
  Permutation l1 l2 -> count_occ Item_eq_dec l1 y = count_occ Item_eq_dec l2 y.
Proof. intros Hp. now apply (Permutation_count_occ Item_eq_dec). Qed.

(** An item of the invariant's components is a placed item of the graph. *)
Lemma CompsInv_item (sepV : list Z) (placed : list Item) (cs : list Comp) (c : Comp) (y : Item) :
  CompsInv sepV placed cs -> In c cs -> In y (compItems c) ->
  In y placed /\ isPlaced sepV y = true.
Proof.
  intros Hinv Hc Hy.
  assert (Hin : In y (flat_map compItems cs)) by (apply in_flat_map; eauto).
  apply (Permutation_in _ (inv_perm _ _ _ Hinv)) in Hin.
  apply filter_In in Hin. exact Hin.
Qed.

(** A placed item of the graph is in some component. *)
Lemma CompsInv_placed (sepV : list Z) (placed : list Item) (cs : list Comp) (y : Item) :
  CompsInv sepV placed cs -> In y placed -> isPlaced sepV y = true ->
  exists c, In c cs /\ In y (compItems c).
Proof.
  intros Hinv Hy Hp.
  assert (Hin : In y (filter (isPlaced sepV) placed)) by (apply filter_In; tauto).
  apply (Permutation_in _ (Permutation_sym (inv_perm _ _ _ Hinv))) in Hin.
  apply in_flat_map in Hin. exact Hin.
Qed.

Lemma isPlaced_vertex (sepV : list Z) (y : Item) :
  isPlaced sepV y = true -> exists v, In v (actualVertices sepV y).
Proof.
  unfold isPlaced. destruct (actualVertices sepV y) as [|v s]; [discriminate|].
  intros _. exists v. now left.
Qed.

(** All the copies of an item are in one component. *)
Lemma CompsInv_count (sepV : list Z) (placed : list Item) (cs : list Comp) (c : Comp) (y : Item) :
  CompsInv sepV placed cs -> In c cs -> In y (compItems c) ->
  count_occ Item_eq_dec (compItems c) y = count_occ Item_eq_dec placed y.
Proof.
  intros Hinv Hc Hy.
  destruct (CompsInv_item _ _ _ _ _ Hinv Hc Hy) as [Hpl Hp].
  rewrite <- (count_occ_filter_eq (isPlaced sepV) placed y Hp).
  rewrite <- (perm_count _ _ y (inv_perm _ _ _ Hinv)).
  destruct (isPlaced_vertex _ _ Hp) as [v Hv].
  destruct (in_split _ _ Hc) as [l1 [l2 Hsplit]].
  pose proof (inv_disj _ _ _ Hinv) as Hd. rewrite Hsplit in Hd.
  destruct (ForallOrdPairs_middle _ _ _ _ Hd) as [H1 H2].
  assert (Hvc : In v (cVerts c)) by (apply (inv_verts _ _ _ Hinv c Hc); eauto).
  rewrite Hsplit, flat_map_app. simpl. rewrite !count_occ_app.
  rewrite (count_occ_flat_map_zero compItems l1), (count_occ_flat_map_zero compItems l2); [lia| |].
  - intros c2 Hc2 Hy2. apply (H2 c2 Hc2 v Hvc).
    apply (inv_verts _ _ _ Hinv c2); [rewrite Hsplit; apply in_app_iff; right; now right|eauto].
  - intros c1 Hc1 Hy1. apply (H1 c1 Hc1 v); [|exact Hvc].
    apply (inv_verts _ _ _ Hinv c1); [rewrite Hsplit; apply in_app_iff; now left|eauto].
Qed.

(** The components of a component [L] of [H], for a second separator, lie
    inside the components of [H] for that separator. *)
Lemma comps_within (H : Graph) (p lam : Edges) (cL cc : Comp) :
  In cL (finalComps H p) -> In cc (finalComps (compGraph cL) lam) ->
  exists c', In c' (finalComps H lam) /\
    forall y, (count_occ Item_eq_dec (compItems cc) y
               <= count_occ Item_eq_dec (compItems c') y)%nat.
Proof.
  intros HcL Hcc.
  pose proof (finalComps_inv H p) as InvP.
  pose proof (finalComps_inv H lam) as InvH.
  pose proof (finalComps_inv (compGraph cL) lam) as InvL.
  rewrite graphItems_compGraph in InvL.
  set (sepV := EdgesVertices lam) in *.
  assert (HinH : forall y, In y (compItems cc) ->
                 In y (graphItems H) /\ isPlaced sepV y = true).
  { intros y Hy. destruct (CompsInv_item _ _ _ _ _ InvL Hcc Hy) as [HyL Hp].
    destruct (CompsInv_item _ _ _ _ _ InvP HcL HyL) as [HyH _]. tauto. }
  destruct (compItems cc) as [|x0 rest] eqn:Ecc.
  { exfalso. exact (inv_nonempty _ _ _ InvL cc Hcc Ecc). }
  rewrite <- Ecc in *.
  assert (Hx0 : In x0 (compItems cc)) by (rewrite Ecc; now left).
  destruct (HinH x0 Hx0) as [Hx0H Hx0p].
  destruct (CompsInv_placed _ _ _ _ InvH Hx0H Hx0p) as [c' [Hc' Hx0c']].
  exists c'. split; [exact Hc'|].
  assert (Hall : forall y, In y (compItems cc) -> In y (compItems c')).
  { intros y Hy.
    pose proof (inv_conn _ _ _ InvL cc Hcc x0 y Hx0 Hy) as Hconn.
    assert (Hiff : In x0 (compItems c') <-> In y (compItems c')); [|tauto].
    clear Hx0c' Hy Hx0 Hx0H Hx0p Ecc. unfold connectedIn in Hconn.
    induction Hconn as [a b [Ha [Hb [v [Hva Hvb]]]]|a|a b _ IH|a b c0 _ IH1 _ IH2];
      [|tauto|tauto|tauto].
    destruct (HinH a Ha) as [HaH Hap]. destruct (HinH b Hb) as [HbH Hbp].
    assert (Hstep : forall u w, In u (graphItems H) -> isPlaced sepV u = true ->
                    In w (graphItems H) -> isPlaced sepV w = true ->
                    In v (actualVertices sepV u) -> In v (actualVertices sepV w) ->
                    In u (compItems c') -> In w (compItems c')).
    { intros u w HuH Hup HwH Hwp Hvu Hvw Huc.
      destruct (CompsInv_placed _ _ _ _ InvH HwH Hwp) as [cw [Hcw Hwcw]].
      assert (c' = cw); [|now subst].
      apply (comps_same _ _ _ v (inv_disj _ _ _ InvH) Hc' Hcw).
      - apply (inv_verts _ _ _ InvH c' Hc'). eauto.
      - apply (inv_verts _ _ _ InvH cw Hcw). eauto. }
    split; [apply (Hstep a b)|apply (Hstep b a)]; assumption. }
  intros y. destruct (in_dec Item_eq_dec y (compItems cc)) as [Hy|Hny].
  - rewrite (CompsInv_count _ _ _ _ _ InvL Hcc Hy).
    rewrite (CompsInv_count _ _ _ _ _ InvH Hc' (Hall y Hy)).
    destruct (CompsInv_item _ _ _ _ _ InvL Hcc Hy) as [HyL _].
    rewrite <- (CompsInv_count _ _ _ _ _ InvP HcL HyL).
    pose proof (count_occ_flat_map_In compItems _ cL y HcL) as H1.
    rewrite (perm_count _ _ y (inv_perm _ _ _ InvP)) in H1.
    pose proof (count_occ_filter_le (isPlaced (EdgesVertices p)) (graphItems H) y). lia.
  - apply (count_occ_not_In Item_eq_dec) in Hny. lia.
Qed.

Lemma components_within (H : Graph) (p lam : Edges) (L c : Graph) :
  In L (fst (GetComponents H p)) -> In c (fst (GetComponents L lam)) ->
  exists c', In c' (fst (GetComponents H lam)) /\ GraphLen c <= GraphLen c'.
Proof.
  rewrite (GetComponents_finalComps H p), in_map_iff. intros [cL [<- HcL]].
  rewrite (GetComponents_finalComps (compGraph cL) lam), in_map_iff. intros [cc [<- Hcc]].
  destruct (comps_within H p lam cL cc HcL Hcc) as [c' [Hc' Hle]].
  exists (compGraph c'). split.
  - rewrite GetComponents_finalComps. now apply in_map.
  - rewrite !GraphLen_compItems. unfold len. apply count_occ_le_length in Hle. lia.
Qed.

(** A component is not empty. *)
Lemma component_nonempty (H : Graph) (sep : Edges) (c : Graph) :
  In c (fst (GetComponents H sep)) -> 1 <= GraphLen c.
Proof.
  rewrite GetComponents_finalComps, in_map_iff. intros [cc [<- Hcc]].
  pose proof (inv_nonempty _ _ _ (finalComps_inv H sep) cc Hcc) as Hne.
  rewrite GraphLen_compItems. unfold len. destruct (compItems cc); [contradiction|simpl; lia].
Qed.

(** ** The recursion depth *)

Lemma floorLimit_bounds (H : Graph) (b : Z) :
  1 <= b -> 0 <= floorLimit H b <= GraphLen H.
Proof.
  intros Hb. unfold floorLimit. pose proof (GraphLen_nonneg H) as Hn.
  split.
  - apply Z.div_pos; nia.
  - apply Z.div_le_upper_bound; nia.
Qed.

Lemma inRange_smaller (H H' : Graph) (b : Z) :
  inRange H b -> GraphLen H' <= GraphLen H -> inRange H' b.
Proof.
  unfold inRange. intros [[Hb Hm] Hr] Hle. repeat split; try lia.
  pose proof (GraphLen_nonneg H'). nia.
Qed.

Lemma smaller_le (b : Z) (H H' : Graph) : 1 <= b -> smaller b H H' -> GraphLen H' <= GraphLen H.
Proof.
  intros Hb Hs. pose proof (floorLimit_bounds H b Hb). destruct Hs; lia.
Qed.

(** A graph of size at most one has no smaller graph. *)
Lemma smaller_none (b : Z) (H H' : Graph) :
  2 <= b -> depthEnough b (GraphLen H) 0 -> ~ smaller b H H'.
Proof.
  unfold depthEnough, smaller, floorLimit. simpl. intros Hb Hd.
  pose proof (GraphLen_nonneg H) as Hn.
  assert (Hq : GraphLen H * (b - 1) / b = 0).
  { apply Z.div_small. nia. }
  rewrite Hq. lia.
Qed.

(** One level down, one unit of depth less is enough. *)
Lemma smaller_depth (b : Z) (H H' : Graph) (d : nat) :
  2 <= b -> smaller b H H' -> depthEnough b (GraphLen H) (S d) ->
  depthEnough b (GraphLen H') d.
Proof.
  unfold depthEnough, smaller, floorLimit. intros Hb Hs Hd.
  pose proof (GraphLen_nonneg H) as Hn.
  rewrite Nat2Z.inj_succ, !Z.pow_succ_r in Hd by lia.
  assert (HP : 0 <= (b - 1) ^ Z.of_nat d) by (apply Z.pow_nonneg; lia).
  assert (HQ : 0 < b ^ Z.of_nat d) by (apply Z.pow_pos_nonneg; lia).
  assert (HP1 : b = 2 -> (b - 1) ^ Z.of_nat d = 1).
  { intros ->. change (2 - 1) with 1. apply Z.pow_1_l. lia. }
  remember ((b - 1) ^ Z.of_nat d) as P eqn:EP. remember (b ^ Z.of_nat d) as Q eqn:EQ.
  remember (GraphLen H) as n eqn:En. remember (GraphLen H') as m eqn:Em.
  clear EP EQ En Em.
  pose proof (Z.mul_div_le (n * (b - 1)) b ltac:(lia)) as Hq1.
  pose proof (Z.mul_succ_div_gt (n * (b - 1)) b ltac:(lia)) as Hq2.
  remember (n * (b - 1) / b) as q eqn:Eq. clear Eq.
  assert (Hchild : forall m', m' <= q -> m' * P <= Q).
  { intros m' Hm'.
    assert (m' * P * b <= Q * b); [|nia].
    assert (m' * b <= n * (b - 1)) by nia.
    assert (m' * b * P <= n * (b - 1) * P) by (apply Z.mul_le_mono_nonneg_r; lia).
    nia. }
  destruct Hs as [[_ Hs]|[Hs1 Hs2]]; [now apply Hchild|].
  destruct (Z.eq_dec b 2) as [Hb2|Hb3].
  - rewrite (HP1 Hb2) in *. subst b. nia.
  - apply Hchild. nia.
Qed.

Lemma len_flat_map_sumLen (l : list Graph) :
  len (flat_map GEdges l) + len (flat_map Special l) = sumLen l.
Proof.
  induction l as [|c l IH]; simpl; [reflexivity|].
  rewrite !len_app. unfold GraphLen. lia.
Qed.

Lemma otherComps_all (l : list Graph) (s i : nat) :
  (i < s)%nat ->
  map snd (filter (fun ic => negb (Nat.eqb (fst ic) i)) (combine (seq s (length l)) l)) = l.
Proof.
  revert s. induction l as [|c l IH]; intros s Hlt; simpl; [reflexivity|].
  replace (Nat.eqb s i) with false by (symmetry; apply Nat.eqb_neq; lia).
  simpl. f_equal. apply IH. lia.
Qed.

Lemma otherComps_sumLen_from (l : list Graph) (s i : nat) (L : Graph) :
  (s <= i)%nat -> nth_error l (i - s) = Some L ->
  sumLen (map snd (filter (fun ic => negb (Nat.eqb (fst ic) i))
                          (combine (seq s (length l)) l))) + GraphLen L = sumLen l.
Proof.
  revert s. induction l as [|c l IH]; intros s Hle Hn.
  - destruct (i - s)%nat; discriminate.
  - simpl. destruct (Nat.eq_dec s i) as [->|Hne].
    + rewrite Nat.eqb_refl. simpl. rewrite Nat.sub_diag in Hn. simpl in Hn. injection Hn as ->.
      rewrite otherComps_all by lia. lia.
    + replace (Nat.eqb s i) with false by (symmetry; now apply Nat.eqb_neq).
      simpl. replace (i - s)%nat with (S (i - S s)) in Hn by lia. simpl in Hn.
      specialize (IH (S s) ltac:(lia) Hn). lia.
Qed.

Lemma otherComps_sumLen (comps : list Graph) (i : nat) (L : Graph) :
  nth_error comps i = Some L ->
  sumLen (otherComps i comps) + GraphLen L = sumLen comps.
Proof.
  intros Hn. unfold otherComps. apply otherComps_sumLen_from; [lia|].
  now rewrite Nat.sub_0_r.
Qed.

(** The upper graph is smaller: it leaves out the low component and gains
    one special edge. *)
Lemma compUp_smaller (H : Graph) (parentLam : Edges) (b : Z) (i : nat) (L : Graph)
  (special : Edges) :
  1 <= b ->
  findLow (floorLimit H b) (fst (GetComponents H parentLam)) = Some (i, L) ->
  let others := otherComps i (fst (GetComponents H parentLam)) in
  let tempEdgeSlice := snd (GetComponents H parentLam) ++ flat_map GEdges others in
  0 < len tempEdgeSlice ->
  smaller b H (mkGraph (NewEdges tempEdgeSlice) (flat_map Special others ++ [special])).
Proof.
  intros Hb Hlow others tempEdgeSlice Hpos.
  destruct (findLow_Some _ _ _ _ Hlow) as [Hn HL].
  pose proof (otherComps_sumLen _ _ _ Hn) as Hsum. fold others in Hsum.
  pose proof (GetComponents_count H parentLam) as Hcount.
  pose proof (len_flat_map_sumLen others) as Hfm.
  right. unfold GraphLen at 1 2. cbn [GEdges Special]. unfold NewEdges.
  rewrite len_app. change (len [special]) with 1.
  unfold tempEdgeSlice in *. rewrite len_app in *.
  pose proof (len_nonneg (flat_map Special others)). lia.
Qed.

Lemma bind_finishes {A B : Type} (m : Outcome A) (k : A -> Outcome B) :
  finishes m -> (forall a, m = Returned a -> finishes (k a)) -> finishes (bind m k).
Proof.
  unfold finishes. destruct m as [a|g|]; simpl; intros Hm Hk.
  - now apply Hk.
  - discriminate.
  - contradiction.
Qed.

Ltac finish_step :=
  match goal with
  | |- finishes (bind _ _) => apply bind_finishes; [|intros ? ?]
  | |- finishes (Returned _) => unfold finishes; discriminate
  | |- finishes (Aborted _) => unfold finishes; discriminate
  | |- finishes (match ?x with _ => _ end) => destruct x eqn:?
  | |- finishes (let '(_, _) := ?x in _) => destruct x eqn:?
  end.

(** What a true [BalancedCheck] says about the limit the code computed. *)
Lemma BalancedCheck_Check_true (getComponents : Graph -> Edges -> list Graph * list Edge)
  (IntHash : list Z -> Z) (H : Graph) (sep : Edges) (b : Z) :
  BalancedCheck_Check getComponents IntHash H sep b = Some true ->
  exists limit, balancednessLimit H b = Some limit /\
                forall c, In c (fst (getComponents H sep)) -> GraphLen c <= limit.
Proof.
  unfold BalancedCheck_Check. destruct (balancednessLimit H b) as [limit|]; [|discriminate].
  intros Hc. exists limit. split; [reflexivity|].
  destruct (existsb (fun c => limit <? GraphLen c) (fst (getComponents H sep))) eqn:Ee;
    [discriminate|].
  intros c Hin. apply Z.ltb_ge. exact (proj1 (existsb_false_forall _ _) Ee c Hin).
Qed.

Section DepthSection.

Variable IntHash : list Z -> Z.
Variable combineNodes : Node -> Node -> Edges -> option Node.
Variable Cache : Type.
Variable CheckNegative : Cache -> Edges -> list Graph -> bool.
Variable AddNegative : Cache -> Edges -> Graph -> Cache.
Variable schedule : list (list nat) -> list (list nat).
Variable l : LogKDecomp.
Variable H : Graph.

Hypothesis Hb : 2 <= BalFactor l.
Hypothesis Hrange : inRange H (BalFactor l).

Variable rec : Call Cache.
Hypothesis rec_finishes : forall H', smaller (BalFactor l) H H' ->
  forall cache Conn allowedFull, finishes (rec cache H' Conn allowedFull).

Lemma rootCase_finishes cache childLam childChi allowedFull comps_c :
  (forall c, In c comps_c -> smaller (BalFactor l) H c) ->
  finishes (rootCase Cache AddNegative rec cache childLam childChi allowedFull comps_c).
Proof.
  revert cache. induction comps_c as [|comp rest IH]; intros cache Hall; simpl.
  - unfold finishes; discriminate.
  - assert (Hrest : forall c, In c rest -> smaller (BalFactor l) H c)
      by (intros c Hc; apply Hall; now right).
    repeat (first [apply rec_finishes; apply Hall; now left | now apply IH | finish_step]).
Qed.

Lemma forkChildren_finishes cache childChi allowedFull comps_c :
  (forall c, In c comps_c -> smaller (BalFactor l) H c) ->
  finishes (forkChildren Cache rec cache childChi allowedFull comps_c).
Proof.
  revert cache. induction comps_c as [|comp rest IH]; intros cache Hall; simpl.
  - unfold finishes; discriminate.
  - assert (Hrest : forall c, In c rest -> smaller (BalFactor l) H c)
      by (intros c Hc; apply Hall; now right).
    repeat (first [apply rec_finishes; apply Hall; now left | now apply IH | finish_step]).
Qed.

Lemma attachingSubtrees_finishes above below connecting :
  finishes (attachingSubtrees combineNodes above below connecting).
Proof. unfold attachingSubtrees. repeat finish_step. Qed.

Lemma parentRound_finishes cache Conn allowedFull VerticesH childLam parentLam :
  (forall c, In c (fst (GetComponents H childLam)) ->
             GraphLen c <= floorLimit H (BalFactor l)) ->
  finishes
    (parentRound combineNodes Cache CheckNegative AddNegative l rec cache H Conn allowedFull
                 VerticesH childLam parentLam).
Proof.
  intros Hbal. unfold parentRound.
  rewrite (balancednessLimit_floor H (BalFactor l) Hrange).
  pose proof (compUp_smaller H parentLam (BalFactor l)) as Hup.
  destruct (GetComponents H parentLam) as [comps_p isolatedEdges] eqn:Ec.
  cbn [fst snd] in Hup.
  destruct (findLow (floorLimit H (BalFactor l)) comps_p) as [[i L]|] eqn:Elow;
    [|unfold finishes; discriminate].
  assert (Hchildren : forall c, In c (fst (GetComponents L childLam)) ->
                                smaller (BalFactor l) H c).
  { intros c Hc. left. split; [now apply (component_nonempty L childLam)|].
    destruct (findLow_Some _ _ _ _ Elow) as [Hn _]. apply nth_error_In in Hn.
    assert (HL : In L (fst (GetComponents H parentLam))) by (rewrite Ec; exact Hn).
    destruct (components_within H parentLam childLam L c HL Hc) as [c' [Hc' Hle]].
    specialize (Hbal c' Hc'). lia. }
  destruct (CheckNegative cache childLam (fst (GetComponents L childLam)));
    [unfold finishes; discriminate|].
  apply bind_finishes.
  - destruct (len comps_p =? 1); [unfold finishes; discriminate|].
    destruct (0 <? len (isolatedEdges ++ flat_map GEdges (otherComps i comps_p))) eqn:Epos;
      [|unfold finishes; discriminate].
    apply Z.ltb_lt in Epos.
    apply bind_finishes.
    + apply rec_finishes. apply (Hup i L); [lia|reflexivity|exact Epos].
    + intros [d c] _. unfold finishes; discriminate.
  - intros [decompUp cache1] _.
    repeat (first [now apply forkChildren_finishes
                  | apply attachingSubtrees_finishes | finish_step]).
Qed.

Lemma parentLoop_finishes cache Conn allowedFull VerticesH childLam parents :
  (forall c, In c (fst (GetComponents H childLam)) ->
             GraphLen c <= floorLimit H (BalFactor l)) ->
  finishes
    (parentLoop combineNodes Cache CheckNegative AddNegative l rec cache H Conn allowedFull
                VerticesH childLam parents).
Proof.
  intros Hbal. revert cache. induction parents as [|parentLam rest IH]; intros cache; simpl.
  - unfold finishes; discriminate.
  - repeat (first [now apply parentRound_finishes | apply IH | finish_step]).
Qed.

Lemma childRound_finishes cache Conn allowedFull allowed VerticesH childLam :
  BalancedCheck_Check GetComponents IntHash H childLam (BalFactor l) = Some true ->
  finishes
    (childRound combineNodes Cache CheckNegative AddNegative schedule l rec cache H Conn
                allowedFull allowed VerticesH childLam).
Proof.
  intros Hcheck.
  destruct (BalancedCheck_Check_true _ _ _ _ _ Hcheck) as [limit [Hlim Hbal]].
  rewrite (balancednessLimit_floor H (BalFactor l) Hrange) in Hlim. injection Hlim as <-.
  unfold childRound.
  destruct (Subset Conn (EdgesVertices childLam)).
  - assert (Hsm : forall c, In c (fst (GetComponents H childLam)) ->
                            smaller (BalFactor l) H c).
    { intros c Hc. left. split; [now apply (component_nonempty H childLam)|now apply Hbal]. }
    repeat (first [now apply rootCase_finishes | finish_step]).
  - now apply parentLoop_finishes.
Qed.

Lemma childLoop_finishes cache Conn allowedFull allowed VerticesH children :
  Forall (fun childLam =>
            BalancedCheck_Check GetComponents IntHash H childLam (BalFactor l) = Some true)
         children ->
  finishes
    (childLoop combineNodes Cache CheckNegative AddNegative schedule l rec cache H Conn
               allowedFull allowed VerticesH children).
Proof.
  intros Hall. revert cache. induction Hall as [|childLam rest Hc Hrest IH]; intros cache; simpl.
  - unfold finishes; discriminate.
  - repeat (first [now apply childRound_finishes | apply IH | finish_step]).
Qed.

Lemma findDecompBody_finishes cache Conn allowedFull :
  finishes
    (findDecompBody IntHash combineNodes Cache CheckNegative AddNegative schedule l rec
                    cache H Conn allowedFull).
Proof.
  unfold findDecompBody.
  repeat (first [apply childLoop_finishes; apply searchResults_Forall | finish_step]).
Qed.

End DepthSection.

Lemma leastFrom_spec (test : nat -> bool) (fuel start d0 : nat) :
  (start <= d0 <= start + fuel)%nat -> test d0 = true ->
  test (leastFrom test fuel start) = true /\
  (leastFrom test fuel start <= d0)%nat /\
  (forall d, (start <= d < leastFrom test fuel start)%nat -> test d = false).
Proof.
  revert start. induction fuel as [|fuel IH]; intros start Hd Ht; simpl.
  - assert (d0 = start) by lia. subst. repeat split; [assumption|lia|intros; lia].
  - destruct (test start) eqn:Es.
    + repeat split; [assumption|lia|intros; lia].
    + assert (d0 <> start) by (intros ->; congruence).
      destruct (IH (S start) ltac:(lia) Ht) as [H1 [H2 H3]].
      repeat split; [assumption|assumption|].
      intros d Hrange. destruct (Nat.eq_dec d start) as [->|Hne]; [assumption|].
      apply H3. lia.
Qed.

Lemma pow_growth (b : Z) (d : nat) :
  2 <= b -> (b - 1) ^ Z.of_nat d * (b - 1 + Z.of_nat d) <= (b - 1) * b ^ Z.of_nat d.
Proof.
  intros Hb. induction d as [|d IH].
  - change (Z.of_nat 0) with 0. rewrite !Z.pow_0_r. lia.
  - rewrite Nat2Z.inj_succ, !Z.pow_succ_r by lia.
    assert (HP : 0 <= (b - 1) ^ Z.of_nat d) by (apply Z.pow_nonneg; lia).
    remember ((b - 1) ^ Z.of_nat d) as P eqn:EP. remember (b ^ Z.of_nat d) as Q eqn:EQ.
    remember (Z.of_nat d) as k eqn:Ek. assert (0 <= k) by lia. clear EP EQ Ek.
    assert (P * (b + k) * (b - 1) <= P * (b * (b - 1 + k))).
    { rewrite <- Z.mul_assoc. apply Z.mul_le_mono_nonneg_l; [assumption|nia]. }
    nia.
Qed.

(** Some depth is enough, and [logCeil] is the least one. *)
Lemma logCeil_spec (b n : Z) :
  2 <= b -> 0 <= n ->
  depthEnough b n (logCeil b n) /\ (forall d, depthEnough b n d -> (logCeil b n <= d)%nat).
Proof.
  intros Hb Hn. unfold logCeil, depthEnough.
  set (test := fun d : nat => n * (b - 1) ^ Z.of_nat d <=? b ^ Z.of_nat d).
  set (d0 := Z.to_nat ((n - 1) * (b - 1))).
  assert (Hd0 : test d0 = true).
  { unfold test. apply Z.leb_le. destruct (Z.eq_dec n 0) as [->|Hn0].
    - rewrite Z.mul_0_l. apply Z.pow_nonneg. lia.
    - pose proof (pow_growth b d0 Hb) as Hg.
      assert (Hk : Z.of_nat d0 = (n - 1) * (b - 1)) by (unfold d0; rewrite Z2Nat.id; nia).
      assert (HP : 0 <= (b - 1) ^ Z.of_nat d0) by (apply Z.pow_nonneg; lia).
      rewrite Hk in Hg at 2.
      replace (b - 1 + (n - 1) * (b - 1)) with (n * (b - 1)) in Hg by lia.
      remember ((b - 1) ^ Z.of_nat d0) as P. remember (b ^ Z.of_nat d0) as Q. nia. }
  assert (Hle : (0 <= d0 <= 0 + Z.to_nat (n * b))%nat).
  { split; [lia|]. unfold d0. simpl.
    assert ((n - 1) * (b - 1) <= n * b) by nia. lia. }
  destruct (leastFrom_spec test _ _ _ Hle Hd0) as [H1 [H2 H3]].
  split.
  - apply Z.leb_le. exact H1.
  - intros d Hd. destruct (Nat.le_gt_cases (leastFrom test (Z.to_nat (n * b)) 0) d) as [|Hgt];
      [assumption|].
    assert (test d = false) by (apply H3; lia).
    unfold test in *. apply Z.leb_le in Hd. congruence.
Qed.

Lemma findDecomp_finishes
  (IntHash : list Z -> Z) (combineNodes : Node -> Node -> Edges -> option Node)
  (Cache : Type) (CheckNegative : Cache -> Edges -> list Graph -> bool)
  (AddNegative : Cache -> Edges -> Graph -> Cache)
  (schedule : list (list nat) -> list (list nat)) (l : LogKDecomp) (d : nat) :
  2 <= BalFactor l ->
  forall (H : Graph), inRange H (BalFactor l) -> depthEnough (BalFactor l) (GraphLen H) d ->
  forall (cache : Cache) (Conn : list Z) (allowedFull : Edges),
  finishes (findDecomp IntHash combineNodes Cache CheckNegative AddNegative schedule l (S d)
                       cache H Conn allowedFull).
Proof.
  intros Hb. induction d as [|d IH]; intros H Hr Hd cache Conn allowedFull.
  - cbn [findDecomp]. apply findDecompBody_finishes; try assumption.
    intros H' Hs. exfalso. exact (smaller_none _ _ _ Hb Hd Hs).
  - change (findDecomp IntHash combineNodes Cache CheckNegative AddNegative schedule l (S (S d)))
      with (findDecompBody IntHash combineNodes Cache CheckNegative AddNegative schedule l
              (findDecomp IntHash combineNodes Cache CheckNegative AddNegative schedule l (S d))).
    apply findDecompBody_finishes; try assumption.
    intros H' Hs cache' Conn' allowed'. apply IH.
    + apply (inRange_smaller H); [exact Hr|]. apply (smaller_le (BalFactor l)); [lia|exact Hs].
    + exact (smaller_depth _ _ _ _ Hb Hs Hd).
Qed.



(** ** The scenarios of the specification, run on the model *)

(** Scenario 1: the path [e1(a,b), e2(b,c), e3(c,d)] with [k = 1] has a
    decomposition with the three bags [{a,b}], [{b,c}], [{c,d}]. *)
Example scenario_path :
  let H := mkGraph [mkEdge 1 [1; 2]; mkEdge 2 [2; 3]; mkEdge 3 [3; 4]] [] in
  FindDecomp maskHash combineByLeaves unit noCheckNegative noAddNegative lexSchedule
             (mkLogKDecomp H 1 2) 3 tt
  = Returned (mkDecomp H (mkNode [2; 3] [mkEdge 2 [2; 3]]
                            [mkNode [1; 2] [mkEdge 1 [1; 2]] [];
                             mkNode [3; 4] [mkEdge 3 [3; 4]] []]), tt).
Proof. reflexivity. Qed.

(** Scenario 2: the triangle fails for [k = 1] and has a single bag for
    [k = 2]. *)
Example scenario_triangle :
  let H := mkGraph [mkEdge 1 [1; 2]; mkEdge 2 [2; 3]; mkEdge 3 [1; 3]] [] in
  FindDecomp maskHash combineByLeaves unit noCheckNegative noAddNegative lexSchedule
             (mkLogKDecomp H 1 2) 3 tt
  = Returned (emptyDecomp, tt) /\
  FindDecomp maskHash combineByLeaves unit noCheckNegative noAddNegative lexSchedule
             (mkLogKDecomp H 2 2) 3 tt
  = Returned (mkDecomp H (mkNode [1; 2; 3] [mkEdge 1 [1; 2]; mkEdge 2 [2; 3]] []), tt).
Proof. split; reflexivity. Qed.

(** ** What the components hold *)

Lemma GraphVertices_items (g : Graph) (v : Z) :
  In v (GraphVertices g) <-> exists y, In y (graphItems g) /\ In v (itemVertices y).
Proof.
  rewrite GraphVertices_In. unfold graphItems. split.
  - intros [[e [He Hv]]|[sp [Hsp Hv]]].
    + exists (IEdge e). split; [apply in_app_iff; left; now apply in_map|exact Hv].
    + exists (ISpecial sp). split; [apply in_app_iff; right; now apply in_map|exact Hv].
  - intros [y [Hy Hv]]. apply in_app_iff in Hy. destruct Hy as [Hy|Hy];
      apply in_map_iff in Hy; destruct Hy as [z [<- Hz]]; [left|right]; eauto.
Qed.

Lemma graphItems_edge (g : Graph) (e : Edge) : In (IEdge e) (graphItems g) <-> In e (GEdges g).
Proof.
  unfold graphItems. rewrite in_app_iff, !in_map_iff. split.
  - intros [[x [[= ->] Hx]]|[x [Hx _]]]; [exact Hx|discriminate].
  - intros He. left. eauto.
Qed.

Lemma graphItems_special (g : Graph) (sp : Edges) :
  In (ISpecial sp) (graphItems g) <-> In sp (Special g).
Proof.
  unfold graphItems. rewrite in_app_iff, !in_map_iff. split.
  - intros [[x [Hx _]]|[x [[= ->] Hx]]]; [discriminate|exact Hx].
  - intros He. right. eauto.
Qed.

Lemma actualVertices_In (sepV : list Z) (y : Item) (v : Z) :
  In v (actualVertices sepV y) <-> In v (itemVertices y) /\ ~ In v sepV.
Proof. unfold actualVertices. apply Diff_In. Qed.

Lemma isPlaced_iff (sepV : list Z) (y : Item) :
  isPlaced sepV y = true <-> exists v, In v (itemVertices y) /\ ~ In v sepV.
Proof.
  split.
  - intros Hp. destruct (isPlaced_vertex _ _ Hp) as [v Hv]. exists v. now apply actualVertices_In.
  - intros [v Hv]. apply actualVertices_In in Hv. unfold isPlaced.
    destruct (actualVertices sepV y); [destruct Hv|reflexivity].
Qed.

(** The components of [H \ sep], as graphs. *)
Lemma component_of (H : Graph) (sep : Edges) (c : Graph) :
  In c (fst (GetComponents H sep)) <-> exists cc, In cc (finalComps H sep) /\ c = compGraph cc.
Proof.
  rewrite GetComponents_finalComps, in_map_iff. split; intros [cc [H1 H2]]; exists cc; auto.
Qed.

(** An item of a component is an item of the graph with a vertex outside the
    separator. *)
Lemma component_item (H : Graph) (sep : Edges) (c : Graph) (y : Item) :
  In c (fst (GetComponents H sep)) -> In y (graphItems c) ->
  In y (graphItems H) /\ isPlaced (EdgesVertices sep) y = true.
Proof.
  rewrite component_of. intros [cc [Hcc ->]] Hy.
  exact (CompsInv_item _ _ _ _ _ (finalComps_inv H sep) Hcc Hy).
Qed.

(** An item of the graph with a vertex outside the separator is in some
    component. *)
Lemma item_component (H : Graph) (sep : Edges) (y : Item) :
  In y (graphItems H) -> isPlaced (EdgesVertices sep) y = true ->
  exists c, In c (fst (GetComponents H sep)) /\ In y (graphItems c).
Proof.
  intros Hy Hp.
  destruct (CompsInv_placed _ _ _ _ (finalComps_inv H sep) Hy Hp) as [cc [Hcc Hin]].
  exists (compGraph cc). split; [apply component_of; eauto|exact Hin].
Qed.

(** An item that shares a vertex outside the separator with a component is in
    that component. *)
Lemma component_closed (H : Graph) (sep : Edges) (c : Graph) (y : Item) (v : Z) :
  In c (fst (GetComponents H sep)) -> In v (GraphVertices c) -> ~ In v (EdgesVertices sep) ->
  In y (graphItems H) -> In v (itemVertices y) -> In y (graphItems c).
Proof.
  rewrite component_of. intros [cc [Hcc ->]] Hvc Hvs Hy Hvy.
  pose proof (finalComps_inv H sep) as Inv.
  apply GraphVertices_items in Hvc. destruct Hvc as [z [Hz Hvz]].
  rewrite graphItems_compGraph in *.
  assert (Hp : isPlaced (EdgesVertices sep) y = true) by (apply isPlaced_iff; eauto).
  destruct (CompsInv_placed _ _ _ _ Inv Hy Hp) as [cy [Hcy Hycy]].
  assert (cc = cy); [|now subst].
  apply (comps_same _ _ _ v (inv_disj _ _ _ Inv) Hcc Hcy).
  - apply (inv_verts _ _ _ Inv cc Hcc). exists z. split; [exact Hz|].
    apply actualVertices_In. tauto.
  - apply (inv_verts _ _ _ Inv cy Hcy). exists y. split; [exact Hycy|].
    apply actualVertices_In. tauto.
Qed.

(** The isolated edges are the edges with no vertex outside the separator. *)
Lemma placeEdge_isolated (sepV : list Z) (es : list Edge) (st : list Comp * list Edge) :
  snd (fold_left (placeEdge sepV) es st)
  = snd st ++ filter (fun e => negb (isPlaced sepV (IEdge e))) es.
Proof.
  revert st. induction es as [|e es IH]; intros st; simpl; [now rewrite app_nil_r|].
  rewrite IH. unfold placeEdge, isPlaced, actualVertices. simpl.
  destruct (Diff (Vertices e) sepV); simpl; [now rewrite <- app_assoc|reflexivity].
Qed.

Lemma isolated_edge (H : Graph) (sep : Edges) (e : Edge) :
  In e (snd (GetComponents H sep)) <->
  In e (GEdges H) /\ isPlaced (EdgesVertices sep) (IEdge e) = false.
Proof.
  unfold GetComponents. cbn [snd]. rewrite placeEdge_isolated. simpl.
  rewrite filter_In, negb_true_iff. tauto.
Qed.

(** Every edge of the graph is isolated or in a component. *)
Lemma edge_placement (H : Graph) (sep : Edges) (e : Edge) :
  In e (GEdges H) ->
  In e (snd (GetComponents H sep)) \/
  exists c, In c (fst (GetComponents H sep)) /\ In e (GEdges c).
Proof.
  intros He. destruct (isPlaced (EdgesVertices sep) (IEdge e)) eqn:Ep.
  - right. apply graphItems_edge in He.
    destruct (item_component H sep _ He Ep) as [c [Hc Hin]].
    exists c. split; [exact Hc|now apply graphItems_edge].
  - left. apply isolated_edge. tauto.
Qed.

Lemma component_vertices (H : Graph) (sep : Edges) (c : Graph) (v : Z) :
  In c (fst (GetComponents H sep)) -> In v (GraphVertices c) -> In v (GraphVertices H).
Proof.
  intros Hc Hv. apply GraphVertices_items in Hv. destruct Hv as [y [Hy Hvy]].
  apply GraphVertices_items. exists y. split; [|exact Hvy].
  exact (proj1 (component_item H sep c y Hc Hy)).
Qed.

(** The components other than the low one. *)
Lemma otherComps_In (comps : list Graph) (i : nat) (L c : Graph) :
  nth_error comps i = Some L -> In c comps -> c = L \/ In c (otherComps i comps).
Proof.
  intros Hi Hc. apply In_nth_error in Hc. destruct Hc as [j Hj].
  destruct (Nat.eq_dec j i) as [->|Hne]; [left; congruence|].
  right. unfold otherComps. apply in_map_iff. exists (j, c). split; [reflexivity|].
  apply filter_In. split.
  - apply combine_seq_In. rewrite Nat.sub_0_r. split; [lia|exact Hj].
  - simpl. apply negb_true_iff. now apply Nat.eqb_neq.
Qed.

Lemma otherComps_incl (comps : list Graph) (i : nat) (c : Graph) :
  In c (otherComps i comps) -> In c comps.
Proof.
  unfold otherComps. rewrite in_map_iff. intros [[j c'] [<- Hin]].
  apply filter_In in Hin. destruct Hin as [Hin _].
  apply combine_seq_In in Hin. destruct Hin as [_ Hn]. eapply nth_error_In; eauto.
Qed.

Lemma findLow_lowComponent_eq (limit : Z) (comps : list Graph) :
  lowComponent limit comps = option_map snd (findLow limit comps).
Proof.
  unfold lowComponent, findLow.
  assert (Hgen : forall s (acc : option (nat * Graph)),
    fold_left (fun found c => if limit <? GraphLen c then Some c else found) comps
              (option_map snd acc)
    = option_map snd
        (fold_left (fun found ic => if limit <? GraphLen (snd ic) then Some ic else found)
                   (combine (seq s (length comps)) comps) acc)).
  { induction comps as [|c comps IH]; intros s acc; simpl; [reflexivity|].
    rewrite <- IH. destruct (limit <? GraphLen c); reflexivity. }
  exact (Hgen 0%nat None).
Qed.

(** Connected items are in the same component. *)
Lemma connected_same_comp (sepV : list Z) (placed : list Item) (cs : list Comp)
  (S : list Item) (c : Comp) (x y : Item) :
  CompsInv sepV placed cs ->
  (forall z, In z S -> In z placed /\ isPlaced sepV z = true) ->
  In c cs -> connectedIn sepV S x y ->
  (In x (compItems c) <-> In y (compItems c)).
Proof.
  intros Inv HS Hc Hconn. unfold connectedIn in Hconn.
  induction Hconn as [a b [Ha [Hb [v [Hva Hvb]]]]|a|a b _ IH|a b c0 _ IH1 _ IH2];
    [|tauto|tauto|tauto].
  assert (Hstep : forall u w, In u S -> In w S ->
                  In v (actualVertices sepV u) -> In v (actualVertices sepV w) ->
                  In u (compItems c) -> In w (compItems c)).
  { intros u w Hu Hw Hvu Hvw Huc. destruct (HS w Hw) as [Hwp Hwpl].
    destruct (CompsInv_placed _ _ _ _ Inv Hwp Hwpl) as [cw [Hcw Hwcw]].
    assert (c = cw); [|now subst].
    apply (comps_same _ _ _ v (inv_disj _ _ _ Inv) Hc Hcw).
    - apply (inv_verts _ _ _ Inv c Hc). eauto.
    - apply (inv_verts _ _ _ Inv cw Hcw). eauto. }
  split; [apply (Hstep a b)|apply (Hstep b a)]; assumption.
Qed.

(** When the separator [lam] meets a component [cL] of [H \ p] only inside
    the vertices of [p], the component stays whole under [lam]. *)
Lemma low_whole (H : Graph) (p lam : Edges) (cL : Comp) :
  In cL (finalComps H p) ->
  (forall u, In u (EdgesVertices lam) -> In u (GraphVertices (compGraph cL)) ->
             In u (EdgesVertices p)) ->
  exists cc, In cc (finalComps (compGraph cL) lam) /\
             GraphLen (compGraph cL) <= GraphLen (compGraph cc).
Proof.
  intros HcL Hinside.
  pose proof (finalComps_inv H p) as InvP.
  pose proof (finalComps_inv (compGraph cL) lam) as InvL.
  rewrite graphItems_compGraph in InvL.
  assert (Hact : forall y v, In y (compItems cL) -> In v (actualVertices (EdgesVertices p) y) ->
                             In v (actualVertices (EdgesVertices lam) y)).
  { intros y v Hy Hv. apply actualVertices_In in Hv. destruct Hv as [Hv Hnp].
    apply actualVertices_In. split; [exact Hv|]. intros Hlam. apply Hnp.
    apply Hinside; [exact Hlam|]. apply GraphVertices_items. exists y.
    rewrite graphItems_compGraph. tauto. }
  assert (Hplaced : forall y, In y (compItems cL) -> isPlaced (EdgesVertices lam) y = true).
  { intros y Hy. destruct (CompsInv_item _ _ _ _ _ InvP HcL Hy) as [_ Hp].
    destruct (isPlaced_vertex _ _ Hp) as [v Hv]. apply (Hact y v Hy) in Hv.
    unfold isPlaced. destruct (actualVertices (EdgesVertices lam) y); [destruct Hv|reflexivity]. }
  destruct (compItems cL) as [|x0 rest] eqn:EcL.
  { exfalso. exact (inv_nonempty _ _ _ InvP cL HcL EcL). }
  rewrite <- EcL in *.
  assert (Hx0 : In x0 (compItems cL)) by (rewrite EcL; now left).
  destruct (CompsInv_placed _ _ _ _ InvL Hx0 (Hplaced x0 Hx0)) as [cc [Hcc Hx0cc]].
  exists cc. split; [exact Hcc|].
  assert (Hall : forall y, In y (compItems cL) -> In y (compItems cc)).
  { intros y Hy.
    assert (Hconn : connectedIn (EdgesVertices lam) (compItems cL) x0 y).
    { pose proof (inv_conn _ _ _ InvP cL HcL x0 y Hx0 Hy) as Hc. unfold connectedIn in *.
      clear -Hc Hact.
      induction Hc as [a b [Ha [Hb [v [Hva Hvb]]]]|a|a b _ IH|a b c0 _ IH1 _ IH2].
      - apply Relation_Operators.rst_step. split; [exact Ha|]. split; [exact Hb|].
        exists v. split; now apply Hact.
      - apply Relation_Operators.rst_refl.
      - now apply Relation_Operators.rst_sym.
      - eapply Relation_Operators.rst_trans; eauto. }
    apply (connected_same_comp _ _ _ _ cc x0 y InvL) in Hconn; [tauto| |exact Hcc].
    intros z Hz. split; [exact Hz|now apply Hplaced]. }
  rewrite !GraphLen_compItems. unfold len.
  assert (length (compItems cL) <= length (compItems cc))%nat; [|lia].
  apply count_occ_le_length. intros y.
  destruct (in_dec Item_eq_dec y (compItems cL)) as [Hy|Hny].
  - rewrite (CompsInv_count _ _ _ _ _ InvL Hcc (Hall y Hy)). lia.
  - apply (count_occ_not_In Item_eq_dec) in Hny. lia.
Qed.

(** A balanced child reaches inside the low component of the parent: some
    vertex of the child lies in the low component and outside the parent. *)
Lemma child_reaches_inside (H : Graph) (p lam : Edges) (limit : Z) (L : Graph) :
  (forall c, In c (fst (GetComponents H lam)) -> GraphLen c <= limit) ->
  In L (fst (GetComponents H p)) -> limit < GraphLen L ->
  exists u, In u (EdgesVertices lam) /\ In u (GraphVertices L) /\ ~ In u (EdgesVertices p).
Proof.
  intros Hbal HL Hlow.
  destruct (filter (fun u => Mem (GraphVertices L) u && negb (Mem (EdgesVertices p) u))
                   (EdgesVertices lam)) as [|u rest] eqn:Ef.
  - exfalso.
    assert (Hinside : forall u, In u (EdgesVertices lam) -> In u (GraphVertices L) ->
                                In u (EdgesVertices p)).
    { intros u Hu HuL. destruct (Mem (EdgesVertices p) u) eqn:Em; [now apply Mem_In|].
      assert (Hin : In u (filter (fun u => Mem (GraphVertices L) u
                                           && negb (Mem (EdgesVertices p) u))
                                 (EdgesVertices lam))).
      { apply filter_In. split; [exact Hu|]. rewrite Em.
        apply Mem_In in HuL. now rewrite HuL. }
      rewrite Ef in Hin. destruct Hin. }
    pose proof HL as HL'. apply component_of in HL'. destruct HL' as [cL [HcL ->]].
    destruct (low_whole H p lam cL HcL Hinside) as [cc [Hcc Hle]].
    assert (Hc : In (compGraph cc) (fst (GetComponents (compGraph cL) lam)))
      by (apply component_of; eauto).
    destruct (components_within H p lam _ _ HL Hc) as [c' [Hc' Hle']].
    specialize (Hbal c' Hc'). lia.
  - assert (Hin : In u (u :: rest)) by now left. rewrite <- Ef in Hin.
    apply filter_In in Hin. destruct Hin as [Hu Ht]. apply andb_true_iff in Ht.
    destruct Ht as [H1 H2]. apply Mem_In in H1. apply negb_true_iff in H2.
    exists u. split; [exact Hu|]. split; [exact H1|].
    intros Hp. apply Mem_In in Hp. congruence.
Qed.

(** ** The connecting vertices stay inside the graph *)

Lemma GetSubset_incl (es : Edges) (idx : list nat) (e : Edge) :
  In e (GetSubset es idx) -> In e es.
Proof.
  induction idx as [|i idx IH]; simpl; [tauto|].
  destruct (nth_error es i) as [e'|] eqn:En; [|exact IH].
  intros [<-|Hin]; [eapply nth_error_In; eauto|now apply IH].
Qed.

Lemma FilterVertices_incl (es : Edges) (vs : list Z) (e : Edge) :
  In e (FilterVertices es vs) -> In e es.
Proof. unfold FilterVertices. rewrite filter_In. tauto. Qed.

Lemma EdgesDiff_In (es other : Edges) (e : Edge) :
  In e (EdgesDiff es other) -> In e es /\ ~ In e other.
Proof.
  unfold EdgesDiff. rewrite filter_In, negb_true_iff. intros [He Hn]. split; [exact He|].
  intros Ho. assert (Ht : existsb (fun o => Name o =? Name e) other = true).
  { apply existsb_exists. exists e. split; [exact Ho|apply Z.eqb_refl]. }
  congruence.
Qed.

(** What a true [ParentCheck] says about the low component it kept. *)
Lemma ParentCheck_Check_true (getComponents : Graph -> Edges -> list Graph * list Edge)
  (p : ParentCheck) (H : Graph) (sep : Edges) (b : Z) :
  ParentCheck_Check getComponents p H sep b = Some true ->
  exists limit L, balancednessLimit H b = Some limit /\
    lowComponent limit (fst (getComponents H sep)) = Some L /\
    (forall v, In v (GraphVertices L) -> In v (Conn p) -> In v (EdgesVertices sep)) /\
    (forall v, In v (GraphVertices L) -> In v (EdgesVertices sep) -> In v (Child p)).
Proof.
  unfold ParentCheck_Check. destruct (balancednessLimit H b) as [limit|]; [|discriminate].
  destruct (lowComponent limit (fst (getComponents H sep))) as [L|] eqn:El; [|discriminate].
  destruct (Subset (Inter (GraphVertices L) (Conn p)) (EdgesVertices sep)) eqn:E1;
    [|discriminate].
  destruct (Subset (Inter (GraphVertices L) (EdgesVertices sep))
                   (Inter (Child p) (GraphVertices L))) eqn:E2; [|discriminate].
  intros _. exists limit, L. split; [reflexivity|]. split; [exact El|].
  rewrite Subset_spec in E1, E2. split.
  - intros v HvL Hvc. apply E1. apply Inter_In. tauto.
  - intros v HvL Hvs. assert (Hin : In v (Inter (Child p) (GraphVertices L))).
    { apply E2. apply Inter_In. tauto. }
    apply Inter_In in Hin. tauto.
Qed.

(** The calls of the root case keep [GoodCall]. *)
Lemma GoodCall_root_child (H : Graph) (Conn : list Z) (A childLam : Edges) (comp : Graph) :
  GoodCall H Conn A ->
  (forall v, In v Conn -> In v (EdgesVertices childLam)) ->
  In comp (fst (GetComponents H childLam)) ->
  GoodCall comp (Inter (GraphVertices comp)
                       (Inter (EdgesVertices childLam) (GraphVertices H))) A.
Proof.
  intros [G1 G4 G6] Hconn Hc. split.
  - intros v Hv. apply Inter_In in Hv. tauto.
  - intros a v Ha Hna Hva Hvc.
    pose proof (component_vertices H childLam comp v Hc Hvc) as HvH.
    apply Inter_In. split; [exact Hvc|]. apply Inter_In. split; [|exact HvH].
    destruct (in_dec Z.eq_dec v (EdgesVertices childLam)) as [Hin|Hnin]; [exact Hin|].
    exfalso. destruct (in_dec Edge_eq_dec a (GEdges H)) as [HaH|HaH].
    + apply Hna. apply graphItems_edge.
      apply (component_closed H childLam comp (IEdge a) v Hc Hvc Hnin);
        [now apply graphItems_edge|exact Hva].
    + apply Hnin. apply Hconn. now apply (G4 a v).
  - intros sp Hsp. apply G6. apply graphItems_special.
    apply (component_item H childLam comp (ISpecial sp) Hc). now apply graphItems_special.
Qed.

(** The calls on the components of the low component keep [GoodCall]. *)
Lemma GoodCall_parent_child (H : Graph) (Conn : list Z) (A childLam parentLam : Edges)
  (L comp : Graph) :
  GoodCall H Conn A ->
  In L (fst (GetComponents H parentLam)) ->
  (forall v, In v (GraphVertices L) -> In v Conn -> In v (EdgesVertices parentLam)) ->
  (forall v, In v (GraphVertices L) -> In v (EdgesVertices parentLam) ->
             In v (EdgesVertices childLam)) ->
  In comp (fst (GetComponents L childLam)) ->
  GoodCall comp (Inter (GraphVertices comp)
                       (Inter (EdgesVertices childLam) (GraphVertices L))) A.
Proof.
  intros [G1 G4 G6] HL PC2 PC3 Hc. split.
  - intros v Hv. apply Inter_In in Hv. tauto.
  - intros a v Ha Hna Hva Hvc.
    pose proof (component_vertices L childLam comp v Hc Hvc) as HvL.
    pose proof (component_vertices H parentLam L v HL HvL) as HvH.
    apply Inter_In. split; [exact Hvc|]. apply Inter_In. split; [|exact HvL].
    destruct (in_dec Z.eq_dec v (EdgesVertices childLam)) as [Hin|Hnin]; [exact Hin|].
    exfalso. assert (HaL : ~ In a (GEdges L)).
    { intros HaL. apply Hna. apply graphItems_edge.
      apply (component_closed L childLam comp (IEdge a) v Hc Hvc Hnin);
        [now apply graphItems_edge|exact Hva]. }
    apply Hnin. apply PC3; [exact HvL|].
    destruct (in_dec Edge_eq_dec a (GEdges H)) as [HaH|HaH].
    + destruct (in_dec Z.eq_dec v (EdgesVertices parentLam)) as [Hp|Hnp]; [exact Hp|].
      exfalso. apply HaL. apply graphItems_edge.
      apply (component_closed H parentLam L (IEdge a) v HL HvL Hnp);
        [now apply graphItems_edge|exact Hva].
    + apply PC2; [exact HvL|]. now apply (G4 a v).
  - intros sp Hsp. apply G6. apply graphItems_special.
    apply (component_item H parentLam L (ISpecial sp) HL).
    apply (component_item L childLam comp (ISpecial sp) Hc). now apply graphItems_special.
Qed.

(** Where the items of [H] outside the low component go: into the upper
    graph. *)
Lemma upper_edge (H : Graph) (parentLam : Edges) (i : nat) (L : Graph) (e : Edge) :
  nth_error (fst (GetComponents H parentLam)) i = Some L ->
  In e (GEdges H) -> ~ In e (GEdges L) ->
  In e (snd (GetComponents H parentLam)
        ++ flat_map GEdges (otherComps i (fst (GetComponents H parentLam)))).
Proof.
  intros Hi He HnL. apply in_app_iff.
  destruct (edge_placement H parentLam e He) as [Hiso|[c [Hc Hec]]]; [now left|right].
  destruct (otherComps_In _ i L c Hi Hc) as [->|Ho]; [contradiction|].
  apply in_flat_map. eauto.
Qed.

Lemma upper_edge_inv (H : Graph) (parentLam : Edges) (i : nat) (e : Edge) :
  In e (snd (GetComponents H parentLam)
        ++ flat_map GEdges (otherComps i (fst (GetComponents H parentLam)))) ->
  In e (GEdges H).
Proof.
  intros Hin. apply in_app_iff in Hin. destruct Hin as [Hiso|Hin].
  - now apply isolated_edge in Hiso.
  - apply in_flat_map in Hin. destruct Hin as [c [Hc Hec]]. apply otherComps_incl in Hc.
    apply graphItems_edge. apply (component_item H parentLam c (IEdge e) Hc).
    now apply graphItems_edge.
Qed.

Lemma upper_special_inv (H : Graph) (parentLam : Edges) (i : nat) (sp : Edges) :
  In sp (flat_map Special (otherComps i (fst (GetComponents H parentLam)))) ->
  In sp (Special H).
Proof.
  intros Hin. apply in_flat_map in Hin. destruct Hin as [c [Hc Hsc]]. apply otherComps_incl in Hc.
  apply graphItems_special. apply (component_item H parentLam c (ISpecial sp) Hc).
  now apply graphItems_special.
Qed.

Lemma specialChild_In (chi : list Z) (v : Z) :
  In v (EdgesVertices (NewEdges [mkEdge 0 chi])) <-> In v chi.
Proof.
  rewrite EdgesVertices_In. unfold NewEdges. split.
  - intros [e [[<-|[]] Hv]]. exact Hv.
  - intros Hv. exists (mkEdge 0 chi). split; [now left|exact Hv].
Qed.

(** The call on the upper graph keeps [GoodCall]. *)
Lemma GoodCall_compUp (H : Graph) (Conn : list Z) (A childLam parentLam : Edges)
  (limit : Z) (i : nat) (L : Graph) :
  GoodCall H Conn A ->
  (forall e, In e parentLam -> In e A) ->
  (forall c, In c (fst (GetComponents H childLam)) -> GraphLen c <= limit) ->
  nth_error (fst (GetComponents H parentLam)) i = Some L -> limit < GraphLen L ->
  (forall v, In v (GraphVertices L) -> In v Conn -> In v (EdgesVertices parentLam)) ->
  (forall v, In v (GraphVertices L) -> In v (EdgesVertices parentLam) ->
             In v (EdgesVertices childLam)) ->
  GoodCall
    (mkGraph (NewEdges (snd (GetComponents H parentLam)
                        ++ flat_map GEdges (otherComps i (fst (GetComponents H parentLam)))))
             (flat_map Special (otherComps i (fst (GetComponents H parentLam)))
              ++ [NewEdges [mkEdge 0 (Inter (EdgesVertices childLam) (GraphVertices L))]]))
    Conn (EdgesDiff A (GEdges L)).
Proof.
  intros [G1 G4 G6] HpA Hbal Hi Hlow PC2 PC3.
  assert (HL : In L (fst (GetComponents H parentLam))) by (eapply nth_error_In; eauto).
  assert (HLH : forall v, In v (GraphVertices L) -> In v (GraphVertices H))
    by (intros v; apply (component_vertices H parentLam L v HL)).
  assert (Hup : forall v,
    In v (GraphVertices
      (mkGraph (NewEdges (snd (GetComponents H parentLam)
                          ++ flat_map GEdges (otherComps i (fst (GetComponents H parentLam)))))
               (flat_map Special (otherComps i (fst (GetComponents H parentLam)))
                ++ [NewEdges [mkEdge 0 (Inter (EdgesVertices childLam) (GraphVertices L))]]))) ->
    In v (GraphVertices H)).
  { intros v Hv. apply GraphVertices_In in Hv. cbn [GEdges Special] in Hv.
    destruct Hv as [[e [He Hve]]|[sp [Hsp Hvs]]].
    - apply GraphVertices_In. left. exists e. split; [|exact Hve].
      exact (upper_edge_inv H parentLam i e He).
    - apply in_app_iff in Hsp. destruct Hsp as [Hsp|[<-|[]]].
      + apply GraphVertices_In. right. exists sp. split; [|exact Hvs].
        exact (upper_special_inv H parentLam i sp Hsp).
      + apply (proj1 (specialChild_In _ _)) in Hvs. apply Inter_In in Hvs. apply HLH. tauto. }
  assert (Hout : forall a u, In a A -> ~ In a (GEdges L) -> In u (Vertices a) ->
                 In u (GraphVertices L) -> In u (EdgesVertices parentLam)).
  { intros a u Ha HaL Hua HuL.
    destruct (in_dec Z.eq_dec u (EdgesVertices parentLam)) as [Hp|Hnp]; [exact Hp|].
    destruct (in_dec Edge_eq_dec a (GEdges H)) as [HaH|HaH].
    - exfalso. apply HaL. apply graphItems_edge.
      apply (component_closed H parentLam L (IEdge a) u HL HuL Hnp);
        [now apply graphItems_edge|exact Hua].
    - apply PC2; [exact HuL|]. apply (G4 a u); auto. }
  split.
  - intros v Hv. apply GraphVertices_In. cbn [GEdges Special].
    destruct (in_dec Z.eq_dec v (GraphVertices L)) as [HvL|HvL].
    + right. exists (NewEdges [mkEdge 0 (Inter (EdgesVertices childLam) (GraphVertices L))]).
      split; [apply in_app_iff; right; now left|].
      apply specialChild_In. apply Inter_In. split; [|exact HvL].
      apply PC3; [exact HvL|]. now apply PC2.
    + pose proof (G1 v Hv) as HvH. apply GraphVertices_items in HvH.
      destruct HvH as [[e|sp] [Hy Hvy]]; simpl in Hvy.
      * left. exists e. split; [|exact Hvy]. apply graphItems_edge in Hy.
        apply (upper_edge H parentLam i L e Hi Hy).
        intros HeL. apply HvL. apply GraphVertices_In. left. eauto.
      * right. exists sp. split; [|exact Hvy]. apply in_app_iff. left.
        pose proof Hy as Hsp. apply graphItems_special in Hsp.
        destruct (G6 sp Hsp) as [u [Hu Hfree]].
        assert (Hpl : isPlaced (EdgesVertices parentLam) (ISpecial sp) = true).
        { apply isPlaced_iff. exists u. split; [exact Hu|].
          intros Hup'. apply EdgesVertices_In in Hup'. destruct Hup' as [e [He Hue]].
          exact (Hfree e (HpA e He) Hue). }
        destruct (item_component H parentLam _ Hy Hpl) as [c [Hc Hin]].
        apply graphItems_special in Hin.
        destruct (otherComps_In _ i L c Hi Hc) as [->|Ho].
        -- exfalso. apply HvL. apply GraphVertices_In. right. eauto.
        -- apply in_flat_map. eauto.
  - intros a v Ha Hna Hva Hvup. cbn [GEdges] in Hna.
    apply EdgesDiff_In in Ha. destruct Ha as [Ha HaL].
    apply (G4 a v Ha); [|exact Hva|now apply Hup].
    intros HaH. apply Hna. exact (upper_edge H parentLam i L a Hi HaH HaL).
  - intros sp Hsp. cbn [Special] in Hsp. apply in_app_iff in Hsp.
    destruct Hsp as [Hsp|[<-|[]]].
    + destruct (G6 sp (upper_special_inv H parentLam i sp Hsp)) as [u [Hu Hfree]].
      exists u. split; [exact Hu|]. intros a Ha. apply EdgesDiff_In in Ha. apply Hfree. tauto.
    + destruct (child_reaches_inside H parentLam childLam limit L Hbal HL Hlow)
        as [u [Huc [HuL Hunp]]].
      exists u. split; [apply specialChild_In; apply Inter_In; tauto|].
      intros a Ha Hua. apply EdgesDiff_In in Ha. destruct Ha as [Ha HaL].
      apply Hunp. exact (Hout a u Ha HaL Hua HuL).
Qed.

Section ConnSection.

Variable IntHash : list Z -> Z.
Variable combineNodes : Node -> Node -> Edges -> option Node.
Variable Cache : Type.
Variable CheckNegative : Cache -> Edges -> list Graph -> bool.
Variable AddNegative : Cache -> Edges -> Graph -> Cache.
Variable schedule : list (list nat) -> list (list nat).
Variable l : LogKDecomp.

Variable rec : Call Cache.
Hypothesis rec_inside : forall cache H Conn allowedFull,
  GoodCall H Conn allowedFull -> avoids ConnOutsideGraph (rec cache H Conn allowedFull).

Lemma rootCase_inside cache childLam childChi allowedFull comps_c :
  (forall c, In c comps_c -> GoodCall c (Inter (GraphVertices c) childChi) allowedFull) ->
  avoids ConnOutsideGraph
    (rootCase Cache AddNegative rec cache childLam childChi allowedFull comps_c).
Proof.
  revert cache. induction comps_c as [|comp rest IH]; intros cache Hall; simpl.
  - unfold avoids; discriminate.
  - assert (Hrest : forall c, In c rest ->
                    GoodCall c (Inter (GraphVertices c) childChi) allowedFull)
      by (intros c Hc; apply Hall; now right).
    repeat (first [apply rec_inside; apply Hall; now left | now apply IH | avoid_step]).
Qed.

Lemma forkChildren_inside cache childChi allowedFull comps_c :
  (forall c, In c comps_c -> GoodCall c (Inter (GraphVertices c) childChi) allowedFull) ->
  avoids ConnOutsideGraph (forkChildren Cache rec cache childChi allowedFull comps_c).
Proof.
  revert cache. induction comps_c as [|comp rest IH]; intros cache Hall; simpl.
  - unfold avoids; discriminate.
  - assert (Hrest : forall c, In c rest ->
                    GoodCall c (Inter (GraphVertices c) childChi) allowedFull)
      by (intros c Hc; apply Hall; now right).
    repeat (first [apply rec_inside; apply Hall; now left | now apply IH | avoid_step]).
Qed.

Lemma attachingSubtrees_inside above below connecting :
  avoids ConnOutsideGraph (attachingSubtrees combineNodes above below connecting).
Proof. unfold attachingSubtrees. repeat avoid_step. Qed.

Lemma parentRound_inside cache H Conn allowedFull childLam parentLam :
  GoodCall H Conn allowedFull ->
  BalancedCheck_Check GetComponents IntHash H childLam (BalFactor l) = Some true ->
  (forall e, In e parentLam -> In e allowedFull) ->
  ParentCheck_Check GetComponents (mkParentCheck Conn (EdgesVertices childLam)) H parentLam
                    (BalFactor l) = Some true ->
  avoids ConnOutsideGraph
    (parentRound combineNodes Cache CheckNegative AddNegative l rec cache H Conn allowedFull
                 (GraphVertices H) childLam parentLam).
Proof.
  intros Hgood Hbal HpA Hpar.
  destruct (BalancedCheck_Check_true _ _ _ _ _ Hbal) as [limit [Hlim Hcomps]].
  destruct (ParentCheck_Check_true _ _ _ _ _ Hpar) as [limit' [L [Hlim' [Hlow [PC2 PC3]]]]].
  rewrite Hlim in Hlim'. injection Hlim' as <-. simpl in PC2, PC3.
  rewrite findLow_lowComponent_eq in Hlow.
  pose proof (GoodCall_compUp H Conn allowedFull childLam parentLam limit) as Hup.
  pose proof (GoodCall_parent_child H Conn allowedFull childLam parentLam L) as Hch.
  unfold parentRound. rewrite Hlim.
  destruct (GetComponents H parentLam) as [comps_p isolatedEdges] eqn:Ec.
  cbn [fst snd] in Hlow, Hup, Hch.
  destruct (findLow limit comps_p) as [[i L']|] eqn:Elow; [|discriminate].
  simpl in Hlow. injection Hlow as ->.
  destruct (findLow_Some _ _ _ _ Elow) as [Hn Hgt].
  assert (HL : In L comps_p) by (eapply nth_error_In; eauto).
  assert (Hchildren : forall c, In c (fst (GetComponents L childLam)) ->
            GoodCall c (Inter (GraphVertices c)
                              (Inter (EdgesVertices childLam) (GraphVertices L))) allowedFull).
  { intros c Hc. now apply Hch. }
  destruct (CheckNegative cache childLam (fst (GetComponents L childLam)));
    [unfold avoids; discriminate|].
  apply bind_avoids.
  - destruct (len comps_p =? 1); [unfold avoids; discriminate|].
    destruct (0 <? len (isolatedEdges ++ flat_map GEdges (otherComps i comps_p)));
      [|unfold avoids; discriminate].
    apply bind_avoids.
    + apply rec_inside. now apply (Hup i L).
    + intros [d c] _. unfold avoids; discriminate.
  - intros [decompUp cache1] _.
    repeat (first [now apply forkChildren_inside
                  | apply attachingSubtrees_inside | avoid_step]).
Qed.

Lemma parentLoop_inside cache H Conn allowedFull childLam parents :
  GoodCall H Conn allowedFull ->
  BalancedCheck_Check GetComponents IntHash H childLam (BalFactor l) = Some true ->
  Forall (fun parentLam =>
            ParentCheck_Check GetComponents (mkParentCheck Conn (EdgesVertices childLam)) H
                              parentLam (BalFactor l) = Some true /\
            forall e, In e parentLam -> In e allowedFull) parents ->
  avoids ConnOutsideGraph
    (parentLoop combineNodes Cache CheckNegative AddNegative l rec cache H Conn allowedFull
                (GraphVertices H) childLam parents).
Proof.
  intros Hgood Hbal Hall. revert cache.
  induction Hall as [|parentLam rest [Hp Hin] Hrest IH]; intros cache; simpl.
  - unfold avoids; discriminate.
  - repeat (first [now apply parentRound_inside | apply IH | avoid_step]).
Qed.

(** A separator the search reports passed the predicate and is made of edges
    of the slice searched. *)
Lemma searchResults_sound (pred : Edges -> option bool) (edges : Edges) :
  Forall (fun sep => pred sep = Some true /\ forall e, In e sep -> In e edges)
         (searchResults schedule l pred edges).
Proof.
  unfold searchResults. apply Forall_forall. intros sep Hin.
  apply filter_In in Hin. destruct Hin as [Hmap Hp]. split.
  - destruct (pred sep) as [[|]|]; [reflexivity|discriminate|discriminate].
  - apply in_map_iff in Hmap. destruct Hmap as [idx [<- _]]. intros e. apply GetSubset_incl.
Qed.

Lemma childRound_inside cache H Conn allowedFull allowed childLam :
  GoodCall H Conn allowedFull ->
  (forall e, In e allowed -> In e allowedFull) ->
  BalancedCheck_Check GetComponents IntHash H childLam (BalFactor l) = Some true ->
  avoids ConnOutsideGraph
    (childRound combineNodes Cache CheckNegative AddNegative schedule l rec cache H Conn
                allowedFull allowed (GraphVertices H) childLam).
Proof.
  intros Hgood Hallowed Hbal. unfold childRound.
  destruct (Subset Conn (EdgesVertices childLam)) eqn:Es.
  - rewrite Subset_spec in Es.
    assert (Hchildren : forall c, In c (fst (GetComponents H childLam)) ->
              GoodCall c (Inter (GraphVertices c)
                                (Inter (EdgesVertices childLam) (GraphVertices H))) allowedFull).
    { intros c Hc. now apply GoodCall_root_child with (Conn := Conn). }
    repeat (first [now apply rootCase_inside | avoid_step]).
  - apply parentLoop_inside; [exact Hgood|exact Hbal|].
    eapply Forall_impl; [|apply searchResults_sound].
    intros sep [Hp Hin]. split; [exact Hp|].
    intros e He. apply Hallowed. eapply FilterVertices_incl. apply Hin. exact He.
Qed.

Lemma childLoop_inside cache H Conn allowedFull allowed children :
  GoodCall H Conn allowedFull ->
  (forall e, In e allowed -> In e allowedFull) ->
  Forall (fun childLam =>
            BalancedCheck_Check GetComponents IntHash H childLam (BalFactor l) = Some true)
         children ->
  avoids ConnOutsideGraph
    (childLoop combineNodes Cache CheckNegative AddNegative schedule l rec cache H Conn
               allowedFull allowed (GraphVertices H) children).
Proof.
  intros Hgood Hallowed Hall. revert cache.
  induction Hall as [|childLam rest Hc Hrest IH]; intros cache; simpl.
  - unfold avoids; discriminate.
  - repeat (first [now apply childRound_inside | apply IH | avoid_step]).
Qed.

Lemma findDecompBody_inside cache H Conn allowedFull :
  GoodCall H Conn allowedFull ->
  avoids ConnOutsideGraph
    (findDecompBody IntHash combineNodes Cache CheckNegative AddNegative schedule l rec
                    cache H Conn allowedFull).
Proof.
  intros Hgood. unfold findDecompBody.
  assert (Es : Subset Conn (GraphVertices H) = true)
    by (apply Subset_spec; exact (good_conn _ _ _ Hgood)).
  rewrite Es. cbn [negb].
  destruct (baseCaseCheck l (len (GEdges H)) (len (Special H)) (len allowedFull));
    [unfold avoids; discriminate|].
  apply childLoop_inside; [exact Hgood|intros e; apply FilterVertices_incl|].
  eapply Forall_impl; [|apply searchResults_sound]. intros sep [Hp _]. exact Hp.
Qed.

End ConnSection.

(** Every call the engine makes from a call with [GoodCall] passes the check
    at the entry of [findDecomp]. *)
Lemma findDecomp_inside
  (IntHash : list Z -> Z) (combineNodes : Node -> Node -> Edges -> option Node)
  (Cache : Type) (CheckNegative : Cache -> Edges -> list Graph -> bool)
  (AddNegative : Cache -> Edges -> Graph -> Cache)
  (schedule : list (list nat) -> list (list nat)) (l : LogKDecomp)
  (fuel : nat) (cache : Cache) (H : Graph) (Conn : list Z) (allowedFull : Edges) :
  GoodCall H Conn allowedFull ->
  avoids ConnOutsideGraph
    (findDecomp IntHash combineNodes Cache CheckNegative AddNegative schedule l fuel
                cache H Conn allowedFull).
Proof.
  revert cache H Conn allowedFull.
  induction fuel as [|fuel IH]; intros cache H Conn allowedFull Hgood.
  - unfold avoids. simpl. discriminate.
  - simpl. apply findDecompBody_inside; [exact IH|exact Hgood].
Qed.

(** The call [FindDecomp] makes on a hypergraph. *)
Lemma GoodCall_top (G : Graph) : Special G = [] -> GoodCall G [] (GEdges G).
Proof.
  intros Hs. split.
  - intros v [].
  - intros a v Ha Hna. contradiction.
  - rewrite Hs. intros sp [].
Qed.

(** C6: on a hypergraph (a graph without special edges) [FindDecomp] starts
    from a call with [Conn] empty, and every call of [findDecomp] made from it,
    on an upper graph with the caller's [Conn] or on a component with the
    vertices it shares with the bag of the child, has [Conn] inside the
    vertices of its graph: no run stops with the fatal check at the entry of
    [findDecomp]. *)
Theorem conn_inside_graph
  (IntHash : list Z -> Z) (combineNodes : Node -> Node -> Edges -> option Node)
  (Cache : Type) (CheckNegative : Cache -> Edges -> list Graph -> bool)
  (AddNegative : Cache -> Edges -> Graph -> Cache)
  (schedule : list (list nat) -> list (list nat)) (l : LogKDecomp)
  (fuel : nat) (emptyCache : Cache) :
  Special (LGraph l) = [] ->
  FindDecomp IntHash combineNodes Cache CheckNegative AddNegative schedule l fuel emptyCache
  <> Aborted ConnOutsideGraph.
Proof.
  intros Hs. unfold FindDecomp. apply findDecomp_inside. now apply GoodCall_top.
Qed.

(** The witness of C6: the cycle of six edges with [k = 2] and the balance
    factor 2, whose run goes through the parent loop and the upper graph. *)
Lemma conn_inside_graph_witness :
  let H := mkGraph [mkEdge 1 [1; 2]; mkEdge 2 [2; 3]; mkEdge 3 [3; 4];
                    mkEdge 4 [4; 5]; mkEdge 5 [5; 6]; mkEdge 6 [6; 1]] [] in
  let l := mkLogKDecomp H 2 2 in
  Special (LGraph l) = [] /\
  FindDecomp maskHash combineByLeaves unit noCheckNegative noAddNegative lexSchedule l 4 tt
  <> Aborted ConnOutsideGraph.
Proof.
  intros H l.
  assert (Hs : Special (LGraph l) = []) by reflexivity.
  split; [exact Hs|].
  exact (conn_inside_graph maskHash combineByLeaves unit noCheckNegative noAddNegative
                           lexSchedule l 4 tt Hs).
Defined.

(** ** The parallel search *)

Lemma list_sum_middle {A : Type} (f : A -> nat) (pre post : list A) (x : A) :
  list_sum (map f (pre ++ x :: post)) = (list_sum (map f pre) + f x + list_sum (map f post))%nat.
Proof. rewrite map_app, list_sum_app. simpl. lia. Qed.

Lemma HasNext_true (g : Generator) :
  HasNext g = true -> exists j rest, genPending g = j :: rest /\ GetNext g = j.
Proof.
  unfold HasNext, GetNext. destruct (genPending g) as [|j rest]; [discriminate|].
  intros _. exists j, rest. split; reflexivity.
Qed.

Lemma HasNext_false (g : Generator) : HasNext g = false -> genPending g = [].
Proof. unfold HasNext. destruct (genPending g); [reflexivity|discriminate]. Qed.

Section SearchFacts.

Variable edges : Edges.
Variable pred : Edges -> option bool.

(** Every step uses up some of the rank: a run has at most [runRank]
    steps. *)
Lemma step_rank (r r' : Run) : step edges pred r r' -> (runRank r' < runRank r)%nat.
Proof.
  intros Hs. destruct Hs; unfold runRank; cbn [workers coordinator];
    rewrite ?list_sum_middle; unfold workerRank; cbn [fst snd mainRank Confirm Found genPending];
    try match goal with
        | Hn : HasNext ?g = true |- _ =>
            destruct (HasNext_true g Hn) as [? [? [Hpend _]]]; rewrite Hpend
        end;
    cbn [tl length]; try lia.
  destruct (genPending g); cbn [tl length]; lia.
Qed.

End SearchFacts.

Lemma in_middle {A : Type} (pre post : list A) (x y z : A) :
  In z (pre ++ y :: post) -> z = y \/ In z (pre ++ x :: post).
Proof.
  rewrite !in_app_iff. simpl. intros [H|[H|H]]; auto.
Qed.

Lemma outstanding_middle pre w post idl fin cl m :
  outstanding (mkRun (pre ++ w :: post) idl fin cl m)
  = flat_map owed pre ++ owed w ++ flat_map owed post ++ candidates idl.
Proof.
  unfold outstanding. cbn [workers idle]. rewrite flat_map_app. simpl.
  now rewrite <- !app_assoc.
Qed.

Section SearchInvariant.

Variable edges : Edges.
Variable pred : Edges -> option bool.
Variable gs0 : list Generator.

(** A step of one worker on its own generator keeps the invariant. *)
Lemma worker_update_inv pre w g post idl fin cl m w' g' fin' :
  RunInv edges pred gs0 (mkRun (pre ++ (w, g) :: post) idl fin cl m) ->
  incl (genPending g') (genPending g) ->
  (forall j, w' = Sending j ->
             exists rest, genPending g' = j :: rest /\ satisfies edges pred j = true) ->
  (owed (w', g') = owed (w, g) \/
   exists j, owed (w, g) = j :: owed (w', g') /\ satisfies edges pred j = false) ->
  (w' = AfterSend -> w = AfterSend) ->
  (w' = WorkerDone -> (forall sep, pred sep <> None) -> received m = [] -> genPending g' = []) ->
  (fin' = fin \/ received m <> []) ->
  w <> WorkerDone ->
  RunInv edges pred gs0 (mkRun (pre ++ (w', g') :: post) idl fin' cl m).
Proof.
  intros [Il Iw Is Ia Ir Io Ic Isel Id Iwt Iret] Hincl Hsend Howed Hafter Hdone Hfin Hw.
  cbn [workers idle coordinator closed finished] in *.
  split; cbn [workers idle coordinator closed finished].
  - rewrite length_app in *. simpl in *. exact Il.
  - intros x Hx. destruct (in_middle pre post (w, g) _ _ Hx) as [->|Hold].
    + cbn [snd]. intros j Hj. apply (Iw (w, g)); [apply in_elt|]. now apply Hincl.
    + now apply Iw.
  - intros j g0 Hx. destruct (in_middle pre post (w, g) _ _ Hx) as [[= <- <-]|Hold].
    + now apply Hsend.
    + now apply Is.
  - intros g0 Hx. destruct (in_middle pre post (w, g) _ _ Hx) as [[= <- <-]|Hold].
    + apply (Ia g). rewrite (Hafter eq_refl). apply in_elt.
    + now apply (Ia g0).
  - exact Ir.
  - rewrite outstanding_middle in Io |- *. rewrite !filter_app in Io |- *.
    destruct Howed as [Ho|[j [Ho Hj]]]; [now rewrite Ho|].
    rewrite Ho in Io. simpl in Io. rewrite Hj in Io. exact Io.
  - rewrite outstanding_middle in Ic |- *. rewrite !length_app in Ic |- *.
    destruct Howed as [Ho|[j [Ho Hj]]]; [now rewrite Ho|].
    rewrite Ho in Ic. simpl in Ic. lia.
  - intros Hr. destruct (Isel Hr) as [Hc Hf]. split; [exact Hc|].
    destruct Hfin as [->|Hne]; [exact Hf|contradiction].
  - intros Htot Hr g0 Hx. destruct (in_middle pre post (w, g) _ _ Hx) as [[= <- <-]|Hold].
    + now apply Hdone.
    + now apply Id.
  - exact Iwt.
  - intros Hret. exfalso. specialize (Iret Hret). unfold allDone in Iret.
    rewrite Forall_forall in Iret. apply Hw. exact (Iret (w, g) (in_elt _ _ _)).
Qed.

Lemma step_inv (r r' : Run) :
  RunInv edges pred gs0 r -> step edges pred r r' -> RunInv edges pred gs0 r'.
Proof.
  intros Hinv Hs. destruct Hs.
  - (* drained *)
    apply (worker_update_inv _ _ _ _ _ _ _ _ _ _ _ Hinv); try (intros; discriminate).
    + apply incl_refl.
    + now left.
    + intros _ _ _. now apply HasNext_false.
    + now left.
  - (* quit *)
    apply (worker_update_inv _ _ _ _ _ _ _ _ _ _ _ Hinv); try (intros; discriminate).
    + apply incl_refl.
    + now left.
    + intros _ _ Hr. destruct (ri_select _ _ _ _ Hinv Hr) as [_ Hf]. discriminate.
    + now left.
  - (* check, true *)
    destruct (HasNext_true g H) as [j [rest [Hp Hj]]].
    apply (worker_update_inv _ _ _ _ _ _ _ _ _ _ _ Hinv); try (intros; discriminate).
    + apply incl_refl.
    + intros j' [= <-]. exists rest. cbn [Found genPending]. rewrite Hj. split; [exact Hp|].
      unfold satisfies. rewrite <- Hj, H0. reflexivity.
    + now left.
    + now left.
  - (* check, false *)
    destruct (HasNext_true g H) as [j [rest [Hp Hj]]].
    apply (worker_update_inv _ _ _ _ _ _ _ _ _ _ _ Hinv); try (intros; discriminate).
    + cbn [Confirm genPending]. rewrite Hp. simpl. apply incl_tl, incl_refl.
    + right. exists j. unfold owed. cbn [fst snd Confirm genPending]. rewrite Hp.
      split; [reflexivity|]. unfold satisfies. rewrite <- Hj, H0. reflexivity.
    + now left.
  - (* check, panic *)
    apply (worker_update_inv _ _ _ _ _ _ _ _ _ _ _ Hinv); try (intros; discriminate).
    + apply incl_refl.
    + now left.
    + intros _ Htot _. exfalso. exact (Htot _ H0).
    + now left.
  - (* send *)
    destruct Hinv as [Il Iw Is Ia Ir Io Ic Isel Id Iwt Iret].
    cbn [workers idle coordinator closed finished] in *.
    destruct (Is j g (in_elt _ _ _)) as [rest [Hp Hsat]].
    split; cbn [workers idle coordinator closed finished received].
    + rewrite length_app in *. simpl in *. exact Il.
    + intros x Hx. destruct (in_middle pre post (Sending j, g) _ _ Hx) as [->|Hold].
      * apply (Iw (Sending j, g)). apply in_elt.
      * now apply Iw.
    + intros j0 g0 Hx.
      destruct (in_middle pre post (Sending j, g) _ _ Hx) as [[=]|Hold]. now apply Is.
    + intros _ _. discriminate.
    + intros j0 [<-|[]]. split; [exact Hsat|].
      apply (Iw (Sending j, g) (in_elt _ _ _)). cbn [snd]. rewrite Hp. now left.
    + rewrite outstanding_middle in Io |- *.
      assert (Ho : owed (Sending j, g) = j :: owed (AfterSend, g))
        by (unfold owed; cbn [fst snd]; now rewrite Hp).
      rewrite Ho in Io. cbn [received app] in Io. rewrite !filter_app in Io |- *.
      simpl in Io. rewrite Hsat in Io. simpl. eapply Permutation_trans; [exact Io|].
      symmetry. apply Permutation_middle.
    + rewrite outstanding_middle in Ic |- *.
      assert (Ho : owed (Sending j, g) = j :: owed (AfterSend, g))
        by (unfold owed; cbn [fst snd]; now rewrite Hp).
      rewrite Ho in Ic. cbn [received] in Ic. rewrite !length_app in Ic |- *.
      simpl in Ic |- *. lia.
    + discriminate.
    + discriminate.
    + discriminate.
    + intros [].
  - (* send on the closed channel *)
    apply (worker_update_inv _ _ _ _ _ _ _ _ _ _ _ Hinv); try (intros; discriminate).
    + apply incl_refl.
    + now left.
    + intros _ _ Hr. destruct (ri_select _ _ _ _ Hinv Hr) as [Hc _]. discriminate.
    + now left.
  - (* confirm *)
    assert (Hne : received m <> []) by exact (ri_aftersend _ _ _ _ Hinv g (in_elt _ _ _)).
    apply (worker_update_inv _ _ _ _ _ _ _ _ _ _ _ Hinv); try (intros; discriminate).
    + cbn [Confirm genPending]. destruct (genPending g); simpl;
        [apply incl_refl|apply incl_tl, incl_refl].
    + left. reflexivity.
    + intros _ _ Hr. contradiction.
    + now right.
  - (* close *)
    destruct Hinv as [Il Iw Is Ia Ir Io Ic Isel Id Iwt Iret].
    cbn [workers idle coordinator closed finished] in *.
    split; cbn [workers idle coordinator closed finished received returned] in *;
      try assumption; try discriminate; try (intros ? ?; reflexivity); try (intros []).
  - (* join *)
    destruct Hinv as [Il Iw Is Ia Ir Io Ic Isel Id Iwt Iret].
    cbn [workers idle coordinator closed finished] in *.
    split; cbn [workers idle coordinator closed finished received returned] in *;
      try assumption; try discriminate; try (intros _; assumption).
  - (* exhausted *)
    destruct Hinv as [Il Iw Is Ia Ir Io Ic Isel Id Iwt Iret].
    cbn [workers idle coordinator closed finished] in *.
    split; cbn [workers idle coordinator closed finished received returned] in *;
      try assumption; try discriminate; try (intros _; assumption).
Qed.

Lemma steps_inv (r r' : Run) :
  RunInv edges pred gs0 r -> steps edges pred r r' -> RunInv edges pred gs0 r'.
Proof.
  intros Hinv Hs. induction Hs as [r|r1 r2 r3 _ IH Hstep]; [exact Hinv|].
  eapply step_inv; [now apply IH|exact Hstep].
Qed.

End SearchInvariant.

Lemma candidates_app (gs1 gs2 : list Generator) :
  candidates (gs1 ++ gs2) = candidates gs1 ++ candidates gs2.
Proof. unfold candidates. apply flat_map_app. Qed.

Lemma owed_start (gs : list Generator) :
  flat_map owed (map (fun g => (AtLoop, g)) gs) = candidates gs.
Proof.
  unfold candidates. induction gs as [|g gs IH]; simpl; [reflexivity|]. now rewrite IH.
Qed.

Lemma owed_done (ws : list (WorkerAt * Generator)) :
  allDone ws -> flat_map owed ws = candidates (map snd ws).
Proof.
  unfold allDone, candidates. induction 1 as [|[w g] ws Hw _ IH]; simpl; [reflexivity|].
  simpl in Hw. subst w. unfold owed at 1. simpl. now rewrite IH.
Qed.

Lemma numProc_all (maxProcs : nat) (s : ParallelSearch) :
  (length (Generators s) <= maxProcs)%nat -> numProc maxProcs s = length (Generators s).
Proof.
  intros Hle. unfold numProc. destruct (Nat.ltb_spec (length (Generators s)) maxProcs); lia.
Qed.

Lemma allDone_dec (ws : list (WorkerAt * Generator)) :
  allDone ws \/ exists pre w g post, ws = pre ++ (w, g) :: post /\ w <> WorkerDone.
Proof.
  induction ws as [|[w g] ws IH].
  - left. constructor.
  - destruct w as [|j| |];
      [right; exists [], AtLoop, g, ws; split; [reflexivity|discriminate]
      |right; exists [], (Sending j), g, ws; split; [reflexivity|discriminate]
      |right; exists [], AfterSend, g, ws; split; [reflexivity|discriminate]|].
    destruct IH as [Hall|[pre [w [g' [post [-> Hw]]]]]].
    + left. constructor; [reflexivity|exact Hall].
    + right. exists ((WorkerDone, g) :: pre), w, g', post. split; [reflexivity|exact Hw].
Qed.

Section SearchRuns.

Variable edges : Edges.
Variable pred : Edges -> option bool.

Lemma startRun_inv (maxProcs : nat) (s : ParallelSearch) :
  RunInv edges pred (Generators s) (startRun maxProcs s).
Proof.
  unfold startRun. set (n := numProc maxProcs s).
  split; cbn [workers idle coordinator closed finished received returned].
  - rewrite length_map. rewrite <- (firstn_skipn n (Generators s)) at 3.
    now rewrite length_app.
  - intros w Hw. apply in_map_iff in Hw. destruct Hw as [g [<- Hg]]. cbn [snd].
    intros j Hj. unfold candidates. apply in_flat_map. exists g. split; [|exact Hj].
    rewrite <- (firstn_skipn n (Generators s)). apply in_or_app. now left.
  - intros j g Hw. apply in_map_iff in Hw. destruct Hw as [g' [[=] _]].
  - intros g Hw. apply in_map_iff in Hw. destruct Hw as [g' [[=] _]].
  - intros j [].
  - unfold outstanding. cbn [workers idle app]. rewrite owed_start, <- candidates_app.
    now rewrite firstn_skipn.
  - unfold outstanding. cbn [workers idle length]. rewrite owed_start, <- candidates_app.
    rewrite firstn_skipn. lia.
  - intros _. split; reflexivity.
  - intros _ _ g Hw. apply in_map_iff in Hw. destruct Hw as [g' [[=] _]].
  - discriminate.
  - intros [].
Qed.

Lemma step_idle (r r' : Run) : step edges pred r r' -> idle r' = idle r.
Proof. intros Hs. destruct Hs; reflexivity. Qed.

Lemma steps_idle (r r' : Run) : steps edges pred r r' -> idle r' = idle r.
Proof.
  induction 1 as [r|r1 r2 r3 _ IH Hs]; [reflexivity|].
  rewrite (step_idle _ _ Hs). exact IH.
Qed.

Lemma steps_first (r1 r2 r3 : Run) :
  step edges pred r1 r2 -> steps edges pred r2 r3 -> steps edges pred r1 r3.
Proof.
  intros H12 H23. induction H23 as [r|r2 r3 r4 _ IH Hs].
  - eapply steps_step; [apply steps_refl|exact H12].
  - eapply steps_step; [now apply IH|exact Hs].
Qed.

(** A call under way is never stuck: until [FindNext] has returned, some
    goroutine can take a step. *)
Lemma run_progress (gs0 : list Generator) (r : Run) :
  RunInv edges pred gs0 r -> returned r \/ exists r', step edges pred r r'.
Proof.
  intros Hinv. destruct r as [ws idl fin cl m].
  destruct (allDone_dec ws) as [Hall|[pre [w [g [post [-> Hw]]]]]].
  - destruct m as [|j|j| |].
    + right. eexists. now apply step_exhausted.
    + right. eexists. apply step_close.
    + right. eexists. now apply step_join.
    + left. exact I.
    + left. exact I.
  - right. destruct w as [|j| |]; [| | |contradiction].
    + destruct (HasNext g) eqn:Hn.
      * destruct (pred (GetSubset edges (GetNext g))) as [[|]|] eqn:Hp.
        -- eexists. now apply step_check_true.
        -- eexists. now apply step_check_false.
        -- eexists. now apply step_check_panic.
      * eexists. now apply step_drained.
    + destruct m as [|j'|j'|j'|].
      * destruct (ri_select _ _ _ _ Hinv eq_refl) as [Hc _]. cbn [closed] in Hc. subst cl.
        eexists. apply step_send.
      * eexists. apply step_close.
      * pose proof (ri_wait _ _ _ _ Hinv j' eq_refl) as Hc. cbn [closed] in Hc. subst cl.
        eexists. apply step_send_closed.
      * exfalso. pose proof (ri_returned _ _ _ _ Hinv I) as Hall. cbn [workers] in Hall.
        unfold allDone in Hall. rewrite Forall_forall in Hall.
        specialize (Hall _ (in_elt _ _ _)). discriminate.
      * exfalso. pose proof (ri_returned _ _ _ _ Hinv I) as Hall. cbn [workers] in Hall.
        unfold allDone in Hall. rewrite Forall_forall in Hall.
        specialize (Hall _ (in_elt _ _ _)). discriminate.
    + eexists. apply step_confirm.
Qed.

(** Every call under way can be run to its return. *)
Lemma run_completes (gs0 : list Generator) (n : nat) (r : Run) :
  (runRank r < n)%nat -> RunInv edges pred gs0 r ->
  exists r', steps edges pred r r' /\ returned r'.
Proof.
  revert r. induction n as [|n IH]; intros r Hn Hinv; [lia|].
  destruct (run_progress gs0 r Hinv) as [Hret|[r1 Hstep]].
  - exists r. split; [apply steps_refl|exact Hret].
  - pose proof (step_rank _ _ _ _ Hstep) as Hlt.
    destruct (IH r1) as [r' [Hs Hret]]; [lia|eapply step_inv; eauto|].
    exists r'. split; [eapply steps_first; eauto|exact Hret].
Qed.

(** What a call of [FindNext] leaves. *)
Lemma FindNext_cases (maxProcs : nat) (s s' : ParallelSearch) :
  FindNext edges pred maxProcs s s' ->
  length (Generators s') = length (Generators s) /\
  ((ExhaustedSearch s' = ExhaustedSearch s /\
    satisfies edges pred (Result s') = true /\
    In (Result s') (candidates (Generators s)) /\
    Permutation (filter (satisfies edges pred) (candidates (Generators s)))
                (Result s' :: filter (satisfies edges pred) (candidates (Generators s'))) /\
    (length (candidates (Generators s')) < length (candidates (Generators s)))%nat)
   \/
   (ExhaustedSearch s' = true /\ Result s' = [] /\
    Permutation (filter (satisfies edges pred) (candidates (Generators s)))
                (filter (satisfies edges pred) (candidates (Generators s'))) /\
    ((forall sep, pred sep <> None) -> (length (Generators s) <= maxProcs)%nat ->
     filter (satisfies edges pred) (candidates (Generators s)) = []))).
Proof.
  intros Hf. destruct Hf as [r j Hsteps Hm|r Hsteps Hm];
    pose proof (steps_inv _ _ _ _ _ (startRun_inv maxProcs s) Hsteps) as Hinv;
    destruct Hinv as [Il Iw Is Ia Ir Io Ic Isel Id Iwt Iret];
    cbn [Generators Result ExhaustedSearch];
    (assert (Hall : allDone (workers r)) by (apply Iret; unfold returned; now rewrite Hm));
    (assert (Hout : outstanding r = candidates (runGenerators r))
       by (unfold outstanding, runGenerators; now rewrite candidates_app, owed_done));
    rewrite Hm in *; cbn [received] in *; rewrite Hout in *;
    (split; [unfold runGenerators; now rewrite length_app, length_map|]).
  - left. destruct (Ir j (or_introl eq_refl)) as [Hsat Hin].
    split; [reflexivity|]. split; [exact Hsat|]. split; [exact Hin|].
    split; [exact Io|]. simpl in Ic. lia.
  - right. split; [reflexivity|]. split; [reflexivity|]. split; [exact Io|].
    intros Htot Hlen.
    assert (Hnil : candidates (runGenerators r) = []).
    { unfold runGenerators. rewrite candidates_app.
      rewrite (steps_idle _ _ Hsteps). unfold startRun. cbn [idle].
      rewrite (numProc_all _ _ Hlen), skipn_all. cbn [candidates flat_map].
      rewrite app_nil_r.
      assert (Hempty : forall w, In w (workers r) -> genPending (snd w) = []).
      { intros [w g] Hw. cbn [snd]. apply (Id Htot eq_refl g).
        unfold allDone in Hall. rewrite Forall_forall in Hall.
        specialize (Hall _ Hw). cbn [fst] in Hall. now subst w. }
      clear -Hempty. unfold candidates. induction (workers r) as [|w ws IH]; [reflexivity|].
      simpl. rewrite (Hempty w (or_introl eq_refl)). simpl.
      apply IH. intros w' Hw'. apply Hempty. now right. }
    rewrite Hnil in Io. simpl in Io. apply Permutation_sym in Io.
    now apply Permutation_nil in Io.
Qed.

End SearchRuns.

Section SearchResults.

Variable edges : Edges.
Variable pred : Edges -> option bool.

Lemma step_workers_length (r r' : Run) :
  step edges pred r r' -> length (workers r') = length (workers r).
Proof.
  intros Hs. destruct Hs; cbn [workers]; rewrite ?length_app; reflexivity.
Qed.

Lemma steps_workers_length (r r' : Run) :
  steps edges pred r r' -> length (workers r') = length (workers r).
Proof.
  induction 1 as [r|r1 r2 r3 _ IH Hs]; [reflexivity|].
  rewrite (step_workers_length _ _ Hs). exact IH.
Qed.

Lemma numProc_le (maxProcs : nat) (s : ParallelSearch) :
  (numProc maxProcs s <= length (Generators s))%nat.
Proof.
  unfold numProc. destruct (Nat.ltb_spec (length (Generators s)) maxProcs); lia.
Qed.

(** The generators no worker was started for are as they were. *)
Lemma run_idle (maxProcs : nat) (s : ParallelSearch) (r : Run) :
  steps edges pred (startRun maxProcs s) r ->
  skipn (numProc maxProcs s) (runGenerators r) = skipn (numProc maxProcs s) (Generators s).
Proof.
  intros Hs. unfold runGenerators.
  pose proof (steps_workers_length _ _ Hs) as Hlen.
  pose proof (steps_idle _ _ _ _ Hs) as Hidle.
  unfold startRun in Hlen, Hidle. cbn [workers idle] in Hlen, Hidle.
  rewrite length_map, length_firstn in Hlen.
  pose proof (numProc_le maxProcs s) as Hle.
  rewrite skipn_app, length_map, Hlen.
  replace (numProc maxProcs s - Nat.min (numProc maxProcs s) (length (Generators s)))%nat
    with 0%nat by lia.
  rewrite skipn_all2 by (rewrite length_map; lia).
  simpl. exact Hidle.
Qed.

(** A call of [FindNext] can be run to its return. *)
Lemma FindNext_exists (maxProcs : nat) (s : ParallelSearch) :
  exists s', FindNext edges pred maxProcs s s'.
Proof.
  destruct (run_completes edges pred (Generators s) (S (runRank (startRun maxProcs s)))
              (startRun maxProcs s)) as [r [Hs Hret]];
    [lia|apply startRun_inv|].
  unfold returned in Hret. destruct (coordinator r) as [|j|j|j|] eqn:Hm; try contradiction.
  - eexists. eapply FindNext_found; eauto.
  - eexists. eapply FindNext_exhausted; eauto.
Qed.

(** The loop over a search comes to its end. *)
Lemma Enumerates_exists (maxProcs : nat) (n : nat) (s : ParallelSearch) :
  (length (candidates (Generators s)) < n)%nat -> ExhaustedSearch s = false ->
  exists rs, Enumerates edges pred maxProcs s rs.
Proof.
  revert s. induction n as [|n IH]; intros s Hn Hex; [lia|].
  destruct (FindNext_exists maxProcs s) as [s' Hf].
  destruct (FindNext_cases _ _ _ _ _ Hf) as [_ [[He [_ [_ [_ Hlt]]]]|[He _]]].
  - destruct (IH s') as [rs Hrs]; [lia|congruence|].
    exists (Result s' :: rs). apply (Enumerates_next _ _ _ s s' rs Hf); [congruence|exact Hrs].
  - exists []. exact (Enumerates_end _ _ _ s s' Hf He).
Qed.

(** What the loop over a search goes through. *)
Lemma Enumerates_perm (maxProcs : nat) (s : ParallelSearch) (rs : list (list nat)) :
  (forall sep, pred sep <> None) ->
  Enumerates edges pred maxProcs s rs ->
  (length (Generators s) <= maxProcs)%nat -> ExhaustedSearch s = false ->
  Permutation rs (filter (satisfies edges pred) (candidates (Generators s))).
Proof.
  intros Htot He. induction He as [s s' Hf Hex|s s' rs Hf Hex _ IH]; intros Hlen Hs.
  - destruct (FindNext_cases _ _ _ _ _ Hf) as [_ [[He _]|[_ [_ [_ Hnil]]]]]; [congruence|].
    rewrite (Hnil Htot Hlen). constructor.
  - destruct (FindNext_cases _ _ _ _ _ Hf) as [Hl [[_ [_ [_ [Hp _]]]]|[He _]]]; [|congruence].
    eapply Permutation_trans; [|symmetry; exact Hp].
    constructor. apply IH; [lia|exact Hex].
Qed.

End SearchResults.

(** X1: a call of [ParallelSearch.FindNext] returns under every interleaving
    of its goroutines: a run that has not returned is never stuck (a worker
    blocked in [found <- j] is received or finds the channel closed; the join
    is reached when all workers are done), every step uses up some of a finite
    rank, and a complete run exists. *)
Theorem FindNext_never_stuck (edges : Edges) (pred : Edges -> option bool)
  (maxProcs : nat) (s : ParallelSearch) :
  (forall r, steps edges pred (startRun maxProcs s) r ->
     (returned r \/ exists r', step edges pred r r') /\
     (forall r', step edges pred r r' -> (runRank r' < runRank r)%nat)) /\
  (exists s', FindNext edges pred maxProcs s s').
Proof.
  split.
  - intros r Hs. split.
    + apply (run_progress edges pred (Generators s)).
      eapply steps_inv; [apply startRun_inv|exact Hs].
    + intros r'. apply step_rank.
  - apply FindNext_exists.
Qed.

(** A run of [FindNext] on it: the worker rejects [[0]], finds [[1]], sends
    it and confirms; [FindNext] closes the channel and joins. *)
Lemma exampleSearch_run :
  FindNext exampleEdges examplePred 2 exampleSearch
           (mkParallelSearch [1%nat] [mkGenerator [] false] false).
Proof.
  apply (FindNext_found exampleEdges examplePred 2 exampleSearch
           (mkRun [(WorkerDone, mkGenerator [] false)] [] true true (ReturnFound [1%nat]))
           [1%nat]); [|reflexivity].
  eapply steps_first.
  { apply (step_check_false exampleEdges examplePred []
             (mkGenerator [[0%nat]; [1%nat]] false) []); reflexivity. }
  eapply steps_first.
  { apply (step_check_true exampleEdges examplePred []
             (mkGenerator [[1%nat]] false) []); reflexivity. }
  eapply steps_first.
  { apply (step_send exampleEdges examplePred [] [1%nat] (mkGenerator [[1%nat]] true) []). }
  eapply steps_first.
  { apply (step_confirm exampleEdges examplePred [] (mkGenerator [[1%nat]] true) []). }
  eapply steps_first.
  { apply step_close. }
  eapply steps_first.
  { apply step_join. repeat constructor. }
  apply steps_refl.
Qed.

(** X2: what [ParallelSearch.FindNext] leaves: either [ExhaustedSearch] is
    set (and [Result] is empty), or [Result] is a candidate one of the
    generators had still to give, the predicate returned true on the edges it
    selects, and [ExhaustedSearch] is as it was. *)
Theorem FindNext_result (edges : Edges) (pred : Edges -> option bool)
  (maxProcs : nat) (s s' : ParallelSearch) :
  FindNext edges pred maxProcs s s' ->
  (ExhaustedSearch s' = true /\ Result s' = []) \/
  (ExhaustedSearch s' = ExhaustedSearch s /\
   In (Result s') (candidates (Generators s)) /\
   pred (GetSubset edges (Result s')) = Some true).
Proof.
  intros Hf. destruct (FindNext_cases _ _ _ _ _ Hf) as [_ [[He [Hsat [Hin _]]]|[He [Hr _]]]].
  - right. split; [exact He|]. split; [exact Hin|].
    unfold satisfies in Hsat.
    destruct (pred (GetSubset edges (Result s'))) as [[|]|]; [reflexivity|discriminate|discriminate].
  - left. split; assumption.
Qed.

Lemma FindNext_result_witness :
  FindNext exampleEdges examplePred 2 exampleSearch
           (mkParallelSearch [1%nat] [mkGenerator [] false] false) /\
  ((true = true /\ [1%nat] = []) \/
   (false = false /\ In [1%nat] [[0%nat]; [1%nat]] /\
    examplePred (GetSubset exampleEdges [1%nat]) = Some true)).
Proof.
  split; [exact exampleSearch_run|].
  destruct (FindNext_result exampleEdges examplePred 2 exampleSearch _ exampleSearch_run)
    as [[Hf _]|H]; [discriminate Hf|].
  right. exact H.
Defined.

(** X3: a call of [ParallelSearch.FindNext] keeps the generators in step
    with what was reported: the number of generators does not change; the
    generators past the first [numProc] (those no worker was started for) are
    untouched; and the satisfying candidates still to give before the call
    are the result of the call, if there is one, together with those still to
    give after it: none is dropped and none is handed out twice. *)
Theorem FindNext_keeps_candidates (edges : Edges) (pred : Edges -> option bool)
  (maxProcs : nat) (s s' : ParallelSearch) :
  ExhaustedSearch s = false ->
  FindNext edges pred maxProcs s s' ->
  length (Generators s') = length (Generators s) /\
  skipn (numProc maxProcs s) (Generators s') = skipn (numProc maxProcs s) (Generators s) /\
  Permutation (filter (satisfies edges pred) (candidates (Generators s)))
              ((if ExhaustedSearch s' then [] else [Result s'])
               ++ filter (satisfies edges pred) (candidates (Generators s'))).
Proof.
  intros Hs Hf.
  destruct (FindNext_cases _ _ _ _ _ Hf) as [Hl Hc]. split; [exact Hl|]. split.
  - destruct Hf as [r j Hsteps _|r Hsteps _]; cbn [Generators];
      now apply (run_idle edges pred).
  - destruct Hc as [[He [_ [_ [Hp _]]]]|[He [_ [Hp _]]]].
    + rewrite He, Hs. exact Hp.
    + rewrite He. exact Hp.
Qed.

Lemma FindNext_keeps_candidates_witness :
  ExhaustedSearch exampleSearch = false /\
  FindNext exampleEdges examplePred 2 exampleSearch
           (mkParallelSearch [1%nat] [mkGenerator [] false] false) /\
  Permutation (filter (satisfies exampleEdges examplePred) [[0%nat]; [1%nat]])
              ([[1%nat]] ++ filter (satisfies exampleEdges examplePred) []).
Proof.
  split; [reflexivity|]. split; [exact exampleSearch_run|].
  exact (proj2 (proj2 (FindNext_keeps_candidates exampleEdges examplePred 2 exampleSearch _
                         eq_refl exampleSearch_run))).
Defined.

(** X4: the loop of the engine over a search,
    [s.FindNext(pred); for ; !s.ExhaustedSearch; s.FindNext(pred)], on a
    search with at most [GOMAXPROCS] generators and a predicate that returns
    on every separator: under every interleaving the loop ends, and the
    results it goes through are the candidates of the generators on which the
    predicate is true, each as often as the generators hold it: none is
    skipped and none comes twice. *)
Theorem FindNext_enumerates (edges : Edges) (pred : Edges -> option bool)
  (maxProcs : nat) (s : ParallelSearch) :
  (forall sep, pred sep <> None) ->
  (length (Generators s) <= maxProcs)%nat -> ExhaustedSearch s = false ->
  (exists rs, Enumerates edges pred maxProcs s rs) /\
  (forall rs, Enumerates edges pred maxProcs s rs ->
     Permutation rs (filter (satisfies edges pred) (candidates (Generators s)))).
Proof.
  intros Htot Hlen Hs. split.
  - apply (Enumerates_exists edges pred maxProcs
             (S (length (candidates (Generators s)))) s); [lia|exact Hs].
  - intros rs He. now apply (Enumerates_perm edges pred maxProcs s rs).
Qed.

Lemma FindNext_enumerates_witness :
  (exists rs, Enumerates exampleEdges examplePred 2 exampleSearch rs) /\
  (forall rs, Enumerates exampleEdges examplePred 2 exampleSearch rs ->
     Permutation rs [[1%nat]]).
Proof.
  apply (FindNext_enumerates exampleEdges examplePred 2 exampleSearch).
  - intros sep. discriminate.
  - simpl. lia.
  - reflexivity.
Defined.

(** ** More on the search predicates *)

Lemma balancednessLimit_None (H : Graph) (b : Z) : balancednessLimit H b = None <-> b = 0.
Proof.
  unfold balancednessLimit, int_div. destruct (Z.eqb_spec b 0) as [->|Hne].
  - split; reflexivity.
  - split; [discriminate|contradiction].
Qed.

(** X5: the two checks panic exactly for the balance factor 0 (the division
    in [balancednessLimit]); for every other balance factor, whatever the
    sizes, they return. *)
Theorem Check_panics_iff_zero (getComponents : Graph -> Edges -> list Graph * list Edge)
  (IntHash : list Z -> Z) (p : ParentCheck) (H : Graph) (sep : Edges) (b : Z) :
  (BalancedCheck_Check getComponents IntHash H sep b = None <-> b = 0) /\
  (ParentCheck_Check getComponents p H sep b = None <-> b = 0).
Proof.
  rewrite <- !(balancednessLimit_None H b).
  unfold BalancedCheck_Check, ParentCheck_Check.
  destruct (balancednessLimit H b) as [limit|]; [|split; split; reflexivity].
  split; (split; [|discriminate]).
  - destruct (existsb _ (fst (getComponents H sep))); [discriminate|].
    destruct (existsb _ (Special H)); discriminate.
  - destruct (lowComponent limit (fst (getComponents H sep))); [|discriminate].
    destruct (negb _); [discriminate|]. destruct (negb _); discriminate.
Qed.

(** X6: [BalancedCheck.CheckOut] answers as [BalancedCheck.Check] does, and
    hands out the components of [H \ sep] exactly when the answer is true (no
    components otherwise). *)
Theorem CheckOut_agrees (getComponents : Graph -> Edges -> list Graph * list Edge)
  (IntHash : list Z -> Z) (H : Graph) (sep : Edges) (b : Z) :
  BalancedCheck_CheckOut getComponents IntHash H sep b
  = option_map (fun ok : bool => (ok, if ok then fst (getComponents H sep) else []))
               (BalancedCheck_Check getComponents IntHash H sep b).
Proof.
  unfold BalancedCheck_CheckOut, BalancedCheck_Check.
  destruct (balancednessLimit H b) as [limit|]; [|reflexivity].
  destruct (existsb _ (fst (getComponents H sep))); [reflexivity|].
  destruct (existsb _ (Special H)); reflexivity.
Qed.

(** X7: a separator [ParentCheck.Check] accepts as a parent is never one
    [BalancedCheck.Check] accepts, whatever [Conn] and [Child] are: the parent
    has a component over the limit. *)
Theorem parent_is_not_balanced (getComponents : Graph -> Edges -> list Graph * list Edge)
  (IntHash : list Z -> Z) (p : ParentCheck) (H : Graph) (sep : Edges) (b : Z) :
  ParentCheck_Check getComponents p H sep b = Some true ->
  BalancedCheck_Check getComponents IntHash H sep b = Some false.
Proof.
  intros Hp. destruct (ParentCheck_Check_true _ _ _ _ _ Hp) as [limit [L [Hlim [Hlow _]]]].
  apply lowComponent_Some in Hlow. destruct Hlow as [HL Hgt].
  unfold BalancedCheck_Check. rewrite Hlim.
  assert (He : existsb (fun c => limit <? GraphLen c) (fst (getComponents H sep)) = true).
  { apply existsb_exists. exists L. split; [exact HL|now apply Z.ltb_lt]. }
  now rewrite He.
Qed.


Lemma floorLimit_mono (H : Graph) (b b' : Z) :
  0 < b -> b <= b' -> floorLimit H b <= floorLimit H b'.
Proof.
  intros Hb Hle. unfold floorLimit. pose proof (GraphLen_nonneg H) as Hn.
  apply Z.div_le_lower_bound; [lia|].
  remember (GraphLen H * (b - 1)) as x eqn:Ex.
  pose proof (Z.mul_div_le x b Hb) as Hq.
  assert (Hx : 0 <= x) by (subst x; nia).
  assert (Hq0 : 0 <= x / b) by (apply Z.div_pos; lia).
  assert (Hcross : b' * x <= b * (GraphLen H * (b' - 1))) by (subst x; nia).
  nia.
Qed.

(** X9: a larger balance factor accepts more: a separator
    [BalancedCheck.Check] accepts for [b] is accepted for every [b' >= b]
    (both within the range of [int]), since the limit [|H|·(b−1)/b] grows with
    [b]. *)
Theorem BalancedCheck_monotone (getComponents : Graph -> Edges -> list Graph * list Edge)
  (IntHash : list Z -> Z) (H : Graph) (sep : Edges) (b b' : Z) :
  inRange H b -> inRange H b' -> b <= b' ->
  BalancedCheck_Check getComponents IntHash H sep b = Some true ->
  BalancedCheck_Check getComponents IntHash H sep b' = Some true.
Proof.
  intros Hr Hr' Hle. unfold BalancedCheck_Check.
  rewrite (balancednessLimit_floor H b Hr), (balancednessLimit_floor H b' Hr').
  destruct (existsb (fun c => floorLimit H b <? GraphLen c) (fst (getComponents H sep)))
    eqn:E1; [discriminate|].
  destruct (existsb _ (Special H)); [discriminate|]. intros _.
  assert (E2 : existsb (fun c => floorLimit H b' <? GraphLen c) (fst (getComponents H sep))
               = false).
  { apply existsb_false_forall. intros c Hc.
    pose proof (proj1 (existsb_false_forall _ _) E1 c Hc) as Hlt. simpl in Hlt.
    apply Z.ltb_ge in Hlt. apply Z.ltb_ge.
    pose proof (floorLimit_mono H b b' (proj1 (proj1 Hr)) Hle). lia. }
  now rewrite E2.
Qed.

(** X10: [ParentCheck.Check] only gets easier with fewer connecting vertices
    and a larger child: a separator accepted for [Conn] and [Child] is
    accepted for every [Conn'] inside [Conn] and every [Child'] that holds
    [Child]. *)
Theorem ParentCheck_monotone (getComponents : Graph -> Edges -> list Graph * list Edge)
  (p p' : ParentCheck) (H : Graph) (sep : Edges) (b : Z) :
  (forall v, In v (Conn p') -> In v (Conn p)) ->
  (forall v, In v (Child p) -> In v (Child p')) ->
  ParentCheck_Check getComponents p H sep b = Some true ->
  ParentCheck_Check getComponents p' H sep b = Some true.
Proof.
  intros Hconn Hchild Hp.
  destruct (ParentCheck_Check_true _ _ _ _ _ Hp) as [limit [L [Hlim [Hlow [PC2 PC3]]]]].
  unfold ParentCheck_Check. rewrite Hlim, Hlow.
  assert (E1 : Subset (Inter (GraphVertices L) (Conn p')) (EdgesVertices sep) = true).
  { apply Subset_spec. intros v Hv. apply Inter_In in Hv. apply PC2; [tauto|].
    apply Hconn. tauto. }
  assert (E2 : Subset (Inter (GraphVertices L) (EdgesVertices sep))
                      (Inter (Child p') (GraphVertices L)) = true).
  { apply Subset_spec. intros v Hv. apply Inter_In in Hv. apply Inter_In.
    split; [|tauto]. apply Hchild. apply PC3; tauto. }
  now rewrite E1, E2.
Qed.

(** Witnesses on the path [e1(1,2), e2(2,3), e3(3,4)]. *)
Lemma parent_is_not_balanced_witness :
  let H := mkGraph [mkEdge 1 [1; 2]; mkEdge 2 [2; 3]; mkEdge 3 [3; 4]] [] in
  let sep := [mkEdge 1 [1; 2]] in
  let p := mkParentCheck [1] [2; 3] in
  ParentCheck_Check GetComponents p H sep 2 = Some true /\
  BalancedCheck_Check GetComponents maskHash H sep 2 = Some false.
Proof.
  intros H sep p.
  assert (Hp : ParentCheck_Check GetComponents p H sep 2 = Some true) by reflexivity.
  split; [exact Hp|].
  exact (parent_is_not_balanced GetComponents maskHash p H sep 2 Hp).
Defined.


Lemma BalancedCheck_monotone_witness :
  let H := mkGraph [mkEdge 1 [1; 2]; mkEdge 2 [2; 3]; mkEdge 3 [3; 4]] [] in
  let sep := [mkEdge 2 [2; 3]] in
  BalancedCheck_Check GetComponents maskHash H sep 2 = Some true /\
  BalancedCheck_Check GetComponents maskHash H sep 3 = Some true.
Proof.
  intros H sep.
  assert (Hr : inRange H 2) by (repeat split; decide_Z).
  assert (Hr' : inRange H 3) by (repeat split; decide_Z).
  assert (Hle : 2 <= 3) by lia.
  assert (Hc : BalancedCheck_Check GetComponents maskHash H sep 2 = Some true) by reflexivity.
  split; [exact Hc|].
  exact (BalancedCheck_monotone GetComponents maskHash H sep 2 3 Hr Hr' Hle Hc).
Defined.

Lemma ParentCheck_monotone_witness :
  let H := mkGraph [mkEdge 1 [1; 2]; mkEdge 2 [2; 3]; mkEdge 3 [3; 4]] [] in
  let sep := [mkEdge 1 [1; 2]] in
  ParentCheck_Check GetComponents (mkParentCheck [1] [2; 3]) H sep 2 = Some true /\
  ParentCheck_Check GetComponents (mkParentCheck [] [2; 3; 4]) H sep 2 = Some true.
Proof.
  intros H sep.
  assert (Hp : ParentCheck_Check GetComponents (mkParentCheck [1] [2; 3]) H sep 2 = Some true)
    by reflexivity.
  split; [exact Hp|].
  apply (ParentCheck_monotone GetComponents (mkParentCheck [1] [2; 3])
                              (mkParentCheck [] [2; 3; 4]) H sep 2).
  - simpl. intros v [].
  - simpl. intros v Hv. intuition.
  - exact Hp.
Defined.

(** ** The operations on nodes *)

Lemma eqList_spec {A : Type} (eqb : A -> A -> bool) (a b : list A) :
  (forall x, In x a -> forall y, eqb x y = true <-> x = y) ->
  (eqList eqb a b = true <-> a = b).
Proof.
  revert b. induction a as [|x a IH]; intros [|y b] Hspec; simpl;
    try (split; [discriminate|discriminate]); [split; reflexivity|].
  rewrite andb_true_iff, (Hspec x (or_introl eq_refl) y), (IH b).
  - split; [intros [-> ->]; reflexivity|intros [= -> ->]; split; reflexivity].
  - intros z Hz. apply Hspec. now right.
Qed.

Lemma Edge_eqb_eq (e f : Edge) : Edge_eqb e f = true <-> e = f.
Proof.
  unfold Edge_eqb. rewrite andb_true_iff, Z.eqb_eq, eqList_spec.
  - destruct e, f; simpl. split; [intros [-> ->]; reflexivity|intros [= -> ->]; split; reflexivity].
  - intros x _ y. apply Z.eqb_eq.
Qed.

(** [reflect.DeepEqual] on nodes is equality. *)
Lemma DeepEqual_eq (n m : Node) : DeepEqual n m = true <-> n = m.
Proof.
  revert m. induction n as [bag cover children IH] using Node_induction.
  intros [bag' cover' children']. cbn [DeepEqual Bag Cover Children].
  rewrite !andb_true_iff, !eqList_spec.
  - split; [intros [[-> ->] ->]; reflexivity|intros [= -> -> ->]; repeat split].
  - rewrite Forall_forall in IH. intros x Hx y. now apply IH.
  - intros x _ y. apply Edge_eqb_eq.
  - intros x _ y. apply Z.eqb_eq.
Qed.

Lemma DeepEqual_refl (n : Node) : DeepEqual n n = true.
Proof. now apply DeepEqual_eq. Qed.

Lemma subtrees_self (n : Node) : In n (subtrees n).
Proof. destruct n. simpl. now left. Qed.

Lemma subtrees_child (n c m : Node) :
  In c (Children n) -> In m (subtrees c) -> In m (subtrees n).
Proof.
  intros Hc Hm. destruct n as [bag cover children]. simpl in *. right.
  apply in_flat_map. eauto.
Qed.

Lemma subtrees_inv (n m : Node) :
  In m (subtrees n) -> m = n \/ exists c, In c (Children n) /\ In m (subtrees c).
Proof.
  destruct n as [bag cover children]. simpl. intros [<-|Hin]; [now left|right].
  now apply in_flat_map in Hin.
Qed.

Lemma subtrees_trans (a b c : Node) :
  In b (subtrees a) -> In c (subtrees b) -> In c (subtrees a).
Proof.
  revert b c. induction a as [bag cover children IH] using Node_induction.
  intros b c Hb Hc. destruct (subtrees_inv _ _ Hb) as [->|[x [Hx Hbx]]]; [exact Hc|].
  cbn [Children] in Hx. rewrite Forall_forall in IH.
  eapply subtrees_child; [exact Hx|]. exact (IH x Hx b c Hbx Hc).
Qed.

Lemma contains_nodes (n o : Node) : contains n o = true <-> In o (subtrees n).
Proof.
  induction n as [bag cover children IH] using Node_induction.
  cbn [contains Children]. rewrite Forall_forall in IH.
  destruct (DeepEqual (mkNode bag cover children) o) eqn:E.
  - apply DeepEqual_eq in E. subst o. split; [intros _; apply subtrees_self|reflexivity].
  - rewrite existsb_exists. split.
    + intros [c [Hc Hco]]. apply (subtrees_child _ c); [exact Hc|now apply IH].
    + intros Hin. destruct (subtrees_inv _ _ Hin) as [->|[c [Hc Hm]]].
      * rewrite DeepEqual_refl in E. discriminate.
      * exists c. split; [exact Hc|now apply IH].
Qed.


Lemma bagSubsets_nodes (n : Node) :
  bagSubsets n = true <->
  (forall m, In m (subtrees n) -> forall v, In v (Bag m) -> In v (EdgesVertices (Cover m))).
Proof.
  induction n as [bag cover children IH] using Node_induction.
  cbn [bagSubsets Bag Cover Children]. rewrite Forall_forall in IH.
  destruct (Subset bag (EdgesVertices cover)) eqn:E; cbn [negb].
  - rewrite Subset_spec in E. rewrite forallb_forall. split.
    + intros Hall m Hm. destruct (subtrees_inv _ _ Hm) as [->|[c [Hc Hmc]]]; [exact E|].
      cbn [Children] in Hc. exact (proj1 (IH c Hc) (Hall c Hc) m Hmc).
    + intros Hall c Hc. apply (IH c Hc). intros m Hm. apply Hall.
      now apply (subtrees_child _ c).
  - split; [discriminate|]. intros Hall. rewrite <- E. apply Subset_spec.
    exact (Hall _ (subtrees_self _)).
Qed.

Lemma coversEdge_nodes (n : Node) (e : Edge) :
  coversEdge n e = true <->
  exists m, In m (subtrees n) /\ forall v, In v (Vertices e) -> In v (Bag m).
Proof.
  induction n as [bag cover children IH] using Node_induction.
  cbn [coversEdge Bag Children]. rewrite Forall_forall in IH.
  destruct (Subset (Vertices e) bag) eqn:E.
  - rewrite Subset_spec in E. split; [|reflexivity]. intros _.
    exists (mkNode bag cover children). split; [apply subtrees_self|exact E].
  - rewrite existsb_exists. split.
    + intros [c [Hc Hce]]. apply (IH c Hc) in Hce. destruct Hce as [m [Hm Hv]].
      exists m. split; [now apply (subtrees_child _ c)|exact Hv].
    + intros [m [Hm Hv]]. destruct (subtrees_inv _ _ Hm) as [->|[c [Hc Hmc]]].
      * apply Subset_spec in Hv. cbn [Bag] in Hv. congruence.
      * exists c. split; [exact Hc|]. apply (IH c Hc). eauto.
Qed.

Lemma NodeVertices_nodes (n : Node) : NodeVertices n = flat_map Bag (subtrees n).
Proof.
  induction n as [bag cover children IH] using Node_induction.
  cbn [NodeVertices subtrees Bag Children flat_map]. f_equal.
  induction IH as [|c cs Hc _ IHcs]; simpl; [reflexivity|].
  now rewrite flat_map_app, Hc, IHcs.
Qed.

(** X12: [Node.bagSubsets] is true exactly when, at every node of the tree,
    the bag lies within the vertices of the cover. *)
Theorem bagSubsets_spec (n : Node) :
  bagSubsets n = true <->
  (forall m, In m (subtrees n) -> forall v, In v (Bag m) -> In v (EdgesVertices (Cover m))).
Proof. apply bagSubsets_nodes. Qed.

(** X13: [Node.coversEdge] is true exactly when some node of the tree has a
    bag that holds all the vertices of the edge; an edge without vertices is
    covered by every tree. *)
Theorem coversEdge_spec (n : Node) (e : Edge) :
  (coversEdge n e = true <->
   exists m, In m (subtrees n) /\ forall v, In v (Vertices e) -> In v (Bag m)) /\
  (Vertices e = [] -> coversEdge n e = true).
Proof.
  split; [apply coversEdge_nodes|]. intros He. apply coversEdge_nodes.
  exists n. split; [apply subtrees_self|]. rewrite He. intros v [].
Qed.

Lemma NodeVertices_In (n : Node) (v : Z) :
  In v (NodeVertices n) <-> exists m, In m (subtrees n) /\ In v (Bag m).
Proof. rewrite NodeVertices_nodes. apply in_flat_map. Qed.

(** X14: [Node.Vertices] lists the bags of the nodes of the tree in
    preorder, and [Node.specialCondition] is true exactly when every vertex
    of the cover of [n] that occurs in a bag of the tree rooted at [n] is in
    the bag of [n]; [Node.noSCViolation] tests this at [n] and at the children
    of [n], and at no node further down. *)
Theorem specialCondition_spec (n : Node) :
  NodeVertices n = flat_map Bag (subtrees n) /\
  (specialCondition n = true <->
   (forall v m, In v (EdgesVertices (Cover n)) -> In m (subtrees n) -> In v (Bag m) ->
                In v (Bag n))) /\
  (noSCViolation n = true <->
   specialCondition n = true /\ forall c, In c (Children n) -> specialCondition c = true).
Proof.
  split; [apply NodeVertices_nodes|]. split.
  - unfold specialCondition. rewrite forallb_forall. split.
    + intros Hall v m Hv Hm Hvm.
      destruct (in_dec Z.eq_dec v (Bag n)) as [Hin|Hnin]; [exact Hin|].
      assert (Hd : In v (Diff (EdgesVertices (Cover n)) (Bag n))) by (apply Diff_In; tauto).
      specialize (Hall v Hd). apply negb_true_iff in Hall.
      assert (Hmem : Mem (NodeVertices n) v = true)
        by (apply Mem_In, NodeVertices_In; eauto).
      congruence.
    + intros Hall v Hd. apply Diff_In in Hd. destruct Hd as [Hv Hnin].
      apply negb_true_iff. destruct (Mem (NodeVertices n) v) eqn:E; [|reflexivity].
      apply Mem_In, NodeVertices_In in E. destruct E as [m [Hm Hvm]].
      exfalso. apply Hnin. exact (Hall v m Hv Hm Hvm).
  - unfold noSCViolation. destruct (specialCondition n); cbn [negb].
    + rewrite forallb_forall. tauto.
    + split; [discriminate|]. intros [Hf _]. discriminate.
Qed.

(** *** Attaching keeps the nodes *)

Lemma labels_unfold (bag : list Z) (cover : Edges) (children : list Node) :
  labels (mkNode bag cover children) = (bag, cover) :: flat_map labels children.
Proof.
  unfold labels. cbn [subtrees map Children]. f_equal.
  induction children as [|c cs IH]; simpl; [reflexivity|].
  now rewrite map_app, IH.
Qed.

Lemma tryChildren_labels (vertices : list Z) (subtree : Node) (cs cs' : list Node) :
  Forall (fun c => forall r, CheckLeaves c vertices subtree = (true, r) ->
                   Permutation (labels r) (labels c ++ labels subtree)) cs ->
  tryChildren vertices subtree cs = (true, cs') ->
  Permutation (flat_map labels cs') (flat_map labels cs ++ labels subtree).
Proof.
  intros Hall. revert cs'. induction Hall as [|c cs Hc _ IH]; intros cs'; simpl; [discriminate|].
  destruct (CheckLeaves c vertices subtree) as [[|] result] eqn:Ec.
  - intros [= <-]. simpl. specialize (Hc result eq_refl).
    eapply Permutation_trans; [apply Permutation_app_tail; exact Hc|].
    rewrite <- !app_assoc. apply Permutation_app_head. apply Permutation_app_comm.
  - destruct (tryChildren vertices subtree cs) as [ok' cs''] eqn:Et.
    intros [= -> <-]. simpl. rewrite <- app_assoc. apply Permutation_app_head. now apply IH.
Qed.

Lemma CheckLeaves_labels (n : Node) (vertices : list Z) (subtree r : Node) :
  CheckLeaves n vertices subtree = (true, r) ->
  Permutation (labels r) (labels n ++ labels subtree).
Proof.
  revert r. induction n as [bag cover children IH] using Node_induction. intros r.
  rewrite CheckLeaves_unfold. cbn [Children Bag Cover].
  destruct ((len children =? 0) && Subset vertices bag) eqn:E.
  - intros [= <-]. apply andb_true_iff in E. destruct E as [E _].
    apply Z.eqb_eq in E. apply len_zero_nil in E. subst children.
    rewrite !labels_unfold. simpl. rewrite app_nil_r. apply Permutation_refl.
  - destruct (tryChildren vertices subtree children) as [[|] cs] eqn:Et; [|discriminate].
    intros [= <-]. rewrite !labels_unfold. simpl. constructor.
    now apply (tryChildren_labels vertices subtree children cs).
Qed.

Lemma bagSubsets_labels (n : Node) :
  bagSubsets n = true <->
  (forall b c, In (b, c) (labels n) -> forall v, In v b -> In v (EdgesVertices c)).
Proof.
  rewrite bagSubsets_nodes. unfold labels. split.
  - intros Hall b c Hin. apply in_map_iff in Hin. destruct Hin as [m [[= <- <-] Hm]].
    now apply Hall.
  - intros Hall m Hm. apply (Hall (Bag m) (Cover m)). apply in_map_iff. exists m. now split.
Qed.

Lemma coversEdge_labels (n : Node) (e : Edge) :
  coversEdge n e = true <->
  (exists b c, In (b, c) (labels n) /\ forall v, In v (Vertices e) -> In v b).
Proof.
  rewrite coversEdge_nodes. unfold labels. split.
  - intros [m [Hm Hv]]. exists (Bag m), (Cover m). split; [|exact Hv].
    apply in_map_iff. exists m. now split.
  - intros [b [c [Hin Hv]]]. apply in_map_iff in Hin. destruct Hin as [m [[= <- <-] Hm]].
    exists m. now split.
Qed.

Lemma NodeVertices_labels (n : Node) : NodeVertices n = flat_map fst (labels n).
Proof.
  rewrite NodeVertices_nodes. unfold labels.
  induction (subtrees n) as [|m ms IH]; simpl; [reflexivity|]. now rewrite IH.
Qed.

Lemma bool_eq_iff (a b : bool) : (a = true <-> b = true) -> a = b.
Proof. destruct a, b; intuition congruence. Qed.

(** X15: when [Node.CheckLeaves] succeeds, the tree it returns has the nodes
    of the tree it was called on and of the subtree it attached, each with its
    bag and its cover, and no other node.  So the result passes
    [bagSubsets] exactly when both trees do, it covers an edge exactly when
    one of the two does, and its vertices are those of the two trees. *)
Theorem CheckLeaves_keeps_nodes (n : Node) (vertices : list Z) (subtree r : Node) :
  CheckLeaves n vertices subtree = (true, r) ->
  Permutation (labels r) (labels n ++ labels subtree) /\
  bagSubsets r = bagSubsets n && bagSubsets subtree /\
  (forall e, coversEdge r e = coversEdge n e || coversEdge subtree e) /\
  Permutation (NodeVertices r) (NodeVertices n ++ NodeVertices subtree).
Proof.
  intros Hc. pose proof (CheckLeaves_labels n vertices subtree r Hc) as Hp.
  split; [exact Hp|]. split; [|split].
  - apply bool_eq_iff. rewrite andb_true_iff, !bagSubsets_labels. split.
    + intros Hall. split; intros b c Hin; apply Hall;
        apply (Permutation_in _ (Permutation_sym Hp)); apply in_or_app; auto.
    + intros [Hn Ht] b c Hin. apply (Permutation_in _ Hp) in Hin.
      apply in_app_or in Hin. destruct Hin; [now apply Hn|now apply Ht].
  - intros e. apply bool_eq_iff. rewrite orb_true_iff, !coversEdge_labels. split.
    + intros [b [c [Hin Hv]]]. apply (Permutation_in _ Hp) in Hin.
      apply in_app_or in Hin. destruct Hin; [left|right]; eauto.
    + intros [[b [c [Hin Hv]]]|[b [c [Hin Hv]]]]; exists b, c; (split; [|exact Hv]);
        apply (Permutation_in _ (Permutation_sym Hp)); apply in_or_app; auto.
  - rewrite !NodeVertices_labels, <- flat_map_app. now apply Permutation_flat_map.
Qed.

(** The witness of X15: a root with two leaves; the subtree goes below the
    second leaf, the first whose bag holds the vertices [3; 4]. *)
Lemma CheckLeaves_keeps_nodes_witness :
  let leaf1 := mkNode [1; 2] [mkEdge 1 [1; 2]] [] in
  let leaf2 := mkNode [3; 4; 5] [mkEdge 2 [3; 4; 5]] [] in
  let n := mkNode [2; 3] [mkEdge 3 [2; 3]] [leaf1; leaf2] in
  let t := mkNode [4; 6] [mkEdge 4 [4; 6]] [] in
  let r := mkNode [2; 3] [mkEdge 3 [2; 3]]
                  [leaf1; mkNode [3; 4; 5] [mkEdge 2 [3; 4; 5]] [t]] in
  CheckLeaves n [3; 4] t = (true, r) /\
  Permutation (labels r) (labels n ++ labels t) /\
  bagSubsets r = bagSubsets n && bagSubsets t.
Proof.
  intros leaf1 leaf2 n t r.
  assert (Hc : CheckLeaves n [3; 4] t = (true, r)) by reflexivity.
  split; [exact Hc|].
  destruct (CheckLeaves_keeps_nodes n [3; 4] t r Hc) as [Hp [Hb _]].
  split; [exact Hp|exact Hb].
Defined.

(** *** Restoring the edges of a cover *)

Lemma subtrees_RestoreEdges (n : Node) (edges : Edges) :
  subtrees (RestoreEdges n edges) = map (fun m => RestoreEdges m edges) (subtrees n).
Proof.
  induction n as [bag cover children IH] using Node_induction.
  cbn [RestoreEdges Bag Cover Children]. cbn [subtrees Children map]. f_equal.
  induction IH as [|c cs Hc _ IHcs]; simpl; [reflexivity|].
  now rewrite map_app, Hc, IHcs.
Qed.

Lemma RestoreEdges_Bag (n : Node) (edges : Edges) : Bag (RestoreEdges n edges) = Bag n.
Proof. destruct n. reflexivity. Qed.

Lemma RestoreEdges_Cover (n : Node) (edges : Edges) (e : Edge) :
  In e (Cover (RestoreEdges n edges)) <->
  In e edges /\ exists e2, In e2 (Cover n) /\ forall v, In v (Vertices e2) -> In v (Vertices e).
Proof.
  destruct n as [bag cover children]. cbn [RestoreEdges Cover].
  rewrite in_flat_map. split.
  - intros [e2 [He2 Hin]]. apply filter_In in Hin. destruct Hin as [He Hs].
    rewrite Subset_spec in Hs. eauto.
  - intros [He [e2 [He2 Hs]]]. exists e2. split; [exact He2|].
    apply filter_In. split; [exact He|now apply Subset_spec].
Qed.

(** X16: [Node.RestoreEdges] keeps the shape of the tree and every bag, and
    puts in each cover, for each of its edges in turn, the edges of [edges]
    that hold it.  So the vertices and the edges covered by the tree are
    unchanged, and a tree that passes [bagSubsets] still does when every edge
    of its covers is held by some edge of [edges]. *)
Theorem RestoreEdges_spec (n : Node) (edges : Edges) :
  map Bag (subtrees (RestoreEdges n edges)) = map Bag (subtrees n) /\
  (forall m e, In m (subtrees n) ->
     (In e (Cover (RestoreEdges m edges)) <->
      In e edges /\
      exists e2, In e2 (Cover m) /\ forall v, In v (Vertices e2) -> In v (Vertices e))) /\
  NodeVertices (RestoreEdges n edges) = NodeVertices n /\
  (forall e, coversEdge (RestoreEdges n edges) e = coversEdge n e) /\
  ((forall m e2, In m (subtrees n) -> In e2 (Cover m) ->
      exists e, In e edges /\ forall v, In v (Vertices e2) -> In v (Vertices e)) ->
   bagSubsets n = true -> bagSubsets (RestoreEdges n edges) = true).
Proof.
  assert (Hbags : map Bag (subtrees (RestoreEdges n edges)) = map Bag (subtrees n)).
  { rewrite subtrees_RestoreEdges, map_map. apply map_ext. intros m. apply RestoreEdges_Bag. }
  split; [exact Hbags|]. split; [intros m e _; apply RestoreEdges_Cover|]. split; [|split].
  - rewrite !NodeVertices_nodes, !flat_map_concat_map. now rewrite Hbags.
  - intros e. apply bool_eq_iff. rewrite !coversEdge_nodes. rewrite subtrees_RestoreEdges. split.
    + intros [m [Hm Hv]]. apply in_map_iff in Hm. destruct Hm as [m0 [<- Hm0]].
      rewrite RestoreEdges_Bag in Hv. eauto.
    + intros [m [Hm Hv]]. exists (RestoreEdges m edges).
      split; [exact (in_map (fun m0 => RestoreEdges m0 edges) _ _ Hm)|].
      now rewrite RestoreEdges_Bag.
  - intros Hheld Hb. rewrite bagSubsets_nodes in Hb |- *.
    rewrite subtrees_RestoreEdges. intros m Hm v Hv.
    apply in_map_iff in Hm. destruct Hm as [m0 [<- Hm0]].
    rewrite RestoreEdges_Bag in Hv.
    pose proof (Hb m0 Hm0 v Hv) as Hc. apply EdgesVertices_In in Hc.
    destruct Hc as [e2 [He2 Hve2]]. destruct (Hheld m0 e2 Hm0 He2) as [e [He Hsub]].
    apply EdgesVertices_In. exists e. split; [|now apply Hsub].
    apply RestoreEdges_Cover. split; [exact He|]. eauto.
Qed.

Lemma RestoreEdges_spec_witness :
  let n := mkNode [1; 2] [mkEdge 0 [1; 2]] [mkNode [2; 3] [mkEdge 0 [2; 3]] []] in
  let edges := [mkEdge 1 [1; 2; 4]; mkEdge 2 [2; 3]] in
  bagSubsets n = true /\
  RestoreEdges n edges
  = mkNode [1; 2] [mkEdge 1 [1; 2; 4]] [mkNode [2; 3] [mkEdge 2 [2; 3]] []] /\
  bagSubsets (RestoreEdges n edges) = true.
Proof.
  intros n edges.
  assert (Hb : bagSubsets n = true) by reflexivity.
  split; [exact Hb|]. split; [reflexivity|].
  apply (proj2 (proj2 (proj2 (proj2 (RestoreEdges_spec n edges))))); [|exact Hb].
  intros m e2 Hm He2. simpl in Hm.
  destruct Hm as [<-|[<-|[]]]; simpl in He2; destruct He2 as [<-|[]].
  - exists (mkEdge 1 [1; 2; 4]). split; [now left|]. simpl. intuition.
  - exists (mkEdge 2 [2; 3]). split; [right; now left|]. simpl. intuition.
Defined.

(** *** The parent of a node *)

Lemma parent_unfold (n o : Node) : parent n o = parentAmong n o (Children n).
Proof.
  destruct n as [bag cover children]. cbn [parent Children].
  assert (Heq : forall n cs,
    (fix loop (cs : list Node) : Node :=
       match cs with
       | [] => o
       | child :: cs' =>
           if DeepEqual child o then n
           else if contains child o then parent child o
           else loop cs'
       end) cs = parentAmong n o cs).
  { intros n cs. induction cs as [|c cs IH]; simpl; [reflexivity|]. now rewrite IH. }
  apply Heq.
Qed.

Lemma parentAmong_none (n o : Node) (cs : list Node) :
  (forall c, In c cs -> contains c o = false) -> parentAmong n o cs = o.
Proof.
  induction cs as [|c cs IH]; intros Hall; simpl; [reflexivity|].
  assert (Hc : contains c o = false) by (apply Hall; now left).
  destruct (DeepEqual c o) eqn:E.
  - apply DeepEqual_eq in E. subst c.
    assert (contains o o = true) by apply contains_nodes, subtrees_self. congruence.
  - rewrite Hc. apply IH. intros c' Hc'. apply Hall. now right.
Qed.

Lemma parentAmong_some (n o : Node) (cs : list Node) :
  Forall (fun c => contains c o = true -> o <> c ->
                   In (parent c o) (subtrees c) /\ In o (Children (parent c o))) cs ->
  (exists c, In c cs /\ contains c o = true) ->
  (parentAmong n o cs = n /\ In o cs) \/
  (exists c, In c cs /\ In (parentAmong n o cs) (subtrees c) /\
             In o (Children (parentAmong n o cs))).
Proof.
  intros Hall. induction Hall as [|c cs Hc _ IH]; intros [x [Hx Hxo]]; [destruct Hx|].
  simpl. destruct (DeepEqual c o) eqn:E.
  - apply DeepEqual_eq in E. subst c. left. split; [reflexivity|now left].
  - assert (Hne : o <> c) by (intros ->; rewrite DeepEqual_refl in E; discriminate).
    destruct (contains c o) eqn:Ec.
    + right. exists c. destruct (Hc eq_refl Hne) as [Hp Ho]. split; [now left|]. now split.
    + destruct Hx as [->|Hx]; [congruence|].
      destruct IH as [[Hp Ho]|[c' [Hc' Hp]]]; [eauto| |].
      * left. split; [exact Hp|now right].
      * right. exists c'. split; [now right|exact Hp].
Qed.

Lemma parent_inside (n o : Node) :
  contains n o = true -> o <> n ->
  In (parent n o) (subtrees n) /\ In o (Children (parent n o)).
Proof.
  induction n as [bag cover children IH] using Node_induction. intros Hc Hne.
  rewrite parent_unfold. cbn [Children].
  assert (Hex : exists c, In c children /\ contains c o = true).
  { apply contains_nodes in Hc. destruct (subtrees_inv _ _ Hc) as [->|[c [Hin Hm]]];
      [contradiction|]. exists c. split; [exact Hin|now apply contains_nodes]. }
  destruct (parentAmong_some (mkNode bag cover children) o children IH Hex)
    as [[Hp Ho]|[c [Hin [Hp Ho]]]].
  - rewrite Hp. split; [apply subtrees_self|exact Ho].
  - split; [|exact Ho]. now apply (subtrees_child _ c).
Qed.



(** *** Rerooting *)

Lemma labels_node (n : Node) : labels n = label n :: flat_map labels (Children n).
Proof. destruct n as [bag cover children]. apply labels_unfold. Qed.

Lemma size_child (p c : Node) :
  In c (Children p) -> (length (subtrees c) < length (subtrees p))%nat.
Proof.
  destruct p as [bag cover children]. cbn [Children subtrees length]. intros Hin.
  apply in_split in Hin. destruct Hin as [l1 [l2 ->]].
  rewrite flat_map_app. simpl. rewrite !length_app. lia.
Qed.

Lemma size_sub (n m : Node) :
  In m (subtrees n) -> (length (subtrees m) <= length (subtrees n))%nat.
Proof.
  induction n as [bag cover children IH] using Node_induction. intros Hin.
  destruct (subtrees_inv _ _ Hin) as [->|[c [Hc Hm]]]; [lia|].
  cbn [Children] in Hc. rewrite Forall_forall in IH.
  pose proof (IH c Hc Hm). pose proof (size_child (mkNode bag cover children) c Hc). lia.
Qed.

(** The labels of a node of the tree lie together among the labels of the
    tree. *)
Lemma labels_sub (n m : Node) :
  In m (subtrees n) -> exists l1 l2, labels n = l1 ++ labels m ++ l2.
Proof.
  induction n as [bag cover children IH] using Node_induction. intros Hin.
  destruct (subtrees_inv _ _ Hin) as [->|[c [Hc Hm]]].
  - exists [], []. now rewrite app_nil_r.
  - cbn [Children] in Hc. rewrite Forall_forall in IH.
    destruct (IH c Hc Hm) as [a [b Hab]].
    apply in_split in Hc. destruct Hc as [cs1 [cs2 ->]].
    rewrite labels_unfold, flat_map_app. simpl. rewrite Hab.
    exists ((bag, cover) :: flat_map labels cs1 ++ a), (b ++ flat_map labels cs2).
    simpl. now rewrite <- !app_assoc.
Qed.

Lemma NoDup_middle {A : Type} (l1 l l2 : list A) : NoDup (l1 ++ l ++ l2) -> NoDup l.
Proof.
  intros H. apply NoDup_app_remove_l in H. now apply NoDup_app_remove_r in H.
Qed.

Lemma label_In_labels (n : Node) : In (label n) (labels n).
Proof. rewrite labels_node. now left. Qed.

Lemma NoDup_app_disjoint {A : Type} (l1 l2 : list A) (x : A) :
  NoDup (l1 ++ l2) -> In x l1 -> In x l2 -> False.
Proof.
  induction l1 as [|y l1 IH]; simpl; intros Hnd H1 H2; [destruct H1|].
  inversion Hnd as [|? ? Hnin Hnd']; subst. destruct H1 as [->|H1].
  - apply Hnin. apply in_or_app. now right.
  - now apply IH.
Qed.

Lemma filter_all {A : Type} (f : A -> bool) (l : list A) :
  (forall x, In x l -> f x = true) -> filter f l = l.
Proof.
  induction l as [|x l IH]; intros Hall; simpl; [reflexivity|].
  rewrite (Hall x (or_introl eq_refl)). f_equal. apply IH. intros y Hy. apply Hall. now right.
Qed.

(** Taking a child away from distinct children takes its labels away, and
    nothing else. *)
Lemma filter_child (o : Node) (cs : list Node) :
  NoDup (flat_map labels cs) -> In o cs ->
  Permutation (flat_map labels (filter (fun c => negb (DeepEqual c o)) cs) ++ labels o)
              (flat_map labels cs).
Proof.
  induction cs as [|c cs IH]; intros Hnd Hin; [destruct Hin|]. simpl in Hnd |- *.
  destruct (DeepEqual c o) eqn:E; cbn [negb].
  - apply DeepEqual_eq in E. subst c.
    rewrite filter_all; [apply Permutation_app_comm|].
    intros x Hx. apply negb_true_iff. destruct (DeepEqual x o) eqn:Ex; [|reflexivity].
    apply DeepEqual_eq in Ex. subst x. exfalso.
    apply (NoDup_app_disjoint _ _ (label o) Hnd (label_In_labels o)).
    apply in_flat_map. exists o. split; [exact Hx|apply label_In_labels].
  - destruct Hin as [->|Hin]; [rewrite DeepEqual_refl in E; discriminate|].
    simpl. rewrite <- app_assoc. apply Permutation_app_head.
    apply IH; [now apply NoDup_app_remove_l in Hnd|exact Hin].
Qed.

(** What [Reroot] returns, for a tree with distinct labels. *)
Lemma Reroot_shape (n : Node) (fuel : nat) (o : Node) :
  NoDup (labels n) -> In o (subtrees n) ->
  (length (subtrees n) - length (subtrees o) < fuel)%nat ->
  exists extra,
    Reroot fuel n o = RerootedAs (mkNode (Bag o) (Cover o) (Children o ++ extra)) /\
    Permutation (flat_map labels extra ++ labels o) (labels n).
Proof.
  intros Hnd. revert o. induction fuel as [|fuel IH]; intros o Hin Hfuel; [lia|].
  cbn [Reroot]. rewrite (proj2 (contains_nodes n o) Hin). cbn [negb].
  destruct (DeepEqual n o) eqn:E.
  - apply DeepEqual_eq in E. subst o. exists []. split.
    + rewrite app_nil_r. now destruct n.
    + apply Permutation_refl.
  - assert (Hne : o <> n) by (intros ->; rewrite DeepEqual_refl in E; discriminate).
    destruct (parent_inside n o (proj2 (contains_nodes n o) Hin) Hne) as [Hp Ho].
    set (p := parent n o) in *.
    pose proof (size_child p o Ho) as Hs1. pose proof (size_sub n p Hp) as Hs2.
    destruct (IH p Hp) as [extra [Hr Hperm]]; [lia|].
    rewrite Hr. cbn [Bag Cover Children].
    exists [mkNode (Bag p) (Cover p)
              (filter (fun c => negb (DeepEqual c o)) (Children p ++ extra))].
    split; [reflexivity|].
    assert (Hnd' : NoDup (flat_map labels extra ++ labels p)).
    { eapply Permutation_NoDup; [apply Permutation_sym; exact Hperm|exact Hnd]. }
    assert (Hndp : NoDup (flat_map labels (Children p))).
    { apply NoDup_app_remove_l in Hnd'. rewrite labels_node in Hnd'.
      now inversion Hnd'. }
    assert (Hextra : filter (fun c => negb (DeepEqual c o)) extra = extra).
    { apply filter_all. intros x Hx. apply negb_true_iff.
      destruct (DeepEqual x o) eqn:Ex; [|reflexivity].
      apply DeepEqual_eq in Ex. subst x. exfalso.
      apply (NoDup_app_disjoint _ _ (label o) Hnd').
      - apply in_flat_map. exists o. split; [exact Hx|apply label_In_labels].
      - rewrite labels_node. right. apply in_flat_map. exists o.
        split; [exact Ho|apply label_In_labels]. }
    rewrite filter_app, Hextra. cbn [flat_map]. rewrite app_nil_r, labels_unfold.
    rewrite flat_map_app.
    eapply Permutation_trans; [|exact Hperm].
    rewrite (labels_node p). simpl.
    eapply Permutation_trans; [|apply Permutation_middle]. constructor.
    rewrite <- app_assoc.
    eapply Permutation_trans; [apply Permutation_app_comm|].
    rewrite <- app_assoc. apply Permutation_app_head.
    eapply Permutation_trans; [apply Permutation_app_comm|].
    now apply filter_child.
Qed.



(** Without distinct labels a node can get lost: in the path [X - Y - X]
    rerooted at its leaf, the loop that takes the leaf away from the children
    of [Y] also takes away the rerooted root, which looks the same. *)
Example Reroot_equal_nodes :
  let x := mkNode [1] [] [] in
  let n := mkNode [1] [] [mkNode [2] [] [x]] in
  Reroot 3 n x = RerootedAs (mkNode [1] [] [mkNode [2] [] []]).
Proof. reflexivity. Qed.

(** ** More on the engine *)

Lemma len_one_inv {A : Type} (s : list A) : len s = 1 -> exists x, s = [x].
Proof.
  unfold len. destruct s as [|x [|y s]]; simpl; intros Hl; try lia. now exists x.
Qed.

Lemma baseCase_cases (l : LogKDecomp) (H : Graph) (lenAE : Z) :
  isEmptyDecomp (baseCase l H lenAE) = false ->
  DGraph (baseCase l H lenAE) = H /\
  Children (Root (baseCase l H lenAE)) = [] /\
  (forall v, In v (Bag (Root (baseCase l H lenAE))) <-> In v (GraphVertices H)) /\
  bagSubsets (Root (baseCase l H lenAE)) = true /\
  lenAE <> 0 /\
  ((Special H = [] /\ Cover (Root (baseCase l H lenAE)) = GEdges H /\
    len (GEdges H) <= K l) \/
   (GEdges H = [] /\ Special H = [Cover (Root (baseCase l H lenAE))])).
Proof.
  unfold baseCase.
  destruct ((len (GEdges H) =? 0) && (1 <? len (Special H))) eqn:Ea; [discriminate|].
  destruct ((lenAE =? 0) && (0 <=? GraphLen H)) eqn:Eb; [discriminate|].
  assert (HAE : lenAE <> 0).
  { intros ->. pose proof (GraphLen_nonneg H) as Hn. apply Z.leb_le in Hn.
    rewrite Hn in Eb. discriminate. }
  destruct ((len (GEdges H) =? 0) && (len (Special H) =? 1)) eqn:E2.
  - apply andb_true_iff in E2. destruct E2 as [He Hs].
    apply Z.eqb_eq in He, Hs. apply len_zero_nil in He. apply len_one_inv in Hs.
    destruct Hs as [sp1 Hs]. rewrite Hs. intros _. cbn [DGraph Root Children Bag Cover].
    split; [reflexivity|]. split; [reflexivity|]. split; [|split; [|split]].
    + intros v. rewrite GraphVertices_In, He, Hs. split.
      * intros Hv. right. exists sp1. split; [now left|exact Hv].
      * intros [[e [[] _]]|[sp [[<-|[]] Hv]]]. exact Hv.
    + cbn [bagSubsets Bag Cover Children forallb].
      assert (Hsub : Subset (EdgesVertices sp1) (EdgesVertices sp1) = true)
        by (apply Subset_spec; auto).
      now rewrite Hsub.
    + exact HAE.
    + right. split; [exact He|reflexivity].
  - destruct ((len (GEdges H) <=? K l) && (len (Special H) =? 0)) eqn:E1; [|discriminate].
    apply andb_true_iff in E1. destruct E1 as [Hk Hs].
    apply Z.leb_le in Hk. apply Z.eqb_eq, len_zero_nil in Hs.
    intros _. cbn [DGraph Root Children Bag Cover].
    split; [reflexivity|]. split; [reflexivity|]. split; [tauto|]. split; [|split].
    + cbn [bagSubsets Bag Cover Children forallb].
      assert (Hsub : Subset (GraphVertices H) (EdgesVertices (GEdges H)) = true).
      { apply Subset_spec. intros v Hv. apply GraphVertices_In in Hv. rewrite Hs in Hv.
        destruct Hv as [Hv|[sp [[] _]]]. now apply EdgesVertices_In. }
      now rewrite Hsub.
    + exact HAE.
    + left. split; [exact Hs|]. split; [reflexivity|exact Hk].
Qed.

(** X19: a decomposition [baseCase] returns, other than the failure value,
    is for the graph it was called on and has a single node whose bag is the
    set of vertices of the graph and lies within the vertices of its cover;
    there is then an allowed edge, and the cover is either the edges of a
    graph without special edges and with at most [K] edges, or the only
    special edge of a graph without edges. *)
Theorem baseCase_output (l : LogKDecomp) (H : Graph) (lenAE : Z) :
  isEmptyDecomp (baseCase l H lenAE) = false ->
  DGraph (baseCase l H lenAE) = H /\
  Children (Root (baseCase l H lenAE)) = [] /\
  (forall v, In v (Bag (Root (baseCase l H lenAE))) <-> In v (GraphVertices H)) /\
  bagSubsets (Root (baseCase l H lenAE)) = true /\
  lenAE <> 0 /\
  ((Special H = [] /\ Cover (Root (baseCase l H lenAE)) = GEdges H /\
    len (GEdges H) <= K l) \/
   (GEdges H = [] /\ Special H = [Cover (Root (baseCase l H lenAE))])).
Proof. apply baseCase_cases. Qed.

Lemma baseCase_output_witness :
  let sp := [mkEdge 0 [3; 4]] in
  let H := mkGraph [] [sp] in
  let l := mkLogKDecomp H 2 2 in
  baseCase l H 1 = mkDecomp H (mkNode [3; 4] sp []) /\
  bagSubsets (Root (baseCase l H 1)) = true.
Proof.
  intros sp H l. split; [reflexivity|].
  assert (Hne : isEmptyDecomp (baseCase l H 1) = false) by reflexivity.
  exact (proj1 (proj2 (proj2 (proj2 (baseCase_output l H 1 Hne))))).
Defined.



(** [yields P o]: if the run [o] returns, what it returns satisfies [P]. *)
Definition yields {A : Type} (P : A -> Prop) (o : Outcome A) : Prop :=
  forall a, o = Returned a -> P a.

Lemma bind_yields {A B : Type} (P : B -> Prop) (m : Outcome A) (k : A -> Outcome B) :
  (forall a, m = Returned a -> yields P (k a)) -> yields P (bind m k).
Proof.
  unfold yields. destruct m as [a|f|]; simpl; intros Hk b Hb; try discriminate.
  exact (Hk a eq_refl b Hb).
Qed.

Lemma Returned_yields {A : Type} (P : A -> Prop) (a : A) : P a -> yields P (Returned a).
Proof. intros HP b [= <-]. exact HP. Qed.

Lemma Aborted_yields {A : Type} (P : A -> Prop) (f : Fatal) : yields P (Aborted f).
Proof. intros b. discriminate. Qed.

Ltac yield_step :=
  match goal with
  | |- yields _ (bind _ _) => apply bind_yields; intros ? ?
  | |- yields _ (Aborted _) => apply Aborted_yields
  | |- yields _ (Returned _) => apply Returned_yields
  | |- yields _ (match ?x with _ => _ end) => destruct x eqn:?
  | |- yields _ (let '(_, _) := ?x in _) => destruct x eqn:?
  end.

Section GraphSection.

Variable IntHash : list Z -> Z.
Variable combineNodes : Node -> Node -> Edges -> option Node.
Variable Cache : Type.
Variable CheckNegative : Cache -> Edges -> list Graph -> bool.
Variable AddNegative : Cache -> Edges -> Graph -> Cache.
Variable schedule : list (list nat) -> list (list nat).
Variable l : LogKDecomp.
Variable rec : Call Cache.

Lemma parentRound_graph cache H Conn allowedFull VerticesH childLam parentLam :
  yields (fun rc => forall d, fst rc = Some d -> DGraph d = H)
    (parentRound combineNodes Cache CheckNegative AddNegative l rec cache H Conn allowedFull
                 VerticesH childLam parentLam).
Proof.
  unfold parentRound.
  repeat first [ yield_step
               | progress (cbn [fst]; intros ? [= <-]; reflexivity)
               | progress (cbn [fst]; intros ?; discriminate) ].
Qed.

Lemma parentLoop_graph cache H Conn allowedFull VerticesH childLam parents :
  yields (fun rc => forall d, fst rc = Some d -> DGraph d = H)
    (parentLoop combineNodes Cache CheckNegative AddNegative l rec cache H Conn allowedFull
                VerticesH childLam parents).
Proof.
  revert cache. induction parents as [|parentLam rest IH]; intros cache; simpl.
  - apply Returned_yields. cbn [fst]. discriminate.
  - apply bind_yields. intros [r cache1] Hr.
    pose proof (parentRound_graph _ _ _ _ _ _ _ _ Hr) as Hg. cbn [fst] in Hg.
    destruct r as [d|]; [|apply IH].
    apply Returned_yields. cbn [fst]. intros d' [= <-]. now apply Hg.
Qed.

Lemma childRound_graph cache H Conn allowedFull allowed VerticesH childLam :
  yields (fun rc => forall d, fst rc = Some d -> DGraph d = H)
    (childRound combineNodes Cache CheckNegative AddNegative schedule l rec cache H Conn
                allowedFull allowed VerticesH childLam).
Proof.
  unfold childRound. destruct (Subset Conn (EdgesVertices childLam)).
  - repeat first [ yield_step
                 | progress (cbn [fst]; intros ? [= <-]; reflexivity)
                 | progress (cbn [fst]; intros ?; discriminate) ].
  - apply parentLoop_graph.
Qed.

Lemma childLoop_graph cache H Conn allowedFull allowed VerticesH children :
  yields (fun dc => isEmptyDecomp (fst dc) = false -> DGraph (fst dc) = H)
    (childLoop combineNodes Cache CheckNegative AddNegative schedule l rec cache H Conn
               allowedFull allowed VerticesH children).
Proof.
  revert cache. induction children as [|childLam rest IH]; intros cache; simpl.
  - apply Returned_yields. cbn [fst]. discriminate.
  - apply bind_yields. intros [r cache1] Hr.
    pose proof (childRound_graph _ _ _ _ _ _ _ _ Hr) as Hg. cbn [fst] in Hg.
    destruct r as [d|]; [|apply IH].
    apply Returned_yields. cbn [fst]. intros _. now apply Hg.
Qed.

Lemma findDecompBody_graph cache H Conn allowedFull :
  yields (fun dc => isEmptyDecomp (fst dc) = false -> DGraph (fst dc) = H)
    (findDecompBody IntHash combineNodes Cache CheckNegative AddNegative schedule l rec
                    cache H Conn allowedFull).
Proof.
  unfold findDecompBody.
  destruct (negb (Subset Conn (GraphVertices H))); [apply Aborted_yields|].
  destruct (baseCaseCheck l (len (GEdges H)) (len (Special H)) (len allowedFull)).
  - apply Returned_yields. cbn [fst]. intros Hne. now apply baseCase_cases.
  - apply childLoop_graph.
Qed.

End GraphSection.

(** X21: a decomposition a call of [findDecomp] returns, other than the
    failure value, is a decomposition for the graph [H] of that call: its
    [Graph] field is [H], whatever the search order, the cache and the attach
    operation are. *)
Theorem findDecomp_graph
  (IntHash : list Z -> Z) (combineNodes : Node -> Node -> Edges -> option Node)
  (Cache : Type) (CheckNegative : Cache -> Edges -> list Graph -> bool)
  (AddNegative : Cache -> Edges -> Graph -> Cache)
  (schedule : list (list nat) -> list (list nat)) (l : LogKDecomp)
  (fuel : nat) (cache cache' : Cache) (H : Graph) (Conn : list Z) (allowedFull : Edges)
  (d : Decomp) :
  findDecomp IntHash combineNodes Cache CheckNegative AddNegative schedule l fuel
             cache H Conn allowedFull = Returned (d, cache') ->
  isEmptyDecomp d = false -> DGraph d = H.
Proof.
  destruct fuel as [|fuel]; [discriminate|]. cbn [findDecomp]. intros Hr.
  exact (findDecompBody_graph IntHash combineNodes Cache CheckNegative AddNegative schedule l
           _ cache H Conn allowedFull (d, cache') Hr).
Qed.

(** The witness of X21: the cycle of six edges with [k = 2]. *)
Lemma findDecomp_graph_witness :
  let H := mkGraph [mkEdge 1 [1; 2]; mkEdge 2 [2; 3]; mkEdge 3 [3; 4];
                    mkEdge 4 [4; 5]; mkEdge 5 [5; 6]; mkEdge 6 [6; 1]] [] in
  let l := mkLogKDecomp H 2 2 in
  exists d, findDecomp maskHash combineByLeaves unit noCheckNegative noAddNegative
                       lexSchedule l 4 tt H [] (GEdges H) = Returned (d, tt) /\
            isEmptyDecomp d = false /\ DGraph d = H.
Proof.
  intros H l. eexists. split; [reflexivity|]. split; [reflexivity|].
  apply (findDecomp_graph maskHash combineByLeaves unit noCheckNegative noAddNegative
           lexSchedule l 4 tt tt H [] (GEdges H)); reflexivity.
Defined.

(** *** The connecting vertices are in the root bag *)

Lemma unplaced_within (sepV : list Z) (y : Item) (v : Z) :
  isPlaced sepV y = false -> In v (itemVertices y) -> In v sepV.
Proof.
  intros Hp Hv. destruct (in_dec Z.eq_dec v sepV) as [Hin|Hnin]; [exact Hin|].
  assert (isPlaced sepV y = true) by (apply isPlaced_iff; eauto). congruence.
Qed.

(** With a single component of [H \ parent], the connecting vertices are
    vertices of the parent. *)
Lemma conn_in_parent (H : Graph) (Conn : list Z) (parentLam : Edges) (L : Graph) :
  (forall v, In v Conn -> In v (GraphVertices H)) ->
  fst (GetComponents H parentLam) = [L] ->
  (forall v, In v (GraphVertices L) -> In v Conn -> In v (EdgesVertices parentLam)) ->
  forall v, In v Conn -> In v (EdgesVertices parentLam).
Proof.
  intros G1 Hcomps PC2 v Hv.
  pose proof (G1 v Hv) as HvH. apply GraphVertices_items in HvH.
  destruct HvH as [y [Hy Hvy]].
  destruct (isPlaced (EdgesVertices parentLam) y) eqn:Ep.
  - destruct (item_component H parentLam y Hy Ep) as [c [Hc Hyc]].
    rewrite Hcomps in Hc. destruct Hc as [<-|[]].
    apply PC2; [|exact Hv]. apply GraphVertices_items. eauto.
  - now apply (unplaced_within _ y).
Qed.

(** With a single component of [H \ parent] and no isolated edge, the
    connecting vertices are in the bag of the child. *)
Lemma conn_in_child (H : Graph) (Conn : list Z) (A childLam parentLam : Edges) (L : Graph) :
  GoodCall H Conn A ->
  (forall e, In e parentLam -> In e A) ->
  GetComponents H parentLam = ([L], []) ->
  (forall v, In v (GraphVertices L) -> In v Conn -> In v (EdgesVertices parentLam)) ->
  (forall v, In v (GraphVertices L) -> In v (EdgesVertices parentLam) ->
             In v (EdgesVertices childLam)) ->
  forall v, In v Conn -> In v (Inter (EdgesVertices childLam) (GraphVertices L)).
Proof.
  intros [G1 G4 G6] HpA Hcomps PC2 PC3 v Hv.
  pose proof (G1 v Hv) as HvH. apply GraphVertices_items in HvH.
  destruct HvH as [y [Hy Hvy]].
  assert (Hpl : isPlaced (EdgesVertices parentLam) y = true).
  { destruct (isPlaced (EdgesVertices parentLam) y) eqn:Ep; [reflexivity|]. exfalso.
    destruct y as [e|sp].
    - assert (Hiso : In e (snd (GetComponents H parentLam)))
        by (apply isolated_edge; split; [now apply graphItems_edge|exact Ep]).
      rewrite Hcomps in Hiso. destruct Hiso.
    - apply graphItems_special in Hy. destruct (G6 sp Hy) as [u [Hu Hfree]].
      assert (Hin : In u (EdgesVertices parentLam)) by now apply (unplaced_within _ (ISpecial sp)).
      apply EdgesVertices_In in Hin. destruct Hin as [e [He Hue]].
      exact (Hfree e (HpA e He) Hue). }
  destruct (item_component H parentLam y Hy Hpl) as [c [Hc Hyc]].
  rewrite Hcomps in Hc. destruct Hc as [<-|[]].
  assert (HvL : In v (GraphVertices L)) by (apply GraphVertices_items; eauto).
  apply Inter_In. split; [|exact HvL]. apply PC3; [exact HvL|]. now apply PC2.
Qed.

(** [meets P o]: the run [o] does not stop with "Conn not covered in
    parent", and what it returns, if it returns, satisfies [P]. *)
Definition meets {A : Type} (P : A -> Prop) (o : Outcome A) : Prop :=
  o <> Aborted ConnNotCovered /\ forall a, o = Returned a -> P a.

Lemma bind_meets {A B : Type} (Q : A -> Prop) (P : B -> Prop)
  (m : Outcome A) (k : A -> Outcome B) :
  meets Q m -> (forall a, m = Returned a -> Q a -> meets P (k a)) -> meets P (bind m k).
Proof.
  unfold meets. destruct m as [a|f|]; simpl; intros [Hm HQ] Hk.
  - exact (Hk a eq_refl (HQ a eq_refl)).
  - split; [intros [= ->]; now apply Hm|discriminate].
  - split; discriminate.
Qed.

Lemma Returned_meets {A : Type} (P : A -> Prop) (a : A) : P a -> meets P (Returned a).
Proof. intros HP. split; [discriminate|]. intros b [= <-]. exact HP. Qed.

Lemma combineByLeaves_root (above below : Node) (connecting : Edges) (r : Node) :
  combineByLeaves above below connecting = Some r -> Bag r = Bag above.
Proof.
  unfold combineByLeaves. rewrite CheckLeaves_unfold.
  destruct ((len (Children above) =? 0) && Subset (EdgesVertices connecting) (Bag above)).
  - intros [= <-]. reflexivity.
  - destruct (tryChildren (EdgesVertices connecting) below (Children above)) as [[|] cs].
    + intros [= <-]. reflexivity.
    + discriminate.
Qed.

Section CoverSection.

Variable IntHash : list Z -> Z.
Variable combineNodes : Node -> Node -> Edges -> option Node.
Variable Cache : Type.
Variable CheckNegative : Cache -> Edges -> list Graph -> bool.
Variable AddNegative : Cache -> Edges -> Graph -> Cache.
Variable schedule : list (list nat) -> list (list nat).
Variable l : LogKDecomp.

(** The attach operation keeps the bag of the root of the upper tree. *)
Hypothesis combine_root : forall above below connecting r,
  combineNodes above below connecting = Some r -> Bag r = Bag above.

Variable rec : Call Cache.
Hypothesis rec_covers : forall cache H Conn allowedFull,
  GoodCall H Conn allowedFull ->
  meets (fun dc => isEmptyDecomp (fst dc) = false ->
                   Subset Conn (Bag (Root (fst dc))) = true)
        (rec cache H Conn allowedFull).

Lemma rootCase_meets cache childLam childChi allowedFull comps_c :
  (forall c, In c comps_c -> GoodCall c (Inter (GraphVertices c) childChi) allowedFull) ->
  meets (fun _ => True)
        (rootCase Cache AddNegative rec cache childLam childChi allowedFull comps_c).
Proof.
  revert cache. induction comps_c as [|comp rest IH]; intros cache Hall; simpl.
  - now apply Returned_meets.
  - eapply bind_meets; [apply rec_covers; apply Hall; now left|].
    intros [decomp cache1] _ _. destruct (isEmptyDecomp decomp); [now apply Returned_meets|].
    eapply bind_meets; [apply IH; intros c Hc; apply Hall; now right|].
    intros [subtrees cache2] _ _. now apply Returned_meets.
Qed.

Lemma forkChildren_meets cache childChi allowedFull comps_c :
  (forall c, In c comps_c -> GoodCall c (Inter (GraphVertices c) childChi) allowedFull) ->
  meets (fun _ => True) (forkChildren Cache rec cache childChi allowedFull comps_c).
Proof.
  revert cache. induction comps_c as [|comp rest IH]; intros cache Hall; simpl.
  - now apply Returned_meets.
  - eapply bind_meets; [apply rec_covers; apply Hall; now left|].
    intros [decomp cache1] _ _.
    eapply bind_meets; [apply IH; intros c Hc; apply Hall; now right|].
    intros [decomps cache2] _ _. now apply Returned_meets.
Qed.

Lemma attachingSubtrees_meets above below connecting :
  meets (fun r => Bag r = Bag above) (attachingSubtrees combineNodes above below connecting).
Proof.
  unfold attachingSubtrees.
  destruct (combineNodes above below connecting) as [r|] eqn:E.
  - apply Returned_meets. now apply (combine_root above below connecting).
  - split; discriminate.
Qed.

Lemma parentRound_meets cache H Conn allowedFull childLam parentLam :
  GoodCall H Conn allowedFull ->
  BalancedCheck_Check GetComponents IntHash H childLam (BalFactor l) = Some true ->
  (forall e, In e parentLam -> In e allowedFull) ->
  ParentCheck_Check GetComponents (mkParentCheck Conn (EdgesVertices childLam)) H parentLam
                    (BalFactor l) = Some true ->
  meets (fun rc => forall d, fst rc = Some d -> Subset Conn (Bag (Root d)) = true)
    (parentRound combineNodes Cache CheckNegative AddNegative l rec cache H Conn allowedFull
                 (GraphVertices H) childLam parentLam).
Proof.
  intros Hgood Hbal HpA Hpar.
  destruct (BalancedCheck_Check_true _ _ _ _ _ Hbal) as [limit [Hlim Hcomps]].
  destruct (ParentCheck_Check_true _ _ _ _ _ Hpar) as [limit' [L [Hlim' [Hlow [PC2 PC3]]]]].
  rewrite Hlim in Hlim'. injection Hlim' as <-. simpl in PC2, PC3.
  rewrite findLow_lowComponent_eq in Hlow.
  pose proof (GoodCall_compUp H Conn allowedFull childLam parentLam limit) as Hup.
  pose proof (GoodCall_parent_child H Conn allowedFull childLam parentLam L) as Hch.
  pose proof (conn_in_parent H Conn parentLam L (good_conn _ _ _ Hgood)) as Hinp.
  pose proof (conn_in_child H Conn allowedFull childLam parentLam L Hgood HpA) as Hinc.
  unfold parentRound. rewrite Hlim.
  destruct (GetComponents H parentLam) as [comps_p isolatedEdges] eqn:Ec.
  cbn [fst snd] in Hlow, Hup, Hch, Hinp.
  destruct (findLow limit comps_p) as [[i L']|] eqn:Elow; [|discriminate].
  simpl in Hlow. injection Hlow as ->.
  destruct (findLow_Some _ _ _ _ Elow) as [Hn Hgt].
  assert (HL : In L comps_p) by (eapply nth_error_In; eauto).
  assert (Hchildren : forall c, In c (fst (GetComponents L childLam)) ->
            GoodCall c (Inter (GraphVertices c)
                              (Inter (EdgesVertices childLam) (GraphVertices L))) allowedFull).
  { intros c Hc. now apply Hch. }
  destruct (CheckNegative cache childLam (fst (GetComponents L childLam)));
    [apply Returned_meets; cbn [fst]; discriminate|].
  set (temp := isolatedEdges ++ flat_map GEdges (otherComps i comps_p)).
  (* what the upper goroutine sends *)
  eapply (bind_meets
            (fun uc => forall dUp, fst uc = Some dUp ->
               (isEmptyDecomp dUp = false -> Subset Conn (Bag (Root dUp)) = true) /\
               ((0 <? len temp) = false -> comps_p = [L] /\ isolatedEdges = []))).
  - destruct (len comps_p =? 1) eqn:E1.
    + apply Returned_meets. cbn [fst]. intros dUp [= <-]. cbn [Root Bag].
      assert (Hone : comps_p = [L]).
      { apply Z.eqb_eq in E1. apply len_one_inv in E1. destruct E1 as [x ->].
        destruct HL as [->|[]]. reflexivity. }
      split.
      * intros _. apply Subset_spec. intros v Hv. apply Inter_In.
        split; [now apply (Hinp Hone)|exact (good_conn _ _ _ Hgood v Hv)].
      * intros Epos. split; [exact Hone|].
        apply Z.ltb_ge in Epos. pose proof (len_nonneg temp) as Hnn.
        assert (Hz : len temp = 0) by lia. apply len_zero_nil in Hz.
        unfold temp in Hz. now apply app_eq_nil in Hz.
    + destruct (0 <? len temp) eqn:Epos.
      * eapply bind_meets; [apply rec_covers; now apply (Hup i L)|].
        intros [d c] _ Hd. cbn [fst] in Hd. apply Returned_meets. cbn [fst].
        intros dUp [= <-]. split; [exact Hd|discriminate].
      * apply Returned_meets. cbn [fst]. discriminate.
  - intros [decompUp cache1] _ HUp. cbn [fst] in HUp.
    eapply bind_meets; [now apply forkChildren_meets|].
    intros [decomps cache2] _ _.
    destruct decompUp as [dUp|].
    + destruct (HUp dUp eq_refl) as [Hcov Hsingle].
      destruct (isEmptyDecomp dUp) eqn:Eempty; [apply Returned_meets; cbn [fst]; discriminate|].
      rewrite (Hcov eq_refl). cbn [negb].
      destruct (firstFailure (fst (GetComponents L childLam)) decomps);
        [apply Returned_meets; cbn [fst]; discriminate|].
      fold temp. destruct (0 <? len temp) eqn:Epos.
      * eapply bind_meets; [apply attachingSubtrees_meets|].
        intros finalRoot _ Hbag. apply Returned_meets. cbn [fst].
        intros d [= <-]. cbn [Root]. rewrite Hbag. now apply Hcov.
      * simpl. apply Returned_meets. cbn [fst]. intros d [= <-]. cbn [Root Bag].
        destruct (Hsingle eq_refl) as [Hone Hiso]. subst comps_p isolatedEdges.
        apply Subset_spec. now apply Hinc.
    + destruct (firstFailure (fst (GetComponents L childLam)) decomps).
      * apply Returned_meets. cbn [fst]. discriminate.
      * split; discriminate.
Qed.

Lemma parentLoop_meets cache H Conn allowedFull childLam parents :
  GoodCall H Conn allowedFull ->
  BalancedCheck_Check GetComponents IntHash H childLam (BalFactor l) = Some true ->
  Forall (fun parentLam =>
            ParentCheck_Check GetComponents (mkParentCheck Conn (EdgesVertices childLam)) H
                              parentLam (BalFactor l) = Some true /\
            forall e, In e parentLam -> In e allowedFull) parents ->
  meets (fun rc => forall d, fst rc = Some d -> Subset Conn (Bag (Root d)) = true)
    (parentLoop combineNodes Cache CheckNegative AddNegative l rec cache H Conn allowedFull
                (GraphVertices H) childLam parents).
Proof.
  intros Hgood Hbal Hall. revert cache.
  induction Hall as [|parentLam rest [Hp Hin] Hrest IH]; intros cache; simpl.
  - apply Returned_meets. cbn [fst]. discriminate.
  - eapply bind_meets; [now apply parentRound_meets|].
    intros [r cache1] _ Hr. cbn [fst] in Hr. destruct r as [d|]; [|apply IH].
    apply Returned_meets. cbn [fst]. intros d' [= <-]. now apply Hr.
Qed.

Lemma childRound_meets cache H Conn allowedFull allowed childLam :
  GoodCall H Conn allowedFull ->
  (forall e, In e allowed -> In e allowedFull) ->
  BalancedCheck_Check GetComponents IntHash H childLam (BalFactor l) = Some true ->
  meets (fun rc => forall d, fst rc = Some d -> Subset Conn (Bag (Root d)) = true)
    (childRound combineNodes Cache CheckNegative AddNegative schedule l rec cache H Conn
                allowedFull allowed (GraphVertices H) childLam).
Proof.
  intros Hgood Hallowed Hbal. unfold childRound.
  destruct (Subset Conn (EdgesVertices childLam)) eqn:Es.
  - rewrite Subset_spec in Es.
    destruct (CheckNegative cache childLam (fst (GetComponents H childLam)));
      [apply Returned_meets; cbn [fst]; discriminate|].
    eapply bind_meets.
    + apply rootCase_meets. intros c Hc. now apply GoodCall_root_child with (Conn := Conn).
    + intros [subtrees cache1] _ _. destruct subtrees as [subtrees|];
        apply Returned_meets; cbn [fst]; [|discriminate].
      intros d [= <-]. cbn [Root Bag]. apply Subset_spec. intros v Hv. apply Inter_In.
      split; [now apply Es|exact (good_conn _ _ _ Hgood v Hv)].
  - apply parentLoop_meets; [exact Hgood|exact Hbal|].
    eapply Forall_impl; [|apply searchResults_sound].
    intros sep [Hp Hin]. split; [exact Hp|].
    intros e He. apply Hallowed. eapply FilterVertices_incl. apply Hin. exact He.
Qed.

Lemma childLoop_meets cache H Conn allowedFull allowed children :
  GoodCall H Conn allowedFull ->
  (forall e, In e allowed -> In e allowedFull) ->
  Forall (fun childLam =>
            BalancedCheck_Check GetComponents IntHash H childLam (BalFactor l) = Some true)
         children ->
  meets (fun dc => isEmptyDecomp (fst dc) = false ->
                   Subset Conn (Bag (Root (fst dc))) = true)
    (childLoop combineNodes Cache CheckNegative AddNegative schedule l rec cache H Conn
               allowedFull allowed (GraphVertices H) children).
Proof.
  intros Hgood Hallowed Hall. revert cache.
  induction Hall as [|childLam rest Hc Hrest IH]; intros cache; simpl.
  - apply Returned_meets. cbn [fst]. discriminate.
  - eapply bind_meets; [now apply childRound_meets|].
    intros [r cache1] _ Hr. cbn [fst] in Hr. destruct r as [d|]; [|apply IH].
    apply Returned_meets. cbn [fst]. intros _. now apply Hr.
Qed.

Lemma findDecompBody_meets cache H Conn allowedFull :
  GoodCall H Conn allowedFull ->
  meets (fun dc => isEmptyDecomp (fst dc) = false ->
                   Subset Conn (Bag (Root (fst dc))) = true)
    (findDecompBody IntHash combineNodes Cache CheckNegative AddNegative schedule l rec
                    cache H Conn allowedFull).
Proof.
  intros Hgood. unfold findDecompBody.
  assert (Es : Subset Conn (GraphVertices H) = true)
    by (apply Subset_spec; exact (good_conn _ _ _ Hgood)).
  rewrite Es. cbn [negb].
  destruct (baseCaseCheck l (len (GEdges H)) (len (Special H)) (len allowedFull)).
  - apply Returned_meets. cbn [fst]. intros Hne.
    destruct (baseCase_cases l H (len allowedFull) Hne) as [_ [_ [Hbag _]]].
    apply Subset_spec. intros v Hv. apply Hbag. exact (good_conn _ _ _ Hgood v Hv).
  - apply childLoop_meets; [exact Hgood|intros e; apply FilterVertices_incl|].
    eapply Forall_impl; [|apply searchResults_sound]. intros sep [Hp _]. exact Hp.
Qed.

End CoverSection.

Lemma findDecomp_meets
  (IntHash : list Z -> Z) (combineNodes : Node -> Node -> Edges -> option Node)
  (Cache : Type) (CheckNegative : Cache -> Edges -> list Graph -> bool)
  (AddNegative : Cache -> Edges -> Graph -> Cache)
  (schedule : list (list nat) -> list (list nat)) (l : LogKDecomp)
  (fuel : nat) (cache : Cache) (H : Graph) (Conn : list Z) (allowedFull : Edges) :
  (forall above below connecting r,
     combineNodes above below connecting = Some r -> Bag r = Bag above) ->
  GoodCall H Conn allowedFull ->
  meets (fun dc => isEmptyDecomp (fst dc) = false ->
                   Subset Conn (Bag (Root (fst dc))) = true)
    (findDecomp IntHash combineNodes Cache CheckNegative AddNegative schedule l fuel
                cache H Conn allowedFull).
Proof.
  intros Hroot. revert cache H Conn allowedFull.
  induction fuel as [|fuel IH]; intros cache H Conn allowedFull Hgood.
  - split; simpl; discriminate.
  - simpl. apply findDecompBody_meets; [exact Hroot|exact IH|exact Hgood].
Qed.

(** X22: with an attach operation that keeps the bag of the root of the upper
    tree, a call of [findDecomp] made by the engine on a hypergraph (a call
    with [GoodCall]) never stops with the panic "Conn not covered in parent",
    and the root bag of every decomposition it returns, other than the failure
    value, holds all the connecting vertices [Conn] of the call. *)
Theorem conn_covered
  (IntHash : list Z -> Z) (combineNodes : Node -> Node -> Edges -> option Node)
  (Cache : Type) (CheckNegative : Cache -> Edges -> list Graph -> bool)
  (AddNegative : Cache -> Edges -> Graph -> Cache)
  (schedule : list (list nat) -> list (list nat)) (l : LogKDecomp)
  (fuel : nat) (cache : Cache) (H : Graph) (Conn : list Z) (allowedFull : Edges) :
  (forall above below connecting r,
     combineNodes above below connecting = Some r -> Bag r = Bag above) ->
  GoodCall H Conn allowedFull ->
  findDecomp IntHash combineNodes Cache CheckNegative AddNegative schedule l fuel
             cache H Conn allowedFull <> Aborted ConnNotCovered /\
  (forall d cache',
     findDecomp IntHash combineNodes Cache CheckNegative AddNegative schedule l fuel
                cache H Conn allowedFull = Returned (d, cache') ->
     isEmptyDecomp d = false -> forall v, In v Conn -> In v (Bag (Root d))).
Proof.
  intros Hroot Hgood.
  destruct (findDecomp_meets IntHash combineNodes Cache CheckNegative AddNegative schedule l
              fuel cache H Conn allowedFull Hroot Hgood) as [Hav Hret].
  split; [exact Hav|]. intros d cache' Hr Hne.
  apply Subset_spec. exact (Hret (d, cache') Hr Hne).
Qed.

(** The witness of X22: the path [e2(2,3), e3(3,4), e4(4,5), e5(5,6)] below
    the allowed edge [e1(1,2)], with the connecting vertex 2. *)
Lemma conn_covered_witness :
  let H := mkGraph [mkEdge 2 [2; 3]; mkEdge 3 [3; 4]; mkEdge 4 [4; 5]; mkEdge 5 [5; 6]] [] in
  let A := mkEdge 1 [1; 2] :: GEdges H in
  let l := mkLogKDecomp H 1 2 in
  GoodCall H [2] A /\
  exists d, findDecomp maskHash combineByLeaves unit noCheckNegative noAddNegative
                       lexSchedule l 4 tt H [2] A = Returned (d, tt) /\
            isEmptyDecomp d = false /\ In 2 (Bag (Root d)).
Proof.
  intros H A l.
  assert (Hgood : GoodCall H [2] A).
  { split.
    - intros v [<-|[]]. simpl. now left.
    - intros a v Ha Hna Hva HvH. simpl in Ha.
      destruct Ha as [<-|Ha]; [|contradiction].
      simpl in Hva, HvH. destruct Hva as [<-|[<-|[]]]; [|now left].
      exfalso. intuition discriminate.
    - intros sp []. }
  split; [exact Hgood|].
  eexists. split; [reflexivity|]. split; [reflexivity|].
  refine (proj2 (conn_covered maskHash combineByLeaves unit noCheckNegative noAddNegative
                   lexSchedule l 4 tt H [2] A combineByLeaves_root Hgood) _ tt eq_refl eq_refl
                2 _).
  now left.
Defined.

(** ** The numbering of names in [GetGraph] *)

Lemma mapGet_cons {K V : Type} (eqb : K -> K -> bool) (k k' : K) (v : V) (m : list (K * V)) :
  mapGet eqb ((k, v) :: m) k' = if eqb k k' then Some v else mapGet eqb m k'.
Proof. unfold mapGet. simpl. now destruct (eqb k k'). Qed.

Lemma EncInv_less (st : Encoder) (b b' : Z) : EncInv st b -> 0 <= b' <= b -> EncInv st b'.
Proof. intros [H1 H2 H3 H4 H5] Hb. split; try assumption; lia. Qed.

Lemma assignName_inv (st : Encoder) (b : Z) (n : String.string) :
  EncInv st b -> 1 <= b ->
  EncInv (assignName st n) (b - 1) /\
  mapGet String.eqb (names (assignName st n)) n = Some (encode st).
Proof.
  intros [Hlo Hhi Hb Hn Hk] Hb1.
  assert (Hw : wrap (encode st + 1) = encode st + 1).
  { apply wrap_small. unfold int_min, int_max in *. lia. }
  split.
  - split; cbn [assignName names encoding encode]; rewrite ?Hw; try lia.
    + intros n' i. rewrite !mapGet_cons. destruct (String.eqb n n') eqn:E.
      * apply String.eqb_eq in E. subst n'. intros [= <-]. rewrite Z.eqb_refl.
        split; [reflexivity|lia].
      * intros Hi. destruct (Hn n' i Hi) as [Hd Hr].
        destruct (Z.eqb_spec (encode st) i) as [Heq|_]; [lia|]. split; [exact Hd|lia].
    + intros i n'. rewrite mapGet_cons. destruct (Z.eqb_spec (encode st) i) as [Heq|_]; [lia|].
      intros Hi. pose proof (Hk i n' Hi). lia.
  - cbn [assignName names]. rewrite mapGet_cons. now rewrite String.eqb_refl.
Qed.

Lemma namesKept_refl (st : Encoder) : namesKept st st.
Proof. intros n i H. exact H. Qed.

Lemma namesKept_trans (a b c : Encoder) : namesKept a b -> namesKept b c -> namesKept a c.
Proof. intros H1 H2 n i H. apply H2, H1, H. Qed.

Lemma nameOf_kept (st st' : Encoder) (n : String.string) (i : Z) :
  namesKept st st' -> mapGet String.eqb (names st) n = Some i -> nameOf st' n = i.
Proof. intros Hk Hn. unfold nameOf. now rewrite (Hk n i Hn). Qed.

(** The first loop: every edge name gets a number. *)
Lemma assignNames_inv (ns : list String.string) (st : Encoder) (b : Z) :
  EncInv st b -> len ns <= b ->
  EncInv (fold_left assignName ns st) (b - len ns) /\
  (forall n, In n ns -> mapGet String.eqb (names (fold_left assignName ns st)) n <> None).
Proof.
  revert st b. induction ns as [|n ns IH]; intros st b Hinv Hb.
  - simpl. change (len (@nil String.string)) with 0. rewrite Z.sub_0_r.
    split; [exact Hinv|]. intros n [].
  - assert (Hl : len (n :: ns) = len ns + 1) by (unfold len; simpl length; lia).
    pose proof (len_nonneg ns) as Hnn.
    destruct (assignName_inv st b n Hinv) as [Hinv' Hget]; [lia|].
    simpl. destruct (IH (assignName st n) (b - 1) Hinv') as [Hfin Hpres]; [lia|].
    split.
    + replace (b - len (n :: ns)) with (b - 1 - len ns) by lia. exact Hfin.
    + intros n' [<-|Hin]; [|now apply Hpres].
      destruct (in_dec String.string_dec n ns) as [Hin|Hnin]; [now apply Hpres|].
      assert (Hkeep : forall ms st0 i, ~ In n ms ->
                mapGet String.eqb (names st0) n = Some i ->
                mapGet String.eqb (names (fold_left assignName ms st0)) n = Some i).
      { induction ms as [|m ms IHm]; intros st0 i Hnm Hst0; simpl; [exact Hst0|].
        apply IHm; [intros Hx; apply Hnm; now right|].
        cbn [assignName names]. rewrite mapGet_cons.
        destruct (String.eqb m n) eqn:E; [|exact Hst0].
        apply String.eqb_eq in E. subst m. exfalso. apply Hnm. now left. }
      rewrite (Hkeep ns (assignName st n) (encode st) Hnin Hget). discriminate.
Qed.

(** One vertex name: it has or gets a number, and the other names keep
    theirs. *)
Lemma encodeVertex_inv (st : Encoder) (out : list Z) (b : Z) (n : String.string) :
  EncInv st b -> 1 <= b ->
  exists i, snd (encodeVertex (st, out) n) = out ++ [i] /\
            mapGet String.eqb (names (fst (encodeVertex (st, out) n))) n = Some i /\
            EncInv (fst (encodeVertex (st, out) n)) (b - 1) /\
            namesKept st (fst (encodeVertex (st, out) n)).
Proof.
  intros Hinv Hb. unfold encodeVertex. cbn [fst snd].
  destruct (mapGet String.eqb (names st) n) as [i|] eqn:E; cbn [fst snd].
  - exists i. split; [reflexivity|]. split; [exact E|].
    split; [apply (EncInv_less st b); [exact Hinv|destruct Hinv; lia]|apply namesKept_refl].
  - destruct (assignName_inv st b n Hinv Hb) as [Hinv' Hget].
    exists (encode st). split; [reflexivity|]. split; [exact Hget|]. split; [exact Hinv'|].
    intros n' i Hn'. cbn [assignName names]. rewrite mapGet_cons.
    destruct (String.eqb n n') eqn:En; [|exact Hn'].
    apply String.eqb_eq in En. subst n'. congruence.
Qed.

(** The loop over the vertices of an edge. *)
Lemma encodeVertices_inv (ns : list String.string) (st : Encoder) (out : list Z) (b : Z) :
  EncInv st b -> len ns <= b ->
  let r := fold_left encodeVertex ns (st, out) in
  (forall st'', namesKept (fst r) st'' -> snd r = out ++ map (nameOf st'') ns) /\
  (forall n, In n ns -> mapGet String.eqb (names (fst r)) n <> None) /\
  EncInv (fst r) (b - len ns) /\ namesKept st (fst r).
Proof.
  revert st out b. induction ns as [|n ns IH]; intros st out b Hinv Hb; cbn zeta.
  - simpl. change (len (@nil String.string)) with 0. rewrite Z.sub_0_r, app_nil_r.
    split; [reflexivity|]. split; [intros n []|]. split; [exact Hinv|apply namesKept_refl].
  - assert (Hl : len (n :: ns) = len ns + 1) by (unfold len; simpl length; lia).
    pose proof (len_nonneg ns) as Hnn.
    destruct (encodeVertex_inv st out b n Hinv) as [i [Hout [Hget [Hinv' Hkept]]]]; [lia|].
    simpl fold_left.
    destruct (encodeVertex (st, out) n) as [st1 out1] eqn:E1. cbn [fst snd] in *.
    subst out1.
    destruct (IH st1 (out ++ [i]) (b - 1) Hinv') as [Hmap [Hpres [Hfin Hkept']]]; [lia|].
    cbn zeta in Hmap, Hpres, Hfin, Hkept'.
    split; [|split; [|split]].
    + intros st'' Hk. rewrite (Hmap st'' Hk), <- app_assoc. simpl.
      now rewrite (nameOf_kept st1 st'' n i (namesKept_trans _ _ _ Hkept' Hk) Hget).
    + intros n' [<-|Hin]; [|now apply Hpres]. rewrite (Hkept' n i Hget). discriminate.
    + replace (b - len (n :: ns)) with (b - 1 - len ns) by lia. exact Hfin.
    + eapply namesKept_trans; eauto.
Qed.

Lemma present_kept (st st' : Encoder) (n : String.string) :
  namesKept st st' -> mapGet String.eqb (names st) n <> None ->
  mapGet String.eqb (names st') n <> None.
Proof.
  intros Hk Hn. destruct (mapGet String.eqb (names st) n) as [i|] eqn:E; [|contradiction].
  rewrite (Hk n i E). discriminate.
Qed.

(** One edge of the second loop. *)
Lemma encodeEdge_inv (st : Encoder) (edges : list Edge) (b : Z) (e : ParseEdge) :
  EncInv st b -> len (PVertices e) <= b ->
  mapGet String.eqb (names st) (PName e) <> None ->
  let r := encodeEdge (st, edges) e in
  (forall st'', namesKept (fst r) st'' ->
     snd r = edges ++ [mkEdge (nameOf st'' (PName e)) (map (nameOf st'') (PVertices e))]) /\
  (forall n, In n (PVertices e) -> mapGet String.eqb (names (fst r)) n <> None) /\
  EncInv (fst r) (b - len (PVertices e)) /\ namesKept st (fst r).
Proof.
  intros Hinv Hb Hname. cbn zeta. unfold encodeEdge. cbn [fst snd].
  destruct (encodeVertices_inv (PVertices e) st [] b Hinv Hb) as [Hmap [Hpres [Hfin Hkept]]].
  cbn zeta in Hmap, Hpres, Hfin, Hkept.
  destruct (fold_left encodeVertex (PVertices e) (st, [])) as [st1 vs] eqn:E1.
  cbn [fst snd] in *.
  split; [|split; [exact Hpres|split; [exact Hfin|exact Hkept]]].
  intros st'' Hk. rewrite (Hmap st'' Hk). cbn [app].
  destruct (mapGet String.eqb (names st) (PName e)) as [i|] eqn:Ei; [|contradiction].
  rewrite (nameOf_kept st st1 _ i Hkept Ei).
  now rewrite (nameOf_kept st st'' _ i (namesKept_trans _ _ _ Hkept Hk) Ei).
Qed.

Lemma len_cons {A : Type} (x : A) (s : list A) : len (x :: s) = len s + 1.
Proof. unfold len. simpl length. lia. Qed.

(** The second loop. *)
Lemma encodeEdges_inv (pes : list ParseEdge) (st : Encoder) (edges : list Edge) (b : Z) :
  EncInv st b -> len (flat_map PVertices pes) <= b ->
  (forall e, In e pes -> mapGet String.eqb (names st) (PName e) <> None) ->
  let r := fold_left encodeEdge pes (st, edges) in
  (forall st'', namesKept (fst r) st'' ->
     snd r = edges ++ map (fun e => mkEdge (nameOf st'' (PName e))
                                           (map (nameOf st'') (PVertices e))) pes) /\
  (forall e n, In e pes -> In n (PVertices e) ->
               mapGet String.eqb (names (fst r)) n <> None) /\
  EncInv (fst r) (b - len (flat_map PVertices pes)) /\ namesKept st (fst r).
Proof.
  revert st edges b. induction pes as [|e pes IH]; intros st edges b Hinv Hb Hnames; cbn zeta.
  - simpl. change (len (@nil String.string)) with 0. rewrite Z.sub_0_r, app_nil_r.
    split; [reflexivity|]. split; [intros e n []|]. split; [exact Hinv|apply namesKept_refl].
  - simpl flat_map in *. rewrite len_app in Hb |- *.
    pose proof (len_nonneg (PVertices e)) as H1.
    pose proof (len_nonneg (flat_map PVertices pes)) as H2.
    destruct (encodeEdge_inv st edges b e Hinv) as [Hmap [Hpres [Hfin Hkept]]];
      [lia|apply Hnames; now left|].
    cbn zeta in Hmap, Hpres, Hfin, Hkept. simpl fold_left.
    destruct (encodeEdge (st, edges) e) as [st1 edges1] eqn:E1. cbn [fst snd] in *.
    destruct (IH st1 edges1 (b - len (PVertices e)) Hfin) as [Hmap' [Hpres' [Hfin' Hkept']]];
      [lia|intros e' He'; apply (present_kept st st1); [exact Hkept|apply Hnames; now right]|].
    cbn zeta in Hmap', Hpres', Hfin', Hkept'.
    split; [|split; [|split]].
    + intros st'' Hk. rewrite (Hmap' st'' Hk).
      rewrite (Hmap st'' (namesKept_trans _ _ _ Hkept' Hk)), <- app_assoc. reflexivity.
    + intros e' n [<-|He'] Hn; [|now apply (Hpres' e')].
      apply (present_kept st1 _ n Hkept'). now apply Hpres.
    + replace (b - (len (PVertices e) + len (flat_map PVertices pes)))
        with (b - len (PVertices e) - len (flat_map PVertices pes)) by lia. exact Hfin'.
    + eapply namesKept_trans; eauto.
Qed.

Lemma len_parsedNames (parsed : list ParseEdge) :
  len (parsedNames parsed) = len (map PName parsed) + len (flat_map PVertices parsed).
Proof.
  unfold parsedNames, len. induction parsed as [|e pes IH]; [reflexivity|].
  cbn [flat_map map app length]. rewrite !length_app. lia.
Qed.

Lemma GetGraph_numbering (parsed : list ParseEdge) :
  len (parsedNames parsed) < int_max ->
  exists f : String.string -> Z,
    fst (GetGraph parsed)
    = mkGraph (map (fun e => mkEdge (f (PName e)) (map f (PVertices e))) parsed) [] /\
    (forall n, In n (parsedNames parsed) ->
       1 <= f n /\ mapGet Z.eqb (snd (GetGraph parsed)) (f n) = Some n).
Proof.
  intros Hlen. rewrite len_parsedNames in Hlen.
  pose proof (len_nonneg (map PName parsed)) as H1.
  pose proof (len_nonneg (flat_map PVertices parsed)) as H2.
  set (b0 := len (map PName parsed) + len (flat_map PVertices parsed)) in *.
  assert (Hinit : EncInv (mkEncoder [] [] 1) b0).
  { split; cbn [names encoding encode]; try lia; intros ? ?; discriminate. }
  destruct (assignNames_inv (map PName parsed) _ b0 Hinit) as [Hinv1 Hpres1]; [lia|].
  unfold GetGraph.
  set (st1 := fold_left assignName (map PName parsed) (mkEncoder [] [] 1)) in *.
  destruct (encodeEdges_inv parsed st1 [] (b0 - len (map PName parsed)) Hinv1)
    as [Hmap [Hpres2 [Hinv2 Hkept]]];
    [lia|intros e He; apply Hpres1; now apply in_map|].
  cbn zeta in Hmap, Hpres2, Hinv2, Hkept.
  destruct (fold_left encodeEdge parsed (st1, [])) as [st2 edges] eqn:E2.
  cbn [fst snd] in *.
  exists (nameOf st2). split.
  - now rewrite (Hmap st2 (namesKept_refl st2)).
  - intros n Hn.
    assert (Hpresent : mapGet String.eqb (names st2) n <> None).
    { unfold parsedNames in Hn. apply in_flat_map in Hn. destruct Hn as [e [He [<-|Hn]]].
      - apply (present_kept st1 st2 _ Hkept). apply Hpres1. now apply in_map.
      - now apply (Hpres2 e). }
    unfold nameOf.
    destruct (mapGet String.eqb (names st2) n) as [i|] eqn:Ei; [|contradiction].
    destruct (ei_names _ _ Hinv2 n i Ei) as [Hd Hr]. split; [lia|exact Hd].
Qed.

(** X23: [GetGraph] numbers the names of the parsed graph from 1 on, the
    edge names first: as long as the names fit in [int], every name gets one
    number wherever it occurs (an edge name and a vertex name that are the
    same string share it), the table left in [m] sends each number back to
    its name, and so different names get different numbers. *)
Theorem GetGraph_round_trip (parsed : list ParseEdge) :
  len (parsedNames parsed) < int_max ->
  exists f : String.string -> Z,
    fst (GetGraph parsed)
    = mkGraph (map (fun e => mkEdge (f (PName e)) (map f (PVertices e))) parsed) [] /\
    (forall n, In n (parsedNames parsed) ->
       1 <= f n /\ mapGet Z.eqb (snd (GetGraph parsed)) (f n) = Some n) /\
    (forall n n', In n (parsedNames parsed) -> In n' (parsedNames parsed) ->
       f n = f n' -> n = n').
Proof.
  intros Hlen. destruct (GetGraph_numbering parsed Hlen) as [f [Hg Hrt]].
  exists f. split; [exact Hg|]. split; [exact Hrt|].
  intros n n' Hn Hn' Heq.
  destruct (Hrt n Hn) as [_ H1]. destruct (Hrt n' Hn') as [_ H2].
  rewrite Heq in H1. congruence.
Qed.

(** The witness of X23: two edges; the vertex [e1] of the second edge has the
    name of the first edge and its number. *)
Lemma GetGraph_round_trip_witness :
  let parsed := [mkParseEdge "e1"%string ["a"%string; "b"%string];
                 mkParseEdge "e2"%string ["b"%string; "e1"%string]] in
  GetGraph parsed
  = (mkGraph [mkEdge 1 [3; 4]; mkEdge 2 [4; 1]] [],
     [(4, "b"%string); (3, "a"%string); (2, "e2"%string); (1, "e1"%string)]) /\
  exists f : String.string -> Z,
    fst (GetGraph parsed)
    = mkGraph (map (fun e => mkEdge (f (PName e)) (map f (PVertices e))) parsed) [] /\
    (forall n, In n (parsedNames parsed) ->
       1 <= f n /\ mapGet Z.eqb (snd (GetGraph parsed)) (f n) = Some n) /\
    (forall n n', In n (parsedNames parsed) -> In n' (parsedNames parsed) ->
       f n = f n' -> n = n').
Proof.
  intros parsed. split; [reflexivity|].
  apply (GetGraph_round_trip parsed). decide_Z.
Defined.

(** ** What the returned decompositions satisfy

    A property [Post H n] of the root [n] of a decomposition returned for
    the graph [H] holds of every decomposition the engine returns, when it
    holds at the places where [findDecomp] builds its result: the base case,
    the node put over the decompositions of the components, and the two ways
    the parent case puts the upper and the lower tree together. *)

Lemma firstFailure_None (comps : list Graph) (decomps : list Decomp) :
  length comps = length decomps -> firstFailure comps decomps = None ->
  Forall (fun d => isEmptyDecomp d = false) decomps.
Proof.
  revert decomps. induction comps as [|c comps IH]; intros [|d decomps] Hlen Hf;
    try discriminate; [constructor|].
  simpl in Hf. destruct (isEmptyDecomp d) eqn:E; [discriminate|].
  constructor; [exact E|]. apply IH; [simpl in Hlen; lia|exact Hf].
Qed.

Section EnginePost.

Variable IntHash : list Z -> Z.
Variable combineNodes : Node -> Node -> Edges -> option Node.
Variable Cache : Type.
Variable CheckNegative : Cache -> Edges -> list Graph -> bool.
Variable AddNegative : Cache -> Edges -> Graph -> Cache.
Variable schedule : list (list nat) -> list (list nat).
Variable l : LogKDecomp.

Variable Pre : Graph -> Prop.
Variable SepOK : Edges -> Prop.
Variable Post : Graph -> Node -> Prop.

Hypothesis pre_comp : forall H sep c,
  Pre H -> In c (fst (GetComponents H sep)) -> Pre c.
Hypothesis pre_up : forall H parentLam i chi,
  Pre H ->
  Pre (mkGraph (NewEdges (snd (GetComponents H parentLam)
                          ++ flat_map GEdges (otherComps i (fst (GetComponents H parentLam)))))
               (flat_map Special (otherComps i (fst (GetComponents H parentLam)))
                ++ [NewEdges [mkEdge 0 chi]])).
Hypothesis sep_search : forall pred edges sep,
  In sep (searchResults schedule l pred edges) -> SepOK sep.
Hypothesis post_base : forall H n,
  Pre H -> isEmptyDecomp (baseCase l H n) = false -> Post H (Root (baseCase l H n)).
Hypothesis post_node : forall G sep ts,
  Pre G -> SepOK sep -> Forall2 Post (fst (GetComponents G sep)) ts ->
  Post G (mkNode (Inter (EdgesVertices sep) (GraphVertices G)) sep ts).
Hypothesis post_parent : forall H childLam parentLam i L up below finalRoot,
  Pre H -> SepOK childLam -> SepOK parentLam ->
  nth_error (fst (GetComponents H parentLam)) i = Some L ->
  Post L below ->
  (fst (GetComponents H parentLam) = [L] /\
   up = mkNode (Inter (EdgesVertices parentLam) (GraphVertices H)) parentLam
          [mkNode (EdgesVertices (NewEdges [mkEdge 0 (Inter (EdgesVertices childLam)
                                                            (GraphVertices L))]))
                  childLam []]
   \/
   Post (mkGraph (NewEdges (snd (GetComponents H parentLam)
                            ++ flat_map GEdges (otherComps i (fst (GetComponents H parentLam)))))
                 (flat_map Special (otherComps i (fst (GetComponents H parentLam)))
                  ++ [NewEdges [mkEdge 0 (Inter (EdgesVertices childLam) (GraphVertices L))]]))
        up) ->
  (combineNodes up below
     (NewEdges [mkEdge 0 (Inter (EdgesVertices childLam) (GraphVertices L))]) = Some finalRoot
   \/
   (snd (GetComponents H parentLam)
    ++ flat_map GEdges (otherComps i (fst (GetComponents H parentLam))) = [] /\
    finalRoot = below)) ->
  Post H finalRoot.

Variable rec : Call Cache.
Hypothesis rec_post : forall cache H Conn allowedFull,
  Pre H ->
  yields (fun dc => isEmptyDecomp (fst dc) = false -> Post H (Root (fst dc)))
         (rec cache H Conn allowedFull).

Lemma rootCase_post cache childLam childChi allowedFull comps_c :
  (forall c, In c comps_c -> Pre c) ->
  yields (fun rc => forall ts, fst rc = Some ts -> Forall2 Post comps_c ts)
         (rootCase Cache AddNegative rec cache childLam childChi allowedFull comps_c).
Proof.
  revert cache. induction comps_c as [|comp rest IH]; intros cache Hall; simpl.
  - apply Returned_yields. cbn [fst]. intros ts [= <-]. constructor.
  - apply bind_yields. intros [decomp cache1] Hr.
    pose proof (rec_post _ _ _ _ (Hall comp (or_introl eq_refl)) _ Hr) as Hd. cbn [fst] in Hd.
    destruct (isEmptyDecomp decomp) eqn:E; [apply Returned_yields; cbn [fst]; discriminate|].
    apply bind_yields. intros [subtrees cache2] Hs.
    pose proof (IH cache1 (fun c Hc => Hall c (or_intror Hc)) _ Hs) as Hrest. cbn [fst] in Hrest.
    apply Returned_yields. cbn [fst]. destruct subtrees as [ts|]; [|discriminate].
    intros ts' [= <-]. constructor; [now apply Hd|now apply Hrest].
Qed.

Lemma forkChildren_post cache childChi allowedFull comps_c :
  (forall c, In c comps_c -> Pre c) ->
  yields (fun rc => Forall2 (fun c d => isEmptyDecomp d = false -> Post c (Root d))
                            comps_c (fst rc))
         (forkChildren Cache rec cache childChi allowedFull comps_c).
Proof.
  revert cache. induction comps_c as [|comp rest IH]; intros cache Hall; simpl.
  - apply Returned_yields. cbn [fst]. constructor.
  - apply bind_yields. intros [decomp cache1] Hr.
    pose proof (rec_post _ _ _ _ (Hall comp (or_introl eq_refl)) _ Hr) as Hd. cbn [fst] in Hd.
    apply bind_yields. intros [decomps cache2] Hs.
    pose proof (IH cache1 (fun c Hc => Hall c (or_intror Hc)) _ Hs) as Hrest. cbn [fst] in Hrest.
    apply Returned_yields. cbn [fst]. constructor; [exact Hd|exact Hrest].
Qed.

Lemma children_post (comps : list Graph) (decomps : list Decomp) :
  Forall2 (fun c d => isEmptyDecomp d = false -> Post c (Root d)) comps decomps ->
  firstFailure comps decomps = None ->
  Forall2 Post comps (map Root decomps).
Proof.
  intros Hall. induction Hall as [|c d comps decomps Hd _ IH]; simpl; [constructor|].
  destruct (isEmptyDecomp d) eqn:E; [discriminate|]. intros Hf.
  constructor; [now apply Hd|now apply IH].
Qed.

Lemma parentRound_post cache H Conn allowedFull childLam parentLam :
  Pre H -> SepOK childLam -> SepOK parentLam ->
  yields (fun rc => forall d, fst rc = Some d -> Post H (Root d))
    (parentRound combineNodes Cache CheckNegative AddNegative l rec cache H Conn allowedFull
                 (GraphVertices H) childLam parentLam).
Proof.
  intros Hpre Hchild Hparent.
  pose proof (post_parent H childLam parentLam) as Hfinal.
  pose proof (pre_up H parentLam) as Hup.
  pose proof (pre_comp H parentLam) as Hcomp.
  unfold parentRound.
  destruct (GetComponents H parentLam) as [comps_p isolatedEdges] eqn:Ec.
  cbn [fst snd] in Hfinal, Hup, Hcomp.
  destruct (balancednessLimit H (BalFactor l)) as [limit|]; [|apply Aborted_yields].
  destruct (findLow limit comps_p) as [[i L]|] eqn:Elow; [|apply Aborted_yields].
  destruct (findLow_Some _ _ _ _ Elow) as [Hn Hgt].
  assert (HL : In L comps_p) by (eapply nth_error_In; eauto).
  assert (HpreL : Pre L) by now apply Hcomp.
  destruct (CheckNegative cache childLam (fst (GetComponents L childLam)));
    [apply Returned_yields; cbn [fst]; discriminate|].
  set (temp := isolatedEdges ++ flat_map GEdges (otherComps i comps_p)) in *.
  set (chi := Inter (EdgesVertices childLam) (GraphVertices L)) in *.
  apply bind_yields. intros [decompUp cache1] HUp.
  assert (Hupper : forall dUp, decompUp = Some dUp -> isEmptyDecomp dUp = false ->
            (comps_p = [L] /\
             Root dUp = mkNode (Inter (EdgesVertices parentLam) (GraphVertices H)) parentLam
                          [mkNode (EdgesVertices (NewEdges [mkEdge 0 chi])) childLam []])
            \/ Post (mkGraph (NewEdges temp)
                       (flat_map Special (otherComps i comps_p) ++ [NewEdges [mkEdge 0 chi]]))
                    (Root dUp)).
  { intros dUp -> Hne. destruct (len comps_p =? 1) eqn:E1.
    - injection HUp as <- _. left. split; [|reflexivity].
      apply Z.eqb_eq in E1. apply len_one_inv in E1. destruct E1 as [x ->].
      destruct HL as [->|[]]. reflexivity.
    - destruct (0 <? len temp); [|discriminate]. right.
      destruct (rec cache _ Conn (EdgesDiff allowedFull (GEdges L))) as [[d c]| |] eqn:Er;
        simpl in HUp; try discriminate.
      injection HUp as <- _.
      exact (rec_post _ _ _ _ (Hup i chi Hpre) _ Er Hne). }
  apply bind_yields. intros [decomps cache2] Hfork.
  pose proof (forkChildren_post _ _ _ _ (fun c Hc => pre_comp L childLam c HpreL Hc) _ Hfork)
    as Hdecomps. cbn [fst] in Hdecomps.
  destruct decompUp as [dUp|].
  - destruct (isEmptyDecomp dUp) eqn:Eempty; [apply Returned_yields; cbn [fst]; discriminate|].
    destruct (negb (Subset Conn (Bag (Root dUp)))); [apply Aborted_yields|].
    destruct (firstFailure (fst (GetComponents L childLam)) decomps) eqn:Ef;
      [apply Returned_yields; cbn [fst]; discriminate|].
    assert (Hbelow : Post L (mkNode chi childLam (map Root decomps))).
    { apply (post_node L childLam); [exact HpreL|exact Hchild|].
      now apply children_post. }
    destruct (0 <? len temp) eqn:Epos.
    + apply bind_yields. intros finalRoot Hattach. apply Returned_yields. cbn [fst].
      intros d [= <-]. cbn [Root]. unfold attachingSubtrees in Hattach.
      destruct (combineNodes (Root dUp) (mkNode chi childLam (map Root decomps))
                             (NewEdges [mkEdge 0 chi])) as [r|] eqn:Ecomb; [|discriminate].
      injection Hattach as <-.
      apply (Hfinal i L (Root dUp) (mkNode chi childLam (map Root decomps)) r
               Hpre Hchild Hparent Hn Hbelow).
      * destruct (Hupper dUp eq_refl Eempty) as [[Hone Hroot]|Hpost]; [left|right]; auto.
      * left. exact Ecomb.
    + simpl. apply Returned_yields. cbn [fst]. intros d [= <-]. cbn [Root].
      apply (Hfinal i L (Root dUp) (mkNode chi childLam (map Root decomps)) _
               Hpre Hchild Hparent Hn Hbelow).
      * destruct (Hupper dUp eq_refl Eempty) as [[Hone Hroot]|Hpost]; [left|right]; auto.
      * right. split; [|reflexivity].
        apply Z.ltb_ge in Epos. pose proof (len_nonneg temp) as Hnn.
        apply (proj1 (len_zero_nil temp)). lia.
  - destruct (firstFailure (fst (GetComponents L childLam)) decomps);
      [apply Returned_yields; cbn [fst]; discriminate|apply Aborted_yields].
Qed.

Lemma parentLoop_post cache H Conn allowedFull childLam parents :
  Pre H -> SepOK childLam -> Forall SepOK parents ->
  yields (fun rc => forall d, fst rc = Some d -> Post H (Root d))
    (parentLoop combineNodes Cache CheckNegative AddNegative l rec cache H Conn allowedFull
                (GraphVertices H) childLam parents).
Proof.
  intros Hpre Hchild Hall. revert cache.
  induction Hall as [|parentLam rest Hp _ IH]; intros cache; simpl.
  - apply Returned_yields. cbn [fst]. discriminate.
  - apply bind_yields. intros [r cache1] Hr.
    pose proof (parentRound_post _ _ _ _ _ _ Hpre Hchild Hp _ Hr) as Hd. cbn [fst] in Hd.
    destruct r as [d|]; [|apply IH].
    apply Returned_yields. cbn [fst]. intros d' [= <-]. now apply Hd.
Qed.

Lemma searchResults_SepOK pred edges : Forall SepOK (searchResults schedule l pred edges).
Proof. apply Forall_forall. intros sep. apply sep_search. Qed.

Lemma childRound_post cache H Conn allowedFull allowed childLam :
  Pre H -> SepOK childLam ->
  yields (fun rc => forall d, fst rc = Some d -> Post H (Root d))
    (childRound combineNodes Cache CheckNegative AddNegative schedule l rec cache H Conn
                allowedFull allowed (GraphVertices H) childLam).
Proof.
  intros Hpre Hchild. unfold childRound.
  destruct (Subset Conn (EdgesVertices childLam)).
  - destruct (CheckNegative cache childLam (fst (GetComponents H childLam)));
      [apply Returned_yields; cbn [fst]; discriminate|].
    apply bind_yields. intros [subtrees cache1] Hr.
    pose proof (rootCase_post _ _ _ _ _ (fun c Hc => pre_comp H childLam c Hpre Hc) _ Hr)
      as Hts. cbn [fst] in Hts.
    destruct subtrees as [ts|]; apply Returned_yields; cbn [fst]; [|discriminate].
    intros d [= <-]. cbn [Root]. apply post_node; [exact Hpre|exact Hchild|now apply Hts].
  - apply parentLoop_post; [exact Hpre|exact Hchild|apply searchResults_SepOK].
Qed.

Lemma childLoop_post cache H Conn allowedFull allowed children :
  Pre H -> Forall SepOK children ->
  yields (fun dc => isEmptyDecomp (fst dc) = false -> Post H (Root (fst dc)))
    (childLoop combineNodes Cache CheckNegative AddNegative schedule l rec cache H Conn
               allowedFull allowed (GraphVertices H) children).
Proof.
  intros Hpre Hall. revert cache.
  induction Hall as [|childLam rest Hc _ IH]; intros cache; simpl.
  - apply Returned_yields. cbn [fst]. discriminate.
  - apply bind_yields. intros [r cache1] Hr.
    pose proof (childRound_post _ _ _ _ _ _ Hpre Hc _ Hr) as Hd. cbn [fst] in Hd.
    destruct r as [d|]; [|apply IH].
    apply Returned_yields. cbn [fst]. intros _. now apply Hd.
Qed.

Lemma findDecompBody_post cache H Conn allowedFull :
  Pre H ->
  yields (fun dc => isEmptyDecomp (fst dc) = false -> Post H (Root (fst dc)))
    (findDecompBody IntHash combineNodes Cache CheckNegative AddNegative schedule l rec
                    cache H Conn allowedFull).
Proof.
  intros Hpre. unfold findDecompBody.
  destruct (negb (Subset Conn (GraphVertices H))); [apply Aborted_yields|].
  destruct (baseCaseCheck l (len (GEdges H)) (len (Special H)) (len allowedFull)).
  - apply Returned_yields. cbn [fst]. now apply post_base.
  - apply childLoop_post; [exact Hpre|apply searchResults_SepOK].
Qed.

End EnginePost.

(** *** Bags inside covers, edges inside bags *)

Lemma Forall2_left {A B : Type} (R : A -> B -> Prop) (xs : list A) (ys : list B) (x : A) :
  Forall2 R xs ys -> In x xs -> exists y, In y ys /\ R x y.
Proof.
  induction 1 as [|a b xs ys Hab _ IH]; intros Hin; [destruct Hin|].
  destruct Hin as [<-|Hin].
  - exists b. split; [now left|exact Hab].
  - destruct (IH Hin) as [y [Hy Hr]]. exists y. split; [now right|exact Hr].
Qed.

Lemma Forall2_right {A B : Type} (R : A -> B -> Prop) (xs : list A) (ys : list B) (y : B) :
  Forall2 R xs ys -> In y ys -> exists x, In x xs /\ R x y.
Proof.
  induction 1 as [|a b xs ys Hab _ IH]; intros Hin; [destruct Hin|].
  destruct Hin as [<-|Hin].
  - exists a. split; [now left|exact Hab].
  - destruct (IH Hin) as [x [Hx Hr]]. exists x. split; [now right|exact Hr].
Qed.

Lemma combineByLeaves_labels (above below : Node) (connecting : Edges) (r : Node) :
  combineByLeaves above below connecting = Some r ->
  Permutation (labels r) (labels above ++ labels below).
Proof.
  unfold combineByLeaves.
  destruct (CheckLeaves above (EdgesVertices connecting) below) as [[|] result] eqn:E;
    [|discriminate].
  intros [= <-]. exact (CheckLeaves_labels _ _ _ _ E).
Qed.

(** An edge with no vertex outside the separator lies in the bag of the node
    made from the separator. *)
Lemma isolated_in_bag (G : Graph) (sep : Edges) (e : Edge) (v : Z) :
  In e (snd (GetComponents G sep)) -> In v (Vertices e) ->
  In v (Inter (EdgesVertices sep) (GraphVertices G)).
Proof.
  intros Hiso Hv. apply isolated_edge in Hiso. destruct Hiso as [He Hp].
  apply Inter_In. split.
  - exact (unplaced_within _ (IEdge e) v Hp Hv).
  - apply GraphVertices_In. left. eauto.
Qed.

Lemma base_covers (l : LogKDecomp) (H : Graph) (lenAE : Z) :
  isEmptyDecomp (baseCase l H lenAE) = false -> coversGraph H (Root (baseCase l H lenAE)).
Proof.
  intros Hne. destruct (baseCase_cases l H lenAE Hne) as [_ [_ [Hbag [Hsub _]]]].
  split; [exact Hsub|]. intros e He. apply coversEdge_nodes.
  exists (Root (baseCase l H lenAE)). split; [apply subtrees_self|].
  intros v Hv. apply Hbag. apply GraphVertices_In. left. eauto.
Qed.

Lemma node_covers (G : Graph) (sep : Edges) (ts : list Node) :
  Forall2 coversGraph (fst (GetComponents G sep)) ts ->
  coversGraph G (mkNode (Inter (EdgesVertices sep) (GraphVertices G)) sep ts).
Proof.
  intros Hall. split.
  - apply bagSubsets_nodes. intros m Hm v Hv. apply subtrees_inv in Hm.
    destruct Hm as [->|[t [Ht Hm]]].
    + cbn [Bag Cover] in *. now apply Inter_In in Hv.
    + cbn [Children] in Ht. destruct (Forall2_right _ _ _ _ Hall Ht) as [c [_ [Hsub _]]].
      exact (proj1 (bagSubsets_nodes t) Hsub m Hm v Hv).
  - intros e He. apply coversEdge_nodes.
    destruct (edge_placement G sep e He) as [Hiso|[c [Hc Hec]]].
    + eexists. split; [apply subtrees_self|]. cbn [Bag]. intros v Hv.
      now apply (isolated_in_bag G sep e).
    + destruct (Forall2_left _ _ _ _ Hall Hc) as [t [Ht [_ Hcov]]].
      destruct (proj1 (coversEdge_nodes t e) (Hcov e Hec)) as [m [Hm Hv]].
      exists m. split; [|exact Hv]. now apply (subtrees_child _ t).
Qed.

Lemma parent_covers (combineNodes : Node -> Node -> Edges -> option Node)
  (H : Graph) (childLam parentLam : Edges) (i : nat) (L : Graph) (up below finalRoot : Node) :
  (forall above below connecting r,
     combineNodes above below connecting = Some r ->
     Permutation (labels r) (labels above ++ labels below)) ->
  nth_error (fst (GetComponents H parentLam)) i = Some L ->
  coversGraph L below ->
  (fst (GetComponents H parentLam) = [L] /\
   up = mkNode (Inter (EdgesVertices parentLam) (GraphVertices H)) parentLam
          [mkNode (EdgesVertices (NewEdges [mkEdge 0 (Inter (EdgesVertices childLam)
                                                            (GraphVertices L))]))
                  childLam []]
   \/
   coversGraph (mkGraph (NewEdges (snd (GetComponents H parentLam)
                           ++ flat_map GEdges (otherComps i (fst (GetComponents H parentLam)))))
                 (flat_map Special (otherComps i (fst (GetComponents H parentLam)))
                  ++ [NewEdges [mkEdge 0 (Inter (EdgesVertices childLam) (GraphVertices L))]]))
        up) ->
  (combineNodes up below
     (NewEdges [mkEdge 0 (Inter (EdgesVertices childLam) (GraphVertices L))]) = Some finalRoot
   \/
   (snd (GetComponents H parentLam)
    ++ flat_map GEdges (otherComps i (fst (GetComponents H parentLam))) = [] /\
    finalRoot = below)) ->
  coversGraph H finalRoot.
Proof.
  intros Hlabels Hn [HsubB HcovB] Hupper Hfinal.
  set (temp := snd (GetComponents H parentLam)
               ++ flat_map GEdges (otherComps i (fst (GetComponents H parentLam)))) in *.
  assert (Hplace : forall e, In e (GEdges H) -> In e (GEdges L) \/ In e temp).
  { intros e He. destruct (edge_placement H parentLam e He) as [Hiso|[c [Hc Hec]]].
    - right. apply in_or_app. now left.
    - destruct (otherComps_In _ _ _ _ Hn Hc) as [->|Ho]; [now left|].
      right. apply in_or_app. right. apply in_flat_map. eauto. }
  assert (Hup : coversGraph (mkGraph temp []) up).
  { destruct Hupper as [[Hone ->]|[Hsub Hcov]]; [|split; [exact Hsub|exact Hcov]].
    split.
    - apply bagSubsets_nodes. intros m Hm v Hv. cbn [subtrees Children flat_map app] in Hm.
      destruct Hm as [<-|[<-|[]]]; cbn [Bag Cover] in *.
      + now apply Inter_In in Hv.
      + apply (proj1 (specialChild_In _ _)) in Hv. now apply Inter_In in Hv.
    - cbn [GEdges]. intros e He. apply coversEdge_nodes.
      eexists. split; [apply subtrees_self|]. cbn [Bag]. intros v Hv.
      apply (isolated_in_bag H parentLam e); [|exact Hv].
      unfold temp in He. rewrite Hone in He, Hn.
      destruct i as [|i]; [|destruct i; discriminate].
      cbn in He. now rewrite app_nil_r in He. }
  destruct Hup as [HsubU HcovU]. cbn [GEdges] in HcovU.
  destruct Hfinal as [Hcomb|[Hnil ->]].
  - pose proof (Hlabels _ _ _ _ Hcomb) as Hperm. split.
    + apply bagSubsets_labels. intros b c Hin v Hv.
      apply (Permutation_in _ Hperm) in Hin. apply in_app_iff in Hin.
      destruct Hin as [Hin|Hin].
      * exact (proj1 (bagSubsets_labels up) HsubU b c Hin v Hv).
      * exact (proj1 (bagSubsets_labels below) HsubB b c Hin v Hv).
    + intros e He. apply coversEdge_labels.
      assert (Hsome : exists b c, In (b, c) (labels up ++ labels below) /\
                                  forall v, In v (Vertices e) -> In v b).
      { destruct (Hplace e He) as [HL|Ht].
        - destruct (proj1 (coversEdge_labels below e) (HcovB e HL)) as [b [c [Hin Hv]]].
          exists b, c. split; [apply in_or_app; now right|exact Hv].
        - destruct (proj1 (coversEdge_labels up e) (HcovU e Ht)) as [b [c [Hin Hv]]].
          exists b, c. split; [apply in_or_app; now left|exact Hv]. }
      destruct Hsome as [b [c [Hin Hv]]]. exists b, c. split; [|exact Hv].
      apply (Permutation_in _ (Permutation_sym Hperm)). exact Hin.
  - split; [exact HsubB|]. intros e He.
    destruct (Hplace e He) as [HL|Ht]; [now apply HcovB|].
    rewrite Hnil in Ht. destruct Ht.
Qed.

Lemma findDecomp_coversGraph
  (IntHash : list Z -> Z) (combineNodes : Node -> Node -> Edges -> option Node)
  (Cache : Type) (CheckNegative : Cache -> Edges -> list Graph -> bool)
  (AddNegative : Cache -> Edges -> Graph -> Cache)
  (schedule : list (list nat) -> list (list nat)) (l : LogKDecomp)
  (fuel : nat) (cache : Cache) (H : Graph) (Conn : list Z) (allowedFull : Edges) :
  (forall above below connecting r,
     combineNodes above below connecting = Some r ->
     Permutation (labels r) (labels above ++ labels below)) ->
  yields (fun dc => isEmptyDecomp (fst dc) = false -> coversGraph H (Root (fst dc)))
    (findDecomp IntHash combineNodes Cache CheckNegative AddNegative schedule l fuel
                cache H Conn allowedFull).
Proof.
  intros Hlabels. revert cache H Conn allowedFull.
  induction fuel as [|fuel IH]; intros cache H Conn allowedFull.
  - intros a. discriminate.
  - simpl.
    apply (findDecompBody_post IntHash combineNodes Cache CheckNegative AddNegative schedule l
             (fun _ => True) (fun _ => True) coversGraph); auto.
    + intros H0 n _. apply base_covers.
    + intros G sep ts _ _. apply node_covers.
    + intros H0 childLam parentLam i L up below finalRoot _ _ _.
      now apply parent_covers.
Qed.

(** X24: with an attach operation that keeps the nodes of both trees (as the
    leaf search of [CheckLeaves] does), every edge of the graph [H] of a call
    of [findDecomp] lies in the bag of some node of the decomposition the
    call returns, other than the failure value; when [H] has no special
    edges, so does every vertex of [H]. *)
Theorem findDecomp_covers_edges
  (IntHash : list Z -> Z) (combineNodes : Node -> Node -> Edges -> option Node)
  (Cache : Type) (CheckNegative : Cache -> Edges -> list Graph -> bool)
  (AddNegative : Cache -> Edges -> Graph -> Cache)
  (schedule : list (list nat) -> list (list nat)) (l : LogKDecomp)
  (fuel : nat) (cache cache' : Cache) (H : Graph) (Conn : list Z) (allowedFull : Edges)
  (d : Decomp) :
  (forall above below connecting r,
     combineNodes above below connecting = Some r ->
     Permutation (labels r) (labels above ++ labels below)) ->
  findDecomp IntHash combineNodes Cache CheckNegative AddNegative schedule l fuel
             cache H Conn allowedFull = Returned (d, cache') ->
  isEmptyDecomp d = false ->
  (forall e, In e (GEdges H) ->
     coversEdge (Root d) e = true /\
     exists m, In m (subtrees (Root d)) /\ forall v, In v (Vertices e) -> In v (Bag m)) /\
  (Special H = [] ->
   forall v, In v (GraphVertices H) -> exists m, In m (subtrees (Root d)) /\ In v (Bag m)).
Proof.
  intros Hlabels Hr Hne.
  destruct (findDecomp_coversGraph IntHash combineNodes Cache CheckNegative AddNegative
              schedule l fuel cache H Conn allowedFull Hlabels (d, cache') Hr Hne)
    as [_ Hcov]. cbn [fst] in Hcov.
  split.
  - intros e He. split; [now apply Hcov|]. apply coversEdge_nodes. now apply Hcov.
  - intros Hsp v Hv. apply GraphVertices_In in Hv. rewrite Hsp in Hv.
    destruct Hv as [[e [He Hve]]|[sp [[] _]]].
    destruct (proj1 (coversEdge_nodes (Root d) e) (Hcov e He)) as [m [Hm Hall]].
    exists m. split; [exact Hm|now apply Hall].
Qed.

(** The witness of X24: the cycle of six edges with [k = 2]; the edge
    [e4(4,5)] lies in a bag. *)
Lemma findDecomp_covers_edges_witness :
  let H := mkGraph [mkEdge 1 [1; 2]; mkEdge 2 [2; 3]; mkEdge 3 [3; 4];
                    mkEdge 4 [4; 5]; mkEdge 5 [5; 6]; mkEdge 6 [6; 1]] [] in
  let l := mkLogKDecomp H 2 2 in
  exists d, findDecomp maskHash combineByLeaves unit noCheckNegative noAddNegative
                       lexSchedule l 4 tt H [] (GEdges H) = Returned (d, tt) /\
            isEmptyDecomp d = false /\ coversEdge (Root d) (mkEdge 4 [4; 5]) = true.
Proof.
  intros H l. eexists. split; [reflexivity|]. split; [reflexivity|].
  refine (proj1 (proj1 (findDecomp_covers_edges maskHash combineByLeaves unit noCheckNegative
                          noAddNegative lexSchedule l 4 tt tt H [] (GEdges H) _
                          combineByLeaves_labels eq_refl eq_refl) (mkEdge 4 [4; 5]) _)).
  simpl. tauto.
Defined.

(** X25: with an attach operation that keeps the nodes of both trees, every
    bag of a decomposition that a call of [findDecomp] returns, other than the
    failure value, lies in the vertices of the cover of its node. *)
Theorem findDecomp_bags_in_covers
  (IntHash : list Z -> Z) (combineNodes : Node -> Node -> Edges -> option Node)
  (Cache : Type) (CheckNegative : Cache -> Edges -> list Graph -> bool)
  (AddNegative : Cache -> Edges -> Graph -> Cache)
  (schedule : list (list nat) -> list (list nat)) (l : LogKDecomp)
  (fuel : nat) (cache cache' : Cache) (H : Graph) (Conn : list Z) (allowedFull : Edges)
  (d : Decomp) :
  (forall above below connecting r,
     combineNodes above below connecting = Some r ->
     Permutation (labels r) (labels above ++ labels below)) ->
  findDecomp IntHash combineNodes Cache CheckNegative AddNegative schedule l fuel
             cache H Conn allowedFull = Returned (d, cache') ->
  isEmptyDecomp d = false ->
  bagSubsets (Root d) = true /\
  forall m, In m (subtrees (Root d)) ->
  forall v, In v (Bag m) -> In v (EdgesVertices (Cover m)).
Proof.
  intros Hlabels Hr Hne.
  destruct (findDecomp_coversGraph IntHash combineNodes Cache CheckNegative AddNegative
              schedule l fuel cache H Conn allowedFull Hlabels (d, cache') Hr Hne)
    as [Hsub _]. cbn [fst] in Hsub.
  split; [exact Hsub|]. now apply bagSubsets_nodes.
Qed.

(** The witness of X25: the cycle of six edges with [k = 2]. *)
Lemma findDecomp_bags_in_covers_witness :
  let H := mkGraph [mkEdge 1 [1; 2]; mkEdge 2 [2; 3]; mkEdge 3 [3; 4];
                    mkEdge 4 [4; 5]; mkEdge 5 [5; 6]; mkEdge 6 [6; 1]] [] in
  let l := mkLogKDecomp H 2 2 in
  exists d, findDecomp maskHash combineByLeaves unit noCheckNegative noAddNegative
                       lexSchedule l 4 tt H [] (GEdges H) = Returned (d, tt) /\
            isEmptyDecomp d = false /\ bagSubsets (Root d) = true.
Proof.
  intros H l. eexists. split; [reflexivity|]. split; [reflexivity|].
  exact (proj1 (findDecomp_bags_in_covers maskHash combineByLeaves unit noCheckNegative
                  noAddNegative lexSchedule l 4 tt tt H [] (GEdges H) _
                  combineByLeaves_labels eq_refl eq_refl)).
Defined.

(** *** Covers of at most [K] edges *)

Lemma combin_length (s : list nat) (k : nat) (idx : list nat) :
  In idx (combin s k) -> length idx = k.
Proof.
  revert k idx. induction s as [|x s IH]; intros [|k] idx; simpl.
  - intros [<-|[]]. reflexivity.
  - intros [].
  - intros [<-|[]]. reflexivity.
  - rewrite in_app_iff, in_map_iff. intros [[idx' [<- Hin]]|Hin].
    + simpl. f_equal. now apply IH.
    + now apply (IH (S k)).
Qed.

Lemma GetSubset_length (es : Edges) (idx : list nat) :
  (length (GetSubset es idx) <= length idx)%nat.
Proof.
  induction idx as [|i idx IH]; simpl; [lia|].
  destruct (nth_error es i); simpl; lia.
Qed.

Lemma searchResults_width (schedule : list (list nat) -> list (list nat)) (l : LogKDecomp)
  (pred : Edges -> option bool) (edges sep : Edges) :
  (forall cands idx, In idx (schedule cands) -> In idx cands) ->
  0 <= K l ->
  In sep (searchResults schedule l pred edges) -> len sep <= K l.
Proof.
  intros Hsched HK Hin. unfold searchResults in Hin.
  apply filter_In in Hin. destruct Hin as [Hin _].
  apply in_map_iff in Hin. destruct Hin as [idx [<- Hidx]].
  apply Hsched in Hidx. unfold SplitCombin in Hidx. apply combin_length in Hidx.
  pose proof (GetSubset_length edges idx) as Hle. unfold len. lia.
Qed.

Lemma withinWidth_labels (k : Z) (n : Node) :
  withinWidth k n <-> (forall b c, In (b, c) (labels n) -> len c <= k).
Proof.
  unfold withinWidth, labels. split.
  - intros Hall b c Hin. apply in_map_iff in Hin. destruct Hin as [m [[= <- <-] Hm]].
    now apply Hall.
  - intros Hall m Hm. apply (Hall (Bag m) (Cover m)). apply in_map_iff. exists m. now split.
Qed.

Lemma base_width (l : LogKDecomp) (H : Graph) (lenAE : Z) :
  (forall sp, In sp (Special H) -> len sp <= K l) ->
  isEmptyDecomp (baseCase l H lenAE) = false ->
  withinWidth (K l) (Root (baseCase l H lenAE)).
Proof.
  intros Hpre Hne. destruct (baseCase_cases l H lenAE Hne) as [_ [Hleaf [_ [_ [_ Hcov]]]]].
  intros m Hm. apply subtrees_inv in Hm. rewrite Hleaf in Hm.
  destruct Hm as [->|[c [[] _]]].
  destruct Hcov as [[_ [-> Hle]]|[_ Hsp]]; [exact Hle|].
  apply Hpre. rewrite Hsp. now left.
Qed.

Lemma node_width (k : Z) (comps : list Graph) (bag : list Z) (sep : Edges) (ts : list Node) :
  len sep <= k -> Forall2 (fun _ t => withinWidth k t) comps ts ->
  withinWidth k (mkNode bag sep ts).
Proof.
  intros Hsep Hall m Hm. apply subtrees_inv in Hm. destruct Hm as [->|[t [Ht Hm]]].
  - exact Hsep.
  - cbn [Children] in Ht. destruct (Forall2_right _ _ _ _ Hall Ht) as [c [_ Hw]].
    now apply Hw.
Qed.

Lemma findDecomp_withinWidth
  (IntHash : list Z -> Z) (combineNodes : Node -> Node -> Edges -> option Node)
  (Cache : Type) (CheckNegative : Cache -> Edges -> list Graph -> bool)
  (AddNegative : Cache -> Edges -> Graph -> Cache)
  (schedule : list (list nat) -> list (list nat)) (l : LogKDecomp)
  (fuel : nat) (cache : Cache) (H : Graph) (Conn : list Z) (allowedFull : Edges) :
  (forall above below connecting r,
     combineNodes above below connecting = Some r ->
     Permutation (labels r) (labels above ++ labels below)) ->
  (forall cands idx, In idx (schedule cands) -> In idx cands) ->
  1 <= K l ->
  (forall sp, In sp (Special H) -> len sp <= K l) ->
  yields (fun dc => isEmptyDecomp (fst dc) = false -> withinWidth (K l) (Root (fst dc)))
    (findDecomp IntHash combineNodes Cache CheckNegative AddNegative schedule l fuel
                cache H Conn allowedFull).
Proof.
  intros Hlabels Hsched HK. revert cache H Conn allowedFull.
  induction fuel as [|fuel IH]; intros cache H Conn allowedFull Hpre.
  - intros a. discriminate.
  - simpl.
    apply (findDecompBody_post IntHash combineNodes Cache CheckNegative AddNegative schedule l
             (fun G => forall sp, In sp (Special G) -> len sp <= K l)
             (fun sep => len sep <= K l)
             (fun _ n => withinWidth (K l) n)); try assumption.
    + intros G sep c HG Hc sp Hsp. apply HG.
      apply graphItems_special. apply (component_item G sep c (ISpecial sp) Hc).
      now apply graphItems_special.
    + intros G parentLam i chi HG sp Hsp. cbn [Special] in Hsp.
      apply in_app_iff in Hsp. destruct Hsp as [Hsp|[<-|[]]].
      * apply HG. exact (upper_special_inv G parentLam i sp Hsp).
      * exact HK.
    + intros pred edges sep. apply searchResults_width; [exact Hsched|lia].
    + intros G n HG. now apply base_width.
    + intros G sep ts _ Hsep Hall. exact (node_width _ _ _ _ _ Hsep Hall).
    + intros G childLam parentLam i L up below finalRoot _ Hc Hp _ Hbelow Hupper Hfinal.
      assert (Hup : withinWidth (K l) up).
      { destruct Hupper as [[_ ->]|Hw]; [|exact Hw].
        intros m Hm. cbn [subtrees Children flat_map app] in Hm.
        destruct Hm as [<-|[<-|[]]]; assumption. }
      destruct Hfinal as [Hcomb|[_ ->]]; [|exact Hbelow].
      apply withinWidth_labels. intros b c Hin.
      apply (Permutation_in _ (Hlabels _ _ _ _ Hcomb)) in Hin. apply in_app_iff in Hin.
      destruct Hin as [Hin|Hin].
      * exact (proj1 (withinWidth_labels _ up) Hup b c Hin).
      * exact (proj1 (withinWidth_labels _ below) Hbelow b c Hin).
Qed.

(** X26: with a width [K] of at least 1, a search that proposes only
    candidates it was given and an attach operation that keeps the nodes of
    both trees, every cover of a decomposition that a call of [findDecomp]
    returns, other than the failure value, has at most [K] edges, when the
    special edges of the graph of the call have at most [K] edges each (as
    the one-edge special edges the engine makes have). *)
Theorem findDecomp_width
  (IntHash : list Z -> Z) (combineNodes : Node -> Node -> Edges -> option Node)
  (Cache : Type) (CheckNegative : Cache -> Edges -> list Graph -> bool)
  (AddNegative : Cache -> Edges -> Graph -> Cache)
  (schedule : list (list nat) -> list (list nat)) (l : LogKDecomp)
  (fuel : nat) (cache cache' : Cache) (H : Graph) (Conn : list Z) (allowedFull : Edges)
  (d : Decomp) :
  (forall above below connecting r,
     combineNodes above below connecting = Some r ->
     Permutation (labels r) (labels above ++ labels below)) ->
  (forall cands idx, In idx (schedule cands) -> In idx cands) ->
  1 <= K l ->
  (forall sp, In sp (Special H) -> len sp <= K l) ->
  findDecomp IntHash combineNodes Cache CheckNegative AddNegative schedule l fuel
             cache H Conn allowedFull = Returned (d, cache') ->
  isEmptyDecomp d = false ->
  forall m, In m (subtrees (Root d)) -> len (Cover m) <= K l.
Proof.
  intros Hlabels Hsched HK Hpre Hr Hne.
  exact (findDecomp_withinWidth IntHash combineNodes Cache CheckNegative AddNegative
           schedule l fuel cache H Conn allowedFull Hlabels Hsched HK Hpre (d, cache') Hr Hne).
Qed.

(** The witness of X26: the cycle of six edges with [k = 2]; the cover of the
    root has at most two edges. *)
Lemma findDecomp_width_witness :
  let H := mkGraph [mkEdge 1 [1; 2]; mkEdge 2 [2; 3]; mkEdge 3 [3; 4];
                    mkEdge 4 [4; 5]; mkEdge 5 [5; 6]; mkEdge 6 [6; 1]] [] in
  let l := mkLogKDecomp H 2 2 in
  exists d, findDecomp maskHash combineByLeaves unit noCheckNegative noAddNegative
                       lexSchedule l 4 tt H [] (GEdges H) = Returned (d, tt) /\
            isEmptyDecomp d = false /\ len (Cover (Root d)) <= 2.
Proof.
  intros H l. eexists. split; [reflexivity|]. split; [reflexivity|].
  refine (findDecomp_width maskHash combineByLeaves unit noCheckNegative noAddNegative
            lexSchedule l 4 tt tt H [] (GEdges H) _ combineByLeaves_labels _ _ _
            eq_refl eq_refl _ (subtrees_self _)).
  - intros cands idx Hin. exact Hin.
  - simpl. lia.
  - intros sp [].
Defined.

(** *** The running-intersection property *)

Lemma occursIn_spec (v : Z) (n : Node) :
  occursIn v n = true <-> exists m, In m (subtrees n) /\ In v (Bag m).
Proof.
  unfold occursIn. rewrite existsb_exists.
  split; intros [m [Hm Hv]]; exists m; (split; [exact Hm|now apply Mem_In]).
Qed.

Lemma occursIn_labels (v : Z) (n : Node) :
  occursIn v n = true <-> exists b c, In (b, c) (labels n) /\ In v b.
Proof.
  rewrite occursIn_spec. unfold labels. split.
  - intros [m [Hm Hv]]. exists (Bag m), (Cover m). split; [|exact Hv].
    apply in_map_iff. exists m. now split.
  - intros [b [c [Hin Hv]]]. apply in_map_iff in Hin. destruct Hin as [m [[= <- <-] Hm]].
    exists m. now split.
Qed.

Lemma occursIn_root (v : Z) (n : Node) : In v (Bag n) -> occursIn v n = true.
Proof. intros Hv. apply occursIn_spec. exists n. split; [apply subtrees_self|exact Hv]. Qed.

Lemma nodeAt_subtrees (n : Node) (p : list nat) (m : Node) :
  nodeAt n p = Some m -> In m (subtrees n).
Proof.
  revert n. induction p as [|i p IH]; intros n; cbn [nodeAt].
  - intros [= <-]. apply subtrees_self.
  - destruct (nth_error (Children n) i) as [c|] eqn:Ec; [|discriminate].
    intros Hm. apply (subtrees_child n c); [eapply nth_error_In; eauto|now apply IH].
Qed.

(** At most one element of a list passes a test. *)
Lemma filter_one {A : Type} (f : A -> bool) (s : list A) :
  (length (filter f s) <= 1)%nat <->
  (forall i j x y, nth_error s i = Some x -> nth_error s j = Some y ->
                   f x = true -> f y = true -> i = j).
Proof.
  induction s as [|a s IH]; simpl.
  - split; [|lia]. intros _ [|i] j x y; discriminate.
  - destruct (f a) eqn:Ea; simpl.
    + split.
      * intros Hlen. assert (Hnil : filter f s = []) by (apply length_zero_iff_nil; lia).
        assert (Hnone : forall k z, nth_error s k = Some z -> f z = true -> False).
        { intros k z Hk Hz. assert (Hin : In z (filter f s)).
          { apply filter_In. split; [eapply nth_error_In; eauto|exact Hz]. }
          rewrite Hnil in Hin. destruct Hin. }
        intros [|i] [|j] x y Hi Hj Hx Hy; simpl in *; [reflexivity| | |].
        -- exfalso. eauto.
        -- exfalso. eauto.
        -- exfalso. eauto.
      * intros Hone.
        destruct (filter f s) as [|z t] eqn:Ef; [simpl; lia|]. exfalso.
        assert (Hz : In z (filter f s)) by (rewrite Ef; now left).
        apply filter_In in Hz. destruct Hz as [Hz Hfz].
        apply In_nth_error in Hz. destruct Hz as [k Hk].
        specialize (Hone 0%nat (S k) a z eq_refl Hk Ea Hfz). discriminate.
    + rewrite IH. split.
      * intros Hone [|i] [|j] x y Hi Hj Hx Hy; simpl in *.
        -- reflexivity.
        -- injection Hi as <-. congruence.
        -- injection Hj as <-. congruence.
        -- f_equal. eauto.
      * intros Hone i j x y Hi Hj Hx Hy.
        specialize (Hone (S i) (S j) x y Hi Hj Hx Hy). lia.
Qed.

Lemma connectedFor_unfold (v : Z) (n : Node) :
  connectedFor v n = true <->
  Forall (fun c => connectedFor v c = true) (Children n) /\
  (In v (Bag n) -> forall c, In c (Children n) -> occursIn v c = true -> In v (Bag c)) /\
  (~ In v (Bag n) ->
   forall i j x y, nth_error (Children n) i = Some x -> nth_error (Children n) j = Some y ->
                   occursIn v x = true -> occursIn v y = true -> i = j).
Proof.
  destruct n as [bag cover children]. cbn [connectedFor Bag Children].
  rewrite andb_true_iff, forallb_forall, Forall_forall.
  destruct (Mem bag v) eqn:Em.
  - apply Mem_In in Em. rewrite forallb_forall. split.
    + intros [Hall Hc]. split; [exact Hall|]. split; [|tauto].
      intros _ c Hin Hocc. specialize (Hc c Hin). rewrite Hocc in Hc. simpl in Hc.
      now apply Mem_In.
    + intros [Hall [Hc _]]. split; [exact Hall|]. intros c Hin.
      destruct (occursIn v c) eqn:Eo; [|reflexivity]. simpl. apply Mem_In. now apply Hc.
  - assert (Hnin : ~ In v bag) by (rewrite <- Mem_In; congruence).
    rewrite Nat.leb_le, filter_one. split.
    + intros [Hall Hone]. split; [exact Hall|]. split; [tauto|]. intros _. exact Hone.
    + intros [Hall [_ Hone]]. split; [exact Hall|now apply Hone].
Qed.

(** The computed property gives the one stated on paths. *)
Lemma connectedFor_paths (v : Z) (n : Node) :
  connectedFor v n = true -> runningIntersection v n.
Proof.
  induction n as [bag cover children IH] using Node_induction.
  intros Hconn. apply connectedFor_unfold in Hconn. cbn [Bag Children] in Hconn.
  destruct Hconn as [Hall [Hin Hout]]. rewrite Forall_forall in IH, Hall.
  assert (Hroot : forall p q m1 m2,
            nodeAt (mkNode bag cover children) p = Some m1 -> In v (Bag m1) ->
            nodeAt (mkNode bag cover children) q = Some m2 -> In v (Bag m2) ->
            commonPrefix p q = [] -> In v bag).
  { intros p q m1 m2 Hp Hv1 Hq Hv2 Hcp.
    destruct p as [|i p]; [injection Hp as <-; exact Hv1|].
    destruct q as [|j q]; [injection Hq as <-; exact Hv2|].
    cbn [commonPrefix] in Hcp. destruct (Nat.eqb_spec i j) as [_|Hne]; [discriminate|].
    cbn [nodeAt Children] in Hp, Hq.
    destruct (nth_error children i) as [ci|] eqn:Ei; [|discriminate].
    destruct (nth_error children j) as [cj|] eqn:Ej; [|discriminate].
    destruct (in_dec Z.eq_dec v bag) as [Hyes|Hno]; [exact Hyes|]. exfalso. apply Hne.
    apply (Hout Hno i j ci cj Ei Ej); apply occursIn_spec.
    - exists m1. split; [now apply (nodeAt_subtrees ci p)|exact Hv1].
    - exists m2. split; [now apply (nodeAt_subtrees cj q)|exact Hv2]. }
  assert (Hdown : forall k p' q r' ck m1 m2 m,
            nth_error children k = Some ck ->
            nodeAt ck p' = Some m1 -> In v (Bag m1) ->
            nodeAt (mkNode bag cover children) q = Some m2 -> In v (Bag m2) ->
            commonPrefix (k :: p') q = [] ->
            (exists s, p' = r' ++ s) -> nodeAt ck r' = Some m -> In v (Bag m)).
  { intros k p' q r' ck m1 m2 m Hk Hp Hv1 Hq Hv2 Hcp Hpre Hr.
    assert (Hb : In v bag).
    { apply (Hroot (k :: p') q m1 m2); try assumption.
      cbn [nodeAt Children]. now rewrite Hk. }
    assert (Hck : In ck children) by (eapply nth_error_In; eauto).
    assert (Hvck : In v (Bag ck)).
    { apply (Hin Hb ck Hck). apply occursIn_spec. exists m1.
      split; [now apply (nodeAt_subtrees ck p')|exact Hv1]. }
    apply (IH ck Hck (Hall ck Hck) p' [] r' m1 ck m); try assumption; [reflexivity|].
    split; [now left|]. exists r'. destruct p'; reflexivity. }
  intros p q r m1 m2 m Hp Hv1 Hq Hv2 [Hpre [s Hs]] Hr.
  destruct r as [|k r'].
  - injection Hr as <-. cbn [Bag]. apply (Hroot p q m1 m2); try assumption.
    destruct (commonPrefix p q); [reflexivity|discriminate].
  - cbn [nodeAt Children] in Hr.
    destruct (nth_error children k) as [ck|] eqn:Ek; [|discriminate].
    assert (Hck : In ck children) by (eapply nth_error_In; eauto).
    destruct (commonPrefix p q) as [|k0 cp] eqn:Ecp.
    + destruct Hpre as [[t ->]|[t ->]].
      * cbn [app nodeAt Children] in Hp. rewrite Ek in Hp.
        apply (Hdown k (r' ++ t) q r' ck m1 m2 m); try assumption. now exists t.
      * cbn [app nodeAt Children] in Hq. rewrite Ek in Hq.
        apply (Hdown k (r' ++ t) p r' ck m2 m1 m); try assumption; [|now exists t].
        destruct p as [|i p]; [reflexivity|]. cbn [commonPrefix app] in *.
        rewrite Nat.eqb_sym. destruct (Nat.eqb i k); [discriminate|reflexivity].
    + injection Hs as <- Hr'.
      destruct p as [|i p]; [discriminate|]. destruct q as [|j q]; [discriminate|].
      cbn [commonPrefix] in Ecp. destruct (Nat.eqb_spec i j) as [<-|_]; [|discriminate].
      injection Ecp as <- Ecp.
      cbn [nodeAt Children] in Hp, Hq. rewrite Ek in Hp, Hq.
      apply (IH ck Hck (Hall ck Hck) p q r' m1 m2 m); try assumption.
      split.
      * destruct Hpre as [[t Ht]|[t Ht]]; injection Ht as Ht; [left|right]; now exists t.
      * exists s. now rewrite Ecp.
Qed.

(** The leaf search changes one child. *)
Lemma tryChildren_split (vertices : list Z) (subtree : Node) (cs cs' : list Node) :
  tryChildren vertices subtree cs = (true, cs') ->
  exists pre c c' post,
    cs = pre ++ c :: post /\ cs' = pre ++ c' :: post /\
    CheckLeaves c vertices subtree = (true, c').
Proof.
  revert cs'. induction cs as [|c cs IH]; intros cs'; cbn [tryChildren]; [discriminate|].
  destruct (CheckLeaves c vertices subtree) as [[|] result] eqn:Ec.
  - intros [= <-]. exists [], c, result, cs. auto.
  - destruct (tryChildren vertices subtree cs) as [ok' cs''] eqn:Et.
    intros [= -> <-]. destruct (IH cs'' eq_refl) as [pre [c0 [c' [post [-> [-> Hc]]]]]].
    exists (c :: pre), c0, c', post. auto.
Qed.

Lemma CheckLeaves_cases (n : Node) (vertices : list Z) (subtree r : Node) :
  CheckLeaves n vertices subtree = (true, r) ->
  (Children n = [] /\ (forall u, In u vertices -> In u (Bag n)) /\
   r = mkNode (Bag n) (Cover n) [subtree])
  \/
  (exists pre c c' post,
     Children n = pre ++ c :: post /\ r = mkNode (Bag n) (Cover n) (pre ++ c' :: post) /\
     CheckLeaves c vertices subtree = (true, c')).
Proof.
  rewrite CheckLeaves_unfold.
  destruct ((len (Children n) =? 0) && Subset vertices (Bag n)) eqn:E.
  - intros [= <-]. left. apply andb_true_iff in E. destruct E as [E1 E2].
    apply Z.eqb_eq in E1. apply len_zero_nil in E1. rewrite Subset_spec in E2. auto.
  - destruct (tryChildren vertices subtree (Children n)) as [[|] cs] eqn:Et; [|discriminate].
    intros [= <-]. right.
    destruct (tryChildren_split _ _ _ _ Et) as [pre [c [c' [post [H1 [H2 H3]]]]]].
    exists pre, c, c', post. rewrite H2. auto.
Qed.

Lemma CheckLeaves_root (n : Node) (vertices : list Z) (subtree r : Node) :
  CheckLeaves n vertices subtree = (true, r) -> Bag r = Bag n.
Proof.
  intros Hc. destruct (CheckLeaves_cases _ _ _ _ Hc) as [[_ [_ ->]]|[? [? [? [? [_ [-> _]]]]]]];
    reflexivity.
Qed.

Lemma CheckLeaves_occurs (n : Node) (vertices : list Z) (subtree r : Node) (v : Z) :
  CheckLeaves n vertices subtree = (true, r) ->
  (occursIn v r = true <-> occursIn v n = true \/ occursIn v subtree = true).
Proof.
  intros Hc. pose proof (CheckLeaves_labels _ _ _ _ Hc) as Hperm.
  rewrite !occursIn_labels. split.
  - intros [b [c [Hin Hv]]]. apply (Permutation_in _ Hperm) in Hin.
    apply in_app_iff in Hin. destruct Hin as [Hin|Hin]; [left|right]; eauto.
  - intros [[b [c [Hin Hv]]]|[b [c [Hin Hv]]]]; exists b, c; (split; [|exact Hv]);
      apply (Permutation_in _ (Permutation_sym Hperm)); apply in_or_app; auto.
Qed.

(** The leaf the search finds holds the vertices searched for. *)
Lemma CheckLeaves_leaf (n : Node) (vertices : list Z) (subtree r : Node) (u : Z) :
  CheckLeaves n vertices subtree = (true, r) -> In u vertices -> occursIn u n = true.
Proof.
  revert r. induction n as [bag cover children IH] using Node_induction. intros r Hc Hu.
  destruct (CheckLeaves_cases _ _ _ _ Hc) as [[_ [Hsub _]]|[pre [c [c' [post [Hcs [_ Hcc]]]]]]].
  - apply occursIn_root. now apply Hsub.
  - cbn [Children] in Hcs. subst children. rewrite Forall_forall in IH.
    assert (Hin : In c (pre ++ c :: post)) by (apply in_or_app; right; now left).
    pose proof (IH c Hin c' Hcc Hu) as Hocc. apply occursIn_spec in Hocc.
    destruct Hocc as [m [Hm Hv]]. apply occursIn_spec. exists m. split; [|exact Hv].
    now apply (subtrees_child _ c).
Qed.

Lemma occursIn_child (v : Z) (n c : Node) :
  In c (Children n) -> occursIn v c = true -> occursIn v n = true.
Proof.
  intros Hc Hocc. apply occursIn_spec in Hocc. destruct Hocc as [m [Hm Hv]].
  apply occursIn_spec. exists m. split; [now apply (subtrees_child n c)|exact Hv].
Qed.

Lemma nth_error_middle {A : Type} (pre post : list A) (a x : A) (i : nat) :
  nth_error (pre ++ a :: post) i = Some x ->
  (i = length pre /\ x = a) \/
  (i <> length pre /\ forall b, nth_error (pre ++ b :: post) i = Some x).
Proof.
  revert i. induction pre as [|y pre IH]; intros [|i]; simpl.
  - intros [= <-]. now left.
  - intros Hi. right. split; [discriminate|]. intros _. exact Hi.
  - intros [= <-]. right. split; [discriminate|]. reflexivity.
  - intros Hi. destruct (IH i Hi) as [[-> ->]|[Hne Hb]]; [now left|].
    right. split; [congruence|exact Hb].
Qed.

Lemma nth_error_at_middle {A : Type} (pre post : list A) (a : A) :
  nth_error (pre ++ a :: post) (length pre) = Some a.
Proof. induction pre as [|y pre IH]; simpl; [reflexivity|exact IH]. Qed.

(** The leaf search keeps the running-intersection property, when the root
    of the subtree holds the vertices searched for and a vertex of both trees
    is one of them. *)
Lemma CheckLeaves_connected (v : Z) (vertices : list Z) (subtree : Node) (n r : Node) :
  CheckLeaves n vertices subtree = (true, r) ->
  connectedFor v n = true -> connectedFor v subtree = true ->
  (forall u, In u vertices -> In u (Bag subtree)) ->
  (occursIn v n = true -> occursIn v subtree = true -> In v vertices) ->
  connectedFor v r = true.
Proof.
  intros Hc Hn Hsub Hvs. revert r Hc Hn.
  induction n as [bag cover children IH] using Node_induction.
  intros r Hc Hn Hboth.
  destruct (CheckLeaves_cases _ _ _ _ Hc)
    as [[Hleaf [Hbag ->]]|[pre [c [c' [post [Hcs [-> Hcc]]]]]]];
    cbn [Children Bag Cover] in *.
  - apply connectedFor_unfold. cbn [Children Bag]. split; [|split].
    + constructor; [exact Hsub|constructor].
    + intros Hv x [<-|[]] Hocc. apply Hvs. apply Hboth; [|exact Hocc].
      now apply (occursIn_root v (mkNode bag cover children)).
    + intros _ [|[|i]] [|[|j]] x y Hi Hj _ _; simpl in Hi, Hj; try discriminate.
      reflexivity.
  - subst children. apply connectedFor_unfold in Hn. cbn [Children Bag] in Hn.
    destruct Hn as [Hall [Hin Hout]]. rewrite Forall_forall in IH, Hall.
    assert (Hcin : In c (pre ++ c :: post)) by (apply in_or_app; right; now left).
    assert (Hup : forall x, In x (pre ++ c :: post) -> occursIn v x = true ->
                  occursIn v (mkNode bag cover (pre ++ c :: post)) = true).
    { intros x Hx. now apply occursIn_child. }
    assert (Hback : occursIn v c' = true ->
                    occursIn v (mkNode bag cover (pre ++ c :: post)) = true ->
                    occursIn v c = true).
    { intros Hocc Hn. apply (CheckLeaves_occurs _ _ _ _ v Hcc) in Hocc.
      destruct Hocc as [Hocc|Hocc]; [exact Hocc|].
      apply (CheckLeaves_leaf c vertices subtree c' v Hcc). now apply Hboth. }
    apply connectedFor_unfold. cbn [Children Bag]. split; [|split].
    + apply Forall_forall. intros x Hx. apply in_app_iff in Hx.
      destruct Hx as [Hx|[<-|Hx]].
      * apply Hall. apply in_or_app. now left.
      * apply (IH c Hcin c' Hcc (Hall c Hcin)). intros Hocc. apply Hboth. now apply (Hup c).
      * apply Hall. apply in_or_app. right. now right.
    + intros Hv x Hx Hocc. apply in_app_iff in Hx. destruct Hx as [Hx|[<-|Hx]].
      * apply (Hin Hv); [apply in_or_app; now left|exact Hocc].
      * rewrite (CheckLeaves_root _ _ _ _ Hcc). apply (Hin Hv c Hcin).
        apply Hback; [exact Hocc|]. now apply (occursIn_root v (mkNode bag cover _)).
      * apply (Hin Hv); [apply in_or_app; right; now right|exact Hocc].
    + intros Hv i j x y Hi Hj Hx Hy.
      destruct (Nat.eq_dec i j) as [Heq|Hne]; [exact Heq|]. exfalso.
      assert (Hn : occursIn v (mkNode bag cover (pre ++ c :: post)) = true).
      { destruct (nth_error_middle _ _ _ _ _ Hi) as [[-> ->]|[Hi' Hib]].
        - destruct (nth_error_middle _ _ _ _ _ Hj) as [[-> ->]|[Hj' Hjb]]; [congruence|].
          apply (Hup y); [|exact Hy]. eapply nth_error_In. apply (Hjb c).
        - apply (Hup x); [|exact Hx]. eapply nth_error_In. apply (Hib c). }
      assert (Hsame : forall k z, nth_error (pre ++ c' :: post) k = Some z ->
                occursIn v z = true ->
                exists z', nth_error (pre ++ c :: post) k = Some z' /\ occursIn v z' = true).
      { intros k z Hk Hz. destruct (nth_error_middle _ _ _ _ _ Hk) as [[-> ->]|[_ Hkb]].
        - exists c. split; [apply nth_error_at_middle|now apply Hback].
        - exists z. split; [apply Hkb|exact Hz]. }
      destruct (Hsame i x Hi Hx) as [x' [Hi' Hx']].
      destruct (Hsame j y Hj Hy) as [y' [Hj' Hy']].
      apply Hne. exact (Hout Hv i j x' y' Hi' Hj' Hx' Hy').
Qed.

(** *** The trees the engine builds *)

Lemma ForallOrdPairs_nth {A : Type} (R : A -> A -> Prop) (s : list A) (i j : nat) (x y : A) :
  ForallOrdPairs R s -> nth_error s i = Some x -> nth_error s j = Some y ->
  (i < j)%nat -> R x y.
Proof.
  intros Hall. revert i j. induction Hall as [|a s Ha _ IH]; intros i j Hi Hj Hlt.
  - destruct i; discriminate.
  - destruct j as [|j]; [lia|]. destruct i as [|i]; simpl in Hi, Hj.
    + injection Hi as <-. rewrite Forall_forall in Ha. apply Ha.
      eapply nth_error_In; eauto.
    + apply (IH i j Hi Hj). lia.
Qed.

Lemma Forall2_nth_right {A B : Type} (R : A -> B -> Prop) (xs : list A) (ys : list B)
  (i : nat) (y : B) :
  Forall2 R xs ys -> nth_error ys i = Some y -> exists x, nth_error xs i = Some x /\ R x y.
Proof.
  intros Hall. revert i. induction Hall as [|a b xs ys Hab _ IH]; intros [|i] Hi;
    try discriminate; simpl in *.
  - injection Hi as <-. eauto.
  - now apply IH.
Qed.

(** Two components of [G \ sep] with a common vertex outside the separator
    are the same component. *)
Lemma components_apart (G : Graph) (sep : Edges) (i j : nat) (ci cj : Graph) (v : Z) :
  nth_error (fst (GetComponents G sep)) i = Some ci ->
  nth_error (fst (GetComponents G sep)) j = Some cj ->
  In v (GraphVertices ci) -> In v (GraphVertices cj) -> ~ In v (EdgesVertices sep) ->
  i = j.
Proof.
  rewrite GetComponents_finalComps. intros Hi Hj Hvi Hvj Hsep.
  pose proof (finalComps_inv G sep) as Inv.
  assert (Hin : forall k c, nth_error (map compGraph (finalComps G sep)) k = Some c ->
            In v (GraphVertices c) ->
            exists cc, nth_error (finalComps G sep) k = Some cc /\ In v (cVerts cc)).
  { intros k c Hk Hv. rewrite nth_error_map in Hk.
    destruct (nth_error (finalComps G sep) k) as [cc|] eqn:Ek; [|discriminate].
    injection Hk as <-. exists cc. split; [reflexivity|].
    apply GraphVertices_items in Hv. destruct Hv as [z [Hz Hvz]].
    rewrite graphItems_compGraph in Hz.
    apply (inv_verts _ _ _ Inv cc); [eapply nth_error_In; eauto|].
    exists z. split; [exact Hz|]. apply actualVertices_In. tauto. }
  destruct (Hin i ci Hi Hvi) as [cci [Hcci Hvci]].
  destruct (Hin j cj Hj Hvj) as [ccj [Hccj Hvcj]].
  destruct (Nat.lt_total i j) as [Hlt|[Heq|Hgt]]; [exfalso|exact Heq|exfalso].
  - exact (ForallOrdPairs_nth _ _ _ _ _ _ (inv_disj _ _ _ Inv) Hcci Hccj Hlt v Hvci Hvcj).
  - exact (ForallOrdPairs_nth _ _ _ _ _ _ (inv_disj _ _ _ Inv) Hccj Hcci Hgt v Hvcj Hvci).
Qed.

Lemma otherComps_index (comps : list Graph) (i : nat) (c : Graph) :
  In c (otherComps i comps) -> exists j, j <> i /\ nth_error comps j = Some c.
Proof.
  unfold otherComps. rewrite in_map_iff. intros [[j c'] [<- Hin]].
  apply filter_In in Hin. destruct Hin as [Hin Hne]. cbn [fst snd] in *.
  apply combine_seq_In in Hin. destruct Hin as [_ Hn]. rewrite Nat.sub_0_r in Hn.
  exists j. split; [|exact Hn]. apply negb_true_iff in Hne. now apply Nat.eqb_neq.
Qed.

Lemma leaf_connected (v : Z) (n : Node) : Children n = [] -> connectedFor v n = true.
Proof.
  intros Hleaf. apply connectedFor_unfold. rewrite Hleaf. split; [constructor|]. split.
  - intros _ c [].
  - intros _ [|i] j x y; discriminate.
Qed.

Lemma base_tree (l : LogKDecomp) (H : Graph) (lenAE : Z) :
  isEmptyDecomp (baseCase l H lenAE) = false -> treeOf H (Root (baseCase l H lenAE)).
Proof.
  intros Hne. destruct (baseCase_cases l H lenAE Hne) as [_ [Hleaf [Hbag _]]]. split.
  - intros m v Hm Hv. apply subtrees_inv in Hm. rewrite Hleaf in Hm.
    destruct Hm as [->|[c [[] _]]]. now apply Hbag.
  - intros v. now apply leaf_connected.
Qed.

(** The node made from a separator over the trees of the components. *)
Lemma node_tree (G : Graph) (sep : Edges) (ts : list Node) :
  Forall2 (childOf (Inter (EdgesVertices sep) (GraphVertices G)))
          (fst (GetComponents G sep)) ts ->
  treeOf G (mkNode (Inter (EdgesVertices sep) (GraphVertices G)) sep ts).
Proof.
  intros Hall.
  assert (Hbelow : forall t c m v, childOf (Inter (EdgesVertices sep) (GraphVertices G)) c t ->
            In c (fst (GetComponents G sep)) -> In m (subtrees t) -> In v (Bag m) ->
            In v (GraphVertices c) /\ In v (GraphVertices G)).
  { intros t c m v [[Hbags _] _] Hc Hm Hv. pose proof (Hbags m v Hm Hv) as Hvc.
    split; [exact Hvc|]. exact (component_vertices G sep c v Hc Hvc). }
  split.
  - intros m v Hm Hv. apply subtrees_inv in Hm. destruct Hm as [->|[t [Ht Hm]]].
    + cbn [Bag] in Hv. now apply Inter_In in Hv.
    + cbn [Children] in Ht. destruct (Forall2_right _ _ _ _ Hall Ht) as [c [Hc Hok]].
      exact (proj2 (Hbelow t c m v Hok Hc Hm Hv)).
  - intros v. apply connectedFor_unfold. cbn [Children Bag]. split; [|split].
    + apply Forall_forall. intros t Ht.
      destruct (Forall2_right _ _ _ _ Hall Ht) as [c [_ [[_ Hconn] _]]]. apply Hconn.
    + intros Hv t Ht Hocc. destruct (Forall2_right _ _ _ _ Hall Ht) as [c [Hc Hok]].
      apply occursIn_spec in Hocc. destruct Hocc as [m [Hm Hvm]].
      apply (proj2 Hok). apply Inter_In. split; [|exact Hv].
      exact (proj1 (Hbelow t c m v Hok Hc Hm Hvm)).
    + intros Hv i j x y Hi Hj Hx Hy.
      destruct (Forall2_nth_right _ _ _ _ _ Hall Hi) as [ci [Hci Hoki]].
      destruct (Forall2_nth_right _ _ _ _ _ Hall Hj) as [cj [Hcj Hokj]].
      apply occursIn_spec in Hx, Hy.
      destruct Hx as [mx [Hmx Hvx]]. destruct Hy as [my [Hmy Hvy]].
      assert (Hini : In ci (fst (GetComponents G sep))) by (eapply nth_error_In; eauto).
      assert (Hinj : In cj (fst (GetComponents G sep))) by (eapply nth_error_In; eauto).
      destruct (Hbelow x ci mx v Hoki Hini Hmx Hvx) as [Hvi HvG].
      destruct (Hbelow y cj my v Hokj Hinj Hmy Hvy) as [Hvj _].
      apply (components_apart G sep i j ci cj v Hci Hcj Hvi Hvj).
      intros Hsep. apply Hv. apply Inter_In. tauto.
Qed.

(** The tree of the parent case. *)
Lemma parent_tree (combineNodes : Node -> Node -> Edges -> option Node)
  (H : Graph) (childLam parentLam : Edges) (i : nat) (L : Graph) (up below finalRoot : Node) :
  (forall above below connecting r,
     combineNodes above below connecting = Some r ->
     Permutation (labels r) (labels above ++ labels below)) ->
  (forall above below connecting r v,
     combineNodes above below connecting = Some r ->
     connectedFor v above = true -> connectedFor v below = true ->
     (forall u, In u (EdgesVertices connecting) -> In u (Bag below)) ->
     (occursIn v above = true -> occursIn v below = true ->
      In v (EdgesVertices connecting)) ->
     connectedFor v r = true) ->
  nth_error (fst (GetComponents H parentLam)) i = Some L ->
  (forall v, In v (GraphVertices L) -> In v (EdgesVertices parentLam) ->
             In v (EdgesVertices childLam)) ->
  treeOf L below ->
  (forall u, In u (Inter (EdgesVertices childLam) (GraphVertices L)) -> In u (Bag below)) ->
  (up = mkNode (Inter (EdgesVertices parentLam) (GraphVertices H)) parentLam
          [mkNode (EdgesVertices (NewEdges [mkEdge 0 (Inter (EdgesVertices childLam)
                                                            (GraphVertices L))]))
                  childLam []]
   \/
   treeOf (mkGraph (NewEdges (snd (GetComponents H parentLam)
                      ++ flat_map GEdges (otherComps i (fst (GetComponents H parentLam)))))
            (flat_map Special (otherComps i (fst (GetComponents H parentLam)))
             ++ [NewEdges [mkEdge 0 (Inter (EdgesVertices childLam) (GraphVertices L))]]))
          up) ->
  (combineNodes up below
     (NewEdges [mkEdge 0 (Inter (EdgesVertices childLam) (GraphVertices L))]) = Some finalRoot
   \/ finalRoot = below) ->
  treeOf H finalRoot.
Proof.
  intros Hlabels Hattach Hn PC3 [HbagsB HconnB] HrootB Hupper Hfinal.
  set (chi := Inter (EdgesVertices childLam) (GraphVertices L)) in *.
  assert (HL : In L (fst (GetComponents H parentLam))) by (eapply nth_error_In; eauto).
  assert (HLH : forall v, In v (GraphVertices L) -> In v (GraphVertices H))
    by (intros v; apply (component_vertices H parentLam L v HL)).
  assert (Hchi : forall v, In v (GraphVertices L) -> In v (EdgesVertices parentLam) ->
                           In v chi).
  { intros v HvL Hvp. apply Inter_In. split; [now apply PC3|exact HvL]. }
  assert (Hother : forall c v, In c (otherComps i (fst (GetComponents H parentLam))) ->
            In v (GraphVertices c) -> In v (GraphVertices L) -> In v chi).
  { intros c v Hc Hvc HvL. apply Hchi; [exact HvL|].
    destruct (in_dec Z.eq_dec v (EdgesVertices parentLam)) as [Hin|Hnin]; [exact Hin|].
    exfalso. destruct (otherComps_index _ _ _ Hc) as [j [Hne Hj]]. apply Hne.
    exact (components_apart H parentLam j i c L v Hj Hn Hvc HvL Hnin). }
  assert (Hup : (forall m v, In m (subtrees up) -> In v (Bag m) -> In v (GraphVertices H)) /\
                (forall v, connectedFor v up = true) /\
                (forall v, occursIn v up = true -> In v (GraphVertices L) -> In v chi)).
  { destruct Hupper as [->|[Hbags Hconn]].
    - split; [|split].
      + intros m v Hm Hv. cbn [subtrees Children flat_map app] in Hm.
        destruct Hm as [<-|[<-|[]]]; cbn [Bag] in Hv.
        * now apply Inter_In in Hv.
        * apply (proj1 (specialChild_In _ _)) in Hv. apply HLH. now apply Inter_In in Hv.
      + intros v. apply connectedFor_unfold. cbn [Children Bag]. split; [|split].
        * constructor; [now apply leaf_connected|constructor].
        * intros _ c [<-|[]] Hocc. apply occursIn_spec in Hocc.
          destruct Hocc as [m [[<-|[]] Hv]]. exact Hv.
        * intros _ [|[|a]] [|[|b]] x y Ha Hb _ _; simpl in Ha, Hb; try discriminate.
          reflexivity.
      + intros v Hocc HvL. apply occursIn_spec in Hocc. destruct Hocc as [m [Hm Hv]].
        cbn [subtrees Children flat_map app] in Hm.
        destruct Hm as [<-|[<-|[]]]; cbn [Bag] in Hv.
        * apply Hchi; [exact HvL|]. now apply Inter_In in Hv.
        * now apply (proj1 (specialChild_In _ _)) in Hv.
    - assert (Hcases : forall v m, In m (subtrees up) -> In v (Bag m) ->
                In v (GraphVertices H) /\ (In v (GraphVertices L) -> In v chi)).
      { intros v m Hm Hv. pose proof (Hbags m v Hm Hv) as HvU.
        apply GraphVertices_In in HvU. cbn [GEdges Special] in HvU.
        destruct HvU as [[e [He Hve]]|[sp [Hsp Hvsp]]].
        - split.
          + apply GraphVertices_In. left. exists e. split; [|exact Hve].
            exact (upper_edge_inv H parentLam i e He).
          + intros HvL. unfold NewEdges in He. apply in_app_iff in He.
            destruct He as [Hiso|Hin].
            * apply Hchi; [exact HvL|]. apply isolated_edge in Hiso.
              exact (unplaced_within _ (IEdge e) v (proj2 Hiso) Hve).
            * apply in_flat_map in Hin. destruct Hin as [c [Hc Hec]].
              apply (Hother c v Hc); [|exact HvL]. apply GraphVertices_In. left. eauto.
        - apply in_app_iff in Hsp. destruct Hsp as [Hsp|[<-|[]]].
          + split.
            * apply GraphVertices_In. right. exists sp. split; [|exact Hvsp].
              exact (upper_special_inv H parentLam i sp Hsp).
            * intros HvL. apply in_flat_map in Hsp. destruct Hsp as [c [Hc Hspc]].
              apply (Hother c v Hc); [|exact HvL]. apply GraphVertices_In. right. eauto.
          + apply (proj1 (specialChild_In _ _)) in Hvsp. split; [|intros _; exact Hvsp].
            apply HLH. now apply Inter_In in Hvsp. }
      split; [|split].
      + intros m v Hm Hv. exact (proj1 (Hcases v m Hm Hv)).
      + exact Hconn.
      + intros v Hocc HvL. apply occursIn_spec in Hocc. destruct Hocc as [m [Hm Hv]].
        exact (proj2 (Hcases v m Hm Hv) HvL). }
  destruct Hup as [HbagsU [HconnU Hmeet]].
  destruct Hfinal as [Hcomb| ->].
  - split.
    + intros m v Hm Hv.
      assert (Hin : In (label m) (labels finalRoot)) by (unfold labels; now apply in_map).
      apply (Permutation_in _ (Hlabels _ _ _ _ Hcomb)) in Hin. apply in_app_iff in Hin.
      unfold labels in Hin. rewrite !in_map_iff in Hin.
      destruct Hin as [[m' [Heq Hm']]|[m' [Heq Hm']]]; injection Heq as Hb _;
        rewrite <- Hb in Hv.
      * exact (HbagsU m' v Hm' Hv).
      * apply HLH. exact (HbagsB m' v Hm' Hv).
    + intros v. apply (Hattach _ _ _ _ v Hcomb (HconnU v) (HconnB v)).
      * intros u Hu. apply HrootB. now apply (proj1 (specialChild_In _ _)) in Hu.
      * intros HoccU HoccB. apply specialChild_In. apply Hmeet; [exact HoccU|].
        apply occursIn_spec in HoccB. destruct HoccB as [m [Hm Hv]].
        exact (HbagsB m v Hm Hv).
  - split; [|exact HconnB]. intros m v Hm Hv. apply HLH. exact (HbagsB m v Hm Hv).
Qed.

Section TreeSection.

Variable IntHash : list Z -> Z.
Variable combineNodes : Node -> Node -> Edges -> option Node.
Variable Cache : Type.
Variable CheckNegative : Cache -> Edges -> list Graph -> bool.
Variable AddNegative : Cache -> Edges -> Graph -> Cache.
Variable schedule : list (list nat) -> list (list nat).
Variable l : LogKDecomp.

(** The attach operation keeps the nodes of both trees and the
    running-intersection property. *)
Hypothesis combine_labels : forall above below connecting r,
  combineNodes above below connecting = Some r ->
  Permutation (labels r) (labels above ++ labels below).
Hypothesis combine_connected : forall above below connecting r v,
  combineNodes above below connecting = Some r ->
  connectedFor v above = true -> connectedFor v below = true ->
  (forall u, In u (EdgesVertices connecting) -> In u (Bag below)) ->
  (occursIn v above = true -> occursIn v below = true -> In v (EdgesVertices connecting)) ->
  connectedFor v r = true.

Variable rec : Call Cache.
Hypothesis rec_root : forall cache H Conn allowedFull,
  GoodCall H Conn allowedFull ->
  yields (fun dc => isEmptyDecomp (fst dc) = false ->
                    forall v, In v Conn -> In v (Bag (Root (fst dc))))
         (rec cache H Conn allowedFull).
Hypothesis rec_tree : forall cache H Conn allowedFull,
  GoodCall H Conn allowedFull ->
  yields (fun dc => isEmptyDecomp (fst dc) = false -> treeOf H (Root (fst dc)))
         (rec cache H Conn allowedFull).

Lemma rootCase_tree cache childLam childChi allowedFull comps_c :
  (forall c, In c comps_c -> GoodCall c (Inter (GraphVertices c) childChi) allowedFull) ->
  yields (fun rc => forall ts, fst rc = Some ts -> Forall2 (childOf childChi) comps_c ts)
         (rootCase Cache AddNegative rec cache childLam childChi allowedFull comps_c).
Proof.
  revert cache. induction comps_c as [|comp rest IH]; intros cache Hall; simpl.
  - apply Returned_yields. cbn [fst]. intros ts [= <-]. constructor.
  - apply bind_yields. intros [decomp cache1] Hr.
    pose proof (rec_tree _ _ _ _ (Hall comp (or_introl eq_refl)) _ Hr) as Ht.
    pose proof (rec_root _ _ _ _ (Hall comp (or_introl eq_refl)) _ Hr) as Hc.
    cbn [fst] in Ht, Hc.
    destruct (isEmptyDecomp decomp) eqn:E; [apply Returned_yields; cbn [fst]; discriminate|].
    apply bind_yields. intros [subtrees cache2] Hs.
    pose proof (IH cache1 (fun c Hc => Hall c (or_intror Hc)) _ Hs) as Hrest. cbn [fst] in Hrest.
    apply Returned_yields. cbn [fst]. destruct subtrees as [ts|]; [|discriminate].
    intros ts' [= <-]. constructor; [|now apply Hrest]. split; auto.
Qed.

Lemma forkChildren_tree cache childChi allowedFull comps_c :
  (forall c, In c comps_c -> GoodCall c (Inter (GraphVertices c) childChi) allowedFull) ->
  yields (fun rc => Forall2 (fun c d => isEmptyDecomp d = false -> childOf childChi c (Root d))
                            comps_c (fst rc))
         (forkChildren Cache rec cache childChi allowedFull comps_c).
Proof.
  revert cache. induction comps_c as [|comp rest IH]; intros cache Hall; simpl.
  - apply Returned_yields. cbn [fst]. constructor.
  - apply bind_yields. intros [decomp cache1] Hr.
    pose proof (rec_tree _ _ _ _ (Hall comp (or_introl eq_refl)) _ Hr) as Ht.
    pose proof (rec_root _ _ _ _ (Hall comp (or_introl eq_refl)) _ Hr) as Hc.
    cbn [fst] in Ht, Hc.
    apply bind_yields. intros [decomps cache2] Hs.
    pose proof (IH cache1 (fun c Hc => Hall c (or_intror Hc)) _ Hs) as Hrest. cbn [fst] in Hrest.
    apply Returned_yields. cbn [fst]. constructor; [|exact Hrest].
    intros Hne. split; auto.
Qed.

Lemma parentRound_tree cache H Conn allowedFull childLam parentLam :
  GoodCall H Conn allowedFull ->
  BalancedCheck_Check GetComponents IntHash H childLam (BalFactor l) = Some true ->
  (forall e, In e parentLam -> In e allowedFull) ->
  ParentCheck_Check GetComponents (mkParentCheck Conn (EdgesVertices childLam)) H parentLam
                    (BalFactor l) = Some true ->
  yields (fun rc => forall d, fst rc = Some d -> treeOf H (Root d))
    (parentRound combineNodes Cache CheckNegative AddNegative l rec cache H Conn allowedFull
                 (GraphVertices H) childLam parentLam).
Proof.
  intros Hgood Hbal HpA Hpar.
  destruct (BalancedCheck_Check_true _ _ _ _ _ Hbal) as [limit [Hlim Hcomps]].
  destruct (ParentCheck_Check_true _ _ _ _ _ Hpar) as [limit' [L [Hlim' [Hlow [PC2 PC3]]]]].
  rewrite Hlim in Hlim'. injection Hlim' as <-. simpl in PC2, PC3.
  rewrite findLow_lowComponent_eq in Hlow.
  pose proof (GoodCall_compUp H Conn allowedFull childLam parentLam limit) as Hup.
  pose proof (GoodCall_parent_child H Conn allowedFull childLam parentLam L) as Hch.
  pose proof (parent_tree combineNodes H childLam parentLam) as Hfinal.
  unfold parentRound. rewrite Hlim.
  destruct (GetComponents H parentLam) as [comps_p isolatedEdges] eqn:Ec.
  cbn [fst snd] in Hlow, Hup, Hch, Hfinal.
  destruct (findLow limit comps_p) as [[i L']|] eqn:Elow; [|discriminate].
  simpl in Hlow. injection Hlow as ->.
  destruct (findLow_Some _ _ _ _ Elow) as [Hn Hgt].
  assert (HL : In L comps_p) by (eapply nth_error_In; eauto).
  assert (Hchildren : forall c, In c (fst (GetComponents L childLam)) ->
            GoodCall c (Inter (GraphVertices c)
                              (Inter (EdgesVertices childLam) (GraphVertices L))) allowedFull).
  { intros c Hc. now apply Hch. }
  destruct (CheckNegative cache childLam (fst (GetComponents L childLam)));
    [apply Returned_yields; cbn [fst]; discriminate|].
  set (temp := isolatedEdges ++ flat_map GEdges (otherComps i comps_p)) in *.
  set (chi := Inter (EdgesVertices childLam) (GraphVertices L)) in *.
  apply bind_yields. intros [decompUp cache1] HUp.
  assert (Hupper : forall dUp, decompUp = Some dUp -> isEmptyDecomp dUp = false ->
            Root dUp = mkNode (Inter (EdgesVertices parentLam) (GraphVertices H)) parentLam
                         [mkNode (EdgesVertices (NewEdges [mkEdge 0 chi])) childLam []]
            \/ treeOf (mkGraph (NewEdges temp)
                         (flat_map Special (otherComps i comps_p) ++ [NewEdges [mkEdge 0 chi]]))
                      (Root dUp)).
  { intros dUp -> Hne. destruct (len comps_p =? 1) eqn:E1.
    - injection HUp as <- _. left. reflexivity.
    - destruct (0 <? len temp); [|discriminate]. right.
      destruct (rec cache _ Conn (EdgesDiff allowedFull (GEdges L))) as [[d c]| |] eqn:Er;
        simpl in HUp; try discriminate.
      injection HUp as <- _.
      exact (rec_tree _ _ _ _ (Hup i L Hgood HpA Hcomps Hn Hgt PC2 PC3) _ Er Hne). }
  apply bind_yields. intros [decomps cache2] Hfork.
  pose proof (forkChildren_tree _ _ _ _ Hchildren _ Hfork) as Hdecomps. cbn [fst] in Hdecomps.
  destruct decompUp as [dUp|].
  - destruct (isEmptyDecomp dUp) eqn:Eempty; [apply Returned_yields; cbn [fst]; discriminate|].
    destruct (negb (Subset Conn (Bag (Root dUp)))); [apply Aborted_yields|].
    destruct (firstFailure (fst (GetComponents L childLam)) decomps) eqn:Ef;
      [apply Returned_yields; cbn [fst]; discriminate|].
    assert (Hbelow : treeOf L (mkNode chi childLam (map Root decomps))).
    { apply (node_tree L childLam). now apply children_post. }
    assert (Hgoal : forall finalRoot,
              combineNodes (Root dUp) (mkNode chi childLam (map Root decomps))
                           (NewEdges [mkEdge 0 chi]) = Some finalRoot
              \/ finalRoot = mkNode chi childLam (map Root decomps) ->
              treeOf H finalRoot).
    { intros finalRoot Hcase.
      apply (Hfinal i L (Root dUp) (mkNode chi childLam (map Root decomps)) finalRoot
               combine_labels combine_connected Hn PC3 Hbelow).
      - intros u Hu. exact Hu.
      - exact (Hupper dUp eq_refl Eempty).
      - exact Hcase. }
    destruct (0 <? len temp).
    + apply bind_yields. intros finalRoot Hattach. apply Returned_yields. cbn [fst].
      intros d [= <-]. cbn [Root]. unfold attachingSubtrees in Hattach.
      destruct (combineNodes (Root dUp) (mkNode chi childLam (map Root decomps))
                             (NewEdges [mkEdge 0 chi])) as [r|] eqn:Ecomb; [|discriminate].
      injection Hattach as <-. apply Hgoal. now left.
    + simpl. apply Returned_yields. cbn [fst]. intros d [= <-]. cbn [Root].
      apply Hgoal. now right.
  - destruct (firstFailure (fst (GetComponents L childLam)) decomps);
      [apply Returned_yields; cbn [fst]; discriminate|apply Aborted_yields].
Qed.

Lemma parentLoop_tree cache H Conn allowedFull childLam parents :
  GoodCall H Conn allowedFull ->
  BalancedCheck_Check GetComponents IntHash H childLam (BalFactor l) = Some true ->
  Forall (fun parentLam =>
            ParentCheck_Check GetComponents (mkParentCheck Conn (EdgesVertices childLam)) H
                              parentLam (BalFactor l) = Some true /\
            forall e, In e parentLam -> In e allowedFull) parents ->
  yields (fun rc => forall d, fst rc = Some d -> treeOf H (Root d))
    (parentLoop combineNodes Cache CheckNegative AddNegative l rec cache H Conn allowedFull
                (GraphVertices H) childLam parents).
Proof.
  intros Hgood Hbal Hall. revert cache.
  induction Hall as [|parentLam rest [Hp Hin] _ IH]; intros cache; simpl.
  - apply Returned_yields. cbn [fst]. discriminate.
  - apply bind_yields. intros [r cache1] Hr.
    pose proof (parentRound_tree _ _ _ _ _ _ Hgood Hbal Hin Hp _ Hr) as Hd. cbn [fst] in Hd.
    destruct r as [d|]; [|apply IH].
    apply Returned_yields. cbn [fst]. intros d' [= <-]. now apply Hd.
Qed.

Lemma childRound_tree cache H Conn allowedFull allowed childLam :
  GoodCall H Conn allowedFull ->
  (forall e, In e allowed -> In e allowedFull) ->
  BalancedCheck_Check GetComponents IntHash H childLam (BalFactor l) = Some true ->
  yields (fun rc => forall d, fst rc = Some d -> treeOf H (Root d))
    (childRound combineNodes Cache CheckNegative AddNegative schedule l rec cache H Conn
                allowedFull allowed (GraphVertices H) childLam).
Proof.
  intros Hgood Hallowed Hbal. unfold childRound.
  destruct (Subset Conn (EdgesVertices childLam)) eqn:Es.
  - rewrite Subset_spec in Es.
    destruct (CheckNegative cache childLam (fst (GetComponents H childLam)));
      [apply Returned_yields; cbn [fst]; discriminate|].
    apply bind_yields. intros [subtrees cache1] Hr.
    assert (Hall : forall c, In c (fst (GetComponents H childLam)) ->
              GoodCall c (Inter (GraphVertices c)
                                (Inter (EdgesVertices childLam) (GraphVertices H))) allowedFull).
    { intros c Hc. now apply GoodCall_root_child with (Conn := Conn). }
    pose proof (rootCase_tree _ _ _ _ _ Hall _ Hr) as Hts. cbn [fst] in Hts.
    destruct subtrees as [ts|]; apply Returned_yields; cbn [fst]; [|discriminate].
    intros d [= <-]. cbn [Root]. apply node_tree. now apply Hts.
  - apply parentLoop_tree; [exact Hgood|exact Hbal|].
    eapply Forall_impl; [|apply searchResults_sound].
    intros sep [Hp Hin]. split; [exact Hp|].
    intros e He. apply Hallowed. eapply FilterVertices_incl. apply Hin. exact He.
Qed.

Lemma childLoop_tree cache H Conn allowedFull allowed children :
  GoodCall H Conn allowedFull ->
  (forall e, In e allowed -> In e allowedFull) ->
  Forall (fun childLam =>
            BalancedCheck_Check GetComponents IntHash H childLam (BalFactor l) = Some true)
         children ->
  yields (fun dc => isEmptyDecomp (fst dc) = false -> treeOf H (Root (fst dc)))
    (childLoop combineNodes Cache CheckNegative AddNegative schedule l rec cache H Conn
               allowedFull allowed (GraphVertices H) children).
Proof.
  intros Hgood Hallowed Hall. revert cache.
  induction Hall as [|childLam rest Hc _ IH]; intros cache; simpl.
  - apply Returned_yields. cbn [fst]. discriminate.
  - apply bind_yields. intros [r cache1] Hr.
    pose proof (childRound_tree _ _ _ _ _ _ Hgood Hallowed Hc _ Hr) as Hd. cbn [fst] in Hd.
    destruct r as [d|]; [|apply IH].
    apply Returned_yields. cbn [fst]. intros _. now apply Hd.
Qed.

Lemma findDecompBody_tree cache H Conn allowedFull :
  GoodCall H Conn allowedFull ->
  yields (fun dc => isEmptyDecomp (fst dc) = false -> treeOf H (Root (fst dc)))
    (findDecompBody IntHash combineNodes Cache CheckNegative AddNegative schedule l rec
                    cache H Conn allowedFull).
Proof.
  intros Hgood. unfold findDecompBody.
  destruct (negb (Subset Conn (GraphVertices H))); [apply Aborted_yields|].
  destruct (baseCaseCheck l (len (GEdges H)) (len (Special H)) (len allowedFull)).
  - apply Returned_yields. cbn [fst]. apply base_tree.
  - apply childLoop_tree; [exact Hgood|intros e; apply FilterVertices_incl|].
    eapply Forall_impl; [|apply searchResults_sound]. intros sep [Hp _]. exact Hp.
Qed.

End TreeSection.

Lemma findDecomp_treeOf
  (IntHash : list Z -> Z) (Cache : Type)
  (CheckNegative : Cache -> Edges -> list Graph -> bool)
  (AddNegative : Cache -> Edges -> Graph -> Cache)
  (schedule : list (list nat) -> list (list nat)) (l : LogKDecomp)
  (fuel : nat) (cache : Cache) (H : Graph) (Conn : list Z) (allowedFull : Edges) :
  GoodCall H Conn allowedFull ->
  yields (fun dc => isEmptyDecomp (fst dc) = false -> treeOf H (Root (fst dc)))
    (findDecomp IntHash combineByLeaves Cache CheckNegative AddNegative schedule l fuel
                cache H Conn allowedFull).
Proof.
  revert cache H Conn allowedFull.
  induction fuel as [|fuel IH]; intros cache H Conn allowedFull Hgood.
  - intros a. discriminate.
  - simpl. apply findDecompBody_tree; try assumption.
    + apply combineByLeaves_labels.
    + intros above below connecting r v Hc. unfold combineByLeaves in Hc.
      destruct (CheckLeaves above (EdgesVertices connecting) below) as [[|] result] eqn:E;
        [|discriminate].
      injection Hc as <-. now apply (CheckLeaves_connected v _ _ _ _ E).
    + intros cache0 H0 Conn0 A0 Hg a Hr Hne. apply Subset_spec.
      exact (proj2 (findDecomp_meets IntHash combineByLeaves Cache CheckNegative AddNegative
                      schedule l fuel cache0 H0 Conn0 A0 combineByLeaves_root Hg) a Hr Hne).
Qed.

(** X27: with the leaf search of [CheckLeaves] as the attach operation, a
    decomposition that a call of [findDecomp] made by the engine on a
    hypergraph (a call with [GoodCall]) returns, other than the failure
    value, has bags of vertices of the graph [H] of the call only, and every
    vertex has the running-intersection property: when it is in the bags of
    two nodes, it is in the bag of every node on the way from one to the
    other. *)
Theorem findDecomp_running_intersection
  (IntHash : list Z -> Z) (Cache : Type)
  (CheckNegative : Cache -> Edges -> list Graph -> bool)
  (AddNegative : Cache -> Edges -> Graph -> Cache)
  (schedule : list (list nat) -> list (list nat)) (l : LogKDecomp)
  (fuel : nat) (cache cache' : Cache) (H : Graph) (Conn : list Z) (allowedFull : Edges)
  (d : Decomp) :
  GoodCall H Conn allowedFull ->
  findDecomp IntHash combineByLeaves Cache CheckNegative AddNegative schedule l fuel
             cache H Conn allowedFull = Returned (d, cache') ->
  isEmptyDecomp d = false ->
  (forall m v, In m (subtrees (Root d)) -> In v (Bag m) -> In v (GraphVertices H)) /\
  (forall v, runningIntersection v (Root d)).
Proof.
  intros Hgood Hr Hne.
  destruct (findDecomp_treeOf IntHash Cache CheckNegative AddNegative schedule l fuel
              cache H Conn allowedFull Hgood (d, cache') Hr Hne) as [Hbags Hconn].
  split; [exact Hbags|]. intros v. apply connectedFor_paths. apply Hconn.
Qed.

(** The witness of X27: the cycle of six edges with [k = 2]. *)
Lemma findDecomp_running_intersection_witness :
  let H := mkGraph [mkEdge 1 [1; 2]; mkEdge 2 [2; 3]; mkEdge 3 [3; 4];
                    mkEdge 4 [4; 5]; mkEdge 5 [5; 6]; mkEdge 6 [6; 1]] [] in
  let l := mkLogKDecomp H 2 2 in
  GoodCall H [] (GEdges H) /\
  exists d, findDecomp maskHash combineByLeaves unit noCheckNegative noAddNegative
                       lexSchedule l 4 tt H [] (GEdges H) = Returned (d, tt) /\
            isEmptyDecomp d = false /\ runningIntersection 1 (Root d).
Proof.
  intros H l.
  assert (Hgood : GoodCall H [] (GEdges H)) by (apply GoodCall_top; reflexivity).
  split; [exact Hgood|].
  eexists. split; [reflexivity|]. split; [reflexivity|].
  exact (proj2 (findDecomp_running_intersection maskHash unit noCheckNegative noAddNegative
                  lexSchedule l 4 tt tt H [] (GEdges H) _ Hgood eq_refl eq_refl) 1).
Defined.
